(** * Hermes: CodeBlock, the FunctionAnalysis pass and the arm64 JIT emitter

    A shallow embedding of
    - [include/hermes/VM/CodeBlock.h] (bytecode pointer arithmetic, the
      read/write property cache, the lean-VM variants of the reflection API),
    - [lib/VM/JIT/arm64/JitEmitter.h] ([bitMask32], [TempRegAlloc], the
      [DECL_UNOP] expansions [dec] and [inc], [HWReg] and the temporary
      register predicates of the emitter),
    - [lib/VM/JIT/arm64/JitHandlers.cpp] (the function entry and exit trace),
    - [lib/Optimizer/Scalar/FunctionAnalysis.cpp] (the call-graph pass),
    followed by the properties proved about them.

    Conventions.  A C++ [uintN_t] is a [Z] with its wrap-around written out
    ([wrap32]).  A C++ [assert] is a check: the model returns [AssertFail] with
    the assertion's message where the debug build would stop.  Pointers into an
    array are the address (or the element index) as a [Z]. *)

From Stdlib Require Import ZArith Lia Bool List String.
From stdpp Require Import base numbers list.

Local Open Scope Z_scope.

(** ** Common vocabulary *)

(** Outcome of a member function that contains assertions. *)
Inductive Checked (A : Type) : Type :=
| Ok (a : A)
| AssertFail (msg : string).
Arguments Ok {A} a.
Arguments AssertFail {A} msg.

Definition isOk {A} (r : Checked A) : bool :=
  match r with Ok _ => true | AssertFail _ => false end.

(** [uint32_t] arithmetic. *)
Definition wrap32 (x : Z) : Z := x mod 2 ^ 32.
Definition add32 (x y : Z) : Z := wrap32 (x + y).
Definition sub32 (x y : Z) : Z := wrap32 (x - y).
(** [x << n] on [unsigned]; the C++ expression is only defined for [n < 32]. *)
Definition shl32 (x n : Z) : Z := wrap32 (Z.shiftl x n).
(** [~x] on [unsigned]. *)
Definition not32 (x : Z) : Z := wrap32 (Z.lnot x).

Definition is_uint8 (x : Z) : Prop := 0 <= x < 2 ^ 8.
Definition is_uint32 (x : Z) : Prop := 0 <= x < 2 ^ 32.

(** ** CodeBlock.h *)

Module CodeBlock.

(** The build configurations the header distinguishes with
    [#ifndef HERMESVM_LEAN]. *)
Inductive Build : Type :=
| FullVM   (* HERMESVM_LEAN is not defined *)
| LeanVM.  (* HERMESVM_LEAN is defined *)

Inductive ExecutionStatus : Type := EXCEPTION | RETURNED.

(** A call either returns to its caller or ends the process in
    [hermes_fatal]. *)
Inductive Outcome (A : Type) : Type :=
| Returns (a : A)
| Fatal (msg : string).
Arguments Returns {A} a.
Arguments Fatal {A} msg.

(** The fields of [hbc::RuntimeFunctionHeader] the header reads. *)
Record RuntimeFunctionHeader : Type := {
  paramCount : Z;
  frameSize : Z;
  bytecodeSizeInBytes : Z;
  strictMode : bool
}.

(** [bytecode_] is the address of the first opcode, [0] for the null pointer.
    The trailing [PropertyCacheEntry] array is addressed by element index:
    a [PropertyCacheEntry *] into it is the index of the entry. *)
Record CodeBlock : Type := {
  functionHeader_ : RuntimeFunctionHeader;
  bytecode_ : Z;
  functionID_ : Z;
  propertyCacheSize_ : Z;
  writePropCacheOffset_ : Z
}.

Definition propertyCache (cb : CodeBlock) : Z := 0.
Definition writePropertyCache (cb : CodeBlock) : Z :=
  propertyCache cb + writePropCacheOffset_ cb.

Definition getParamCount (cb : CodeBlock) : Z := paramCount (functionHeader_ cb).
Definition getFrameSize (cb : CodeBlock) : Z := frameSize (functionHeader_ cb).
Definition getFunctionID (cb : CodeBlock) : Z := functionID_ cb.
Definition isStrictMode (cb : CodeBlock) : bool := strictMode (functionHeader_ cb).

Definition begin (cb : CodeBlock) : Z := bytecode_ cb.
Definition end_ (cb : CodeBlock) : Z :=
  bytecode_ cb + bytecodeSizeInBytes (functionHeader_ cb).

(** [contains(inst)]: [begin() <= inst && inst < end()]. *)
Definition contains (cb : CodeBlock) (inst : Z) : bool :=
  (begin cb <=? inst) && (inst <? end_ cb).

(** [getOffsetPtr(uint32_t offset)]. *)
Definition getOffsetPtr (cb : CodeBlock) (offset : Z) : Checked Z :=
  if begin cb + offset <? end_ cb
  then Ok (begin cb + offset)
  else AssertFail "offset out of bounds".

(** [getOffsetOf(inst)]: the pointer difference is narrowed to [uint32_t]. *)
Definition getOffsetOf (cb : CodeBlock) (inst : Z) : Checked Z :=
  if inst >=? begin cb then
    let offset := wrap32 (inst - begin cb) in
    if begin cb + offset <? end_ cb
    then Ok offset
    else AssertFail "inst not in this codeBlock"
  else AssertFail "inst not in this codeBlock".

(** [getReadCacheEntry(uint8_t idx)]. *)
Definition getReadCacheEntry (cb : CodeBlock) (idx : Z) : Checked Z :=
  if idx <? writePropCacheOffset_ cb
  then Ok (propertyCache cb + idx)
  else AssertFail "idx out of ReadCache bound".

(** [getWriteCacheEntry(uint8_t idx)]: [writePropCacheOffset_ + idx] is a
    [uint32_t] sum, both in the assertion and in the subscript. *)
Definition getWriteCacheEntry (cb : CodeBlock) (idx : Z) : Checked Z :=
  if add32 (writePropCacheOffset_ cb) idx <? propertyCacheSize_ cb
  then Ok (propertyCache cb + add32 (writePropCacheOffset_ cb) idx)
  else AssertFail "idx out of WriteCache bound".

(** The members whose two variants are selected by [HERMESVM_LEAN].  The
    full-VM bodies of [lazyCompileImpl], [getVariableCounts] and
    [getVariableNameAtDepth] live in CodeBlock.cpp; they are parameters. *)
Section Lean.
Variable Runtime : Type.
Variable lazyCompileImpl : Runtime -> CodeBlock -> ExecutionStatus.
Variable getVariableCountsImpl : CodeBlock -> list Z.
Variable getVariableNameAtDepthImpl : CodeBlock -> Z -> Z -> string.

Definition isLazy (b : Build) (cb : CodeBlock) : bool :=
  match b with
  | FullVM => bytecode_ cb =? 0
  | LeanVM => false
  end.

Definition lazyCompile (b : Build) (runtime : Runtime) (cb : CodeBlock)
  : Outcome ExecutionStatus :=
  match b with
  | FullVM =>
      if negb (isLazy FullVM cb) then Returns RETURNED
      else Returns (lazyCompileImpl runtime cb)
  | LeanVM => Returns RETURNED
  end.

Definition getVariableCounts (b : Build) (cb : CodeBlock) : Outcome (list Z) :=
  match b with
  | FullVM => Returns (getVariableCountsImpl cb)
  | LeanVM => Fatal "unavailable in lean VM"
  end.

Definition getVariableNameAtDepth (b : Build) (cb : CodeBlock)
    (depth variableIndex : Z) : Outcome string :=
  match b with
  | FullVM => Returns (getVariableNameAtDepthImpl cb depth variableIndex)
  | LeanVM => Fatal "unavailable in lean VM"
  end.
End Lean.

(** A code block must fit its type: every field is a [uint32_t], the bytecode
    is a non-negative address, and the write cache starts inside the cache. *)
Definition wellFormed (cb : CodeBlock) : Prop :=
  0 <= bytecode_ cb /\
  is_uint32 (bytecodeSizeInBytes (functionHeader_ cb)) /\
  is_uint32 (propertyCacheSize_ cb) /\
  0 <= writePropCacheOffset_ cb <= propertyCacheSize_ cb.

(** The code block of the cache-layout scenario: eight entries, five of them
    read entries. *)
Definition scenarioBlock : CodeBlock :=
  {| functionHeader_ :=
       {| paramCount := 1; frameSize := 4; bytecodeSizeInBytes := 16;
          strictMode := true |};
     bytecode_ := 4096; functionID_ := 0;
     propertyCacheSize_ := 8; writePropCacheOffset_ := 5 |}.

(** A code block whose cache is as large as [uint32_t] allows. *)
Definition hugeCacheBlock : CodeBlock :=
  {| functionHeader_ :=
       {| paramCount := 0; frameSize := 0; bytecodeSizeInBytes := 1;
          strictMode := false |};
     bytecode_ := 4096; functionID_ := 0;
     propertyCacheSize_ := 4294967295; writePropCacheOffset_ := 4294967295 |}.

End CodeBlock.

(** ** JitEmitter.h *)

Module JitEmitter.

(** Outcome of a [TempRegAlloc] member: besides a failed assertion, a null
    node pointer that is dereferenced or a [map_] subscript past the end has
    no defined behaviour. *)
Inductive Step (A : Type) : Type :=
| Done (a : A)
| Assert (msg : string)
| Undefined.
Arguments Done {A} a.
Arguments Assert {A} msg.
Arguments Undefined {A}.

(** [kGPTemp] and [kVecTemp], the two inclusive temporary ranges. *)
Definition kGPTemp : Z * Z := (0, 15).
Definition kVecTemp : Z * Z := (16, 31).
Definition kGPSaved : Z * Z := (22, 28).
Definition kVecSaved : Z * Z := (8, 15).

(** [bitMask32(first, last)]:
    [((1u << (last - first + 1)) - 1u) << first]. *)
Definition bitMask32 (first last : Z) : Z :=
  shl32 (sub32 (shl32 1 (add32 (sub32 last first) 1)) 1) first.

(** Modelled from the spec: [llvh::findFirstSet] (llvh/Support/MathExtras.h is
    not among the sources), "the lowest-numbered free index (first-set of the
    availability mask)": the index of the least significant set bit of a
    32-bit word, and the maximum value when no bit is set. *)
Fixpoint firstSetFrom (width : nat) (i : Z) (x : Z) : Z :=
  match width with
  | O => 4294967295
  | S w => if Z.testbit x i then i else firstSetFrom w (i + 1) x
  end.

Definition findFirstSet (x : Z) : Z := firstSetFrom 32 0 x.

(** Modelled from the spec: [SimpleLRU<unsigned>] (hermes/ADT/SimpleLRU.h is
    not among the sources), "a FIFO-updated LRU list": [add] appends a new node
    at the most-recent end and returns a pointer to it, [use] moves a node to
    the most-recent end, [remove] unlinks it, [leastRecent] is the node at the
    other end.  A node pointer is a number that no other node of this list has
    ever had. *)
Module SimpleLRU.

Record t : Type := {
  capacity : Z;
  nodes : list (nat * Z);   (* least recently used first *)
  nextNode : nat
}.

Definition create (cap : Z) : t :=
  {| capacity := cap; nodes := []; nextNode := O |}.

Definition isNode (p : nat) (e : nat * Z) : bool := Nat.eqb (fst e) p.

Definition add (v : Z) (l : t) : t * nat :=
  ({| capacity := capacity l;
      nodes := nodes l ++ [(nextNode l, v)];
      nextNode := S (nextNode l) |}, nextNode l).

Definition remove (p : nat) (l : t) : t :=
  {| capacity := capacity l;
     nodes := List.filter (fun e => negb (isNode p e)) (nodes l);
     nextNode := nextNode l |}.

Definition use (p : nat) (l : t) : t :=
  {| capacity := capacity l;
     nodes := List.filter (fun e => negb (isNode p e)) (nodes l)
              ++ List.filter (isNode p) (nodes l);
     nextNode := nextNode l |}.

Definition leastRecent (l : t) : option Z :=
  match nodes l with
  | [] => None
  | e :: _ => Some (snd e)
  end.

Definition live (p : nat) (v : Z) (l : t) : Prop := In (p, v) (nodes l).

End SimpleLRU.

(** [class TempRegAlloc].  [map_] holds a node pointer or [nullptr] for each
    register of the range. *)
Record TempRegAlloc : Type := {
  first_ : Z;
  lru_ : SimpleLRU.t;
  map_ : list (option nat);
  availBits_ : Z
}.

(** The constructor, for [range = (first, last)]. *)
Definition create (range : Z * Z) : TempRegAlloc :=
  {| first_ := fst range;
     lru_ := SimpleLRU.create (snd range - fst range + 1);
     map_ := replicate (Z.to_nat (snd range - fst range + 1)) None;
     availBits_ := bitMask32 (fst range) (snd range) |}.

(** [availBits_ & (1u << index)], as a truth value. *)
Definition isAvail (ra : TempRegAlloc) (index : Z) : bool :=
  negb (Z.land (availBits_ ra) (shl32 1 index) =? 0).

(** [map_[index - first_]]; [None] when the subscript is past the end. *)
Definition mapAt (ra : TempRegAlloc) (index : Z) : option (option nat) :=
  map_ ra !! Z.to_nat (sub32 index (first_ ra)).

Definition setMapAt (ra : TempRegAlloc) (index : Z) (p : option nat)
  : list (option nat) :=
  <[Z.to_nat (sub32 index (first_ ra)) := p]> (map_ ra).

Definition alloc (ra : TempRegAlloc) (preferred : option Z)
  : Step (option Z * TempRegAlloc) :=
  if availBits_ ra =? 0 then Done (None, ra)
  else
    let index :=
      match preferred with
      | Some p => if isAvail ra p then p else findFirstSet (availBits_ ra)
      | None => findFirstSet (availBits_ ra)
      end in
    let avail := Z.land (availBits_ ra) (not32 (shl32 1 index)) in
    if negb (index >=? first_ ra) then Assert "Invalid tmpreg index"
    else
      match mapAt ra index with
      | None => Undefined
      | Some (Some _) => Assert "map shows the index as occupied"
      | Some None =>
          let '(lru, node) := SimpleLRU.add index (lru_ ra) in
          Done (Some index,
                {| first_ := first_ ra; lru_ := lru;
                   map_ := setMapAt ra index (Some node);
                   availBits_ := avail |})
      end.

Definition use (ra : TempRegAlloc) (index : Z) : Step TempRegAlloc :=
  if negb (index >=? first_ ra) then Assert "Invalid tmpreg index"
  else if negb (isAvail ra index) then
    match mapAt ra index with
    | Some (Some node) =>
        Done {| first_ := first_ ra; lru_ := SimpleLRU.use node (lru_ ra);
                map_ := map_ ra; availBits_ := availBits_ ra |}
    | _ => Undefined
    end
  else Done ra.

Definition free (ra : TempRegAlloc) (index : Z) : Step TempRegAlloc :=
  if negb (index >=? first_ ra) then Assert "Invalid tmpreg index"
  else
    match mapAt ra index with
    | None => Undefined
    | Some None => Assert "map shows the tmpreg is freed"
    | Some (Some node) =>
        if isAvail ra index then Assert "bitmask shows tmpreg is freed"
        else
          Done {| first_ := first_ ra;
                  lru_ := SimpleLRU.remove node (lru_ ra);
                  map_ := setMapAt ra index None;
                  availBits_ := Z.lor (availBits_ ra) (shl32 1 index) |}
    end.

Definition leastRecentlyUsed (ra : TempRegAlloc) : option Z :=
  SimpleLRU.leastRecent (lru_ ra).

(** Call sequences on one allocator. *)
Inductive Call : Type :=
| CallAlloc (preferred : option Z)
| CallUse (index : Z)
| CallFree (index : Z).

Definition call (ra : TempRegAlloc) (c : Call) : Step TempRegAlloc :=
  match c with
  | CallAlloc preferred =>
      match alloc ra preferred with
      | Done (_, ra') => Done ra'
      | Assert msg => Assert msg
      | Undefined => Undefined
      end
  | CallUse index => use ra index
  | CallFree index => free ra index
  end.

Fixpoint calls (ra : TempRegAlloc) (cs : list Call) : Step TempRegAlloc :=
  match cs with
  | [] => Done ra
  | c :: cs' =>
      match call ra c with
      | Done ra' => calls ra' cs'
      | other => other
      end
  end.

(** The arguments a call sequence over the pool [first..last] may carry: a
    preferred register is any register number of its class, [use] and [free]
    name registers of the pool. *)
Definition inPool (first last : Z) (c : Call) : Prop :=
  match c with
  | CallAlloc (Some p) => 0 <= p < 32
  | CallAlloc None => True
  | CallUse index => first <= index <= last
  | CallFree index => first <= index <= last
  end.

(** A pool the constructor accepts: register numbers of one class, with a
    shift count [last - first + 1] that [unsigned] defines. *)
Definition validRange (first last : Z) : Prop :=
  0 <= first /\ first <= last /\ last <= 31 /\ last - first + 1 < 32.

(** The states a pool over [first..last] can be in. *)
Definition reachable (first last : Z) (ra : TempRegAlloc) : Prop :=
  exists cs, Forall (inPool first last) cs /\
             calls (create (first, last)) cs = Done ra.

(** The register [i] is marked free in the availability mask. *)
Definition freeBit (ra : TempRegAlloc) (i : Z) : Prop :=
  Z.testbit (availBits_ ra) i = true.

(** [map_[i - first_]] holds a node of the LRU list, and that node carries
    [i]. *)
Definition holdsLiveNode (ra : TempRegAlloc) (i : Z) : Prop :=
  exists p, mapAt ra i = Some (Some p) /\ SimpleLRU.live p i (lru_ ra).

(** The invariant of a pool over [first..last]. *)
Definition wellKept (first last : Z) (ra : TempRegAlloc) : Prop :=
  first_ ra = first /\
  length (map_ ra) = Z.to_nat (last - first + 1) /\
  (forall j, freeBit ra j -> first <= j <= last) /\
  (forall i, first <= i <= last -> freeBit ra i -> mapAt ra i = Some None) /\
  (forall i, first <= i <= last -> ~ freeBit ra i -> holdsLiveNode ra i) /\
  List.NoDup (List.map fst (SimpleLRU.nodes (lru_ ra))) /\
  (forall e, In e (SimpleLRU.nodes (lru_ ra)) ->
             (fst e < SimpleLRU.nextNode (lru_ ra))%nat).

(** The register [alloc] picks when the mask is not empty. *)
Definition picked (ra : TempRegAlloc) (preferred : option Z) : Z :=
  match preferred with
  | Some p => if Z.testbit (availBits_ ra) p then p
              else findFirstSet (availBits_ ra)
  | None => findFirstSet (availBits_ ra)
  end.

(** *** The unary arithmetic methods *)

(** A frame register, [class FR]. *)
Record FR : Type := { index_ : Z }.

(** [a64::VecD] by register number. *)
Record VecD : Type := { vecId : Z }.

(** A [double] constant by its IEEE-754 bit pattern. *)
Record Double : Type := { doubleBits : Z }.
Definition minusOne : Double := {| doubleBits := 0xBFF0000000000000 |}.
Definition plusOne : Double := {| doubleBits := 0x3FF0000000000000 |}.

(** The instructions the arithmetic bodies emit. *)
Inductive A64Inst : Type :=
| fmov (d : VecD) (imm : Double)
| fadd (d n m : VecD)
| fsub (d n m : VecD)
| fmul (d n m : VecD).

(** [a64::Assembler], as far as the bodies use it: the instructions emitted. *)
Definition Assembler : Type := list A64Inst.
Definition emit (i : A64Inst) (a : Assembler) : Assembler := a ++ [i].

(** The runtime helpers the two methods name. *)
Inductive Helper : Type :=
| _sh_ljs_dec_rjs
| _sh_ljs_inc_rjs.

Definition FastUnop : Type := Assembler -> VecD -> VecD -> VecD -> Assembler.

Section Unop.
(** [Emitter::arithUnop] is defined in JitEmitter.cpp; it is a parameter. *)
Variable Emitter : Type.
Variable arithUnop :
  bool -> FR -> FR -> string -> FastUnop -> Helper -> string ->
  Emitter -> Emitter.

(** [#define DECL_UNOP(methodName, forceNum, commentStr, slowCall, a64body)];
    [#slowCall] is the helper's name as a string. *)
Definition DECL_UNOP (forceNum : bool) (commentStr : string)
    (slowCall : Helper) (slowCallName : string) (a64body : FastUnop)
    (rRes rInput : FR) : Emitter -> Emitter :=
  arithUnop forceNum rRes rInput commentStr a64body slowCall slowCallName.

Definition dec : FR -> FR -> Emitter -> Emitter :=
  DECL_UNOP false "dec" _sh_ljs_dec_rjs "_sh_ljs_dec_rjs"
    (fun a d s tmp => emit (fadd d s tmp) (emit (fmov tmp minusOne) a)).

Definition inc : FR -> FR -> Emitter -> Emitter :=
  DECL_UNOP false "inc" _sh_ljs_inc_rjs "_sh_ljs_inc_rjs"
    (fun a d s tmp => emit (fadd d s tmp) (emit (fmov tmp minusOne) a)).
End Unop.

(** The inline body both methods hand to the template. *)
Definition addMinusOne : FastUnop :=
  fun a d s tmp => a ++ [fmov tmp minusOne; fadd d s tmp].

(** *** Frame and hardware registers *)

(** [uint8_t] arithmetic. *)
Definition wrap8 (x : Z) : Z := x mod 2 ^ 8.

(** [class HWReg].  [index_] is a [uint8_t]: 0..31 is a GpX, 32..63 a VecD,
    [0xFF] the invalid register.  An [assert] without a message fails with
    the text of its condition. *)
Module HWReg.

(** The tag types [struct GpX {}] and [struct VecD {}]. *)
Inductive Tag : Type := GpX | VecD.

Record t : Type := { index_ : Z }.

(** [HWReg()]. *)
Definition invalid : t := {| index_ := 0xFF |}.

(** [HWReg(uint8_t index, GpX)] and [HWReg(uint8_t index, VecD)]; the sum
    [index + 32] is stored in a [uint8_t]. *)
Definition tagged (index : Z) (tag : Tag) : t :=
  match tag with
  | GpX => {| index_ := index |}
  | VecD => {| index_ := wrap8 (index + 32) |}
  end.

Definition gpX (index : Z) : Checked t :=
  if index <? 31 then Ok (tagged index GpX) else AssertFail "invalid GpX".

Definition vecD (index : Z) : Checked t :=
  if index <? 32 then Ok (tagged index VecD) else AssertFail "invalid VecD".

Definition isValid (r : t) : bool := negb (index_ r =? 0xFF).
Definition isValidGpX (r : t) : bool := index_ r <? 32.
Definition isValidVecD (r : t) : bool := (index_ r >=? 32) && (index_ r <? 64).

Definition isGpX (r : t) : Checked bool :=
  if isValid r then Ok (index_ r <? 32) else AssertFail "isValid()".

Definition isVecD (r : t) : Checked bool :=
  if isValid r then Ok ((index_ r >=? 32) && (index_ r <? 64))
  else AssertFail "isValid()".

Definition combinedIndex (r : t) : Checked Z :=
  if isValid r then Ok (Z.land (index_ r) 63) else AssertFail "isValid()".

Definition indexInClass (r : t) : Checked Z :=
  if isValid r then Ok (Z.land (index_ r) 31) else AssertFail "isValid()".

(** [a64GpX()] and [a64VecD()]: the asmjit register, by its id. *)
Definition a64GpX (r : t) : Checked Z :=
  match isGpX r with
  | Ok true => indexInClass r
  | Ok false => AssertFail "isGpX()"
  | AssertFail msg => AssertFail msg
  end.

Definition a64VecD (r : t) : Checked Z :=
  match isVecD r with
  | Ok true => indexInClass r
  | Ok false => AssertFail "isVecD()"
  | AssertFail msg => AssertFail msg
  end.

(** [operator==]. *)
Definition eqb (a b : t) : bool := index_ a =? index_ b.

End HWReg.

(** [Emitter::isTempGpX], [isTempVecD] and [isTemp]. *)
Definition isTempGpX (hwReg : HWReg.t) : Checked bool :=
  match HWReg.isGpX hwReg with
  | Ok true =>
      match HWReg.indexInClass hwReg with
      | Ok index => Ok ((index >=? fst kGPTemp) && (index <=? snd kGPTemp))
      | AssertFail msg => AssertFail msg
      end
  | Ok false => AssertFail "hwReg.isGpX()"
  | AssertFail msg => AssertFail msg
  end.

Definition isTempVecD (hwReg : HWReg.t) : Checked bool :=
  match HWReg.isVecD hwReg with
  | Ok true =>
      match HWReg.indexInClass hwReg with
      | Ok index => Ok ((index >=? fst kVecTemp) && (index <=? snd kVecTemp))
      | AssertFail msg => AssertFail msg
      end
  | Ok false => AssertFail "hwReg.isVecD()"
  | AssertFail msg => AssertFail msg
  end.

Definition isTemp (hwReg : HWReg.t) : Checked bool :=
  match HWReg.isGpX hwReg with
  | Ok true => isTempGpX hwReg
  | Ok false => isTempVecD hwReg
  | AssertFail msg => AssertFail msg
  end.

Section AllocTemp.
(** [Emitter::_allocTemp<TAG>] is defined in JitEmitter.cpp; it is a
    parameter, applied to the tag and the preferred register. *)
Variable Allocated : Type.
Variable _allocTemp : HWReg.Tag -> option HWReg.t -> Allocated.

(** [allocTempGpX(preferred)]: evaluating the asserted condition calls
    [preferred->isGpX()], which has an assertion of its own. *)
Definition allocTempGpX (preferred : option HWReg.t) : Checked Allocated :=
  match preferred with
  | None => Ok (_allocTemp HWReg.GpX None)
  | Some p =>
      match HWReg.isGpX p with
      | Ok true => Ok (_allocTemp HWReg.GpX preferred)
      | Ok false => AssertFail "invalid preferred register"
      | AssertFail msg => AssertFail msg
      end
  end.

Definition allocTempVecD (preferred : option HWReg.t) : Checked Allocated :=
  match preferred with
  | None => Ok (_allocTemp HWReg.VecD None)
  | Some p =>
      match HWReg.isVecD p with
      | Ok true => Ok (_allocTemp HWReg.VecD preferred)
      | Ok false => AssertFail "invalid preferred register"
      | AssertFail msg => AssertFail msg
      end
  end.
End AllocTemp.

(** *** The pool in use *)

(** Every node of the LRU list carries a register of the pool, and [map_]
    holds that node for it. *)
Definition lruTracks (first last : Z) (ra : TempRegAlloc) : Prop :=
  forall p v, SimpleLRU.live p v (lru_ ra) ->
              first <= v <= last /\ mapAt ra v = Some (Some p).

(** [n] calls of [alloc()] in a row, with what each returned. *)
Fixpoint allocMany (n : nat) (ra : TempRegAlloc)
  : Step (list (option Z) * TempRegAlloc) :=
  match n with
  | O => Done ([], ra)
  | S n' =>
      match alloc ra None with
      | Done (r, ra') =>
          match allocMany n' ra' with
          | Done (rs, ra'') => Done (r :: rs, ra'')
          | Assert msg => Assert msg
          | Undefined => Undefined
          end
      | Assert msg => Assert msg
      | Undefined => Undefined
      end
  end.

(** The pool after a call sequence that no assertion stopped. *)
Definition after (cs : list Call) (ra : TempRegAlloc) : TempRegAlloc :=
  match calls ra cs with
  | Done ra' => ra'
  | _ => ra
  end.

End JitEmitter.

(** ** JitHandlers.cpp *)

Module JitHandlers.

(** One line of the trace: the width handed to [printf("%*s", ...)], whether
    the banner is "*** Enter FunctionID " or "*** Leave FunctionID ", and the
    message printed after it. *)
Record Line : Type := {
  width : Z;
  entered : bool;
  text : string
}.

(** [static unsigned level] and what has been written to [stdout]. *)
Record Trace : Type := {
  level : Z;
  printed : list Line
}.

(** [_sh_print_function_entry_exit(enter, msg)]: [level] and [level * 4] are
    [unsigned]. *)
Definition _sh_print_function_entry_exit (enter : bool) (msg : string)
    (t : Trace) : Trace :=
  if enter then
    {| level := add32 (level t) 1;
       printed := printed t ++ [{| width := wrap32 (level t * 4);
                                   entered := true; text := msg |}] |}
  else
    let level' := sub32 (level t) 1 in
    {| level := level';
       printed := printed t ++ [{| width := wrap32 (level' * 4);
                                   entered := false; text := msg |}] |}.

(** A sequence of calls, first call first. *)
Definition trace (calls : list (bool * string)) (t : Trace) : Trace :=
  List.fold_left (fun t c => _sh_print_function_entry_exit (fst c) (snd c) t)
    calls t.

(** Call sequences in which every leave closes the latest open enter. *)
Inductive nested : list (bool * string) -> Prop :=
| nested_nil : nested []
| nested_app a b : nested a -> nested b -> nested (a ++ b)
| nested_call msg body msg' :
    nested body -> nested ((true, msg) :: body ++ [(false, msg')]).

(** The number of enters, respectively leaves, of a call sequence. *)
Definition enters (calls : list (bool * string)) : Z :=
  Z.of_nat (length (List.filter (fun c => fst c) calls)).
Definition leaves (calls : list (bool * string)) : Z :=
  Z.of_nat (length (List.filter (fun c => negb (fst c)) calls)).

End JitHandlers.

(** ** FunctionAnalysis.cpp *)

Module FunctionAnalysis.

Local Open Scope nat_scope.

(** *** The IR the pass sees

    Instructions, functions and variables are identified by their position in
    the module ([Instruction *], [Function *] and [Variable *] in the source).
    hermes/IR/IR.h and hermes/IR/Instrs.h are not among the sources; the
    classes below carry what FunctionAnalysis.cpp reads and writes. *)

Inductive Value : Type :=
| EmptySentinel
| FunctionValue (f : nat)
| InstValue (i : nat)
| OtherValue (n : nat).   (* literals, parameters, ... *)

#[global] Instance Value_eq_dec : EqDecision Value.
Proof. solve_decision. Defined.

(** The operands of a [BaseCallInst]. *)
Record BaseCall : Type := {
  callee : Value;
  target : Value;
  environment : Value;
  newTarget : Value;
  arguments : list Value
}.

(** Instruction classes the pass tells apart with [isa] and [dyn_cast].  A
    scope operand is an [Instruction *]; [canBeObject] is
    [getType().canBeObject()] of a [CheckedTypeCastInst]. *)
Inductive InstKind : Type :=
| BaseCallInst (call : BaseCall)
| BaseCreateCallableInst (scope : nat) (functionCode : nat)
| GetClosureScopeInst (closure : Value)
| UnionNarrowTrustedInst (operand : Value)
| CheckedTypeCastInst (checkedValue : Value) (canBeObject : bool)
| StoreFrameInst (scope : nat) (value : Value) (variable : nat)
| LoadFrameInst (scope : nat) (variable : nat)
| OtherInst (operands : list Value).

(** An instruction with its [Users] list, in the order [getUsers()] yields. *)
Record Instruction : Type := {
  kind : InstKind;
  users : list nat
}.

Record Attributes : Type := {
  _allCallsitesKnownInStrictMode : bool;
  unreachable : bool
}.

(** A function: [newTargetParamHasUsers] is
    [getNewTargetParam()->hasUsers()], [parentScopeParamHasUsers] is
    [getParentScopeParam()->hasUsers()].  The pass never makes a parameter an
    operand of anything, so both are fixed while it runs. *)
Record Function : Type := {
  isGlobalScope : bool;
  attributes : Attributes;
  functionUsers : list nat;
  newTargetParamHasUsers : bool;
  parentScopeParamHasUsers : bool
}.

(** A variable is its [Users] list. *)
Record IRModule : Type := {
  functions : list Function;
  instructions : list Instruction;
  variables : list (list nat)
}.

Definition noInst : Instruction := {| kind := OtherInst []; users := [] |}.
Definition noFunction : Function :=
  {| isGlobalScope := false;
     attributes := {| _allCallsitesKnownInStrictMode := false;
                      unreachable := false |};
     functionUsers := []; newTargetParamHasUsers := false;
     parentScopeParamHasUsers := false |}.

Definition getInst (M : IRModule) (i : nat) : Instruction :=
  List.nth i (instructions M) noInst.
Definition kindOf (M : IRModule) (i : nat) : InstKind := kind (getInst M i).
Definition getUsers (M : IRModule) (i : nat) : list nat := users (getInst M i).
Definition getFunction (M : IRModule) (f : nat) : Function :=
  List.nth f (functions M) noFunction.
Definition getVariableUsers (M : IRModule) (v : nat) : list nat :=
  List.nth v (variables M) [].
Definition getAttributes (M : IRModule) (f : nat) : Attributes :=
  attributes (getFunction M f).

Definition alterInst (f : Instruction -> Instruction) (i : nat) (M : IRModule)
  : IRModule :=
  {| functions := functions M;
     instructions := alter f i (instructions M);
     variables := variables M |}.

Definition alterFunction (g : Function -> Function) (f : nat) (M : IRModule)
  : IRModule :=
  {| functions := alter g f (functions M);
     instructions := instructions M;
     variables := variables M |}.

Definition withKind (k : InstKind) (i : Instruction) : Instruction :=
  {| kind := k; users := users i |}.
Definition withUsers (us : list nat) (i : Instruction) : Instruction :=
  {| kind := kind i; users := us |}.
Definition addUser (u : nat) (i : Instruction) : Instruction :=
  withUsers (users i ++ [u]) i.

Definition addFunctionUser (u : nat) (F : Function) : Function :=
  {| isGlobalScope := isGlobalScope F; attributes := attributes F;
     functionUsers := functionUsers F ++ [u];
     newTargetParamHasUsers := newTargetParamHasUsers F;
     parentScopeParamHasUsers := parentScopeParamHasUsers F |}.

Definition withAttributes (a : Attributes) (F : Function) : Function :=
  {| isGlobalScope := isGlobalScope F; attributes := a;
     functionUsers := functionUsers F;
     newTargetParamHasUsers := newTargetParamHasUsers F;
     parentScopeParamHasUsers := parentScopeParamHasUsers F |}.

(** [F->getAttributesRef(M)._allCallsitesKnownInStrictMode = b]. *)
Definition setAllCallsitesKnown (b : bool) (F : nat) (M : IRModule) : IRModule :=
  alterFunction
    (fun fn => withAttributes
       {| _allCallsitesKnownInStrictMode := b;
          unreachable := unreachable (attributes fn) |} fn) F M.

(** [F->getAttributesRef(M).unreachable = b]. *)
Definition setUnreachable (b : bool) (F : nat) (M : IRModule) : IRModule :=
  alterFunction
    (fun fn => withAttributes
       {| _allCallsitesKnownInStrictMode :=
            _allCallsitesKnownInStrictMode (attributes fn);
          unreachable := b |} fn) F M.

Definition withTarget (v : Value) (c : BaseCall) : BaseCall :=
  {| callee := callee c; target := v; environment := environment c;
     newTarget := newTarget c; arguments := arguments c |}.
Definition withEnvironment (v : Value) (c : BaseCall) : BaseCall :=
  {| callee := callee c; target := target c; environment := v;
     newTarget := newTarget c; arguments := arguments c |}.

Definition onCall (g : BaseCall -> BaseCall) (i : Instruction) : Instruction :=
  match kind i with
  | BaseCallInst c => withKind (BaseCallInst (g c)) i
  | _ => i
  end.

(** Modelled from the spec: [BaseCallInst::setTarget] ([setOperand] of
    hermes/IR/IR.h is not among the sources), "bind target": the operand
    becomes the function and the call becomes the last of the function's
    users.  The operand it replaces here is always the [EmptySentinel]. *)
Definition setTarget (call : nat) (F : nat) (M : IRModule) : IRModule :=
  alterFunction (addFunctionUser call) F
    (alterInst (onCall (withTarget (FunctionValue F))) call M).

(** Modelled from the spec: [BaseCallInst::setEnvironment], "bind
    environment": the operand becomes the scope instruction and the call
    becomes the last of that instruction's users. *)
Definition setEnvironment (call : nat) (scope : nat) (M : IRModule) : IRModule :=
  alterInst (addUser call) scope
    (alterInst (onCall (withEnvironment (InstValue scope))) call M).

(** Replace the operand [old] by [new] wherever an instruction has it. *)
Definition substValue (old new : nat) (v : Value) : Value :=
  if bool_decide (v = InstValue old) then InstValue new else v.
Definition substScope (old new : nat) (s : nat) : nat :=
  if bool_decide (s = old) then new else s.
Definition substCall (old new : nat) (c : BaseCall) : BaseCall :=
  {| callee := substValue old new (callee c);
     target := substValue old new (target c);
     environment := substValue old new (environment c);
     newTarget := substValue old new (newTarget c);
     arguments := List.map (substValue old new) (arguments c) |}.
Definition substKind (old new : nat) (k : InstKind) : InstKind :=
  match k with
  | BaseCallInst c => BaseCallInst (substCall old new c)
  | BaseCreateCallableInst s f => BaseCreateCallableInst (substScope old new s) f
  | GetClosureScopeInst c => GetClosureScopeInst (substValue old new c)
  | UnionNarrowTrustedInst o => UnionNarrowTrustedInst (substValue old new o)
  | CheckedTypeCastInst c b => CheckedTypeCastInst (substValue old new c) b
  | StoreFrameInst s v x =>
      StoreFrameInst (substScope old new s) (substValue old new v) x
  | LoadFrameInst s x => LoadFrameInst (substScope old new s) x
  | OtherInst ops => OtherInst (List.map (substValue old new) ops)
  end.

(** Modelled from the spec: [Value::replaceAllUsesWith], "replace all uses of
    u with scope": every user of [old], taken from the back of the users list,
    gets [new] for [old] and becomes a user of [new]; [old] is left without
    users; nothing happens when the two are the same value. *)
Definition replaceAllUsesWith (old new : nat) (M : IRModule) : IRModule :=
  if bool_decide (old = new) then M
  else
    let us := getUsers M old in
    let M1 := List.fold_left
                (fun m u => alterInst
                   (fun i => withKind (substKind old new (kind i)) i) u m)
                (List.rev us) M in
    alterInst (fun i => withUsers (users i ++ List.rev us) i) new
      (alterInst (withUsers []) old M1).

Definition isEmptySentinel (v : Value) : bool :=
  match v with EmptySentinel => true | _ => false end.

(** The operands of the call instruction [call]. *)
Definition callOperands (M : IRModule) (call : nat) : option BaseCall :=
  match kindOf M call with
  | BaseCallInst c => Some c
  | _ => None
  end.

(** [callee->getFunctionCode()] for a [BaseCreateCallableInst *callee]. *)
Definition getFunctionCode (M : IRModule) (callee : nat) : nat :=
  match kindOf M callee with
  | BaseCreateCallableInst _ f => f
  | _ => 0
  end.

(** [registerCallsite(call, callee, scope)]; [scope] is [None] for the null
    pointer. *)
Definition registerCallsite (call : nat) (callee : nat)
    (scope : option nat) (M : IRModule) : IRModule :=
  let M1 :=
    match callOperands M call with
    | Some c => if isEmptySentinel (target c)
                then setTarget call (getFunctionCode M callee) M else M
    | None => M
    end in
  match scope, callOperands M1 call with
  | Some s, Some c =>
      if isEmptySentinel (environment c)
         && parentScopeParamHasUsers
              (getFunction M1 (getFunctionCode M1 callee))
      then setEnvironment call s M1 else M1
  | _, _ => M1
  end.

(** [canEscapeThroughCall(C, F, CI)]. *)
Definition canEscapeThroughCall (M : IRModule) (C : nat) (F : nat)
    (CI : BaseCall) : bool :=
  if negb (bool_decide (callee CI = InstValue C)) then true
  else if List.existsb (fun a => bool_decide (InstValue C = a)) (arguments CI)
  then true
  else if bool_decide (InstValue C = newTarget CI)
          && newTargetParamHasUsers (getFunction M F)
  then true
  else false.

(** An element of the worklist: [closure] and [scope], [None] for a null
    [scope]. *)
Definition UserAndScope : Type := nat * option nat.

Definition isCall (M : IRModule) (i : nat) : bool :=
  match kindOf M i with BaseCallInst _ => true | _ => false end.

Section Pass.
(** [isConstructionSetup] and [isStoreOnceVariable] come from
    hermes/Optimizer/Scalar/Utils.h, which is not among the sources.  The
    pass neither creates nor deletes an instruction and never changes the
    operand that ties a user to the closure or a store to its variable, so
    each is taken as a fixed predicate of the instructions, respectively the
    variable, it is asked about. *)
Variable isConstructionSetup : nat -> nat -> bool.
Variable isStoreOnceVariable : nat -> bool.

(** The loop over [var->getUsers()]: the worklist's back is the head. *)
Definition pushLoads (M : IRModule) (propagateScope : bool)
    (worklist : list UserAndScope) (varUsers : list nat) : list UserAndScope :=
  List.fold_left
    (fun wl varUser =>
       match kindOf M varUser with
       | LoadFrameInst s _ =>
           (varUser, if propagateScope then Some s else None) :: wl
       | _ => wl
       end) varUsers worklist.

(** The body of the loop over [closureInst->getUsers()]. *)
Definition visitUser (F create closureInst : nat)
    (knownScope : option nat) (st : IRModule * list UserAndScope)
    (closureUser : nat) : IRModule * list UserAndScope :=
  let '(M, worklist) := st in
  match kindOf M closureUser with
  | BaseCallInst call =>
      let M1 := if canEscapeThroughCall M closureInst F call
                then setAllCallsitesKnown false F M else M in
      let M2 := if bool_decide (callee call = InstValue closureInst)
                then registerCallsite closureUser create knownScope M1
                else M1 in
      (M2, worklist)
  | k =>
      if isConstructionSetup closureUser closureInst then (M, worklist)
      else
        match k with
        | GetClosureScopeInst _ =>
            (match knownScope with
             | Some s => replaceAllUsesWith closureUser s M
             | None => M
             end, worklist)
        | UnionNarrowTrustedInst _ =>
            (M, (closureUser, knownScope) :: worklist)
        | CheckedTypeCastInst _ true =>
            (M, (closureUser, knownScope) :: worklist)
        | StoreFrameInst s _ var =>
            if negb (isStoreOnceVariable var)
            then (setAllCallsitesKnown false F M, worklist)
            else
              let propagateScope := bool_decide (Some s = knownScope) in
              (M, pushLoads M propagateScope worklist
                    (getVariableUsers M var))
        | _ => (setAllCallsitesKnown false F M, worklist)
        end
  end.

(** The [while (!worklist.empty())] loop; [fuel] bounds its iterations. *)
Fixpoint worklistLoop (fuel : nat) (F create : nat) (M : IRModule)
    (worklist : list UserAndScope) (visited : list nat) : option IRModule :=
  match worklist with
  | [] => Some M
  | (closureInst, knownScope) :: rest =>
      match fuel with
      | O => None
      | S fuel' =>
          if bool_decide (closureInst ∈ visited)
          then worklistLoop fuel' F create M rest visited
          else
            let '(M', worklist') :=
              List.fold_left
                (visitUser F create closureInst knownScope)
                (getUsers M closureInst) (M, rest) in
            worklistLoop fuel' F create M' worklist'
              (closureInst :: visited)
      end
  end.

(** [analyzeCreateCallable(create)]. *)
Definition analyzeCreateCallable (fuel : nat) (create : nat) (M : IRModule)
  : option IRModule :=
  match kindOf M create with
  | BaseCreateCallableInst s F =>
      worklistLoop fuel F create M [(create, Some s)] []
  | _ => Some M
  end.

(** The loop [for (size_t i = 0; i < F->getNumUsers(); ++i)]. *)
Fixpoint usersLoop (fuel : nat) (F : nat) (i : nat) (M : IRModule)
  : option IRModule :=
  match functionUsers (getFunction M F) !! i with
  | None => Some M
  | Some user =>
      match fuel with
      | O => None
      | S fuel' =>
          match kindOf M user with
          | BaseCreateCallableInst _ _ =>
              match analyzeCreateCallable fuel' user M with
              | Some M' => usersLoop fuel' F (S i) M'
              | None => None
              end
          | BaseCallInst _ => usersLoop fuel' F (S i) M
          | _ => usersLoop fuel' F (S i) (setAllCallsitesKnown false F M)
          end
      end
  end.

(** [analyzeFunctionCallsites(F)]. *)
Definition analyzeFunctionCallsites (fuel : nat) (F : nat) (M : IRModule)
  : option IRModule :=
  let M1 := setAllCallsitesKnown true F M in
  let M2 := if isGlobalScope (getFunction M1 F)
            then setAllCallsitesKnown false F M1 else M1 in
  match usersLoop fuel F 0 M2 with
  | None => None
  | Some M3 =>
      Some (if _allCallsitesKnownInStrictMode (getAttributes M3 F)
            then setUnreachable
                   (negb (List.existsb (isCall M3)
                            (functionUsers (getFunction M3 F)))) F M3
            else M3)
  end.

(** [FunctionAnalysis::runOnModule]: the functions from [F] on. *)
Fixpoint runFrom (fuel : nat) (count : nat) (F : nat) (M : IRModule)
  : option IRModule :=
  match count with
  | O => Some M
  | S count' =>
      match analyzeFunctionCallsites fuel F M with
      | Some M' => runFrom fuel count' (S F) M'
      | None => None
      end
  end.

Definition runOnModule (fuel : nat) (M : IRModule) : option IRModule :=
  runFrom fuel (length (functions M)) 0 M.
End Pass.

(** *** Vocabulary of the proofs *)

(** Instructions whose result can be a tracked closure: the elements of the
    worklist are a [BaseCreateCallableInst], casts, and [LoadFrameInst]s. *)
Definition closureKind (k : InstKind) : bool :=
  match k with
  | BaseCreateCallableInst _ _ => true
  | UnionNarrowTrustedInst _ => true
  | CheckedTypeCastInst _ _ => true
  | LoadFrameInst _ _ => true
  | _ => false
  end.

Definition isClosure (M : IRModule) (i : nat) : bool := closureKind (kindOf M i).

Definition isGetClosureScope (M : IRModule) (i : nat) : bool :=
  match kindOf M i with GetClosureScopeInst _ => true | _ => false end.

Definition isEmptyTargetCall (i : Instruction) : bool :=
  match kind i with
  | BaseCallInst c => isEmptySentinel (target c)
  | _ => false
  end.

(** The number of calls whose target is still the [EmptySentinel]. *)
Definition emptyTargets (M : IRModule) : nat :=
  length (List.filter isEmptyTargetCall (instructions M)).

(** What a run of the pass may do to the module.  [ok] describes the
    instructions that occur as the scope of a closure. *)
Section Evolves.
Variable ok : nat -> Prop.
Variable M : IRModule.

Definition valueEvolves (v v' : Value) : Prop :=
  v' = v \/
  exists a b, v = InstValue a /\ isGetClosureScope M a = true /\
              v' = InstValue b /\ ok b.

Definition scopeEvolves (s s' : nat) : Prop :=
  s' = s \/ (isGetClosureScope M s = true /\ ok s').

Definition targetEvolves (t t' : Value) : Prop :=
  valueEvolves t t' \/ (t = EmptySentinel /\ exists F, t' = FunctionValue F).

Definition environmentEvolves (e e' : Value) : Prop :=
  valueEvolves e e' \/
  (e = EmptySentinel /\ exists s, e' = InstValue s /\ ok s).

Definition kindEvolves (k k' : InstKind) : Prop :=
  match k, k' with
  | BaseCallInst c, BaseCallInst c' =>
      valueEvolves (callee c) (callee c') /\
      targetEvolves (target c) (target c') /\
      environmentEvolves (environment c) (environment c') /\
      valueEvolves (newTarget c) (newTarget c') /\
      Forall2 valueEvolves (arguments c) (arguments c')
  | BaseCreateCallableInst s f, BaseCreateCallableInst s' f' =>
      f' = f /\ scopeEvolves s s'
  | GetClosureScopeInst _, GetClosureScopeInst _ => True
  | UnionNarrowTrustedInst _, UnionNarrowTrustedInst _ => True
  | CheckedTypeCastInst _ b, CheckedTypeCastInst _ b' => b' = b
  | StoreFrameInst _ _ x, StoreFrameInst _ _ x' => x' = x
  | LoadFrameInst s x, LoadFrameInst s' x' => x' = x /\ scopeEvolves s s'
  | OtherInst _, OtherInst _ => True
  | _, _ => False
  end.

Definition functionEvolves (M' : IRModule) (f f' : Function) : Prop :=
  isGlobalScope f' = isGlobalScope f /\
  newTargetParamHasUsers f' = newTargetParamHasUsers f /\
  parentScopeParamHasUsers f' = parentScopeParamHasUsers f /\
  unreachable (attributes f') = unreachable (attributes f) /\
  (_allCallsitesKnownInStrictMode (attributes f')
   = _allCallsitesKnownInStrictMode (attributes f) \/
   _allCallsitesKnownInStrictMode (attributes f') = false) /\
  exists extra, functionUsers f' = functionUsers f ++ extra /\
                Forall (fun u => isCall M' u = true) extra.

Definition evolves (M' : IRModule) : Prop :=
  length (instructions M') = length (instructions M) /\
  length (functions M') = length (functions M) /\
  variables M' = variables M /\
  (forall i, kindEvolves (kindOf M i) (kindOf M' i)) /\
  (forall i, getUsers M' i = getUsers M i \/ ok i \/
             isGetClosureScope M i = true) /\
  (forall G, functionEvolves M' (getFunction M G) (getFunction M' G)) /\
  (forall G, emptyTargets M' + length (functionUsers (getFunction M' G))
             <= emptyTargets M + length (functionUsers (getFunction M G))).
End Evolves.

(** Every scope operand of a closure-producing instruction satisfies [ok]. *)
Definition scopesOk (ok : nat -> Prop) (M : IRModule) : Prop :=
  forall i, match kindOf M i with
            | BaseCreateCallableInst s _ => ok s
            | LoadFrameInst s _ => ok s
            | _ => True
            end.

Definition scopeOk (ok : nat -> Prop) (scope : option nat) : Prop :=
  match scope with Some s => ok s | None => True end.

Definition worklistOk (ok : nat -> Prop) (worklist : list UserAndScope) : Prop :=
  Forall (fun item => scopeOk ok (snd item)) worklist.

(** The instructions of a module with [n] instructions not yet visited. *)
Definition unvisited (n : nat) (visited : list nat) : nat :=
  length (List.filter (fun i => negb (bool_decide (i ∈ visited))) (List.seq 0 n)).

Definition anyScope : nat -> Prop := fun _ => True.

Definition exampleFunction (isGlobal : bool) (us : list nat) (parentScopeUsed : bool)
  : Function :=
  {| isGlobalScope := isGlobal;
     attributes := {| _allCallsitesKnownInStrictMode := false;
                      unreachable := false |};
     functionUsers := us; newTargetParamHasUsers := false;
     parentScopeParamHasUsers := parentScopeUsed |}.

Definition exampleCall (calleeValue targetValue environmentValue : Value)
    (args : list Value) : InstKind :=
  BaseCallInst {| callee := calleeValue; target := targetValue;
                  environment := environmentValue; newTarget := OtherValue 0;
                  arguments := args |}.

(** [%0 = CreateScope; %1 = CreateFunction %0, F1; %2 = Call %1]. *)
Definition bindModule : IRModule :=
  {| functions := [exampleFunction true [] false;
                   exampleFunction false [1] true];
     instructions :=
       [{| kind := OtherInst []; users := [1] |};
        {| kind := BaseCreateCallableInst 0 1; users := [2] |};
        {| kind := exampleCall (InstValue 1) EmptySentinel EmptySentinel [];
           users := [] |}];
     variables := [] |}.

(** *** Well-typed modules and what two runs of the pass share *)

(** The scope of a closure is not itself a tracked closure. *)
Definition nonClosure (M0 : IRModule) : nat -> Prop :=
  fun s => isClosure M0 s = false.

(** The target operand of a call is the [EmptySentinel] or a function. *)
Definition targetsTyped (M : IRModule) : Prop :=
  forall i c, kindOf M i = BaseCallInst c ->
              target c = EmptySentinel \/ exists G, target c = FunctionValue G.

(** "Function can only be used as the FunctionCode operand": a
    [BaseCreateCallableInst] among the users of a function creates a closure
    of that function. *)
Definition usersWF (M : IRModule) : Prop :=
  forall F u s f, In u (functionUsers (getFunction M F)) ->
                  kindOf M u = BaseCreateCallableInst s f -> f = F.

Definition typedAs (M0 M : IRModule) : Prop :=
  scopesOk (nonClosure M0) M /\
  (forall i, isClosure M i = isClosure M0 i) /\
  targetsTyped M /\
  usersWF M.

Definition wellTyped (M : IRModule) : Prop := typedAs M M.

(** An operand as the closure flow sees it: a tracked closure or not. *)
Definition canon (M : IRModule) (v : Value) : option nat :=
  match v with
  | InstValue i => if isClosure M i then Some i else None
  | _ => None
  end.

Inductive FlowKind : Type :=
| FCall (calleeClosure newTargetClosure : option nat)
        (argumentClosures : list (option nat))
| FCreate (functionCode : nat)
| FGetClosureScope
| FUnionNarrow
| FChecked (canBeObject : bool)
| FStore (variable : nat)
| FLoad
| FOther.

Definition flowKind (M : IRModule) (k : InstKind) : FlowKind :=
  match k with
  | BaseCallInst c =>
      FCall (canon M (callee c)) (canon M (newTarget c))
            (List.map (canon M) (arguments c))
  | BaseCreateCallableInst _ f => FCreate f
  | GetClosureScopeInst _ => FGetClosureScope
  | UnionNarrowTrustedInst _ => FUnionNarrow
  | CheckedTypeCastInst _ b => FChecked b
  | StoreFrameInst _ _ x => FStore x
  | LoadFrameInst _ _ => FLoad
  | OtherInst _ => FOther
  end.

Definition nonCallUsers (M : IRModule) (us : list nat) : list nat :=
  List.filter (fun u => negb (isCall M u)) us.

(** Two modules the closure flow cannot tell apart. *)
Definition agree (Ma Mb : IRModule) : Prop :=
  length (functions Ma) = length (functions Mb) /\
  variables Ma = variables Mb /\
  (forall i, flowKind Ma (kindOf Ma i) = flowKind Mb (kindOf Mb i)) /\
  (forall i, isClosure Ma i = true -> getUsers Ma i = getUsers Mb i) /\
  (forall G, isGlobalScope (getFunction Ma G) = isGlobalScope (getFunction Mb G) /\
             newTargetParamHasUsers (getFunction Ma G)
             = newTargetParamHasUsers (getFunction Mb G) /\
             nonCallUsers Ma (functionUsers (getFunction Ma G))
             = nonCallUsers Mb (functionUsers (getFunction Mb G))).

(** The call [i] has a target. *)
Definition hasTarget (M : IRModule) (i : nat) : bool :=
  match kindOf M i with
  | BaseCallInst c => negb (isEmptySentinel (target c))
  | _ => false
  end.

(** The target operand of instruction [i], if it is a call. *)
Definition targetOf (M : IRModule) (i : nat) : option Value :=
  match kindOf M i with
  | BaseCallInst c => Some (target c)
  | _ => None
  end.

Definition known (M : IRModule) (F : nat) : bool :=
  _allCallsitesKnownInStrictMode (getAttributes M F).

(** [M'] is [M] up to the attributes of its functions. *)
Definition sameButAttributes (M M' : IRModule) : Prop :=
  instructions M' = instructions M /\
  variables M' = variables M /\
  length (functions M') = length (functions M) /\
  forall G, isGlobalScope (getFunction M' G) = isGlobalScope (getFunction M G) /\
            functionUsers (getFunction M' G) = functionUsers (getFunction M G) /\
            newTargetParamHasUsers (getFunction M' G)
            = newTargetParamHasUsers (getFunction M G) /\
            parentScopeParamHasUsers (getFunction M' G)
            = parentScopeParamHasUsers (getFunction M G).

(** Every closure of the worklist is a closure-producing instruction. *)
Definition closuresOnly (M : IRModule) (worklist : list UserAndScope) : Prop :=
  Forall (fun item => isClosure M (fst item) = true) worklist.

(** [canEscapeThroughCall] on the flow view of the call's operands. *)
Definition escapes (C : nat) (newTargetUsed : bool)
    (calleeClosure newTargetClosure : option nat)
    (argumentClosures : list (option nat)) : bool :=
  negb (bool_decide (calleeClosure = Some C))
  || List.existsb (fun o => bool_decide (o = Some C)) argumentClosures
  || (bool_decide (newTargetClosure = Some C) && newTargetUsed).

(** What the two runs share while they walk one closure flow. *)
Definition related (M0 : IRModule) (F create : nat) (Ma Mb : IRModule)
    (wla wlb : list UserAndScope) : Prop :=
  typedAs M0 Ma /\ typedAs M0 Mb /\ agree Ma Mb /\
  getFunctionCode Ma create = F /\
  List.map fst wla = List.map fst wlb /\
  closuresOnly Ma wla /\
  worklistOk (nonClosure M0) wla /\ worklistOk (nonClosure M0) wlb.

Definition kindTarget (k : InstKind) : option Value :=
  match k with
  | BaseCallInst c => Some (target c)
  | _ => None
  end.

(** A closure that is cast, stored once and called through the load:
    [[
      %0 = CreateScope
      %1 = CreateFunction %0, F1
      %2 = UnionNarrowTrusted %1
      %3 = GetClosureScope %2
      %4 = StoreFrame %3, %1, [v0]
      %5 = LoadFrame %0, [v0]
      %6 = Call %5
    ]]
    The store names its scope through [%3], which the pass only replaces by
    [%0] after it has looked at the store. *)
Definition storedClosureModule : IRModule :=
  {| functions := [exampleFunction true [] false;
                   exampleFunction false [1] true];
     instructions :=
       [{| kind := OtherInst []; users := [1; 5] |};
        {| kind := BaseCreateCallableInst 0 1; users := [2; 4] |};
        {| kind := UnionNarrowTrustedInst (InstValue 1); users := [3] |};
        {| kind := GetClosureScopeInst (InstValue 2); users := [4] |};
        {| kind := StoreFrameInst 3 (InstValue 1) 0; users := [] |};
        {| kind := LoadFrameInst 0 0; users := [6] |};
        {| kind := exampleCall (InstValue 5) EmptySentinel EmptySentinel [];
           users := [] |}];
     variables := [[4; 5]] |}.

(** The environment operand of instruction [i], if it is a call. *)
Definition environmentOf (M : IRModule) (i : nat) : option Value :=
  match kindOf M i with
  | BaseCallInst c => Some (environment c)
  | _ => None
  end.

(** *** What the pass leaves alone *)

(** The class of an instruction, as [isa] and [dyn_cast] see it. *)
Inductive InstClass : Type :=
| CallClass
| CreateCallableClass
| GetClosureScopeClass
| UnionNarrowTrustedClass
| CheckedTypeCastClass
| StoreFrameClass
| LoadFrameClass
| OtherClass.

Definition classOf (k : InstKind) : InstClass :=
  match k with
  | BaseCallInst _ => CallClass
  | BaseCreateCallableInst _ _ => CreateCallableClass
  | GetClosureScopeInst _ => GetClosureScopeClass
  | UnionNarrowTrustedInst _ => UnionNarrowTrustedClass
  | CheckedTypeCastInst _ _ => CheckedTypeCastClass
  | StoreFrameInst _ _ _ => StoreFrameClass
  | LoadFrameInst _ _ => LoadFrameClass
  | OtherInst _ => OtherClass
  end.

(** What any number of runs of [analyzeFunctionCallsites] may do to a
    module: steps that [evolves] describes, and steps that write attributes
    only. *)
Inductive passed : IRModule -> IRModule -> Prop :=
| passed_refl M : passed M M
| passed_evolves M M1 M' :
    evolves anyScope M M1 -> passed M1 M' -> passed M M'
| passed_attributes M M1 M' :
    sameButAttributes M M1 -> passed M1 M' -> passed M M'.

(** An operand the pass has no reason to write: it is not the
    [EmptySentinel], which [registerCallsite] fills in, and not the result of
    a [GetClosureScopeInst], which the pass replaces by the scope. *)
Definition settled (M : IRModule) (v : Value) : Prop :=
  v <> EmptySentinel /\
  forall a, v = InstValue a -> isGetClosureScope M a = false.

(** A user [u] of the closure instruction [C] of function [F] for which
    [analyzeCreateCallable] clears [_allCallsitesKnownInStrictMode]: a call
    through which the closure can escape, a store to a variable that is not
    stored once, a [CheckedTypeCastInst] whose result cannot be an object, or
    an instruction of a class the loop does not know; construction setup
    apart. *)
Definition leaks (isConstructionSetup : nat -> nat -> bool)
    (isStoreOnceVariable : nat -> bool)
    (M : IRModule) (C F u : nat) : bool :=
  match kindOf M u with
  | BaseCallInst call => canEscapeThroughCall M C F call
  | k =>
      negb (isConstructionSetup u C) &&
      match k with
      | GetClosureScopeInst _ => false
      | UnionNarrowTrustedInst _ => false
      | CheckedTypeCastInst _ canBeObject => negb canBeObject
      | StoreFrameInst _ _ var => negb (isStoreOnceVariable var)
      | _ => true
      end
  end.

(** A function that is created once and called once, and a function nobody
    uses:
    [[
      %0 = CreateScope
      %1 = CreateFunction %0, F1
      %2 = Call %1          (target: F1)
    ]] *)
Definition calledModule : IRModule :=
  {| functions := [exampleFunction true [] false;
                   exampleFunction false [1; 2] true;
                   exampleFunction false [] false];
     instructions :=
       [{| kind := OtherInst []; users := [1] |};
        {| kind := BaseCreateCallableInst 0 1; users := [2] |};
        {| kind := exampleCall (InstValue 1) (FunctionValue 1) EmptySentinel [];
           users := [] |}];
     variables := [] |}.

(** A function whose only user is a call that has it as its target:
    [[
      %0 = CreateScope
      %1 = Call p0          (target: F1)
    ]] *)
Definition targetedModule : IRModule :=
  {| functions := [exampleFunction true [] false;
                   exampleFunction false [1] false];
     instructions :=
       [{| kind := OtherInst []; users := [] |};
        {| kind := exampleCall (OtherValue 7) (FunctionValue 1) EmptySentinel [];
           users := [] |}];
     variables := [] |}.

(** The closure of [F1] is handed to an unknown callee as an argument:
    [[
      %0 = CreateScope
      %1 = CreateFunction %0, F1
      %2 = Call g(%1)
    ]] *)
Definition escapingModule : IRModule :=
  {| functions := [exampleFunction true [] false;
                   exampleFunction false [1] false];
     instructions :=
       [{| kind := OtherInst []; users := [1] |};
        {| kind := BaseCreateCallableInst 0 1; users := [2] |};
        {| kind := exampleCall (OtherValue 7) EmptySentinel EmptySentinel
                     [InstValue 1];
           users := [] |}];
     variables := [] |}.

(** *** Calls on a closure creation *)

(** [call] is a call whose callee operand is [create], a closure creation of
    the function [F]. *)
Definition callsClosureOf (M : IRModule) (call create F : nat) : Prop :=
  (exists c, kindOf M call = BaseCallInst c /\ callee c = InstValue create) /\
  (exists s, kindOf M create = BaseCreateCallableInst s F).

(** The target of [call] is not bound, or it is bound to [F]. *)
Definition boundTo (M : IRModule) (call F : nat) : Prop :=
  targetOf M call = Some EmptySentinel \/
  targetOf M call = Some (FunctionValue F).

(** The closures on the worklist of [analyzeCreateCallable(create)]:
    [create] itself, and casts and loads, but no other
    [BaseCreateCallableInst]. *)
Definition flowsFrom (M : IRModule) (create closureInst : nat) : Prop :=
  closureInst = create \/
  classOf (kindOf M closureInst) <> CreateCallableClass.

(** What [analyzeCreateCallable(create0)], for a closure creation of [F0],
    keeps true of the call under observation while it works through its
    worklist. *)
Definition tracking (M0 M : IRModule) (call create F create0 F0 : nat)
    (worklist : list UserAndScope) : Prop :=
  typedAs M0 M /\
  worklistOk (nonClosure M0) worklist /\
  Forall (fun item => flowsFrom M create0 (fst item)) worklist /\
  getFunctionCode M create0 = F0 /\
  callsClosureOf M call create F /\
  boundTo M call F.

(** *** The closure flow, read off the module *)

(** The scope operand of an instruction that has one. *)
Definition kindScope (k : InstKind) : option nat :=
  match k with
  | BaseCreateCallableInst s _ => Some s
  | StoreFrameInst s _ _ => Some s
  | LoadFrameInst s _ => Some s
  | _ => None
  end.

(** No scope operand is the result of a [GetClosureScopeInst].  The pass
    replaces the uses of such a result while it runs, so that with one as a
    scope operand the scope known at a call depends on the order of the
    visits. *)
Definition scopesSettled (M : IRModule) : Prop :=
  forall i s, kindScope (kindOf M i) = Some s -> isGetClosureScope M s = false.

Section Flow.
Variable isConstructionSetup : nat -> nat -> bool.
Variable isStoreOnceVariable : nat -> bool.

(** What the visit of [closureUser], a user of the worklist element
    [closureInst] with the scope [knownScope], pushes on the worklist: the
    [worklist.push_back] calls of the loop body, the last one first. *)
Definition follows (M : IRModule) (closureInst : nat)
    (knownScope : option nat) (closureUser : nat) : list UserAndScope :=
  match kindOf M closureUser with
  | BaseCallInst _ => []
  | k =>
      if isConstructionSetup closureUser closureInst then []
      else
        match k with
        | UnionNarrowTrustedInst _ => [(closureUser, knownScope)]
        | CheckedTypeCastInst _ true => [(closureUser, knownScope)]
        | StoreFrameInst s _ var =>
            if negb (isStoreOnceVariable var) then []
            else pushLoads M (bool_decide (Some s = knownScope)) []
                   (getVariableUsers M var)
        | _ => []
        end
  end.

(** The elements the worklist of [analyzeCreateCallable(create)] gets:
    [create] with its scope, and what the visit of a user of an element
    pushes. *)
Inductive reaches (M : IRModule) (create : nat)
  : nat -> option nat -> Prop :=
| reaches_create s F :
    kindOf M create = BaseCreateCallableInst s F ->
    reaches M create create (Some s)
| reaches_follows closureInst knownScope closureUser next scope :
    reaches M create closureInst knownScope ->
    In closureUser (getUsers M closureInst) ->
    In (next, scope) (follows M closureInst knownScope closureUser) ->
    reaches M create next scope.

(** The closure instruction holds closures of [F] only, and with one known
    scope: whatever [BaseCreateCallableInst] among the users of a function
    reaches it creates [F] and reaches it with [knownScope]. *)
Definition singleOrigin (M : IRModule) (closureInst F : nat)
    (knownScope : option nat) : Prop :=
  forall G create scope,
    In create (functionUsers (getFunction M G)) ->
    reaches M create closureInst scope ->
    G = F /\ scope = knownScope.
End Flow.

(** The environment [registerCallsite] gives a call of [F] whose environment
    is not set. *)
Definition boundEnvironment (M : IRModule) (F : nat)
    (knownScope : option nat) : Value :=
  match knownScope with
  | Some s => if parentScopeParamHasUsers (getFunction M F)
              then InstValue s else EmptySentinel
  | None => EmptySentinel
  end.

(** What every state [M] of a run keeps of the module [M0] the run started
    from.  [strict] stands for the assumptions under which the scope
    operands are kept as well. *)
Definition steady (strict : Prop) (M0 M : IRModule) : Prop :=
  typedAs M0 M /\ agree M0 M /\
  (forall G, parentScopeParamHasUsers (getFunction M G)
             = parentScopeParamHasUsers (getFunction M0 G)) /\
  (strict -> forall i, kindScope (kindOf M i) = kindScope (kindOf M0 i)).

(** A call on [closureInst] that is not registered, or registered for [F]
    with the environment [env]. *)
Definition pendingCall (strict : Prop) (closureInst F : nat) (env : Value)
    (k : InstKind) : Prop :=
  exists c, k = BaseCallInst c /\ callee c = InstValue closureInst /\
            (target c = EmptySentinel \/ target c = FunctionValue F) /\
            (strict -> environment c = EmptySentinel \/ environment c = env).

(** A call registered for [F] with the environment [env]. *)
Definition registeredCall (strict : Prop) (F : nat) (env : Value)
    (k : InstKind) : Prop :=
  exists c, k = BaseCallInst c /\ target c = FunctionValue F /\
            (strict -> environment c = env).

(** Two worklist elements with the same closure and, in the strict case, the
    same scope. *)
Definition similar (strict : Prop) (a b : UserAndScope) : Prop :=
  fst a = fst b /\ (strict -> a = b).

(** A worklist element of [analyzeCreateCallable(create)] that the flow of
    [M0] accounts for. *)
Definition onTrack (isConstructionSetup : nat -> nat -> bool)
    (isStoreOnceVariable : nat -> bool) (strict : Prop) (M0 : IRModule)
    (create : nat) (item : UserAndScope) : Prop :=
  exists scope,
    reaches isConstructionSetup isStoreOnceVariable M0 create (fst item) scope /\
    (strict -> snd item = scope).

(** A closure that is called through a cast:
    [[
      %0 = CreateScope
      %1 = CreateFunction %0, F1
      %2 = UnionNarrowTrusted %1
      %3 = Call %2
    ]] *)
Definition castModule : IRModule :=
  {| functions := [exampleFunction true [] false;
                   exampleFunction false [1] true];
     instructions :=
       [{| kind := OtherInst []; users := [1] |};
        {| kind := BaseCreateCallableInst 0 1; users := [2] |};
        {| kind := UnionNarrowTrustedInst (InstValue 1); users := [3] |};
        {| kind := exampleCall (InstValue 2) EmptySentinel EmptySentinel [];
           users := [] |}];
     variables := [] |}.

End FunctionAnalysis.

(** * Properties *)

(** ** CodeBlock *)

Module CodeBlockFacts.
Import CodeBlock.

Lemma wrap32_small (x : Z) : 0 <= x < 2 ^ 32 -> wrap32 x = x.
Proof. intros H. unfold wrap32. apply Z.mod_small. exact H. Qed.

Lemma getOffsetPtr_in_range (cb : CodeBlock) (o : Z) :
  0 <= o < bytecodeSizeInBytes (functionHeader_ cb) ->
  getOffsetPtr cb o = Ok (begin cb + o).
Proof.
  intros Ho. unfold getOffsetPtr, end_, begin.
  destruct (Z.ltb_spec (bytecode_ cb + o)
              (bytecode_ cb + bytecodeSizeInBytes (functionHeader_ cb)));
    [reflexivity | lia].
Qed.

(** C7.  For a code block whose fields fit their types and every offset [o]
    with [0 <= o < bytecodeSize], [getOffsetPtr(o)] passes its assertion,
    [getOffsetOf] of the pointer it returns passes both assertions and gives
    back [o], and [contains] of that pointer is true. *)
Theorem offset_round_trip (cb : CodeBlock) (o : Z) :
  wellFormed cb ->
  0 <= o < bytecodeSizeInBytes (functionHeader_ cb) ->
  exists p, getOffsetPtr cb o = Ok p /\
            getOffsetOf cb p = Ok o /\
            contains cb p = true.
Proof.
  intros (Hb & Hsz & _) Ho. exists (begin cb + o).
  split; [apply getOffsetPtr_in_range; exact Ho|].
  unfold is_uint32 in Hsz.
  assert (Hw : wrap32 (begin cb + o - begin cb) = o).
  { replace (begin cb + o - begin cb) with o by lia.
    apply wrap32_small. lia. }
  split.
  - unfold getOffsetOf. rewrite Hw.
    destruct (Z.geb_spec (begin cb + o) (begin cb)); [|lia].
    unfold end_, begin.
    destruct (Z.ltb_spec (bytecode_ cb + o)
                (bytecode_ cb + bytecodeSizeInBytes (functionHeader_ cb)));
      [reflexivity | lia].
  - unfold contains, end_, begin.
    apply andb_true_iff. split; [apply Z.leb_le | apply Z.ltb_lt]; lia.
Qed.

Lemma offset_round_trip_witness :
  exists p, getOffsetPtr scenarioBlock 7 = Ok p /\
            getOffsetOf scenarioBlock p = Ok 7 /\
            contains scenarioBlock p = true.
Proof.
  apply (offset_round_trip scenarioBlock 7).
  - unfold wellFormed, is_uint32; simpl; lia.
  - simpl; lia.
Defined.

(** Where the 32-bit sum wraps the bound check of [getWriteCacheEntry] is
    defeated: with [propertyCacheSize = writePropCacheOffset = 2^32 - 1] the
    index [1] gives [W + idx = 2^32], which is not below [P], yet the
    assertion passes and the entry returned is entry [0].  It takes a cache
    of more than [2^32 - 256] entries. *)
Lemma write_cache_sum_wraps :
  wellFormed hugeCacheBlock /\ is_uint8 1 /\
  ~ (isOk (getWriteCacheEntry hugeCacheBlock 1) = true <->
     writePropCacheOffset_ hugeCacheBlock + 1
       < propertyCacheSize_ hugeCacheBlock).
Proof.
  split; [unfold wellFormed, is_uint32; simpl; lia|].
  split; [unfold is_uint8; lia|].
  intros [H _]. simpl in H.
  assert (Hok : isOk (getWriteCacheEntry hugeCacheBlock 1) = true)
    by (vm_compute; reflexivity).
  specialize (H Hok). lia.
Qed.

(** The two accessors with the sum as the code computes it:
    [getReadCacheEntry(idx)] passes its assertion exactly when [idx < W] and
    then returns entry [idx]; [getWriteCacheEntry(idx)] passes exactly when
    the 32-bit sum [W + idx] is below [P] and then returns the entry at that
    sum; otherwise the respective assertion fails.  Whenever [W + idx] fits
    32 bits the sum is the plain one. *)
Theorem cache_entry_bounds (cb : CodeBlock) (idx : Z) :
  wellFormed cb -> is_uint8 idx ->
  let W := writePropCacheOffset_ cb in
  let P := propertyCacheSize_ cb in
  (idx < W -> getReadCacheEntry cb idx = Ok idx) /\
  (~ idx < W ->
   getReadCacheEntry cb idx = AssertFail "idx out of ReadCache bound") /\
  (add32 W idx < P -> getWriteCacheEntry cb idx = Ok (add32 W idx)) /\
  (~ add32 W idx < P ->
   getWriteCacheEntry cb idx = AssertFail "idx out of WriteCache bound") /\
  (W + idx < 2 ^ 32 ->
   add32 W idx = W + idx /\
   (W + idx < P -> getWriteCacheEntry cb idx = Ok (W + idx)) /\
   (~ W + idx < P ->
    getWriteCacheEntry cb idx = AssertFail "idx out of WriteCache bound")).
Proof.
  intros (_ & _ & HP & HW) Hidx W P. subst W P.
  unfold is_uint8 in Hidx. unfold is_uint32 in HP.
  assert (Hr1 : idx < writePropCacheOffset_ cb ->
                getReadCacheEntry cb idx = Ok idx).
  { intros H. unfold getReadCacheEntry, propertyCache.
    destruct (Z.ltb_spec idx (writePropCacheOffset_ cb)); [|lia].
    f_equal. }
  assert (Hr2 : ~ idx < writePropCacheOffset_ cb ->
                getReadCacheEntry cb idx
                = AssertFail "idx out of ReadCache bound").
  { intros H. unfold getReadCacheEntry.
    destruct (Z.ltb_spec idx (writePropCacheOffset_ cb)); [lia|reflexivity]. }
  assert (Hw1 : add32 (writePropCacheOffset_ cb) idx < propertyCacheSize_ cb ->
                getWriteCacheEntry cb idx
                = Ok (add32 (writePropCacheOffset_ cb) idx)).
  { intros H. unfold getWriteCacheEntry, propertyCache.
    destruct (Z.ltb_spec (add32 (writePropCacheOffset_ cb) idx)
                (propertyCacheSize_ cb)); [|lia].
    f_equal. }
  assert (Hw2 : ~ add32 (writePropCacheOffset_ cb) idx < propertyCacheSize_ cb ->
                getWriteCacheEntry cb idx
                = AssertFail "idx out of WriteCache bound").
  { intros H. unfold getWriteCacheEntry.
    destruct (Z.ltb_spec (add32 (writePropCacheOffset_ cb) idx)
                (propertyCacheSize_ cb)); [lia|reflexivity]. }
  repeat split; try assumption.
  - unfold add32. apply wrap32_small. lia.
  - intros Hlt.
    assert (E : add32 (writePropCacheOffset_ cb) idx
                = writePropCacheOffset_ cb + idx)
      by (unfold add32; apply wrap32_small; lia).
    rewrite <- E. apply Hw1. rewrite E. exact Hlt.
  - intros Hge. apply Hw2. unfold add32. rewrite wrap32_small by lia. exact Hge.
Qed.

(** The cache-layout scenario: eight entries, the write cache at five. *)
Lemma cache_entry_bounds_witness :
  (2 < 5 -> getReadCacheEntry scenarioBlock 2 = Ok 2) /\
  (5 + 2 < 2 ^ 32 ->
   add32 5 2 = 5 + 2 /\
   (5 + 2 < 8 -> getWriteCacheEntry scenarioBlock 2 = Ok (5 + 2)) /\
   (~ 5 + 2 < 8 ->
    getWriteCacheEntry scenarioBlock 2
    = AssertFail "idx out of WriteCache bound")).
Proof.
  assert (Hwf : wellFormed scenarioBlock)
    by (unfold wellFormed, is_uint32; simpl; lia).
  assert (H8 : is_uint8 2) by (unfold is_uint8; lia).
  destruct (cache_entry_bounds scenarioBlock 2 Hwf H8)
    as (Hr & _ & _ & _ & Hw).
  split; [exact Hr | exact Hw].
Defined.

(** C6.  For every code block with [W <= P] whose cache leaves room for an
    8-bit index, [P <= 2^32 - 256], so that [W + idx] cannot exceed
    [UINT32_MAX], and for every [uint8_t idx]: [getReadCacheEntry(idx)]
    passes its assertion exactly when [idx < W] and then returns the entry at
    index [idx] of the cache array; [getWriteCacheEntry(idx)] passes exactly
    when [W + idx < P] and then returns the entry at index [W + idx]; for an
    index out of range the respective assertion fails. *)
Theorem cache_entries_are_checked (cb : CodeBlock) (idx : Z) :
  wellFormed cb -> is_uint8 idx -> propertyCacheSize_ cb <= 2 ^ 32 - 256 ->
  (isOk (getReadCacheEntry cb idx) = true <-> idx < writePropCacheOffset_ cb) /\
  (idx < writePropCacheOffset_ cb ->
   getReadCacheEntry cb idx = Ok (propertyCache cb + idx)) /\
  (~ idx < writePropCacheOffset_ cb ->
   getReadCacheEntry cb idx = AssertFail "idx out of ReadCache bound") /\
  (isOk (getWriteCacheEntry cb idx) = true
   <-> writePropCacheOffset_ cb + idx < propertyCacheSize_ cb) /\
  (writePropCacheOffset_ cb + idx < propertyCacheSize_ cb ->
   getWriteCacheEntry cb idx
   = Ok (propertyCache cb + (writePropCacheOffset_ cb + idx))) /\
  (~ writePropCacheOffset_ cb + idx < propertyCacheSize_ cb ->
   getWriteCacheEntry cb idx = AssertFail "idx out of WriteCache bound").
Proof.
  intros (_ & _ & HP & HW) Hidx Hroom.
  unfold is_uint8 in Hidx. unfold is_uint32 in HP.
  assert (E : add32 (writePropCacheOffset_ cb) idx
              = writePropCacheOffset_ cb + idx)
    by (unfold add32; apply wrap32_small; lia).
  unfold getReadCacheEntry, getWriteCacheEntry. rewrite E.
  destruct (Z.ltb_spec idx (writePropCacheOffset_ cb)) as [Hr|Hr];
    destruct (Z.ltb_spec (writePropCacheOffset_ cb + idx)
                (propertyCacheSize_ cb)) as [Hw|Hw];
    simpl; repeat split; intros; try reflexivity; try lia; try discriminate.
Qed.

(** The cache-layout scenario, eight entries with the write cache at five:
    read entry [2] and write entry [2], which is entry [7] of the array. *)
Lemma cache_entries_are_checked_witness :
  getReadCacheEntry scenarioBlock 2 = Ok 2 /\
  getWriteCacheEntry scenarioBlock 2 = Ok 7.
Proof.
  destruct (cache_entries_are_checked scenarioBlock 2)
    as (_ & Hr & _ & _ & Hw & _).
  - unfold wellFormed, is_uint32; simpl; lia.
  - unfold is_uint8; lia.
  - simpl; lia.
  - split; [apply Hr | apply Hw]; simpl; lia.
Defined.

Example cache_layout_scenario :
  List.map (getReadCacheEntry scenarioBlock) [0; 1; 2; 3; 4; 5]
  = [Ok 0; Ok 1; Ok 2; Ok 3; Ok 4;
     AssertFail "idx out of ReadCache bound"] /\
  List.map (getWriteCacheEntry scenarioBlock) [0; 1; 2; 3]
  = [Ok 5; Ok 6; Ok 7; AssertFail "idx out of WriteCache bound"].
Proof. split; reflexivity. Qed.

(** C9, as stated, fails for [lazyCompile]: in a lean build it returns
    [ExecutionStatus::RETURNED] to its caller and does not end in
    [hermes_fatal]. *)
Lemma lean_lazyCompile_returns :
  lazyCompile unit (fun _ _ => EXCEPTION) LeanVM tt scenarioBlock
  = Returns RETURNED /\
  ~ (exists msg,
       lazyCompile unit (fun _ _ => EXCEPTION) LeanVM tt scenarioBlock
       = Fatal msg).
Proof.
  split; [reflexivity|]. intros [msg H]. discriminate H.
Qed.

(** C9, amended.  In a lean build [getVariableCounts()] and
    [getVariableNameAtDepth(depth, index)] end in a fatal error,
    "unavailable in lean VM", while [isLazy()] is false and
    [lazyCompile(runtime)] returns [RETURNED] without compiling anything. *)
Theorem lean_build_members (Runtime : Type)
    (lazyCompileImpl : Runtime -> CodeBlock -> ExecutionStatus)
    (getVariableCountsImpl : CodeBlock -> list Z)
    (getVariableNameAtDepthImpl : CodeBlock -> Z -> Z -> string)
    (runtime : Runtime) (cb : CodeBlock) (depth variableIndex : Z) :
  getVariableCounts getVariableCountsImpl LeanVM cb
  = Fatal "unavailable in lean VM" /\
  getVariableNameAtDepth getVariableNameAtDepthImpl LeanVM cb
    depth variableIndex
  = Fatal "unavailable in lean VM" /\
  isLazy LeanVM cb = false /\
  lazyCompile Runtime lazyCompileImpl LeanVM runtime cb = Returns RETURNED.
Proof. repeat split. Qed.

(** X1.  A pointer into the bytecode gives back itself: when [contains(inst)]
    holds, [getOffsetOf(inst)] passes both assertions with the distance of
    [inst] from [begin()], and [getOffsetPtr] of that offset is [inst]. *)
Theorem pointer_round_trip (cb : CodeBlock) (inst : Z) :
  wellFormed cb -> contains cb inst = true ->
  getOffsetOf cb inst = Ok (inst - begin cb) /\
  getOffsetPtr cb (inst - begin cb) = Ok inst.
Proof.
  intros (Hb & Hsz & _) Hc. unfold is_uint32 in Hsz.
  unfold contains, end_, begin in Hc.
  apply andb_true_iff in Hc as [H1 H2].
  apply Z.leb_le in H1. apply Z.ltb_lt in H2.
  split.
  - unfold getOffsetOf, begin, end_.
    destruct (Z.geb_spec inst (bytecode_ cb)); [|lia].
    rewrite wrap32_small by lia.
    destruct (Z.ltb_spec (bytecode_ cb + (inst - bytecode_ cb))
                (bytecode_ cb + bytecodeSizeInBytes (functionHeader_ cb)));
      [reflexivity | lia].
  - rewrite getOffsetPtr_in_range by (unfold begin; lia).
    f_equal. lia.
Qed.

Lemma pointer_round_trip_witness :
  getOffsetOf scenarioBlock 4100 = Ok (4100 - begin scenarioBlock) /\
  getOffsetPtr scenarioBlock (4100 - begin scenarioBlock) = Ok 4100.
Proof.
  apply (pointer_round_trip scenarioBlock 4100).
  - unfold wellFormed, is_uint32; simpl; lia.
  - reflexivity.
Defined.

(** X2.  [getOffsetOf] narrows the pointer difference to 32 bits before its
    second assertion: a pointer that lies a multiple of 2^32 bytes behind an
    instruction of the block passes both assertions and gets that
    instruction's offset, although [contains] is false for it. *)
Theorem getOffsetOf_narrows (cb : CodeBlock) (inst k : Z) :
  wellFormed cb -> contains cb inst = true -> 0 < k ->
  getOffsetOf cb (inst + k * 2 ^ 32) = Ok (inst - begin cb) /\
  contains cb (inst + k * 2 ^ 32) = false.
Proof.
  intros (Hb & Hsz & _) Hc Hk. unfold is_uint32 in Hsz.
  unfold contains, end_, begin in Hc.
  apply andb_true_iff in Hc as [H1 H2].
  apply Z.leb_le in H1. apply Z.ltb_lt in H2.
  assert (Hpos : 0 < 2 ^ 32) by lia.
  split.
  - unfold getOffsetOf, begin, end_.
    destruct (Z.geb_spec (inst + k * 2 ^ 32) (bytecode_ cb)); [|nia].
    assert (E : wrap32 (inst + k * 2 ^ 32 - bytecode_ cb) = inst - bytecode_ cb).
    { unfold wrap32.
      replace (inst + k * 2 ^ 32 - bytecode_ cb)
        with (inst - bytecode_ cb + k * 2 ^ 32) by lia.
      rewrite Z.mod_add by lia. apply Z.mod_small. lia. }
    rewrite E.
    destruct (Z.ltb_spec (bytecode_ cb + (inst - bytecode_ cb))
                (bytecode_ cb + bytecodeSizeInBytes (functionHeader_ cb)));
      [reflexivity | lia].
  - unfold contains, end_, begin. apply andb_false_iff. right.
    apply Z.ltb_ge. nia.
Qed.

Lemma getOffsetOf_narrows_witness :
  getOffsetOf scenarioBlock (4100 + 1 * 2 ^ 32) = Ok (4100 - begin scenarioBlock) /\
  contains scenarioBlock (4100 + 1 * 2 ^ 32) = false.
Proof.
  apply (getOffsetOf_narrows scenarioBlock 4100 1).
  - unfold wellFormed, is_uint32; simpl; lia.
  - reflexivity.
  - lia.
Defined.

(** X3.  For a [uint32_t] offset [o], [getOffsetPtr(o)] passes its assertion
    exactly when [o] is below the bytecode size, so never for [end()] and
    never in a function without bytecode; an offset that [getOffsetOf]
    returns is a [uint32_t] below the bytecode size, one that [getOffsetPtr]
    accepts; and [getOffsetOf] fails its assertion for a pointer before
    [begin()]. *)
Theorem offsets_are_checked (cb : CodeBlock) :
  (forall o, is_uint32 o ->
             (isOk (getOffsetPtr cb o) = true
              <-> o < bytecodeSizeInBytes (functionHeader_ cb))) /\
  (forall inst o, getOffsetOf cb inst = Ok o ->
                  is_uint32 o /\
                  o < bytecodeSizeInBytes (functionHeader_ cb) /\
                  begin cb <= inst /\
                  isOk (getOffsetPtr cb o) = true) /\
  (forall inst, 0 <= inst < begin cb ->
                getOffsetOf cb inst = AssertFail "inst not in this codeBlock").
Proof.
  assert (Hptr : forall o, isOk (getOffsetPtr cb o) = true
                           <-> o < bytecodeSizeInBytes (functionHeader_ cb)).
  { intros o. unfold getOffsetPtr, end_, begin.
    destruct (Z.ltb_spec (bytecode_ cb + o)
                (bytecode_ cb + bytecodeSizeInBytes (functionHeader_ cb)));
      simpl; split; intros; try lia; try reflexivity; discriminate. }
  split; [intros o _; apply Hptr|]. split.
  - intros inst o H. unfold getOffsetOf in H.
    destruct (Z.geb_spec inst (begin cb)) as [Hge|]; [|discriminate].
    destruct (Z.ltb_spec (begin cb + wrap32 (inst - begin cb)) (end_ cb))
      as [Hlt|]; [|discriminate].
    injection H as <-.
    assert (is_uint32 (wrap32 (inst - begin cb)))
      by (unfold is_uint32, wrap32; apply Z.mod_pos_bound; lia).
    unfold end_, begin in *. split; [assumption|]. split; [lia|].
    split; [lia|]. apply Hptr. lia.
  - intros inst Hlt. unfold getOffsetOf.
    destruct (Z.geb_spec inst (begin cb)); [lia | reflexivity].
Qed.

(** X4.  The read entries and the write entries of the property cache are
    different entries: as long as [W + j] fits 32 bits, an entry that
    [getReadCacheEntry] returns lies below [W] and an entry that
    [getWriteCacheEntry] returns lies at or above it. *)
Theorem read_and_write_entries_are_apart (cb : CodeBlock) (i j e1 e2 : Z) :
  wellFormed cb -> 0 <= j ->
  writePropCacheOffset_ cb + j < 2 ^ 32 ->
  getReadCacheEntry cb i = Ok e1 ->
  getWriteCacheEntry cb j = Ok e2 ->
  e1 < writePropCacheOffset_ cb <= e2 /\ e2 < propertyCacheSize_ cb /\ e1 <> e2.
Proof.
  intros (_ & _ & HP & HW) Hj Hfit Hr Hw.
  unfold getReadCacheEntry, propertyCache in Hr.
  destruct (Z.ltb_spec i (writePropCacheOffset_ cb)); [|discriminate].
  injection Hr as <-.
  unfold getWriteCacheEntry, propertyCache in Hw.
  assert (E : add32 (writePropCacheOffset_ cb) j = writePropCacheOffset_ cb + j)
    by (unfold add32; apply wrap32_small; lia).
  rewrite E in Hw.
  destruct (Z.ltb_spec (writePropCacheOffset_ cb + j) (propertyCacheSize_ cb));
    [|discriminate].
  injection Hw as <-. lia.
Qed.

Lemma read_and_write_entries_are_apart_witness :
  4 < writePropCacheOffset_ scenarioBlock <= 5 /\
  5 < propertyCacheSize_ scenarioBlock /\ 4 <> 5.
Proof.
  apply (read_and_write_entries_are_apart scenarioBlock 4 0 4 5).
  - unfold wellFormed, is_uint32; simpl; lia.
  - lia.
  - simpl; lia.
  - reflexivity.
  - reflexivity.
Defined.

End CodeBlockFacts.

(** ** TempRegAlloc *)

Module TempRegAllocFacts.
Import JitEmitter.

(** *** Bits of 32-bit words *)

Lemma shl32_one (i : Z) : 0 <= i < 32 -> shl32 1 i = 2 ^ i.
Proof.
  intros Hi. unfold shl32, wrap32. rewrite Z.shiftl_1_l.
  apply Z.mod_small. split; [apply Z.pow_nonneg; lia|].
  apply Z.pow_lt_mono_r; lia.
Qed.

Lemma land_pow2 (a i : Z) :
  0 <= i -> Z.land a (2 ^ i) = if Z.testbit a i then 2 ^ i else 0.
Proof.
  intros Hi. apply Z.bits_inj'. intros n Hn.
  rewrite Z.land_spec, Z.pow2_bits_eqb by lia.
  destruct (Z.eqb_spec i n) as [->|Hne].
  - destruct (Z.testbit a n); simpl.
    + rewrite Z.pow2_bits_eqb by lia. rewrite Z.eqb_refl. reflexivity.
    + rewrite Z.bits_0. reflexivity.
  - rewrite andb_false_r.
    destruct (Z.testbit a i).
    + rewrite Z.pow2_bits_eqb by lia.
      destruct (Z.eqb_spec i n); [contradiction|reflexivity].
    + rewrite Z.bits_0. reflexivity.
Qed.

Lemma isAvail_testbit (ra : TempRegAlloc) (i : Z) :
  0 <= i < 32 -> isAvail ra i = Z.testbit (availBits_ ra) i.
Proof.
  intros Hi. unfold isAvail. rewrite shl32_one, land_pow2 by lia.
  destruct (Z.testbit (availBits_ ra) i); simpl.
  - destruct (Z.eqb_spec (2 ^ i) 0) as [E|_]; [|reflexivity].
    assert (0 < 2 ^ i) by (apply Z.pow_pos_nonneg; lia). lia.
  - reflexivity.
Qed.

Lemma testbit_clear (a i j : Z) :
  0 <= i < 32 -> 0 <= j ->
  Z.testbit (Z.land a (not32 (shl32 1 i))) j
  = Z.testbit a j && negb (j =? i) && (j <? 32).
Proof.
  intros Hi Hj. rewrite Z.land_spec, shl32_one by lia.
  unfold not32, wrap32.
  destruct (Z.ltb_spec j 32).
  - rewrite Z.mod_pow2_bits_low by lia.
    rewrite Z.lnot_spec, Z.pow2_bits_eqb by lia.
    rewrite (Z.eqb_sym i j). rewrite andb_true_r. reflexivity.
  - rewrite Z.mod_pow2_bits_high by lia. rewrite !andb_false_r. reflexivity.
Qed.

Lemma testbit_set (a i j : Z) :
  0 <= i < 32 -> 0 <= j ->
  Z.testbit (Z.lor a (shl32 1 i)) j = Z.testbit a j || (j =? i).
Proof.
  intros Hi Hj. rewrite Z.lor_spec, shl32_one, Z.pow2_bits_eqb by lia.
  rewrite (Z.eqb_sym i j). reflexivity.
Qed.

Lemma bitMask32_spec (first last j : Z) :
  validRange first last ->
  Z.testbit (bitMask32 first last) j = true <-> first <= j <= last.
Proof.
  intros (Hf & Hfl & Hl & Hn). unfold bitMask32.
  assert (E1 : sub32 last first = last - first)
    by (unfold sub32, wrap32; apply Z.mod_small; lia).
  assert (E2 : add32 (last - first) 1 = last - first + 1)
    by (unfold add32, wrap32; apply Z.mod_small; lia).
  rewrite E1, E2, shl32_one by lia.
  assert (Hp : 0 < 2 ^ (last - first + 1) < 2 ^ 32).
  { split; [apply Z.pow_pos_nonneg; lia | apply Z.pow_lt_mono_r; lia]. }
  assert (E3 : sub32 (2 ^ (last - first + 1)) 1 = Z.ones (last - first + 1)).
  { unfold sub32, wrap32. rewrite Z.ones_equiv, <- Z.sub_1_r.
    apply Z.mod_small. lia. }
  rewrite E3. unfold shl32, wrap32.
  destruct (Z.lt_ge_cases j 0) as [Hneg|Hj].
  { rewrite Z.testbit_neg_r by lia. split; [discriminate | lia]. }
  destruct (Z.ltb_spec j 32) as [Hlt|Hge].
  - rewrite Z.mod_pow2_bits_low, Z.shiftl_spec by lia.
    destruct (Z.lt_ge_cases j first).
    + rewrite Z.testbit_neg_r by lia. split; [discriminate | lia].
    + destruct (Z.lt_ge_cases (j - first) (last - first + 1)).
      * rewrite Z.ones_spec_low by lia. split; [lia | reflexivity].
      * rewrite Z.ones_spec_high by lia. split; [discriminate | lia].
  - rewrite Z.mod_pow2_bits_high by lia. split; [discriminate | lia].
Qed.

Lemma zero_no_bits (a : Z) :
  a = 0 <-> (forall j, 0 <= j -> Z.testbit a j = false).
Proof.
  split.
  - intros -> j _. apply Z.bits_0.
  - intros H. apply Z.bits_inj'. intros n Hn. rewrite Z.bits_0. auto.
Qed.

(** [findFirstSet] finds the least set bit of a word that has one below bit
    32. *)
Lemma firstSetFrom_spec (w : nat) (i x k : Z) :
  i <= k < i + Z.of_nat w -> Z.testbit x k = true ->
  let r := firstSetFrom w i x in
  i <= r <= k /\ Z.testbit x r = true /\
  (forall j, i <= j < r -> Z.testbit x j = false).
Proof.
  revert i. induction w as [|w IH]; intros i Hk Hbit; [lia|].
  simpl. destruct (Z.testbit x i) eqn:Hi.
  - split; [lia|]. split; [exact Hi|]. intros j Hj. lia.
  - assert (Hne : k <> i) by (intros ->; congruence).
    destruct (IH (i + 1)) as (Hr & Hb & Hmin); [lia | exact Hbit |].
    split; [lia|]. split; [exact Hb|].
    intros j Hj. destruct (Z.eq_dec j i) as [->|]; [exact Hi|].
    apply Hmin. lia.
Qed.

Lemma findFirstSet_spec (x k : Z) :
  0 <= k < 32 -> Z.testbit x k = true ->
  let r := findFirstSet x in
  0 <= r <= k /\ Z.testbit x r = true /\
  (forall j, 0 <= j < r -> Z.testbit x j = false).
Proof. intros Hk Hb. apply (firstSetFrom_spec 32 0 x k); [lia | exact Hb]. Qed.

Lemma slot_eq (first last i : Z) :
  validRange first last -> first <= i <= last ->
  Z.to_nat (sub32 i first) = Z.to_nat (i - first).
Proof.
  intros (Hf & Hfl & Hl & _) Hi. unfold sub32, wrap32.
  rewrite Z.mod_small by lia. reflexivity.
Qed.

Lemma slot_inj (first last i j : Z) :
  validRange first last -> first <= i <= last -> first <= j <= last ->
  Z.to_nat (sub32 i first) = Z.to_nat (sub32 j first) -> i = j.
Proof.
  intros Hv Hi Hj. rewrite !(slot_eq first last) by assumption. lia.
Qed.

Lemma slot_lt (first last i : Z) :
  validRange first last -> first <= i <= last ->
  (Z.to_nat (sub32 i first) < Z.to_nat (last - first + 1))%nat.
Proof. intros Hv Hi. rewrite (slot_eq first last) by assumption. lia. Qed.

Lemma freeBit_dec (ra : TempRegAlloc) (i : Z) : {freeBit ra i} + {~ freeBit ra i}.
Proof. unfold freeBit. destruct (Z.testbit (availBits_ ra) i); [left|right]; congruence. Qed.

Lemma create_wellKept (first last : Z) :
  validRange first last -> wellKept first last (create (first, last)).
Proof.
  intros Hv. unfold wellKept, create, freeBit, holdsLiveNode, mapAt; simpl.
  split; [reflexivity|]. split; [apply length_replicate|].
  split; [intros j Hj; apply (bitMask32_spec first last j Hv); exact Hj|].
  split.
  { intros i Hi _. apply lookup_replicate_2. apply (slot_lt first last); assumption. }
  split.
  { intros i Hi Hn. exfalso. apply Hn. apply bitMask32_spec; assumption. }
  split; [apply List.NoDup_nil | intros e []].
Qed.

Lemma some_bit_below (x : Z) (n : nat) :
  (forall j, 0 <= j < Z.of_nat n -> Z.testbit x j = false) \/
  (exists j, 0 <= j < Z.of_nat n /\ Z.testbit x j = true).
Proof.
  induction n as [|n [IH|(j & Hj & Hb)]].
  - left. intros j Hj. lia.
  - destruct (Z.testbit x (Z.of_nat n)) eqn:Hn.
    + right. exists (Z.of_nat n). split; [lia | exact Hn].
    + left. intros j Hj.
      destruct (Z.eq_dec j (Z.of_nat n)) as [->|]; [exact Hn | apply IH; lia].
  - right. exists j. split; [lia | exact Hb].
Qed.

Lemma nodup_fresh_node (l : list (nat * Z)) (n : nat) (v : Z) :
  List.NoDup (List.map fst l) ->
  (forall e, In e l -> (fst e < n)%nat) ->
  List.NoDup (List.map fst (l ++ [(n, v)])).
Proof.
  induction l as [|e l IH]; intros Hnd Hlt; simpl.
  - apply List.NoDup_cons; [intros [] | apply List.NoDup_nil].
  - inversion Hnd as [|? ? Hnotin Hnd']; subst.
    apply List.NoDup_cons.
    + rewrite List.map_app, List.in_app_iff. simpl.
      intros [Hin | [Heq | []]]; [contradiction|].
      specialize (Hlt e (or_introl eq_refl)). lia.
    + apply IH; [exact Hnd' | intros e' He'; apply Hlt; right; exact He'].
Qed.

Lemma mapAt_insert_same (first last : Z) (ra : TempRegAlloc) (i : Z)
    (p : option nat) (lru : SimpleLRU.t) (bits : Z) :
  validRange first last -> first_ ra = first ->
  length (map_ ra) = Z.to_nat (last - first + 1) ->
  first <= i <= last ->
  mapAt {| first_ := first_ ra; lru_ := lru; map_ := setMapAt ra i p;
           availBits_ := bits |} i = Some p.
Proof.
  intros Hv Hf Hlen Hi. unfold mapAt, setMapAt; simpl. rewrite Hf.
  apply list_lookup_insert_eq. rewrite Hlen.
  apply (slot_lt first last); assumption.
Qed.

Lemma mapAt_insert_other (first last : Z) (ra : TempRegAlloc) (i j : Z)
    (p : option nat) (lru : SimpleLRU.t) (bits : Z) :
  validRange first last -> first_ ra = first ->
  first <= i <= last -> first <= j <= last -> j <> i ->
  mapAt {| first_ := first_ ra; lru_ := lru; map_ := setMapAt ra i p;
           availBits_ := bits |} j = mapAt ra j.
Proof.
  intros Hv Hf Hi Hj Hne. unfold mapAt, setMapAt; simpl. rewrite Hf.
  apply list_lookup_insert_ne. intros E.
  apply Hne. symmetry. apply (slot_inj first last); assumption.
Qed.

Lemma alloc_wellKept (first last : Z) (ra : TempRegAlloc) (preferred : option Z) :
  validRange first last -> wellKept first last ra ->
  (forall p, preferred = Some p -> 0 <= p < 32) ->
  (availBits_ ra = 0 /\ alloc ra preferred = Done (None, ra)) \/
  (availBits_ ra <> 0 /\
   exists ra', alloc ra preferred = Done (Some (picked ra preferred), ra') /\
               wellKept first last ra' /\
               freeBit ra (picked ra preferred) /\
               (forall j, freeBit ra' j <->
                          freeBit ra j /\ j <> picked ra preferred) /\
               holdsLiveNode ra' (picked ra preferred)).
Proof.
  intros Hv (Hf & Hlen & Hsub & Hfree & Hused & Hnd & Hfresh) Hpref.
  pose proof Hv as (Hv0 & Hv1 & Hv2 & Hv3).
  unfold alloc. destruct (Z.eqb_spec (availBits_ ra) 0) as [E0|Hne0].
  { left. split; [exact E0 | reflexivity]. }
  right. split; [exact Hne0|].
  (* some register of the pool is free *)
  assert (Hsome : exists k, 0 <= k < 32 /\ Z.testbit (availBits_ ra) k = true).
  { destruct (some_bit_below (availBits_ ra) 32) as [Hnone|Hk]; [|exact Hk].
    exfalso. apply Hne0. apply zero_no_bits. intros j Hj.
    destruct (Z.testbit (availBits_ ra) j) eqn:Hb; [|reflexivity].
    specialize (Hsub j Hb). rewrite <- Hb. apply Hnone. lia. }
  destruct Hsome as (k & Hk & Hkb).
  destruct (findFirstSet_spec (availBits_ ra) k Hk Hkb) as (Hr & Hrb & _).
  (* the index chosen by the code is [picked] *)
  assert (Hidx : match preferred with
                 | Some p => if isAvail ra p then p
                             else findFirstSet (availBits_ ra)
                 | None => findFirstSet (availBits_ ra)
                 end = picked ra preferred).
  { unfold picked. destruct preferred as [p|]; [|reflexivity].
    rewrite isAvail_testbit by (apply Hpref; reflexivity). reflexivity. }
  rewrite Hidx.
  assert (Hpb : freeBit ra (picked ra preferred)).
  { unfold picked, freeBit. destruct preferred as [p|]; [|exact Hrb].
    destruct (Z.testbit (availBits_ ra) p) eqn:Hp; [exact Hp | exact Hrb]. }
  set (index := picked ra preferred) in *.
  pose proof (Hsub index Hpb) as Hin.
  destruct (Z.geb_spec index (first_ ra)) as [_|Hlt]; [|lia]. simpl.
  rewrite (Hfree index Hin Hpb). simpl.
  eexists. split; [reflexivity|].
  assert (Hbits : forall j,
    Z.testbit (Z.land (availBits_ ra) (not32 (shl32 1 index))) j = true <->
    Z.testbit (availBits_ ra) j = true /\ j <> index).
  { intros j. destruct (Z.lt_ge_cases j 0) as [Hneg|Hj].
    { rewrite !Z.testbit_neg_r by lia. split; [discriminate | intros [? _]; discriminate]. }
    rewrite testbit_clear by lia.
    rewrite !andb_true_iff, negb_true_iff, Z.eqb_neq, Z.ltb_lt.
    split; [tauto|]. intros [Hb Hne]. specialize (Hsub j Hb). repeat split; [exact Hb | exact Hne | lia]. }
  split; [|split; [exact Hpb | split; [exact Hbits|]]].
  - unfold wellKept, freeBit, holdsLiveNode; simpl.
    split; [exact Hf|]. split; [unfold setMapAt; rewrite length_insert; exact Hlen|].
    split; [intros j Hj; apply Hsub, Hbits, Hj|].
    split.
    { intros i Hi Hb. apply Hbits in Hb as [Hb Hne].
      rewrite (mapAt_insert_other first last) by assumption.
      apply Hfree; assumption. }
    split.
    { intros i Hi Hnb. destruct (Z.eq_dec i index) as [->|Hne].
      - exists (SimpleLRU.nextNode (lru_ ra)).
        split; [apply (mapAt_insert_same first last); assumption|].
        unfold SimpleLRU.live; simpl. apply List.in_app_iff. right. left. reflexivity.
      - destruct (Hused i Hi) as (p & Hp & Hlive).
        { intros Hb. apply Hnb. apply Hbits. split; assumption. }
        exists p. split.
        + rewrite (mapAt_insert_other first last) by assumption. exact Hp.
        + unfold SimpleLRU.live in *; simpl. apply List.in_app_iff. left. exact Hlive. }
    split; [apply nodup_fresh_node; assumption|].
    intros e He. apply List.in_app_iff in He as [He | [<- | []]]; simpl.
    + specialize (Hfresh e He). lia.
    + lia.
  - exists (SimpleLRU.nextNode (lru_ ra)).
    split; [apply (mapAt_insert_same first last); assumption|].
    unfold SimpleLRU.live; simpl. apply List.in_app_iff. right. left. reflexivity.
Qed.

Lemma filter_split_perm {A} (f : A -> bool) (l : list A) :
  Permutation l (List.filter (fun e => negb (f e)) l ++ List.filter f l).
Proof.
  induction l as [|e l IH]; simpl; [constructor|].
  destruct (f e); simpl.
  - apply Permutation_cons_app. exact IH.
  - constructor. exact IH.
Qed.

Lemma nodup_fst_filter (f : nat * Z -> bool) (l : list (nat * Z)) :
  List.NoDup (List.map fst l) -> List.NoDup (List.map fst (List.filter f l)).
Proof.
  induction l as [|e l IH]; intros Hnd; simpl; [exact Hnd|].
  inversion Hnd as [|? ? Hnotin Hnd']; subst.
  destruct (f e); simpl; [|apply IH; exact Hnd'].
  apply List.NoDup_cons; [|apply IH; exact Hnd'].
  intros Hin. apply Hnotin. apply List.in_map_iff in Hin as (e' & He' & Hin).
  apply List.filter_In in Hin as [Hin _].
  apply List.in_map_iff. exists e'. split; assumption.
Qed.

Lemma nodup_fst_inj (l : list (nat * Z)) (p : nat) (a b : Z) :
  List.NoDup (List.map fst l) -> In (p, a) l -> In (p, b) l -> a = b.
Proof.
  induction l as [|e l IH]; intros Hnd Ha Hb; [destruct Ha|].
  inversion Hnd as [|? ? Hnotin Hnd']; subst.
  destruct Ha as [->|Ha], Hb as [Hb|Hb].
  - congruence.
  - exfalso. apply Hnotin. apply List.in_map_iff. exists (p, b). split; [reflexivity | exact Hb].
  - subst e. exfalso. apply Hnotin. apply List.in_map_iff. exists (p, a). split; [reflexivity | exact Ha].
  - apply IH; assumption.
Qed.

Lemma use_wellKept (first last : Z) (ra : TempRegAlloc) (i : Z) :
  validRange first last -> wellKept first last ra -> first <= i <= last ->
  (freeBit ra i -> use ra i = Done ra) /\
  (~ freeBit ra i ->
   exists ra', use ra i = Done ra' /\ wellKept first last ra' /\
               availBits_ ra' = availBits_ ra /\ map_ ra' = map_ ra).
Proof.
  intros Hv (Hf & Hlen & Hsub & Hfree & Hused & Hnd & Hfresh) Hi.
  pose proof Hv as (Hv0 & Hv1 & Hv2 & Hv3).
  unfold use. destruct (Z.geb_spec i (first_ ra)) as [_|Hlt]; [|lia]. simpl.
  rewrite isAvail_testbit by lia. unfold freeBit.
  split.
  - intros Hb. rewrite Hb. reflexivity.
  - intros Hnb. destruct (Z.testbit (availBits_ ra) i) eqn:Hb; [congruence|]. simpl.
    destruct (Hused i Hi) as (p & Hp & Hlive); [unfold freeBit; congruence|].
    rewrite Hp. eexists. split; [reflexivity|]. split; [|split; reflexivity].
    unfold wellKept, freeBit, holdsLiveNode, mapAt; simpl.
    assert (Hin : forall e, In e (List.filter (fun e => negb (SimpleLRU.isNode p e))
                                    (SimpleLRU.nodes (lru_ ra))
                                  ++ List.filter (SimpleLRU.isNode p)
                                       (SimpleLRU.nodes (lru_ ra)))
                            <-> In e (SimpleLRU.nodes (lru_ ra))).
    { intros e. split; intros H.
      - eapply Permutation_in; [symmetry; apply filter_split_perm | exact H].
      - eapply Permutation_in; [apply filter_split_perm | exact H]. }
    split; [exact Hf|]. split; [exact Hlen|]. split; [exact Hsub|].
    split; [exact Hfree|]. split.
    { intros j Hj Hnj. destruct (Hused j Hj Hnj) as (q & Hq & Hl).
      exists q. split; [exact Hq|]. unfold SimpleLRU.live; simpl. apply Hin. exact Hl. }
    split.
    { eapply Permutation_NoDup; [|exact Hnd].
      apply Permutation_map. apply filter_split_perm. }
    intros e He. apply Hfresh. apply Hin. exact He.
Qed.

Lemma free_wellKept (first last : Z) (ra : TempRegAlloc) (i : Z) :
  validRange first last -> wellKept first last ra -> first <= i <= last ->
  (freeBit ra i -> free ra i = Assert "map shows the tmpreg is freed") /\
  (~ freeBit ra i ->
   exists ra', free ra i = Done ra' /\ wellKept first last ra' /\
               (forall j, freeBit ra' j <-> freeBit ra j \/ j = i)).
Proof.
  intros Hv (Hf & Hlen & Hsub & Hfree & Hused & Hnd & Hfresh) Hi.
  pose proof Hv as (Hv0 & Hv1 & Hv2 & Hv3).
  unfold free. destruct (Z.geb_spec i (first_ ra)) as [_|Hlt]; [|lia]. simpl.
  split.
  - intros Hb. rewrite (Hfree i Hi Hb). reflexivity.
  - intros Hnb. destruct (Hused i Hi Hnb) as (p & Hp & Hlive).
    rewrite Hp. rewrite isAvail_testbit by lia.
    unfold freeBit in Hnb.
    destruct (Z.testbit (availBits_ ra) i) eqn:Hb; [congruence|].
    eexists. split; [reflexivity|].
    assert (Hbits : forall j,
      Z.testbit (Z.lor (availBits_ ra) (shl32 1 i)) j = true <->
      Z.testbit (availBits_ ra) j = true \/ j = i).
    { intros j. destruct (Z.lt_ge_cases j 0) as [Hneg|Hj].
      { rewrite !Z.testbit_neg_r by lia. split; [discriminate | intros [?|?]; [discriminate | lia]]. }
      rewrite testbit_set by lia. rewrite orb_true_iff, Z.eqb_eq. reflexivity. }
    split; [|exact Hbits].
    unfold wellKept, freeBit, holdsLiveNode; simpl.
    split; [exact Hf|]. split; [unfold setMapAt; rewrite length_insert; exact Hlen|].
    split; [intros j Hj; apply Hbits in Hj as [Hj| ->]; [apply Hsub; exact Hj | exact Hi]|].
    split.
    { intros j Hj Hjb. destruct (Z.eq_dec j i) as [->|Hne].
      - apply (mapAt_insert_same first last); assumption.
      - rewrite (mapAt_insert_other first last) by assumption.
        apply Hfree; [exact Hj|]. apply Hbits in Hjb as [Hjb|?]; [exact Hjb | contradiction]. }
    split.
    { intros j Hj Hnj.
      assert (Hne : j <> i) by (intros ->; apply Hnj, Hbits; right; reflexivity).
      destruct (Hused j Hj) as (q & Hq & Hl).
      { intros Hjb. apply Hnj, Hbits. left. exact Hjb. }
      exists q. split; [rewrite (mapAt_insert_other first last) by assumption; exact Hq|].
      unfold SimpleLRU.live in *; simpl. apply List.filter_In. split; [exact Hl|].
      unfold SimpleLRU.isNode; simpl. apply negb_true_iff, Nat.eqb_neq.
      intros ->. apply Hne. apply (nodup_fst_inj _ p j i Hnd Hl Hlive). }
    split; [apply nodup_fst_filter; exact Hnd|].
    intros e He. apply List.filter_In in He as [He _]. apply Hfresh. exact He.
Qed.

Lemma call_wellKept (first last : Z) (ra ra' : TempRegAlloc) (c : Call) :
  validRange first last -> wellKept first last ra -> inPool first last c ->
  call ra c = Done ra' -> wellKept first last ra'.
Proof.
  intros Hv Hk Hc Hcall. destruct c as [preferred|i|i]; simpl in Hcall.
  - destruct (alloc_wellKept first last ra preferred Hv Hk) as
      [[_ E] | (_ & ra1 & E & Hk1 & _)].
    { intros p ->. exact Hc. }
    + rewrite E in Hcall. injection Hcall as <-. exact Hk.
    + rewrite E in Hcall. injection Hcall as <-. exact Hk1.
  - destruct (use_wellKept first last ra i Hv Hk Hc) as [Hfree Hused].
    destruct (freeBit_dec ra i) as [Hb|Hnb].
    + rewrite (Hfree Hb) in Hcall. injection Hcall as <-. exact Hk.
    + destruct (Hused Hnb) as (ra1 & E & Hk1 & _).
      rewrite E in Hcall. injection Hcall as <-. exact Hk1.
  - destruct (free_wellKept first last ra i Hv Hk Hc) as [Hfree Hused].
    destruct (freeBit_dec ra i) as [Hb|Hnb].
    + rewrite (Hfree Hb) in Hcall. discriminate.
    + destruct (Hused Hnb) as (ra1 & E & Hk1 & _).
      rewrite E in Hcall. injection Hcall as <-. exact Hk1.
Qed.

Lemma calls_wellKept (first last : Z) (cs : list Call) :
  validRange first last -> Forall (inPool first last) cs ->
  forall ra ra', wellKept first last ra -> calls ra cs = Done ra' ->
                 wellKept first last ra'.
Proof.
  intros Hv Hcs. induction Hcs as [|c cs Hc _ IH]; intros ra ra' Hk Hrun; simpl in Hrun.
  - injection Hrun as <-. exact Hk.
  - destruct (call ra c) as [ra1| |] eqn:E; try discriminate.
    apply (IH ra1 ra'); [|exact Hrun].
    apply (call_wellKept first last ra ra1 c); assumption.
Qed.

Lemma reachable_wellKept (first last : Z) (ra : TempRegAlloc) :
  validRange first last -> reachable first last ra -> wellKept first last ra.
Proof.
  intros Hv (cs & Hcs & Hrun).
  apply (calls_wellKept first last cs Hv Hcs (create (first, last)) ra);
    [apply create_wellKept; exact Hv | exact Hrun].
Qed.

(** C5.  In every state a pool over [first..last] can reach, [alloc] runs
    without a failed assertion and: returns [preferred] when that register is
    free; otherwise, when some register is free, returns the lowest-numbered
    free register of the availability mask; returns none exactly when no
    register of the pool is free; and returns only registers of
    [first..last]. *)
Theorem alloc_returns (first last : Z) (ra : TempRegAlloc)
    (preferred : option Z) :
  validRange first last -> reachable first last ra ->
  (forall p, preferred = Some p -> 0 <= p < 32) ->
  exists r ra',
    alloc ra preferred = Done (r, ra') /\
    (forall p, preferred = Some p -> freeBit ra p -> r = Some p) /\
    ((forall p, preferred = Some p -> ~ freeBit ra p) ->
     forall k, freeBit ra k ->
     exists m, r = Some m /\ freeBit ra m /\
               (forall j, freeBit ra j -> m <= j)) /\
    (r = None <-> (forall i, first <= i <= last -> ~ freeBit ra i)) /\
    (forall i, r = Some i -> first <= i <= last).
Proof.
  intros Hv Hreach Hpref.
  pose proof (reachable_wellKept first last ra Hv Hreach) as Hk.
  pose proof Hk as (Hf & Hlen & Hsub & _).
  destruct (alloc_wellKept first last ra preferred Hv Hk Hpref)
    as [[E0 E] | (Hne0 & ra' & E & Hk' & Hpb & _)].
  - exists None, ra. split; [exact E|].
    assert (Hnone : forall j, ~ freeBit ra j).
    { intros j Hj. unfold freeBit in Hj. rewrite E0, Z.bits_0 in Hj.
      discriminate. }
    split; [intros p _ Hp; destruct (Hnone p Hp)|].
    split; [intros _ k Hkb; destruct (Hnone k Hkb)|].
    split; [split; [intros _ i _; apply Hnone | reflexivity]|].
    intros i Hi. discriminate.
  - exists (Some (picked ra preferred)), ra'. split; [exact E|].
    split.
    { intros p -> Hp. unfold picked. unfold freeBit in Hp. rewrite Hp.
      reflexivity. }
    split.
    { intros Hnot k Hkb. exists (picked ra preferred).
      split; [reflexivity|]. split; [exact Hpb|].
      assert (Epick : picked ra preferred = findFirstSet (availBits_ ra)).
      { unfold picked. destruct preferred as [p|]; [|reflexivity].
        destruct (Z.testbit (availBits_ ra) p) eqn:Hp; [|reflexivity].
        destruct (Hnot p eq_refl Hp). }
      rewrite Epick. intros j Hj.
      assert (Hk32 : 0 <= k < 32) by (specialize (Hsub k Hkb);
        destruct Hv as (? & ? & ? & ?); lia).
      destruct (findFirstSet_spec (availBits_ ra) k Hk32 Hkb) as (Hr & _ & Hmin).
      destruct (Z.lt_ge_cases j (findFirstSet (availBits_ ra))) as [Hlt|]; [|lia].
      assert (0 <= j) by (specialize (Hsub j Hj); destruct Hv; lia).
      unfold freeBit in Hj. rewrite Hmin in Hj by lia. discriminate. }
    split.
    { split; [discriminate|]. intros Hnone. exfalso.
      apply (Hnone (picked ra preferred)); [apply Hsub; exact Hpb | exact Hpb]. }
    intros i [= <-]. apply Hsub. exact Hpb.
Qed.

(** The general-purpose pool x0..x15, freshly constructed, asked for x3. *)
Lemma alloc_returns_witness :
  exists r ra',
    alloc (create kGPTemp) (Some 3) = Done (r, ra') /\
    (forall p, Some 3 = Some p -> freeBit (create kGPTemp) p -> r = Some p) /\
    ((forall p, Some 3 = Some p -> ~ freeBit (create kGPTemp) p) ->
     forall k, freeBit (create kGPTemp) k ->
     exists m, r = Some m /\ freeBit (create kGPTemp) m /\
               (forall j, freeBit (create kGPTemp) j -> m <= j)) /\
    (r = None <-> (forall i, 0 <= i <= 15 -> ~ freeBit (create kGPTemp) i)) /\
    (forall i, r = Some i -> 0 <= i <= 15).
Proof.
  apply (alloc_returns 0 15 (create kGPTemp) (Some 3)).
  - unfold validRange; lia.
  - exists []. split; [constructor | reflexivity].
  - intros p [= <-]; lia.
Defined.

Example alloc_prefers_then_lowest :
  (exists ra, alloc (create kGPTemp) (Some 3) = Done (Some 3, ra) /\
     exists ra', alloc ra (Some 3) = Done (Some 0, ra')) /\
  (exists ra, alloc (create kVecTemp) None = Done (Some 16, ra)).
Proof.
  split; [eexists; split; [vm_compute; reflexivity|];
          eexists; vm_compute; reflexivity
         | eexists; vm_compute; reflexivity].
Qed.

(** C10.  After every sequence of [alloc], [use] and [free] calls on
    registers of the pool that no assertion stopped: for each register [i] of
    the pool the availability bit of [i] is clear exactly when
    [map_[i - first]] holds a node that is in the LRU list (and carries [i]);
    every set availability bit is a bit of the pool's mask; [use(i)] of a
    free register changes nothing; and [free(i)] of an allocated register
    passes its assertions and sets the availability bit of [i] again. *)
Theorem pool_invariant (first last : Z) (cs : list Call) (ra : TempRegAlloc) :
  validRange first last -> Forall (inPool first last) cs ->
  calls (create (first, last)) cs = Done ra ->
  (forall i, first <= i <= last -> (~ freeBit ra i <-> holdsLiveNode ra i)) /\
  (forall j, freeBit ra j -> Z.testbit (bitMask32 first last) j = true) /\
  (forall i, first <= i <= last -> freeBit ra i -> use ra i = Done ra) /\
  (forall i, first <= i <= last -> ~ freeBit ra i ->
             exists ra', free ra i = Done ra' /\ freeBit ra' i).
Proof.
  intros Hv Hcs Hrun.
  assert (Hk : wellKept first last ra).
  { apply (calls_wellKept first last cs Hv Hcs (create (first, last)) ra);
      [apply create_wellKept; exact Hv | exact Hrun]. }
  pose proof Hk as (Hf & Hlen & Hsub & Hfree & Hused & _).
  split.
  { intros i Hi. split; [apply Hused; exact Hi|].
    intros (p & Hp & _) Hb. rewrite (Hfree i Hi Hb) in Hp. discriminate. }
  split; [intros j Hj; apply bitMask32_spec; [exact Hv | apply Hsub; exact Hj]|].
  split.
  { intros i Hi Hb. apply (use_wellKept first last ra i Hv Hk Hi). exact Hb. }
  intros i Hi Hnb.
  destruct (free_wellKept first last ra i Hv Hk Hi) as [_ Hfr].
  destruct (Hfr Hnb) as (ra' & E & _ & Hbits).
  exists ra'. split; [exact E|]. apply Hbits. right. reflexivity.
Qed.

(** The vector pool d16..d31 after two allocations, a use and a free. *)
Lemma pool_invariant_witness :
  exists ra,
    calls (create kVecTemp)
      [CallAlloc None; CallAlloc (Some 20); CallUse 16; CallFree 16] = Done ra /\
    (forall i, 16 <= i <= 31 -> (~ freeBit ra i <-> holdsLiveNode ra i)) /\
    (forall j, freeBit ra j -> Z.testbit (bitMask32 16 31) j = true) /\
    (forall i, 16 <= i <= 31 -> freeBit ra i -> use ra i = Done ra) /\
    (forall i, 16 <= i <= 31 -> ~ freeBit ra i ->
               exists ra', free ra i = Done ra' /\ freeBit ra' i).
Proof.
  eexists. split; [vm_compute; reflexivity|].
  apply (pool_invariant 16 31
           [CallAlloc None; CallAlloc (Some 20); CallUse 16; CallFree 16]).
  - unfold validRange; lia.
  - repeat constructor; simpl; lia.
  - vm_compute; reflexivity.
Defined.

(** No call of such a sequence runs into undefined behaviour. *)
Lemma calls_defined (first last : Z) (cs : list Call) :
  validRange first last -> Forall (inPool first last) cs ->
  forall ra, wellKept first last ra -> calls ra cs <> Undefined.
Proof.
  intros Hv Hcs. induction Hcs as [|c cs Hc _ IH]; intros ra Hk; simpl;
    [discriminate|].
  destruct (call ra c) as [ra1|msg|] eqn:E; [|discriminate|].
  - apply IH. apply (call_wellKept first last ra ra1 c); assumption.
  - exfalso. destruct c as [preferred|i|i]; simpl in E.
    + destruct (alloc_wellKept first last ra preferred Hv Hk) as
        [[_ E'] | (_ & ra1 & E' & _)];
        [intros p ->; exact Hc | rewrite E' in E; discriminate
         | rewrite E' in E; discriminate].
    + destruct (use_wellKept first last ra i Hv Hk Hc) as [Hfr Hus].
      destruct (freeBit_dec ra i) as [Hb|Hnb].
      * rewrite (Hfr Hb) in E. discriminate.
      * destruct (Hus Hnb) as (ra1 & E' & _). rewrite E' in E. discriminate.
    + destruct (free_wellKept first last ra i Hv Hk Hc) as [Hfr Hus].
      destruct (freeBit_dec ra i) as [Hb|Hnb].
      * rewrite (Hfr Hb) in E. discriminate.
      * destruct (Hus Hnb) as (ra1 & E' & _). rewrite E' in E. discriminate.
Qed.

(** *** What the three members return, spelled out *)

Lemma alloc_explicit (first last : Z) (ra : TempRegAlloc)
    (preferred : option Z) :
  validRange first last -> wellKept first last ra ->
  (forall p, preferred = Some p -> 0 <= p < 32) ->
  availBits_ ra <> 0 ->
  let i := picked ra preferred in
  freeBit ra i /\ first <= i <= last /\ mapAt ra i = Some None /\
  alloc ra preferred
  = Done (Some i,
          {| first_ := first_ ra;
             lru_ := fst (SimpleLRU.add i (lru_ ra));
             map_ := setMapAt ra i (Some (SimpleLRU.nextNode (lru_ ra)));
             availBits_ := Z.land (availBits_ ra) (not32 (shl32 1 i)) |}).
Proof.
  intros Hv Hk Hpref Hne i.
  destruct (alloc_wellKept first last ra preferred Hv Hk Hpref)
    as [[E0 _] | (_ & ra' & E & _ & Hpb & _)]; [contradiction|].
  destruct Hk as (Hf & Hlen & Hsub & Hfree & _).
  pose proof (Hsub _ Hpb) as Hin.
  split; [exact Hpb|]. split; [exact Hin|].
  split; [apply Hfree; assumption|].
  unfold alloc. destruct (Z.eqb_spec (availBits_ ra) 0); [contradiction|].
  assert (Hidx : match preferred with
                 | Some p => if isAvail ra p then p
                             else findFirstSet (availBits_ ra)
                 | None => findFirstSet (availBits_ ra)
                 end = i).
  { subst i. unfold picked. destruct preferred as [p|]; [|reflexivity].
    rewrite isAvail_testbit by (apply Hpref; reflexivity). reflexivity. }
  rewrite Hidx.
  destruct (Z.geb_spec i (first_ ra)); [|lia]. simpl.
  rewrite (Hfree i Hin Hpb). reflexivity.
Qed.

Lemma use_explicit (first last : Z) (ra : TempRegAlloc) (i : Z) :
  validRange first last -> wellKept first last ra -> first <= i <= last ->
  ~ freeBit ra i ->
  exists p, mapAt ra i = Some (Some p) /\ SimpleLRU.live p i (lru_ ra) /\
            use ra i = Done {| first_ := first_ ra;
                               lru_ := SimpleLRU.use p (lru_ ra);
                               map_ := map_ ra; availBits_ := availBits_ ra |}.
Proof.
  intros Hv (Hf & Hlen & Hsub & Hfree & Hused & _) Hi Hnb.
  destruct Hv as (Hv0 & Hv1 & Hv2 & Hv3).
  destruct (Hused i Hi Hnb) as (p & Hp & Hlive).
  exists p. split; [exact Hp|]. split; [exact Hlive|].
  unfold use. destruct (Z.geb_spec i (first_ ra)); [|lia]. simpl.
  rewrite isAvail_testbit by lia. unfold freeBit in Hnb.
  destruct (Z.testbit (availBits_ ra) i); [congruence|]. simpl.
  rewrite Hp. reflexivity.
Qed.

Lemma free_explicit (first last : Z) (ra : TempRegAlloc) (i : Z) :
  validRange first last -> wellKept first last ra -> first <= i <= last ->
  ~ freeBit ra i ->
  exists p, mapAt ra i = Some (Some p) /\ SimpleLRU.live p i (lru_ ra) /\
            free ra i = Done {| first_ := first_ ra;
                                lru_ := SimpleLRU.remove p (lru_ ra);
                                map_ := setMapAt ra i None;
                                availBits_ := Z.lor (availBits_ ra)
                                                (shl32 1 i) |}.
Proof.
  intros Hv (Hf & Hlen & Hsub & Hfree & Hused & _) Hi Hnb.
  destruct Hv as (Hv0 & Hv1 & Hv2 & Hv3).
  destruct (Hused i Hi Hnb) as (p & Hp & Hlive).
  exists p. split; [exact Hp|]. split; [exact Hlive|].
  unfold free. destruct (Z.geb_spec i (first_ ra)); [|lia]. simpl.
  rewrite Hp. rewrite isAvail_testbit by lia. unfold freeBit in Hnb.
  destruct (Z.testbit (availBits_ ra) i); [congruence|]. reflexivity.
Qed.

(** *** The LRU list holds the allocated registers *)

Lemma create_lruTracks (first last : Z) : lruTracks first last (create (first, last)).
Proof. intros p v H. destruct H. Qed.

Lemma call_lruTracks (first last : Z) (ra ra' : TempRegAlloc) (c : Call) :
  validRange first last -> wellKept first last ra -> lruTracks first last ra ->
  inPool first last c -> call ra c = Done ra' -> lruTracks first last ra'.
Proof.
  intros Hv Hk Ht Hc Hcall.
  pose proof Hk as (Hf & Hlen & Hsub & Hfree & Hused & Hnd & Hfresh).
  destruct c as [preferred|i|i]; simpl in Hcall.
  - assert (Hpref : forall p, preferred = Some p -> 0 <= p < 32)
      by (intros p ->; exact Hc).
    destruct (Z.eq_dec (availBits_ ra) 0) as [E0|Hne].
    { destruct (alloc_wellKept first last ra preferred Hv Hk Hpref)
        as [[_ E] | (Hne & _)]; [|contradiction].
      rewrite E in Hcall. injection Hcall as <-. exact Ht. }
    destruct (alloc_explicit first last ra preferred Hv Hk Hpref Hne)
      as (Hpb & Hin & Hnone & E).
    rewrite E in Hcall. injection Hcall as <-.
    intros p v Hl. unfold SimpleLRU.live in Hl; simpl in Hl.
    apply List.in_app_iff in Hl as [Hl | [Hl | []]].
    + destruct (Ht p v Hl) as [Hvr Hm]. split; [exact Hvr|].
      assert (Hne' : v <> picked ra preferred)
        by (intros ->; rewrite Hnone in Hm; discriminate).
      rewrite (mapAt_insert_other first last) by assumption. exact Hm.
    + injection Hl as <- <-. split; [exact Hin|].
      apply (mapAt_insert_same first last); assumption.
  - destruct (freeBit_dec ra i) as [Hb|Hnb].
    + destruct (use_wellKept first last ra i Hv Hk Hc) as [Hfr _].
      rewrite (Hfr Hb) in Hcall. injection Hcall as <-. exact Ht.
    + destruct (use_explicit first last ra i Hv Hk Hc Hnb) as (q & _ & _ & E).
      rewrite E in Hcall. injection Hcall as <-.
      intros p v Hl. unfold SimpleLRU.live in Hl; simpl in Hl.
      apply (Ht p v). unfold SimpleLRU.live.
      eapply Permutation_in; [symmetry; apply filter_split_perm | exact Hl].
  - destruct (freeBit_dec ra i) as [Hb|Hnb].
    + destruct (free_wellKept first last ra i Hv Hk Hc) as [Hfr _].
      rewrite (Hfr Hb) in Hcall. discriminate.
    + destruct (free_explicit first last ra i Hv Hk Hc Hnb) as (q & Hq & _ & E).
      rewrite E in Hcall. injection Hcall as <-.
      intros p v Hl. unfold SimpleLRU.live in Hl; simpl in Hl.
      apply List.filter_In in Hl as [Hl Hpq].
      destruct (Ht p v Hl) as [Hvr Hm]. split; [exact Hvr|].
      assert (Hne' : v <> i).
      { intros ->. rewrite Hq in Hm. injection Hm as ->.
        unfold SimpleLRU.isNode in Hpq; simpl in Hpq.
        rewrite Nat.eqb_refl in Hpq. discriminate. }
      rewrite (mapAt_insert_other first last) by assumption. exact Hm.
Qed.

Lemma calls_lruTracks (first last : Z) (cs : list Call) :
  validRange first last -> Forall (inPool first last) cs ->
  forall ra ra', wellKept first last ra -> lruTracks first last ra ->
                 calls ra cs = Done ra' -> lruTracks first last ra'.
Proof.
  intros Hv Hcs. induction Hcs as [|c cs Hc _ IH]; intros ra ra' Hk Ht Hrun;
    simpl in Hrun.
  - injection Hrun as <-. exact Ht.
  - destruct (call ra c) as [ra1| |] eqn:E; try discriminate.
    apply (IH ra1 ra'); [| |exact Hrun].
    + apply (call_wellKept first last ra ra1 c); assumption.
    + apply (call_lruTracks first last ra ra1 c); assumption.
Qed.

Lemma reachable_lruTracks (first last : Z) (ra : TempRegAlloc) :
  validRange first last -> reachable first last ra -> lruTracks first last ra.
Proof.
  intros Hv (cs & Hcs & Hrun).
  apply (calls_lruTracks first last cs Hv Hcs (create (first, last)) ra);
    [apply create_wellKept; exact Hv | apply create_lruTracks | exact Hrun].
Qed.

(** A node of the list belongs to an allocated register. *)
Lemma live_is_allocated (first last : Z) (ra : TempRegAlloc) (p : nat) (v : Z) :
  wellKept first last ra -> lruTracks first last ra ->
  SimpleLRU.live p v (lru_ ra) -> first <= v <= last /\ ~ freeBit ra v.
Proof.
  intros (_ & _ & _ & Hfree & _) Ht Hl. destruct (Ht p v Hl) as [Hv Hm].
  split; [exact Hv|]. intros Hb. rewrite (Hfree v Hv Hb) in Hm. discriminate.
Qed.

(** *** Bits *)

Lemma set_after_clear (a i : Z) :
  0 <= i < 32 -> Z.testbit a i = true ->
  (forall j, Z.testbit a j = true -> 0 <= j < 32) ->
  Z.lor (Z.land a (not32 (shl32 1 i))) (shl32 1 i) = a.
Proof.
  intros Hi Hb Hsub. apply Z.bits_inj'. intros j Hj.
  rewrite testbit_set, testbit_clear by lia.
  destruct (Z.eqb_spec j i) as [->|Hne].
  - rewrite Hb. destruct (i <? 32); reflexivity.
  - destruct (Z.testbit a j) eqn:Ha; [|reflexivity]. simpl.
    destruct (Z.ltb_spec j 32); [reflexivity|].
    specialize (Hsub j Ha). lia.
Qed.

Lemma remove_added_node (l : SimpleLRU.t) (v : Z) :
  (forall e, In e (SimpleLRU.nodes l) -> (fst e < SimpleLRU.nextNode l)%nat) ->
  SimpleLRU.nodes (SimpleLRU.remove (SimpleLRU.nextNode l)
                     (fst (SimpleLRU.add v l)))
  = SimpleLRU.nodes l.
Proof.
  intros Hfresh. simpl. rewrite List.filter_app. simpl.
  unfold SimpleLRU.isNode at 2. simpl. rewrite Nat.eqb_refl. simpl.
  rewrite List.app_nil_r.
  apply List.forallb_filter_id. apply List.forallb_forall. intros e He.
  unfold SimpleLRU.isNode. apply negb_true_iff, Nat.eqb_neq.
  specialize (Hfresh e He). lia.
Qed.

(** X5.  [alloc] followed by [free] of the register it returned leaves the
    pool as it was: in every state a pool can reach, the [free] passes its
    three assertions, and afterwards the availability mask, the map and the
    order of the LRU list are those from before the [alloc]. *)
Theorem alloc_then_free_restores (first last : Z) (ra ra1 : TempRegAlloc)
    (preferred : option Z) (i : Z) :
  validRange first last -> reachable first last ra ->
  (forall p, preferred = Some p -> 0 <= p < 32) ->
  alloc ra preferred = Done (Some i, ra1) ->
  exists ra2, free ra1 i = Done ra2 /\
              availBits_ ra2 = availBits_ ra /\
              map_ ra2 = map_ ra /\
              SimpleLRU.nodes (lru_ ra2) = SimpleLRU.nodes (lru_ ra) /\
              first_ ra2 = first_ ra.
Proof.
  intros Hv Hreach Hpref Ha.
  pose proof (reachable_wellKept first last ra Hv Hreach) as Hk.
  pose proof Hk as (Hf & Hlen & Hsub & Hfree & Hused & Hnd & Hfresh).
  pose proof Hv as (Hv0 & Hv1 & Hv2 & Hv3).
  destruct (Z.eq_dec (availBits_ ra) 0) as [E0|Hne].
  { destruct (alloc_wellKept first last ra preferred Hv Hk Hpref)
      as [[_ E] | (Hne & _)]; [|contradiction].
    rewrite E in Ha. discriminate. }
  destruct (alloc_explicit first last ra preferred Hv Hk Hpref Hne)
    as (Hpb & Hin & Hnone & E).
  rewrite E in Ha.
  assert (Ei : i = picked ra preferred) by congruence.
  assert (Era : ra1
                = {| first_ := first_ ra;
                     lru_ := fst (SimpleLRU.add (picked ra preferred) (lru_ ra));
                     map_ := setMapAt ra (picked ra preferred)
                               (Some (SimpleLRU.nextNode (lru_ ra)));
                     availBits_ := Z.land (availBits_ ra)
                                     (not32 (shl32 1 (picked ra preferred))) |})
    by congruence.
  clear Ha E. subst i ra1.
  set (i := picked ra preferred) in *.
  set (ra1 := {| first_ := first_ ra;
                 lru_ := fst (SimpleLRU.add i (lru_ ra));
                 map_ := setMapAt ra i (Some (SimpleLRU.nextNode (lru_ ra)));
                 availBits_ := Z.land (availBits_ ra) (not32 (shl32 1 i)) |}).
  assert (Hm1 : mapAt ra1 i = Some (Some (SimpleLRU.nextNode (lru_ ra))))
    by (apply (mapAt_insert_same first last); assumption).
  assert (Hb1 : isAvail ra1 i = false).
  { rewrite isAvail_testbit by lia. simpl. rewrite testbit_clear by lia.
    rewrite Z.eqb_refl. simpl. rewrite andb_false_r. reflexivity. }
  unfold free. rewrite Hm1, Hb1.
  destruct (Z.geb_spec i (first_ ra1)); [|simpl in *; lia].
  eexists. split; [reflexivity|]. simpl.
  split; [|split; [|split; [|reflexivity]]].
  - apply set_after_clear; [lia | exact Hpb |].
    intros j Hj. specialize (Hsub j Hj). lia.
  - unfold setMapAt. subst ra1. cbn [map_ first_]. unfold setMapAt.
    rewrite list_insert_insert_eq. apply list_insert_id. exact Hnone.
  - apply (remove_added_node (lru_ ra) i). exact Hfresh.
Qed.

(** The vector pool, asked for d20. *)
Lemma alloc_then_free_restores_witness :
  let ra := create kVecTemp in
  let ra1 := after [CallAlloc (Some 20)] ra in
  exists ra2, free ra1 20 = Done ra2 /\
              availBits_ ra2 = availBits_ ra /\
              map_ ra2 = map_ ra /\
              SimpleLRU.nodes (lru_ ra2) = SimpleLRU.nodes (lru_ ra) /\
              first_ ra2 = first_ ra.
Proof.
  intros ra ra1.
  apply (alloc_then_free_restores 16 31 ra ra1 (Some 20) 20).
  - unfold validRange; lia.
  - exists []. split; [constructor | reflexivity].
  - intros p [= <-]; lia.
  - vm_compute. reflexivity.
Defined.

(** What a successful [alloc] does to the pool, from [alloc_wellKept]. *)
Lemma alloc_some (first last : Z) (ra ra' : TempRegAlloc)
    (preferred : option Z) (i : Z) :
  validRange first last -> wellKept first last ra ->
  (forall p, preferred = Some p -> 0 <= p < 32) ->
  alloc ra preferred = Done (Some i, ra') ->
  wellKept first last ra' /\ freeBit ra i /\
  (forall j, freeBit ra' j <-> freeBit ra j /\ j <> i).
Proof.
  intros Hv Hk Hpref Ha.
  destruct (alloc_wellKept first last ra preferred Hv Hk Hpref)
    as [[_ E] | (_ & ra1 & E & Hk1 & Hpb & Hbits & _)];
    rewrite E in Ha; [discriminate|].
  assert (Ei : i = picked ra preferred) by congruence.
  assert (Er : ra' = ra1) by congruence. subst i ra'.
  split; [exact Hk1|]. split; [exact Hpb | exact Hbits].
Qed.

(** X6.  [alloc] never hands out a register twice: the register it returns was
    free, afterwards it is marked allocated and no other register changed its
    state, and no later [alloc] returns it before it is freed. *)
Theorem alloc_takes_a_free_register (first last : Z) (ra ra' : TempRegAlloc)
    (preferred : option Z) (i : Z) :
  validRange first last -> reachable first last ra ->
  (forall p, preferred = Some p -> 0 <= p < 32) ->
  alloc ra preferred = Done (Some i, ra') ->
  freeBit ra i /\
  (forall j, freeBit ra' j <-> freeBit ra j /\ j <> i) /\
  (forall q r ra'',
     (forall p, q = Some p -> 0 <= p < 32) ->
     alloc ra' q = Done (Some r, ra'') -> r <> i).
Proof.
  intros Hv Hreach Hpref Ha.
  pose proof (reachable_wellKept first last ra Hv Hreach) as Hk.
  destruct (alloc_some first last ra ra' preferred i Hv Hk Hpref Ha)
    as (Hk' & Hpb & Hbits).
  split; [exact Hpb|]. split; [exact Hbits|].
  intros q r ra'' Hq Ha2.
  destruct (alloc_some first last ra' ra'' q r Hv Hk' Hq Ha2) as (_ & Hr & _).
  apply Hbits in Hr as [_ Hne]. exact Hne.
Qed.

(** The general-purpose pool: x3 is taken, a second request for x3 gets
    another register. *)
Lemma alloc_takes_a_free_register_witness :
  let ra := create kGPTemp in
  let ra' := after [CallAlloc (Some 3)] ra in
  freeBit ra 3 /\
  (forall j, freeBit ra' j <-> freeBit ra j /\ j <> 3) /\
  (forall q r ra'',
     (forall p, q = Some p -> 0 <= p < 32) ->
     alloc ra' q = Done (Some r, ra'') -> r <> 3).
Proof.
  intros ra ra'.
  apply (alloc_takes_a_free_register 0 15 ra ra' (Some 3) 3).
  - unfold validRange; lia.
  - exists []. split; [constructor | reflexivity].
  - intros p [= <-]; lia.
  - vm_compute. reflexivity.
Defined.

(** X7.  [free] of a register that is not allocated is caught by its
    assertion: in every state a pool can reach, [free(i)] of a free register
    of the pool fails "map shows the tmpreg is freed", and so does a second
    [free(i)] right after a first. *)
Theorem double_free_is_caught (first last : Z) (ra : TempRegAlloc) (i : Z) :
  validRange first last -> reachable first last ra -> first <= i <= last ->
  (freeBit ra i -> free ra i = Assert "map shows the tmpreg is freed") /\
  (forall ra', free ra i = Done ra' ->
               free ra' i = Assert "map shows the tmpreg is freed").
Proof.
  intros Hv Hreach Hi.
  pose proof (reachable_wellKept first last ra Hv Hreach) as Hk.
  destruct (free_wellKept first last ra i Hv Hk Hi) as [Hfr Hus].
  split; [exact Hfr|].
  intros ra' E. destruct (freeBit_dec ra i) as [Hb|Hnb].
  - rewrite (Hfr Hb) in E. discriminate.
  - destruct (Hus Hnb) as (ra1 & E1 & Hk1 & Hbits).
    assert (ra' = ra1) by congruence. subst ra1.
    apply (free_wellKept first last ra' i Hv Hk1 Hi).
    apply Hbits. right. reflexivity.
Qed.

(** d16 is allocated and freed twice. *)
Lemma double_free_is_caught_witness :
  let ra := after [CallAlloc None] (create kVecTemp) in
  (freeBit ra 16 -> free ra 16 = Assert "map shows the tmpreg is freed") /\
  (forall ra', free ra 16 = Done ra' ->
               free ra' 16 = Assert "map shows the tmpreg is freed").
Proof.
  intros ra.
  apply (double_free_is_caught 16 31 ra 16).
  - unfold validRange; lia.
  - exists [CallAlloc None].
    split; [repeat constructor | vm_compute; reflexivity].
  - lia.
Defined.

(** X8.  The register [leastRecentlyUsed()] names for spilling is an allocated
    register of the pool, never a free one; and the list has no least recent
    node, so that [*lru_.leastRecent()] has nothing to dereference ([None]),
    exactly when every register of the pool is free. *)
Theorem leastRecentlyUsed_is_allocated (first last : Z) (ra : TempRegAlloc) :
  validRange first last -> reachable first last ra ->
  (leastRecentlyUsed ra = None
   <-> forall i, first <= i <= last -> freeBit ra i) /\
  (forall v, leastRecentlyUsed ra = Some v ->
             first <= v <= last /\ ~ freeBit ra v).
Proof.
  intros Hv Hreach.
  pose proof (reachable_wellKept first last ra Hv Hreach) as Hk.
  pose proof (reachable_lruTracks first last ra Hv Hreach) as Ht.
  pose proof Hk as (_ & _ & _ & _ & Hused & _).
  unfold leastRecentlyUsed, SimpleLRU.leastRecent.
  destruct (SimpleLRU.nodes (lru_ ra)) as [|[p v] rest] eqn:En.
  - split.
    + split; [|reflexivity]. intros _ i Hi.
      destruct (freeBit_dec ra i) as [Hb|Hnb]; [exact Hb|].
      destruct (Hused i Hi Hnb) as (q & _ & Hl).
      unfold SimpleLRU.live in Hl. rewrite En in Hl. destruct Hl.
    + intros v [=].
  - assert (Hl : SimpleLRU.live p v (lru_ ra))
      by (unfold SimpleLRU.live; rewrite En; left; reflexivity).
    destruct (live_is_allocated first last ra p v Hk Ht Hl) as [Hvr Hnb].
    split.
    + split; [discriminate|]. intros Hall. exfalso. apply Hnb, Hall, Hvr.
    + intros w [= <-]. simpl. split; assumption.
Qed.

(** The vector pool after d16 and d20 were allocated and d16 was used. *)
Lemma leastRecentlyUsed_is_allocated_witness :
  let ra := after [CallAlloc None; CallAlloc (Some 20); CallUse 16]
              (create kVecTemp) in
  (leastRecentlyUsed ra = None <-> forall i, 16 <= i <= 31 -> freeBit ra i) /\
  (forall v, leastRecentlyUsed ra = Some v -> 16 <= v <= 31 /\ ~ freeBit ra v).
Proof.
  intros ra.
  apply (leastRecentlyUsed_is_allocated 16 31 ra).
  - unfold validRange; lia.
  - exists [CallAlloc None; CallAlloc (Some 20); CallUse 16].
    split; [repeat constructor; simpl; lia | vm_compute; reflexivity].
Defined.

Lemma leastRecent_hd (l : SimpleLRU.t) :
  SimpleLRU.leastRecent l
  = option_map snd (List.hd_error (SimpleLRU.nodes l)).
Proof. unfold SimpleLRU.leastRecent. destruct (SimpleLRU.nodes l); reflexivity. Qed.

(** X9.  A register that was just touched is not the one to spill while
    another register is allocated: after [use(i)] of an allocated register,
    [leastRecentlyUsed()] is an allocated register other than [i]; and an
    [alloc] leaves [leastRecentlyUsed()] as it was, so it never names the
    register just handed out. *)
Theorem touched_register_is_not_spilled (first last : Z) (ra : TempRegAlloc)
    (i j : Z) :
  validRange first last -> reachable first last ra ->
  first <= i <= last -> first <= j <= last -> i <> j -> ~ freeBit ra j ->
  (forall ra', ~ freeBit ra i -> use ra i = Done ra' ->
               exists v, leastRecentlyUsed ra' = Some v /\ v <> i /\
                         ~ freeBit ra' v) /\
  (forall preferred r ra',
     (forall p, preferred = Some p -> 0 <= p < 32) ->
     alloc ra preferred = Done (Some r, ra') ->
     leastRecentlyUsed ra' = leastRecentlyUsed ra /\
     leastRecentlyUsed ra' <> Some r).
Proof.
  intros Hv Hreach Hi Hj Hij Hnj.
  pose proof (reachable_wellKept first last ra Hv Hreach) as Hk.
  pose proof (reachable_lruTracks first last ra Hv Hreach) as Ht.
  pose proof Hk as (_ & _ & _ & Hfree & Hused & Hnd & _).
  destruct (Hused j Hj Hnj) as (pj & Hpj & Hlj).
  split.
  - intros ra' Hni Hu.
    destruct (use_explicit first last ra i Hv Hk Hi Hni) as (pi & Hpi & Hli & E).
    rewrite E in Hu. injection Hu as <-.
    assert (Hpne : pj <> pi).
    { intros ->. apply Hij. symmetry.
      apply (nodup_fst_inj _ pi j i Hnd Hlj Hli). }
    unfold leastRecentlyUsed. simpl. rewrite leastRecent_hd. simpl.
    assert (Hinj : In (pj, j) (List.filter (fun e => negb (SimpleLRU.isNode pi e))
                                 (SimpleLRU.nodes (lru_ ra)))).
    { apply List.filter_In. split; [exact Hlj|].
      unfold SimpleLRU.isNode; simpl. apply negb_true_iff, Nat.eqb_neq. exact Hpne. }
    destruct (List.filter (fun e => negb (SimpleLRU.isNode pi e))
                (SimpleLRU.nodes (lru_ ra))) as [|[p v] rest] eqn:Ef;
      [destruct Hinj|].
    simpl. exists v. split; [reflexivity|].
    assert (Hin : In (p, v) (List.filter (fun e => negb (SimpleLRU.isNode pi e))
                               (SimpleLRU.nodes (lru_ ra))))
      by (rewrite Ef; left; reflexivity).
    apply List.filter_In in Hin as [Hin Hp].
    unfold SimpleLRU.isNode in Hp; simpl in Hp.
    apply negb_true_iff, Nat.eqb_neq in Hp.
    destruct (Ht p v Hin) as [Hvr Hm].
    split.
    + intros ->. rewrite Hpi in Hm. injection Hm as ->. contradiction.
    + unfold freeBit; simpl.
      apply (live_is_allocated first last ra p v Hk Ht Hin).
  - intros preferred r ra' Hpref Ha.
    destruct (Z.eq_dec (availBits_ ra) 0) as [E0|Hne].
    { destruct (alloc_wellKept first last ra preferred Hv Hk Hpref)
        as [[_ E] | (Hne & _)]; [|contradiction].
      rewrite E in Ha. discriminate. }
    destruct (alloc_explicit first last ra preferred Hv Hk Hpref Hne)
      as (Hpb & Hin & Hnone & E).
    rewrite E in Ha.
    assert (Er : r = picked ra preferred) by congruence.
    assert (Era : leastRecentlyUsed ra' = leastRecentlyUsed ra).
    { injection Ha as _ <-. unfold leastRecentlyUsed. simpl.
      rewrite !leastRecent_hd. simpl.
      unfold SimpleLRU.live in Hlj.
      destruct (SimpleLRU.nodes (lru_ ra)) as [|e rest]; [destruct Hlj|].
      reflexivity. }
    split; [exact Era|]. rewrite Era. intros Hlru.
    unfold leastRecentlyUsed in Hlru. rewrite leastRecent_hd in Hlru.
    destruct (SimpleLRU.nodes (lru_ ra)) as [|[p v] rest] eqn:En;
      [discriminate|].
    simpl in Hlru. injection Hlru as ->.
    assert (Hl : SimpleLRU.live p r (lru_ ra))
      by (unfold SimpleLRU.live; rewrite En; left; reflexivity).
    destruct (live_is_allocated first last ra p r Hk Ht Hl) as [_ Hnb].
    apply Hnb. rewrite Er. exact Hpb.
Qed.

(** d16 and d20 are allocated; d16 is used. *)
Lemma touched_register_is_not_spilled_witness :
  let ra := after [CallAlloc None; CallAlloc (Some 20)] (create kVecTemp) in
  (forall ra', ~ freeBit ra 16 -> use ra 16 = Done ra' ->
               exists v, leastRecentlyUsed ra' = Some v /\ v <> 16 /\
                         ~ freeBit ra' v) /\
  (forall preferred r ra',
     (forall p, preferred = Some p -> 0 <= p < 32) ->
     alloc ra preferred = Done (Some r, ra') ->
     leastRecentlyUsed ra' = leastRecentlyUsed ra /\
     leastRecentlyUsed ra' <> Some r).
Proof.
  intros ra.
  apply (touched_register_is_not_spilled 16 31 ra 16 20).
  - unfold validRange; lia.
  - exists [CallAlloc None; CallAlloc (Some 20)].
    split; [repeat constructor; simpl; lia | vm_compute; reflexivity].
  - lia.
  - lia.
  - lia.
  - vm_compute. discriminate.
Defined.

(** X10.  [bitMask32(first, last)] is the word with exactly the bits
    [first..last] set, [2^(last+1) - 2^first], for every range of register
    numbers that is shorter than 32. *)
Theorem bitMask32_sets_the_range (first last : Z) :
  validRange first last ->
  bitMask32 first last = 2 ^ (last + 1) - 2 ^ first /\
  (forall j, Z.testbit (bitMask32 first last) j = true <-> first <= j <= last).
Proof.
  intros Hv. split; [|intros j; apply bitMask32_spec; exact Hv].
  destruct Hv as (Hf & Hfl & Hl & Hn). unfold bitMask32.
  assert (E1 : sub32 last first = last - first)
    by (unfold sub32, wrap32; apply Z.mod_small; lia).
  assert (E2 : add32 (last - first) 1 = last - first + 1)
    by (unfold add32, wrap32; apply Z.mod_small; lia).
  rewrite E1, E2, shl32_one by lia.
  assert (Hp : 0 < 2 ^ (last - first + 1) < 2 ^ 32).
  { split; [apply Z.pow_pos_nonneg; lia | apply Z.pow_lt_mono_r; lia]. }
  assert (E3 : sub32 (2 ^ (last - first + 1)) 1 = 2 ^ (last - first + 1) - 1)
    by (unfold sub32, wrap32; apply Z.mod_small; lia).
  rewrite E3. unfold shl32, wrap32. rewrite Z.shiftl_mul_pow2 by lia.
  assert (E4 : (2 ^ (last - first + 1) - 1) * 2 ^ first
               = 2 ^ (last + 1) - 2 ^ first).
  { rewrite Z.mul_sub_distr_r, <- Z.pow_add_r by lia.
    replace (last - first + 1 + first) with (last + 1) by lia. lia. }
  rewrite E4. apply Z.mod_small.
  assert (0 < 2 ^ first) by (apply Z.pow_pos_nonneg; lia).
  assert (2 ^ first <= 2 ^ (last + 1)) by (apply Z.pow_le_mono_r; lia).
  assert (2 ^ (last + 1) <= 2 ^ 32) by (apply Z.pow_le_mono_r; lia).
  lia.
Qed.

(** The two temporary ranges. *)
Lemma bitMask32_sets_the_range_witness :
  bitMask32 (fst kGPTemp) (snd kGPTemp) = 2 ^ (15 + 1) - 2 ^ 0 /\
  bitMask32 (fst kVecTemp) (snd kVecTemp) = 2 ^ (31 + 1) - 2 ^ 16.
Proof.
  split.
  - apply (bitMask32_sets_the_range 0 15). unfold validRange; lia.
  - apply (bitMask32_sets_the_range 16 31). unfold validRange; lia.
Defined.

(** *** The capacity of a pool *)

Lemma allocMany_from (first last : Z) (k : nat) :
  validRange first last ->
  forall lo ra,
  wellKept first last ra ->
  (forall j, freeBit ra j <-> lo <= j <= last) ->
  first <= lo -> Z.of_nat k = last - lo + 1 ->
  exists ra', allocMany (S k) ra
              = Done (List.map Some (seqZ lo (Z.of_nat k)) ++ [None], ra').
Proof.
  intros Hv. induction k as [|k IH]; intros lo ra Hk Hfree Hlo Hlen.
  - assert (E0 : availBits_ ra = 0).
    { apply zero_no_bits. intros j Hj.
      destruct (Z.testbit (availBits_ ra) j) eqn:Hb; [|reflexivity].
      apply Hfree in Hb. lia. }
    exists ra. simpl. unfold alloc. rewrite E0. reflexivity.
  - pose proof Hv as (Hv0 & Hv1 & Hv2 & Hv3).
    assert (Hlob : freeBit ra lo) by (apply Hfree; lia).
    assert (Hne : availBits_ ra <> 0).
    { intros E0. unfold freeBit in Hlob. rewrite E0, Z.bits_0 in Hlob.
      discriminate. }
    assert (Hpick : picked ra None = lo).
    { unfold picked.
      destruct (findFirstSet_spec (availBits_ ra) lo) as (Hr & Hrb & _);
        [lia | exact Hlob |].
      apply Hfree in Hrb. lia. }
    destruct (alloc_wellKept first last ra None Hv Hk)
      as [[E0 _] | (_ & ra1 & E & Hk1 & _ & Hbits & _)];
      [intros p [=] | contradiction |].
    rewrite Hpick in E, Hbits.
    destruct (IH (lo + 1) ra1 Hk1) as (ra' & E'); [| lia | lia |].
    { intros j. rewrite Hbits, Hfree. lia. }
    exists ra'.
    change (allocMany (S (S k)) ra)
      with (match alloc ra None with
            | Done (r, ra0) =>
                match allocMany (S k) ra0 with
                | Done (rs, ra'') => Done (r :: rs, ra'')
                | Assert msg => Assert msg
                | Undefined => Undefined
                end
            | Assert msg => Assert msg
            | Undefined => Undefined
            end).
    rewrite E, E'. rewrite (seqZ_cons lo (Z.of_nat (S k))) by lia.
    replace (Z.pred (Z.of_nat (S k))) with (Z.of_nat k) by lia.
    replace (Z.succ lo) with (lo + 1) by lia. reflexivity.
Qed.

(** X11.  A fresh pool over [first..last] hands out its registers in ascending
    order and holds exactly [last - first + 1] of them: that many calls of
    [alloc()] return [first], [first + 1], ..., [last], and the next one
    returns none. *)
Theorem fresh_pool_allocates_in_order (first last : Z) :
  validRange first last ->
  exists ra,
    allocMany (S (Z.to_nat (last - first + 1))) (create (first, last))
    = Done (List.map Some (seqZ first (last - first + 1)) ++ [None], ra).
Proof.
  intros Hv. pose proof Hv as (Hv0 & Hv1 & Hv2 & Hv3).
  destruct (allocMany_from first last (Z.to_nat (last - first + 1)) Hv first
              (create (first, last))) as (ra & E).
  - apply create_wellKept. exact Hv.
  - intros j. apply (bitMask32_spec first last j Hv).
  - lia.
  - lia.
  - exists ra. rewrite E. rewrite Z2Nat.id by lia. reflexivity.
Qed.

(** The callee-saved general-purpose range, x22..x28. *)
Lemma fresh_pool_allocates_in_order_witness :
  exists ra,
    allocMany 8 (create kGPSaved)
    = Done ([Some 22; Some 23; Some 24; Some 25; Some 26; Some 27; Some 28;
             None], ra).
Proof.
  destruct (fresh_pool_allocates_in_order 22 28) as (ra & E).
  - unfold validRange; lia.
  - exists ra. exact E.
Defined.

End TempRegAllocFacts.

(** ** Hardware registers *)

Module HWRegFacts.
Import JitEmitter TempRegAllocFacts.

Lemma land_low (n i : Z) : 0 <= n -> 0 <= i < 2 ^ n -> Z.land i (Z.ones n) = i.
Proof. intros Hn Hi. rewrite Z.land_ones by lia. apply Z.mod_small. exact Hi. Qed.

Lemma wrap8_vec (i : Z) : 0 <= i < 224 -> wrap8 (i + 32) = i + 32.
Proof. intros Hi. unfold wrap8. apply Z.mod_small. lia. Qed.

Lemma vec_indexInClass (i : Z) : 0 <= i < 32 -> Z.land (i + 32) 31 = i.
Proof.
  intros Hi. change 31 with (Z.ones 5). rewrite Z.land_ones by lia.
  change (2 ^ 5) with 32. replace (i + 32) with (i + 1 * 32) by lia.
  rewrite Z.mod_add by lia. apply Z.mod_small. exact Hi.
Qed.

Lemma gpX_fields (i : Z) :
  0 <= i < 32 ->
  let r := HWReg.tagged i HWReg.GpX in
  HWReg.isValid r = true /\ HWReg.isGpX r = Ok true /\
  HWReg.isVecD r = Ok false /\ HWReg.indexInClass r = Ok i /\
  HWReg.combinedIndex r = Ok i.
Proof.
  intros Hi r. subst r.
  assert (Hv : HWReg.isValid (HWReg.tagged i HWReg.GpX) = true).
  { unfold HWReg.isValid; simpl. destruct (Z.eqb_spec i 255); [lia | reflexivity]. }
  unfold HWReg.isGpX, HWReg.isVecD, HWReg.indexInClass, HWReg.combinedIndex.
  rewrite Hv. simpl.
  destruct (Z.ltb_spec i 32); [|lia].
  destruct (Z.geb_spec i 32); [lia|]. simpl.
  change 31 with (Z.ones 5). change 63 with (Z.ones 6).
  rewrite !land_low by (simpl; lia). repeat split; reflexivity.
Qed.

Lemma vecD_fields (i : Z) :
  0 <= i < 32 ->
  let r := HWReg.tagged i HWReg.VecD in
  HWReg.isValid r = true /\ HWReg.isGpX r = Ok false /\
  HWReg.isVecD r = Ok true /\ HWReg.indexInClass r = Ok i /\
  HWReg.combinedIndex r = Ok (32 + i).
Proof.
  intros Hi r. subst r.
  assert (Hv : HWReg.isValid (HWReg.tagged i HWReg.VecD) = true).
  { unfold HWReg.isValid; simpl. rewrite wrap8_vec by lia.
    destruct (Z.eqb_spec (i + 32) 255); [lia | reflexivity]. }
  unfold HWReg.isGpX, HWReg.isVecD, HWReg.indexInClass, HWReg.combinedIndex.
  rewrite Hv. simpl. rewrite wrap8_vec by lia.
  destruct (Z.ltb_spec (i + 32) 32); [lia|].
  destruct (Z.geb_spec (i + 32) 32); [|lia].
  destruct (Z.ltb_spec (i + 32) 64); [|lia]. simpl.
  rewrite vec_indexInClass by lia.
  change 63 with (Z.ones 6). rewrite land_low by (simpl; lia).
  repeat split; try reflexivity. f_equal. lia.
Qed.

(** X12.  A register made by [HWReg::gpX(i)] or [HWReg::vecD(i)] gives back
    its class and [i]: it is valid, of the class of its factory and not of the
    other, [indexInClass()] is [i], [combinedIndex()] is [i] for a GpX and [32
    + i] for a VecD, and the asmjit register of its class has id [i] while
    asking for the register of the other class fails the assertion. *)
Theorem hwreg_round_trip (i : Z) :
  0 <= i ->
  (i < 31 ->
   exists r, HWReg.gpX i = Ok r /\ HWReg.isValid r = true /\
             HWReg.isGpX r = Ok true /\ HWReg.isVecD r = Ok false /\
             HWReg.indexInClass r = Ok i /\ HWReg.combinedIndex r = Ok i /\
             HWReg.a64GpX r = Ok i /\
             HWReg.a64VecD r = AssertFail "isVecD()") /\
  (i < 32 ->
   exists r, HWReg.vecD i = Ok r /\ HWReg.isValid r = true /\
             HWReg.isVecD r = Ok true /\ HWReg.isGpX r = Ok false /\
             HWReg.indexInClass r = Ok i /\
             HWReg.combinedIndex r = Ok (32 + i) /\
             HWReg.a64VecD r = Ok i /\
             HWReg.a64GpX r = AssertFail "isGpX()").
Proof.
  intros H0. split; intros Hi.
  - exists (HWReg.tagged i HWReg.GpX).
    destruct (gpX_fields i) as (Hv & Hg & Hd & Hc & Hk); [lia|].
    unfold HWReg.gpX. destruct (Z.ltb_spec i 31); [|lia].
    unfold HWReg.a64GpX, HWReg.a64VecD. rewrite Hg, Hd, Hc.
    repeat split; assumption.
  - exists (HWReg.tagged i HWReg.VecD).
    destruct (vecD_fields i) as (Hv & Hg & Hd & Hc & Hk); [lia|].
    unfold HWReg.vecD. destruct (Z.ltb_spec i 32); [|lia].
    unfold HWReg.a64GpX, HWReg.a64VecD. rewrite Hg, Hd, Hc.
    repeat split; assumption.
Qed.

(** x7 and d7. *)
Lemma hwreg_round_trip_witness :
  (exists r, HWReg.gpX 7 = Ok r /\ HWReg.combinedIndex r = Ok 7) /\
  (exists r, HWReg.vecD 7 = Ok r /\ HWReg.combinedIndex r = Ok (32 + 7)).
Proof.
  destruct (hwreg_round_trip 7) as [Hg Hd]; [lia|].
  split.
  - destruct Hg as (r & E & _ & _ & _ & _ & Hk & _); [lia|].
    exists r. split; assumption.
  - destruct Hd as (r & E & _ & _ & _ & _ & Hk & _); [lia|].
    exists r. split; assumption.
Defined.

(** X13.  [combinedIndex()] names a slot of the 64-entry [hwRegs_] array, and
    it tells the registers of the two classes apart: two registers that are a
    GpX or a VecD have the same combined index only if they are the same
    register. *)
Theorem combinedIndex_is_a_slot (a b : HWReg.t) :
  0 <= HWReg.index_ a -> 0 <= HWReg.index_ b ->
  HWReg.isValidGpX a || HWReg.isValidVecD a = true ->
  HWReg.isValidGpX b || HWReg.isValidVecD b = true ->
  exists x y, HWReg.combinedIndex a = Ok x /\ HWReg.combinedIndex b = Ok y /\
              0 <= x < 64 /\ 0 <= y < 64 /\
              (x = y <-> HWReg.eqb a b = true).
Proof.
  intros Ha0 Hb0 Ha Hb.
  assert (Hsmall : forall r, 0 <= HWReg.index_ r ->
            HWReg.isValidGpX r || HWReg.isValidVecD r = true ->
            HWReg.index_ r < 64).
  { intros r Hr H. unfold HWReg.isValidGpX, HWReg.isValidVecD in H.
    apply orb_true_iff in H as [H|H].
    - apply Z.ltb_lt in H. lia.
    - apply andb_true_iff in H as [_ H]. apply Z.ltb_lt in H. lia. }
  pose proof (Hsmall a Ha0 Ha) as Ha64. pose proof (Hsmall b Hb0 Hb) as Hb64.
  exists (HWReg.index_ a), (HWReg.index_ b).
  assert (Hc : forall r, 0 <= HWReg.index_ r < 64 ->
                         HWReg.combinedIndex r = Ok (HWReg.index_ r)).
  { intros r Hr. unfold HWReg.combinedIndex, HWReg.isValid.
    destruct (Z.eqb_spec (HWReg.index_ r) 255); [lia|]. simpl.
    change 63 with (Z.ones 6). rewrite land_low by (simpl; lia). reflexivity. }
  split; [apply Hc; lia|]. split; [apply Hc; lia|].
  split; [lia|]. split; [lia|].
  unfold HWReg.eqb. rewrite Z.eqb_eq. reflexivity.
Qed.

(** x3 against d3. *)
Lemma combinedIndex_is_a_slot_witness :
  exists x y,
    HWReg.combinedIndex (HWReg.tagged 3 HWReg.GpX) = Ok x /\
    HWReg.combinedIndex (HWReg.tagged 3 HWReg.VecD) = Ok y /\
    0 <= x < 64 /\ 0 <= y < 64 /\
    (x = y <-> HWReg.eqb (HWReg.tagged 3 HWReg.GpX)
                 (HWReg.tagged 3 HWReg.VecD) = true).
Proof.
  apply (combinedIndex_is_a_slot (HWReg.tagged 3 HWReg.GpX)
           (HWReg.tagged 3 HWReg.VecD)).
  - simpl; lia.
  - vm_compute; discriminate.
  - reflexivity.
  - reflexivity.
Defined.

(** X14.  The tagged constructors take any 8-bit index.  The register is of
    the class of its tag exactly for an index below 32; the VecD constructor
    keeps [index + 32] in eight bits, so index 223 gives the invalid register.
    The factories are stricter: [gpX] asserts an index below 31, [vecD] an
    index below 32. *)
Theorem tagged_constructors (index : Z) :
  is_uint8 index ->
  (HWReg.isValidGpX (HWReg.tagged index HWReg.GpX) = true <-> index < 32) /\
  (HWReg.isValidVecD (HWReg.tagged index HWReg.VecD) = true <-> index < 32) /\
  (HWReg.tagged index HWReg.VecD = HWReg.invalid <-> index = 223) /\
  (isOk (HWReg.gpX index) = true <-> index < 31) /\
  (isOk (HWReg.vecD index) = true <-> index < 32).
Proof.
  intros Hi. unfold is_uint8 in Hi.
  split; [unfold HWReg.isValidGpX; simpl; apply Z.ltb_lt|].
  assert (Hw : wrap8 (index + 32)
               = if index <? 224 then index + 32 else index - 224).
  { unfold wrap8. destruct (Z.ltb_spec index 224).
    - apply Z.mod_small. lia.
    - replace (index + 32) with (index - 224 + 1 * 2 ^ 8) by lia.
      rewrite Z.mod_add by lia. apply Z.mod_small. lia. }
  split.
  { unfold HWReg.isValidVecD; simpl. rewrite Hw.
    destruct (Z.ltb_spec index 224);
      rewrite andb_true_iff, Z.geb_le, Z.ltb_lt; lia. }
  split.
  { unfold HWReg.invalid; simpl. rewrite Hw.
    destruct (Z.ltb_spec index 224) as [Hlt|Hge]; split; intros E.
    - injection E as E. lia.
    - f_equal. lia.
    - injection E as E. lia.
    - lia. }
  split.
  - unfold HWReg.gpX. destruct (Z.ltb_spec index 31); simpl; split; intros;
      try lia; try reflexivity; discriminate.
  - unfold HWReg.vecD. destruct (Z.ltb_spec index 32); simpl; split; intros;
      try lia; try reflexivity; discriminate.
Qed.

(** x31: a GpX by its index, though [gpX(31)] is refused. *)
Lemma tagged_constructors_witness :
  (HWReg.isValidGpX (HWReg.tagged 31 HWReg.GpX) = true <-> 31 < 32) /\
  (isOk (HWReg.gpX 31) = true <-> 31 < 31).
Proof.
  destruct (tagged_constructors 31) as (H1 & _ & _ & H4 & _).
  - unfold is_uint8; lia.
  - split; assumption.
Defined.

Lemma isTemp_pool (i : Z) (r : HWReg.t) :
  0 <= i ->
  (HWReg.gpX i = Ok r ->
   isTemp r = Ok (Z.testbit (availBits_ (create kGPTemp)) i)) /\
  (HWReg.vecD i = Ok r ->
   isTemp r = Ok (Z.testbit (availBits_ (create kVecTemp)) i)).
Proof.
  intros H0.
  assert (Hgp : forall j, Z.testbit (availBits_ (create kGPTemp)) j = true
                          <-> 0 <= j <= 15).
  { intros j. apply (bitMask32_spec 0 15 j). unfold validRange. lia. }
  assert (Hvec : forall j, Z.testbit (availBits_ (create kVecTemp)) j = true
                           <-> 16 <= j <= 31).
  { intros j. apply (bitMask32_spec 16 31 j). unfold validRange. lia. }
  split; intros E.
  - unfold HWReg.gpX in E. destruct (Z.ltb_spec i 31); [|discriminate].
    injection E as <-.
    destruct (gpX_fields i) as (_ & Hg & _ & Hc & _); [lia|].
    cbn [HWReg.tagged] in Hg, Hc.
    unfold isTemp, isTempGpX. rewrite Hg, Hc. f_equal. simpl.
    apply eq_true_iff_eq. rewrite Hgp, andb_true_iff, Z.geb_le, Z.leb_le.
    reflexivity.
  - unfold HWReg.vecD in E. destruct (Z.ltb_spec i 32); [|discriminate].
    injection E as <-.
    destruct (vecD_fields i) as (_ & Hg & Hd & Hc & _); [lia|].
    cbn [HWReg.tagged] in Hg, Hd, Hc.
    unfold isTemp, isTempVecD. rewrite Hg, Hd, Hc. f_equal. simpl.
    apply eq_true_iff_eq. rewrite Hvec, andb_true_iff, Z.geb_le, Z.leb_le.
    reflexivity.
Qed.

(** X15.  [isTemp] is membership in the pool of its class: for a register made
    by [gpX(i)] it is bit [i] of the mask the general-purpose pool starts
    with, for a register made by [vecD(i)] bit [i] of the mask the vector pool
    starts with. *)
Theorem isTemp_is_pool_membership (i : Z) (r : HWReg.t) :
  0 <= i ->
  (HWReg.gpX i = Ok r ->
   isTemp r = Ok (Z.testbit (availBits_ (create kGPTemp)) i)) /\
  (HWReg.vecD i = Ok r ->
   isTemp r = Ok (Z.testbit (availBits_ (create kVecTemp)) i)).
Proof. exact (isTemp_pool i r). Qed.

(** x15 is the last general-purpose temporary, d15 is callee-saved. *)
Lemma isTemp_is_pool_membership_witness :
  isTemp (HWReg.tagged 15 HWReg.GpX) = Ok true /\
  isTemp (HWReg.tagged 15 HWReg.VecD) = Ok false.
Proof.
  split.
  - destruct (isTemp_is_pool_membership 15 (HWReg.tagged 15 HWReg.GpX))
      as [H _]; [lia|].
    exact (H eq_refl).
  - destruct (isTemp_is_pool_membership 15 (HWReg.tagged 15 HWReg.VecD))
      as [_ H]; [lia|].
    exact (H eq_refl).
Defined.

(** X16.  Whatever a temporary pool hands out is a temporary: in every state
    the general-purpose pool can reach, the index [alloc] returns makes,
    through [gpX], a register for which [isTemp] is true; likewise for the
    vector pool and [vecD]. *)
Theorem allocated_registers_are_temps (ra ra' : TempRegAlloc)
    (preferred : option Z) (i : Z) :
  (forall p, preferred = Some p -> 0 <= p < 32) ->
  alloc ra preferred = Done (Some i, ra') ->
  (reachable (fst kGPTemp) (snd kGPTemp) ra ->
   exists r, HWReg.gpX i = Ok r /\ isTemp r = Ok true) /\
  (reachable (fst kVecTemp) (snd kVecTemp) ra ->
   exists r, HWReg.vecD i = Ok r /\ isTemp r = Ok true).
Proof.
  intros Hpref Ha.
  assert (Hin : forall first last, validRange first last ->
                  reachable first last ra -> first <= i <= last).
  { intros first last Hv Hr.
    pose proof (reachable_wellKept first last ra Hv Hr) as Hk.
    pose proof Hk as (_ & _ & Hsub & _).
    destruct (alloc_wellKept first last ra preferred Hv Hk Hpref)
      as [[_ E] | (_ & ra1 & E & _ & Hpb & _)];
      rewrite E in Ha; [discriminate|].
    injection Ha as <- _. apply Hsub. exact Hpb. }
  split; intros Hr.
  - assert (Hi : 0 <= i <= 15) by (apply Hin; [unfold validRange; simpl; lia | exact Hr]).
    exists (HWReg.tagged i HWReg.GpX).
    assert (E : HWReg.gpX i = Ok (HWReg.tagged i HWReg.GpX)).
    { unfold HWReg.gpX. destruct (Z.ltb_spec i 31); [reflexivity | lia]. }
    split; [exact E|].
    destruct (isTemp_pool i (HWReg.tagged i HWReg.GpX)) as [H _]; [lia|].
    rewrite (H E). f_equal.
    apply (bitMask32_spec 0 15 i); [unfold validRange; lia | lia].
  - assert (Hi : 16 <= i <= 31) by (apply Hin; [unfold validRange; simpl; lia | exact Hr]).
    exists (HWReg.tagged i HWReg.VecD).
    assert (E : HWReg.vecD i = Ok (HWReg.tagged i HWReg.VecD)).
    { unfold HWReg.vecD. destruct (Z.ltb_spec i 32); [reflexivity | lia]. }
    split; [exact E|].
    destruct (isTemp_pool i (HWReg.tagged i HWReg.VecD)) as [_ H]; [lia|].
    rewrite (H E). f_equal.
    apply (bitMask32_spec 16 31 i); [unfold validRange; lia | lia].
Qed.

(** The general-purpose pool, freshly constructed, asked for x3. *)
Lemma allocated_registers_are_temps_witness :
  exists r, HWReg.gpX 3 = Ok r /\ isTemp r = Ok true.
Proof.
  refine (proj1 (allocated_registers_are_temps (create kGPTemp) _ (Some 3) 3
                   _ _) _).
  - intros p [= <-]. lia.
  - vm_compute. reflexivity.
  - exists []. split; [constructor | reflexivity].
Defined.

(** X17.  [allocTempGpX] and [allocTempVecD] look at the class of a preferred
    register before they touch the pool: a preferred register of the class
    asked for is passed on, one of the other class fails "invalid preferred
    register", and the invalid register already fails the assertion inside
    [isGpX()], respectively [isVecD()]. *)
Theorem allocTemp_checks_the_class (Allocated : Type)
    (_allocTemp : HWReg.Tag -> option HWReg.t -> Allocated) (p : HWReg.t) :
  0 <= HWReg.index_ p ->
  (HWReg.isValidGpX p = true ->
   allocTempGpX Allocated _allocTemp (Some p)
   = Ok (_allocTemp HWReg.GpX (Some p)) /\
   allocTempVecD Allocated _allocTemp (Some p)
   = AssertFail "invalid preferred register") /\
  (HWReg.isValidVecD p = true ->
   allocTempVecD Allocated _allocTemp (Some p)
   = Ok (_allocTemp HWReg.VecD (Some p)) /\
   allocTempGpX Allocated _allocTemp (Some p)
   = AssertFail "invalid preferred register") /\
  (HWReg.isValid p = false ->
   allocTempGpX Allocated _allocTemp (Some p) = AssertFail "isValid()" /\
   allocTempVecD Allocated _allocTemp (Some p) = AssertFail "isValid()").
Proof.
  intros H0.
  unfold allocTempGpX, allocTempVecD, HWReg.isGpX, HWReg.isVecD,
    HWReg.isValidGpX, HWReg.isValidVecD, HWReg.isValid.
  split; [|split].
  - intros H. apply Z.ltb_lt in H.
    destruct (Z.eqb_spec (HWReg.index_ p) 255); [lia|]. simpl.
    destruct (Z.ltb_spec (HWReg.index_ p) 32); [|lia].
    destruct (Z.geb_spec (HWReg.index_ p) 32); [lia|]. simpl.
    split; reflexivity.
  - intros H. apply andb_true_iff in H as [H1 H2].
    apply Z.geb_le in H1. apply Z.ltb_lt in H2.
    destruct (Z.eqb_spec (HWReg.index_ p) 255); [lia|]. simpl.
    destruct (Z.ltb_spec (HWReg.index_ p) 32); [lia|].
    destruct (Z.geb_spec (HWReg.index_ p) 32); [|lia].
    destruct (Z.ltb_spec (HWReg.index_ p) 64); [|lia]. simpl.
    split; reflexivity.
  - intros H. rewrite H. split; reflexivity.
Qed.

(** d16 as the preferred register. *)
Lemma allocTemp_checks_the_class_witness :
  allocTempVecD (option HWReg.t) (fun _ p => p)
    (Some (HWReg.tagged 16 HWReg.VecD))
  = Ok (Some (HWReg.tagged 16 HWReg.VecD)) /\
  allocTempGpX (option HWReg.t) (fun _ p => p)
    (Some (HWReg.tagged 16 HWReg.VecD))
  = AssertFail "invalid preferred register".
Proof.
  destruct (allocTemp_checks_the_class (option HWReg.t) (fun _ p => p)
              (HWReg.tagged 16 HWReg.VecD)) as (_ & H & _).
  - vm_compute. discriminate.
  - apply H. reflexivity.
Defined.

End HWRegFacts.

(** ** The unary arithmetic methods of the emitter *)

Module EmitterFacts.
Import JitEmitter.

(** C8.  For every result and input frame register, [inc] and [dec] are the
    same expansion of the unary template [arithUnop]: not forced to number,
    and with one and the same inline body, which emits
    [fmov tmp, -1.0; fadd d, s, tmp].  The two calls differ in the slow-path
    helper, [_sh_ljs_inc_rjs] against [_sh_ljs_dec_rjs], and in the strings
    that name the method and the helper. *)
Theorem inc_dec_same_fast_path (Emitter : Type)
    (arithUnop : bool -> FR -> FR -> string -> FastUnop -> Helper -> string ->
                 Emitter -> Emitter)
    (rRes rInput : FR) :
  exists body : FastUnop,
    (forall a d s tmp, body a d s tmp = a ++ [fmov tmp minusOne; fadd d s tmp]) /\
    inc Emitter arithUnop rRes rInput
    = arithUnop false rRes rInput "inc"%string body
        _sh_ljs_inc_rjs "_sh_ljs_inc_rjs"%string /\
    dec Emitter arithUnop rRes rInput
    = arithUnop false rRes rInput "dec"%string body
        _sh_ljs_dec_rjs "_sh_ljs_dec_rjs"%string.
Proof.
  exists (fun a d s tmp => emit (fadd d s tmp) (emit (fmov tmp minusOne) a)).
  split; [|split; reflexivity].
  intros a d s tmp. unfold emit. rewrite <- List.app_assoc. reflexivity.
Qed.

(** A template that only records the inline code cannot tell the two apart. *)
Example inc_dec_emit_the_same (rRes rInput : FR) (d s tmp : VecD) :
  let onlyFast := fun (_ : bool) (_ _ : FR) (_ : string) (fast : FastUnop)
                      (_ : Helper) (_ : string) (a : Assembler) =>
                    fast a d s tmp in
  inc Assembler onlyFast rRes rInput [] = [fmov tmp minusOne; fadd d s tmp] /\
  dec Assembler onlyFast rRes rInput [] = [fmov tmp minusOne; fadd d s tmp].
Proof. split; reflexivity. Qed.

End EmitterFacts.

(** ** The function entry and exit trace *)

Module JitHandlersFacts.
Import JitHandlers.

Lemma add32_uint32 (x y : Z) : is_uint32 (add32 x y).
Proof. unfold is_uint32, add32, wrap32. apply Z.mod_pos_bound. lia. Qed.

Lemma sub32_uint32 (x y : Z) : is_uint32 (sub32 x y).
Proof. unfold is_uint32, sub32, wrap32. apply Z.mod_pos_bound. lia. Qed.

Lemma sub32_add32_one (x : Z) : is_uint32 x -> sub32 (add32 x 1) 1 = x.
Proof.
  intros Hx. unfold is_uint32 in Hx. unfold sub32, add32, wrap32.
  rewrite Zminus_mod_idemp_l. replace (x + 1 - 1) with x by lia.
  apply Z.mod_small. exact Hx.
Qed.

Lemma trace_app (a b : list (bool * string)) (t : Trace) :
  trace (a ++ b) t = trace b (trace a t).
Proof. unfold trace. apply List.fold_left_app. Qed.

Lemma call_uint32 (enter : bool) (msg : string) (t : Trace) :
  is_uint32 (level (_sh_print_function_entry_exit enter msg t)).
Proof.
  unfold _sh_print_function_entry_exit. destruct enter; simpl;
    [apply add32_uint32 | apply sub32_uint32].
Qed.

Lemma trace_enter (msg : string) (t : Trace) :
  trace [(true, msg)] t
  = {| level := add32 (level t) 1;
       printed := printed t ++ [{| width := wrap32 (level t * 4);
                                   entered := true; text := msg |}] |}.
Proof. reflexivity. Qed.

Lemma trace_leave (msg : string) (t : Trace) :
  trace [(false, msg)] t
  = {| level := sub32 (level t) 1;
       printed := printed t ++ [{| width := wrap32 (sub32 (level t) 1 * 4);
                                   entered := false; text := msg |}] |}.
Proof. reflexivity. Qed.

(** What a nested call sequence does to the trace. *)
Lemma nested_trace (calls : list (bool * string)) :
  nested calls ->
  forall t, is_uint32 (level t) ->
  level (trace calls t) = level t /\
  exists lines, printed (trace calls t) = printed t ++ lines /\
                length lines = length calls.
Proof.
  induction 1 as [|a b _ IHa _ IHb|msg body msg' _ IH]; intros t Ht.
  - split; [reflexivity|]. exists []. split; [symmetry; apply List.app_nil_r | reflexivity].
  - rewrite trace_app.
    destruct (IHa t Ht) as (La & la & Pa & Na).
    assert (Ht' : is_uint32 (level (trace a t))) by (rewrite La; exact Ht).
    destruct (IHb (trace a t) Ht') as (Lb & lb & Pb & Nb).
    split; [rewrite Lb; exact La|].
    exists (la ++ lb). split.
    + rewrite Pb, Pa. symmetry. apply List.app_assoc.
    + rewrite !List.length_app. lia.
  - change ((true, msg) :: body ++ [(false, msg')])
      with ([(true, msg)] ++ body ++ [(false, msg')]).
    rewrite !trace_app, trace_leave.
    assert (Ht1 : is_uint32 (level (trace [(true, msg)] t))) by apply call_uint32.
    destruct (IH _ Ht1) as (L & lines & P & N).
    rewrite L, P, trace_enter. simpl.
    split; [apply sub32_add32_one; exact Ht|].
    eexists. split; [rewrite <- !List.app_assoc; reflexivity|].
    simpl. rewrite !List.length_app. simpl. lia.
Qed.

(** X18.  The trace of a call is indented consistently: around any nested
    sequence of calls, the "Leave" line of a call is printed with the width of
    its "Enter" line, four columns per open call, every call in between prints
    one line, and the nesting level afterwards is the level before. *)
Theorem leave_lines_up_with_enter (body : list (bool * string))
    (msg msg' : string) (t : Trace) :
  nested body -> is_uint32 (level t) ->
  let t' := trace ((true, msg) :: body ++ [(false, msg')]) t in
  level t' = level t /\
  exists lines,
    printed t'
    = printed t
      ++ [{| width := wrap32 (level t * 4); entered := true; text := msg |}]
      ++ lines
      ++ [{| width := wrap32 (level t * 4); entered := false; text := msg' |}]
    /\ length lines = length body.
Proof.
  intros Hn Ht t'. subst t'.
  change ((true, msg) :: body ++ [(false, msg')])
    with ([(true, msg)] ++ body ++ [(false, msg')]).
  rewrite !trace_app, trace_leave.
  assert (Ht1 : is_uint32 (level (trace [(true, msg)] t))) by apply call_uint32.
  destruct (nested_trace body Hn _ Ht1) as (L & lines & P & N).
  rewrite L, P, trace_enter. simpl.
  rewrite (sub32_add32_one (level t) Ht).
  split; [reflexivity|].
  exists lines. split; [|exact N].
  rewrite <- !List.app_assoc. reflexivity.
Qed.

(** A call that calls another one, two levels deep already. *)
Lemma leave_lines_up_with_enter_witness :
  let t := {| level := 2; printed := [] |} in
  let t' := trace [(true, "f"%string); (true, "g"%string);
                   (false, "g"%string); (false, "f"%string)] t in
  level t' = 2 /\
  exists lines,
    printed t'
    = [] ++ [{| width := wrap32 (2 * 4); entered := true; text := "f" |}]
      ++ lines
      ++ [{| width := wrap32 (2 * 4); entered := false; text := "f" |}]
    /\ length lines = 2%nat.
Proof.
  apply (leave_lines_up_with_enter
           [(true, "g"%string); (false, "g"%string)] "f" "f"
           {| level := 2; printed := [] |}).
  - exact (nested_call "g" [] "g" nested_nil).
  - unfold is_uint32; simpl; lia.
Defined.

Lemma enters_cons (c : bool * string) (calls : list (bool * string)) :
  enters (c :: calls) = (if fst c then 1 else 0) + enters calls.
Proof. unfold enters. simpl. destruct (fst c); simpl; lia. Qed.

Lemma leaves_cons (c : bool * string) (calls : list (bool * string)) :
  leaves (c :: calls) = (if fst c then 0 else 1) + leaves calls.
Proof. unfold leaves. simpl. destruct (fst c); simpl; lia. Qed.

(** X19.  The nesting level is a 32-bit counter of the calls made: after any
    sequence of calls it is the level before, plus the enters, minus the
    leaves, modulo 2^32, so a leave without an enter takes level 0 to 2^32 -
    1; and every call prints exactly one line. *)
Theorem level_counts_the_calls (calls : list (bool * string)) (t : Trace) :
  is_uint32 (level t) ->
  level (trace calls t) = wrap32 (level t + enters calls - leaves calls) /\
  length (printed (trace calls t))
  = (length (printed t) + length calls)%nat.
Proof.
  revert t. induction calls as [|c calls IH]; intros t Ht.
  - unfold trace, enters, leaves; simpl. split; [|lia].
    unfold is_uint32 in Ht. unfold wrap32. rewrite Z.mod_small by lia. lia.
  - change (trace (c :: calls) t)
      with (trace calls (_sh_print_function_entry_exit (fst c) (snd c) t)).
    destruct (IH (_sh_print_function_entry_exit (fst c) (snd c) t))
      as [L N]; [apply call_uint32|].
    rewrite L, N, enters_cons, leaves_cons.
    unfold _sh_print_function_entry_exit. destruct (fst c); simpl.
    + split; [|rewrite List.length_app; simpl; lia].
      unfold add32, wrap32.
      replace ((level t + 1) mod 2 ^ 32 + enters calls - leaves calls)
        with ((level t + 1) mod 2 ^ 32 + (enters calls - leaves calls)) by lia.
      rewrite Zplus_mod_idemp_l. f_equal. lia.
    + split; [|rewrite List.length_app; simpl; lia].
      unfold sub32, wrap32.
      replace ((level t - 1) mod 2 ^ 32 + enters calls - leaves calls)
        with ((level t - 1) mod 2 ^ 32 + (enters calls - leaves calls)) by lia.
      rewrite Zplus_mod_idemp_l. f_equal. lia.
Qed.

(** A leave at level 0. *)
Lemma level_counts_the_calls_witness :
  level (trace [(false, "f"%string)] {| level := 0; printed := [] |})
  = wrap32 (0 + enters [(false, "f"%string)] - leaves [(false, "f"%string)]) /\
  length (printed (trace [(false, "f"%string)] {| level := 0; printed := [] |}))
  = (0 + 1)%nat.
Proof.
  apply (level_counts_the_calls [(false, "f"%string)]
           {| level := 0; printed := [] |}).
  unfold is_uint32; simpl; lia.
Defined.

End JitHandlersFacts.

(** ** FunctionAnalysis *)

Module FunctionAnalysisFacts.
Import FunctionAnalysis.
Local Open Scope nat_scope.

(** *** Reading a module after an update *)

Lemma nth_alter {A} (f : A -> A) (l : list A) (i j : nat) (d : A) :
  List.nth j (alter f i l) d
  = if decide (i = j /\ j < length l) then f (List.nth j l d) else List.nth j l d.
Proof.
  rewrite !nth_lookup, list_lookup_alter.
  destruct (decide (i = j)) as [->|Hne].
  - destruct (l !! j) as [x|] eqn:E; simpl.
    + apply lookup_lt_Some in E. rewrite decide_True by (split; [reflexivity | exact E]).
      reflexivity.
    + apply lookup_ge_None in E. rewrite decide_False by lia. reflexivity.
  - rewrite decide_False by tauto. reflexivity.
Qed.

Lemma getInst_alterInst (f : Instruction -> Instruction) (i j : nat) (M : IRModule) :
  getInst (alterInst f i M) j
  = if decide (i = j /\ j < length (instructions M)) then f (getInst M j)
    else getInst M j.
Proof. unfold getInst, alterInst; simpl. apply nth_alter. Qed.

Lemma getInst_alterFunction (g : Function -> Function) (f i : nat) (M : IRModule) :
  getInst (alterFunction g f M) i = getInst M i.
Proof. reflexivity. Qed.

Lemma getFunction_alterFunction (g : Function -> Function) (f h : nat) (M : IRModule) :
  getFunction (alterFunction g f M) h
  = if decide (f = h /\ h < length (functions M)) then g (getFunction M h)
    else getFunction M h.
Proof. unfold getFunction, alterFunction; simpl. apply nth_alter. Qed.

Lemma getFunction_alterInst (f : Instruction -> Instruction) (i h : nat) (M : IRModule) :
  getFunction (alterInst f i M) h = getFunction M h.
Proof. reflexivity. Qed.

Lemma getInst_default (M : IRModule) (i : nat) :
  length (instructions M) <= i -> getInst M i = noInst.
Proof. intros H. unfold getInst. apply List.nth_overflow. exact H. Qed.

Lemma getFunction_default (M : IRModule) (f : nat) :
  length (functions M) <= f -> getFunction M f = noFunction.
Proof. intros H. unfold getFunction. apply List.nth_overflow. exact H. Qed.

Lemma call_is_valid (M : IRModule) (i : nat) (c : BaseCall) :
  kindOf M i = BaseCallInst c -> i < length (instructions M).
Proof.
  intros H. destruct (Nat.lt_ge_cases i (length (instructions M))) as [|Hge];
    [assumption|].
  unfold kindOf in H. rewrite getInst_default in H by exact Hge. discriminate.
Qed.

Lemma callOperands_kind (M : IRModule) (i : nat) (c : BaseCall) :
  callOperands M i = Some c <-> kindOf M i = BaseCallInst c.
Proof.
  unfold callOperands. split.
  - destruct (kindOf M i); intros H; try discriminate. congruence.
  - intros ->. reflexivity.
Qed.

(** *** C2 *)

(** C2.  [canEscapeThroughCall(c, F, CI)] is true exactly when the callee of
    [CI] is not [c], or [c] is one of the arguments of [CI], or [c] is the
    [newTarget] operand of [CI] and the [newTargetParam] of [F] has users. *)
Theorem canEscapeThroughCall_iff (M : IRModule) (C F : nat) (CI : BaseCall) :
  canEscapeThroughCall M C F CI = true <->
  callee CI <> InstValue C \/
  In (InstValue C) (arguments CI) \/
  (newTarget CI = InstValue C /\
   newTargetParamHasUsers (getFunction M F) = true).
Proof.
  unfold canEscapeThroughCall.
  destruct (bool_decide_reflect (callee CI = InstValue C)) as [Hc|Hc]; simpl.
  2:{ split; [intros _; left; exact Hc | reflexivity]. }
  destruct (List.existsb (fun a => bool_decide (InstValue C = a)) (arguments CI))
    eqn:Hargs.
  { split; [|reflexivity]. intros _. right. left.
    apply List.existsb_exists in Hargs as (a & Ha & Heq).
    apply bool_decide_eq_true in Heq. subst a. exact Ha. }
  assert (Hnot : ~ In (InstValue C) (arguments CI)).
  { intros Hin.
    assert (List.existsb (fun a => bool_decide (InstValue C = a)) (arguments CI)
            = true); [|congruence].
    apply List.existsb_exists. exists (InstValue C).
    split; [exact Hin | apply bool_decide_eq_true; reflexivity]. }
  destruct (bool_decide_reflect (InstValue C = newTarget CI)) as [Hn|Hn]; simpl.
  - destruct (newTargetParamHasUsers (getFunction M F)).
    + split; [|reflexivity]. intros _. right. right. split; congruence.
    + split; [discriminate|]. intros [H|[H|[_ H]]]; [contradiction | contradiction | discriminate].
  - split; [discriminate|]. intros [H|[H|[H _]]]; [contradiction | contradiction | congruence].
Qed.

Lemma valueEvolves_refl ok M v : valueEvolves ok M v v.
Proof. left. reflexivity. Qed.

Lemma kindEvolves_refl ok M k : kindEvolves ok M k k.
Proof.
  destruct k; simpl; auto.
  - repeat split; try (left; left; reflexivity); try (left; reflexivity).
    induction (arguments call); constructor; [left; reflexivity | assumption].
  - split; [reflexivity | left; reflexivity].
  - split; [reflexivity | left; reflexivity].
Qed.

Lemma kindEvolves_sameTag ok M k k' :
  kindEvolves ok M k k' ->
  closureKind k' = closureKind k /\
  (match k' with GetClosureScopeInst _ => true | _ => false end)
  = (match k with GetClosureScopeInst _ => true | _ => false end) /\
  (match k' with BaseCallInst _ => true | _ => false end)
  = (match k with BaseCallInst _ => true | _ => false end).
Proof. destruct k, k'; simpl; intros H; try contradiction; auto. Qed.

Lemma functionEvolves_refl M' f : functionEvolves M' f f.
Proof.
  repeat split; try reflexivity; [left; reflexivity|].
  exists []. split; [symmetry; apply List.app_nil_r | constructor].
Qed.

Lemma evolves_refl ok M : evolves ok M M.
Proof.
  repeat split; try reflexivity.
  - intros i. apply kindEvolves_refl.
  - intros i. left. reflexivity.
  - left; reflexivity.
  - exists []. split; [symmetry; apply List.app_nil_r | constructor].
Qed.

Lemma evolves_tags ok M M' i :
  evolves ok M M' ->
  isClosure M' i = isClosure M i /\
  isGetClosureScope M' i = isGetClosureScope M i /\
  isCall M' i = isCall M i.
Proof.
  intros (_ & _ & _ & Hk & _). specialize (Hk i).
  apply kindEvolves_sameTag in Hk. exact Hk.
Qed.

Section Transitivity.
Variable ok : nat -> Prop.
Variables M M' : IRModule.
Hypothesis tags : forall i, isGetClosureScope M' i = isGetClosureScope M i.

Lemma valueEvolves_trans a b c :
  valueEvolves ok M a b -> valueEvolves ok M' b c -> valueEvolves ok M a c.
Proof using tags.
  intros [->|(x & y & -> & Hx & -> & Hy)] [->|(x' & y' & E & Hx' & -> & Hy')].
  - left; reflexivity.
  - right. exists x', y'. rewrite <- tags. auto.
  - right. exists x, y. auto.
  - right. exists x, y'. auto.
Qed.

Lemma scopeEvolves_trans a b c :
  scopeEvolves ok M a b -> scopeEvolves ok M' b c -> scopeEvolves ok M a c.
Proof using tags.
  intros [->|[Hx Hy]] [->|[Hx' Hy']].
  - left; reflexivity.
  - right. rewrite <- tags. auto.
  - right. auto.
  - right. auto.
Qed.

Lemma targetEvolves_trans a b c :
  targetEvolves ok M a b -> targetEvolves ok M' b c -> targetEvolves ok M a c.
Proof using tags.
  intros [H1|[-> (F & ->)]] [H2|[E (F' & ->)]].
  - left. eapply valueEvolves_trans; eassumption.
  - subst b. destruct H1 as [E1|(x & y & _ & _ & E & _)]; [|discriminate].
    subst a. right. split; [reflexivity | exists F'; reflexivity].
  - destruct H2 as [E2|(x & y & E & _)]; [|discriminate].
    subst c. right. split; [reflexivity | exists F; reflexivity].
  - discriminate.
Qed.

Lemma environmentEvolves_trans a b c :
  environmentEvolves ok M a b -> environmentEvolves ok M' b c ->
  environmentEvolves ok M a c.
Proof using tags.
  intros [H1|[-> (s & -> & Hs)]] [H2|[E (s' & -> & Hs')]].
  - left. eapply valueEvolves_trans; eassumption.
  - subst b. destruct H1 as [E1|(x & y & _ & _ & E & _)]; [|discriminate].
    subst a. right. split; [reflexivity | exists s'; auto].
  - destruct H2 as [E2|(x & y & E & _ & E2 & Hy)]; subst c.
    + right. split; [reflexivity | exists s; auto].
    + right. split; [reflexivity | exists y; auto].
  - discriminate.
Qed.

Lemma kindEvolves_trans a b c :
  kindEvolves ok M a b -> kindEvolves ok M' b c -> kindEvolves ok M a c.
Proof using tags.
  destruct a, b; simpl; try contradiction; destruct c; simpl;
    try contradiction; try tauto.
  - intros (H1 & H2 & H3 & H4 & H5) (H1' & H2' & H3' & H4' & H5').
    repeat split.
    + eapply valueEvolves_trans; eassumption.
    + eapply targetEvolves_trans; eassumption.
    + eapply environmentEvolves_trans; eassumption.
    + eapply valueEvolves_trans; eassumption.
    + eapply Forall2_trans; [|exact H5|exact H5'].
      intros x y z. apply valueEvolves_trans.
  - intros [-> H] [-> H']. split; [reflexivity|].
    eapply scopeEvolves_trans; eassumption.
  - intros -> ->. reflexivity.
  - intros -> ->. reflexivity.
  - intros [-> H] [-> H']. split; [reflexivity|].
    eapply scopeEvolves_trans; eassumption.
Qed.
End Transitivity.

Lemma evolves_trans ok M M' M'' :
  evolves ok M M' -> evolves ok M' M'' -> evolves ok M M''.
Proof.
  intros H1 H2.
  assert (Htags : forall i, isGetClosureScope M' i = isGetClosureScope M i)
    by (intros i; apply (evolves_tags ok M M' i H1)).
  assert (Hcalls : forall i, isCall M'' i = isCall M' i)
    by (intros i; apply (evolves_tags ok M' M'' i H2)).
  destruct H1 as (L1 & F1 & V1 & K1 & U1 & G1 & N1).
  destruct H2 as (L2 & F2 & V2 & K2 & U2 & G2 & N2).
  split; [congruence|]. split; [congruence|]. split; [congruence|].
  split; [intros i; eapply kindEvolves_trans; [exact Htags | apply K1 | apply K2]|].
  split.
  { intros i. destruct (U2 i) as [E2|[?|H2]]; [|auto|rewrite Htags in H2; auto].
    destruct (U1 i) as [E1|[?|?]]; [left; congruence | auto | auto]. }
  split.
  { intros G. destruct (G1 G) as (a1 & b1 & c1 & d1 & e1 & x1 & Ex1 & Fx1).
    destruct (G2 G) as (a2 & b2 & c2 & d2 & e2 & x2 & Ex2 & Fx2).
    split; [congruence|]. split; [congruence|]. split; [congruence|].
    split; [congruence|]. split.
    { destruct e2 as [e2|e2]; [|right; exact e2].
      destruct e1 as [e1|e1]; [left|right]; congruence. }
    exists (x1 ++ x2). split; [rewrite Ex2, Ex1, List.app_assoc; reflexivity|].
    apply Forall_app. split; [|exact Fx2].
    eapply Forall_impl; [exact Fx1|]. intros u Hu. simpl in Hu.
    rewrite Hcalls. exact Hu. }
  intros G. specialize (N1 G). specialize (N2 G). lia.
Qed.

(** *** The primitive updates evolve the module *)

Lemma count_alter_le {A} (P : A -> bool) (f : A -> A) (i : nat) (l : list A) (d : A) :
  (P (f (List.nth i l d)) = true -> P (List.nth i l d) = true) ->
  length (List.filter P (alter f i l)) <= length (List.filter P l).
Proof.
  revert i. induction l as [|x l IH]; intros i H; [simpl; lia|].
  destruct i as [|i]; simpl in *.
  - destruct (P (f x)) eqn:E1; [rewrite H by reflexivity; simpl; lia|].
    destruct (P x); simpl; lia.
  - specialize (IH i H). unfold alter in IH. destruct (P x); simpl; lia.
Qed.

Lemma count_alter_lt {A} (P : A -> bool) (f : A -> A) (i : nat) (l : list A) (d : A) :
  i < length l -> P (List.nth i l d) = true -> P (f (List.nth i l d)) = false ->
  S (length (List.filter P (alter f i l))) = length (List.filter P l).
Proof.
  revert i. induction l as [|x l IH]; intros i Hi H1 H2; [simpl in Hi; lia|].
  destruct i as [|i]; simpl in *.
  - rewrite H1, H2. reflexivity.
  - specialize (IH i ltac:(lia) H1 H2). unfold alter in IH.
    destruct (P x); simpl; lia.
Qed.

Lemma evolves_alterInst ok M (f : Instruction -> Instruction) (i : nat) :
  kindEvolves ok M (kind (getInst M i)) (kind (f (getInst M i))) ->
  (users (f (getInst M i)) = users (getInst M i) \/ ok i \/
   isGetClosureScope M i = true) ->
  (isEmptyTargetCall (f (getInst M i)) = true ->
   isEmptyTargetCall (getInst M i) = true) ->
  evolves ok M (alterInst f i M).
Proof.
  intros Hk Hu He.
  assert (Hcount : emptyTargets (alterInst f i M) <= emptyTargets M).
  { unfold emptyTargets, alterInst; simpl.
    apply (count_alter_le _ _ _ _ noInst). exact He. }
  split; [simpl; apply length_alter|]. split; [reflexivity|].
  split; [reflexivity|]. split.
  { intros j. unfold kindOf. rewrite getInst_alterInst.
    destruct (decide (i = j /\ j < length (instructions M))) as [[<- _]|_];
      [exact Hk | apply kindEvolves_refl]. }
  split.
  { intros j. unfold getUsers. rewrite getInst_alterInst.
    destruct (decide (i = j /\ j < length (instructions M))) as [[<- _]|_];
      [exact Hu | left; reflexivity]. }
  split; [intros G; apply functionEvolves_refl|].
  intros G. rewrite getFunction_alterInst. lia.
Qed.

Lemma evolves_setAllCallsitesKnown_false ok M F :
  evolves ok M (setAllCallsitesKnown false F M).
Proof.
  unfold setAllCallsitesKnown.
  split; [reflexivity|]. split; [simpl; apply length_alter|].
  split; [reflexivity|].
  split; [intros i; apply kindEvolves_refl|].
  split; [intros i; left; reflexivity|].
  split.
  - intros G. rewrite getFunction_alterFunction.
    destruct (decide (F = G /\ G < length (functions M))) as [_|_];
      [|apply functionEvolves_refl].
    repeat split; simpl; try reflexivity; [right; reflexivity|].
    exists []. split; [symmetry; apply List.app_nil_r | constructor].
  - intros G. rewrite getFunction_alterFunction.
    destruct (decide (F = G /\ G < length (functions M))); simpl;
      unfold emptyTargets; simpl; lia.
Qed.

Lemma evolves_setTarget ok M call F c :
  callOperands M call = Some c -> target c = EmptySentinel ->
  evolves ok M (setTarget call F M).
Proof.
  intros Hc Ht. apply callOperands_kind in Hc.
  pose proof (call_is_valid M call c Hc) as Hvalid.
  assert (Hkind : kindOf (setTarget call F M) call
                  = BaseCallInst (withTarget (FunctionValue F) c)).
  { unfold setTarget, kindOf. rewrite getInst_alterFunction, getInst_alterInst.
    rewrite decide_True by (split; [reflexivity | exact Hvalid]).
    unfold onCall. unfold kindOf in Hc. rewrite Hc. reflexivity. }
  assert (Hcount : S (emptyTargets (setTarget call F M)) = emptyTargets M).
  { unfold emptyTargets, setTarget; simpl.
    apply (count_alter_lt _ _ _ _ noInst); [exact Hvalid | |].
    - unfold isEmptyTargetCall. unfold kindOf, getInst in Hc. rewrite Hc, Ht.
      reflexivity.
    - unfold isEmptyTargetCall, onCall. unfold kindOf, getInst in Hc.
      rewrite Hc. reflexivity. }
  split; [simpl; apply length_alter|]. split; [simpl; apply length_alter|].
  split; [reflexivity|]. split.
  { intros j. unfold setTarget, kindOf.
    rewrite getInst_alterFunction, getInst_alterInst.
    destruct (decide (call = j /\ j < length (instructions M))) as [[<- _]|_];
      [|apply kindEvolves_refl].
    unfold onCall. unfold kindOf in Hc. rewrite Hc. simpl.
    repeat split; try (left; reflexivity).
    - right. split; [exact Ht | exists F; reflexivity].
    - left. left. reflexivity.
    - induction (arguments c); constructor; [left; reflexivity | assumption]. }
  split.
  { intros j. left. unfold setTarget, getUsers.
    rewrite getInst_alterFunction, getInst_alterInst.
    destruct (decide (call = j /\ j < length (instructions M))) as [[<- _]|_];
      [|reflexivity].
    unfold onCall. destruct (kind (getInst M call)); reflexivity. }
  split.
  { intros G. unfold setTarget at 2. rewrite getFunction_alterFunction.
    destruct (decide (F = G /\ G < length (functions (alterInst
                (onCall (withTarget (FunctionValue F))) call M)))) as [_|_];
      [|apply functionEvolves_refl].
    rewrite getFunction_alterInst.
    repeat split; simpl; try reflexivity; [left; reflexivity|].
    exists [call]. split; [reflexivity|]. constructor; [|constructor].
    unfold isCall. rewrite Hkind. reflexivity. }
  intros G. unfold setTarget at 2. rewrite getFunction_alterFunction.
  rewrite getFunction_alterInst.
  destruct (decide (F = G /\ G < length (functions (alterInst
              (onCall (withTarget (FunctionValue F))) call M)))) as [_|_];
    simpl; [rewrite length_app; simpl|]; lia.
Qed.

Lemma evolves_setEnvironment ok M call s c :
  callOperands M call = Some c -> environment c = EmptySentinel -> ok s ->
  evolves ok M (setEnvironment call s M).
Proof.
  intros Hc He Hs. apply callOperands_kind in Hc. unfold kindOf in Hc.
  unfold setEnvironment.
  eapply evolves_trans.
  - apply (evolves_alterInst ok M (onCall (withEnvironment (InstValue s))) call).
    + unfold onCall. rewrite Hc. simpl.
      repeat split; try (left; reflexivity).
      * left. left. reflexivity.
      * right. split; [exact He | exists s; auto].
      * induction (arguments c); constructor; [left; reflexivity | assumption].
    + left. unfold onCall. rewrite Hc. reflexivity.
    + unfold isEmptyTargetCall, onCall. rewrite Hc. simpl. auto.
  - apply evolves_alterInst.
    + apply kindEvolves_refl.
    + right. left. exact Hs.
    + unfold isEmptyTargetCall. simpl. auto.
Qed.

Lemma substValue_evolves ok M old new v :
  isGetClosureScope M old = true -> ok new ->
  valueEvolves ok M v (substValue old new v).
Proof.
  intros Ho Hn. unfold substValue.
  destruct (bool_decide_reflect (v = InstValue old)) as [->|_];
    [right; exists old, new; auto | left; reflexivity].
Qed.

Lemma substScope_evolves ok M old new s :
  isGetClosureScope M old = true -> ok new ->
  scopeEvolves ok M s (substScope old new s).
Proof.
  intros Ho Hn. unfold substScope.
  destruct (bool_decide_reflect (s = old)) as [->|_];
    [right; auto | left; reflexivity].
Qed.

Lemma substKind_evolves ok M old new k :
  isGetClosureScope M old = true -> ok new ->
  kindEvolves ok M k (substKind old new k).
Proof.
  intros Ho Hn. destruct k; simpl; auto.
  - repeat split; try (left; apply substValue_evolves; assumption);
      try (apply substValue_evolves; assumption).
    induction (arguments call); simpl; constructor;
      [apply substValue_evolves; assumption | assumption].
  - split; [reflexivity | apply substScope_evolves; assumption].
  - split; [reflexivity | apply substScope_evolves; assumption].
Qed.

Lemma substValue_empty old new v :
  isEmptySentinel (substValue old new v) = true -> isEmptySentinel v = true.
Proof.
  unfold substValue. destruct (bool_decide_reflect (v = InstValue old));
    [discriminate | auto].
Qed.

Lemma evolves_substUsers ok old new (us : list nat) :
  ok new ->
  forall M, isGetClosureScope M old = true ->
  evolves ok M
    (List.fold_left
       (fun m u => alterInst (fun i => withKind (substKind old new (kind i)) i) u m)
       us M).
Proof.
  intros Hn. induction us as [|u us IH]; intros M Ho; simpl;
    [apply evolves_refl|].
  assert (Hstep : evolves ok M
            (alterInst (fun i => withKind (substKind old new (kind i)) i) u M)).
  { apply evolves_alterInst.
    - simpl. apply substKind_evolves; assumption.
    - left. reflexivity.
    - unfold isEmptyTargetCall; simpl.
      destruct (kind (getInst M u)); simpl; auto. apply substValue_empty. }
  eapply evolves_trans; [exact Hstep|]. apply IH.
  rewrite (proj1 (proj2 (evolves_tags ok _ _ old Hstep))). exact Ho.
Qed.

Lemma evolves_replaceAllUsesWith ok M old new :
  isGetClosureScope M old = true -> ok new ->
  evolves ok M (replaceAllUsesWith old new M).
Proof.
  intros Ho Hn. unfold replaceAllUsesWith.
  destruct (bool_decide_reflect (old = new)); [apply evolves_refl|].
  set (M1 := List.fold_left _ _ M).
  assert (H1 : evolves ok M M1) by (apply evolves_substUsers; assumption).
  assert (Ho1 : isGetClosureScope M1 old = true)
    by (rewrite (proj1 (proj2 (evolves_tags ok _ _ old H1))); exact Ho).
  eapply evolves_trans; [exact H1|].
  eapply evolves_trans.
  - apply (evolves_alterInst ok M1 (withUsers []) old).
    + apply kindEvolves_refl.
    + right. right. exact Ho1.
    + unfold isEmptyTargetCall; simpl; auto.
  - apply evolves_alterInst.
    + apply kindEvolves_refl.
    + right. left. exact Hn.
    + unfold isEmptyTargetCall; simpl; auto.
Qed.

Lemma evolves_scopesOk ok M M' :
  scopesOk ok M -> evolves ok M M' -> scopesOk ok M'.
Proof.
  intros Hs (_ & _ & _ & Hk & _) i. specialize (Hs i). specialize (Hk i).
  destruct (kindOf M i), (kindOf M' i); simpl in Hk; try contradiction; auto.
  - destruct Hk as [_ [->|[_ H]]]; assumption.
  - destruct Hk as [_ [->|[_ H]]]; assumption.
Qed.

Lemma evolves_registerCallsite ok M call callee scope :
  scopeOk ok scope -> evolves ok M (registerCallsite call callee scope M).
Proof.
  intros Hs. unfold registerCallsite.
  set (M1 := match callOperands M call with
             | Some c => if isEmptySentinel (target c)
                         then setTarget call (getFunctionCode M callee) M else M
             | None => M
             end).
  assert (H1 : evolves ok M M1).
  { unfold M1. destruct (callOperands M call) as [c|] eqn:Hc; [|apply evolves_refl].
    destruct (target c) eqn:Ht; simpl; try apply evolves_refl.
    eapply evolves_setTarget; eassumption. }
  destruct scope as [s|]; [|exact H1].
  destruct (callOperands M1 call) as [c|] eqn:Hc; [|exact H1].
  destruct (isEmptySentinel (environment c)
            && parentScopeParamHasUsers (getFunction M1 (getFunctionCode M1 callee)))
    eqn:E; [|exact H1].
  apply andb_true_iff in E as [E _].
  eapply evolves_trans; [exact H1|].
  eapply evolves_setEnvironment; [exact Hc | | exact Hs].
  destruct (environment c); simpl in E; try discriminate. reflexivity.
Qed.

(** *** The loops evolve the module *)

Section LoopsEvolve.
Variable ok : nat -> Prop.
Variable isConstructionSetup : nat -> nat -> bool.
Variable isStoreOnceVariable : nat -> bool.

Lemma pushLoads_ok M b wl us :
  scopesOk ok M -> worklistOk ok wl -> worklistOk ok (pushLoads M b wl us).
Proof.
  intros HM. revert wl. induction us as [|u us IH]; intros wl Hwl; simpl;
    [exact Hwl|].
  apply IH. specialize (HM u).
  destruct (kindOf M u); try exact Hwl.
  constructor; [|exact Hwl]. simpl. destruct b; simpl; auto.
Qed.

Lemma visitUser_evolves F create closureInst knownScope M wl u M' wl' :
  scopesOk ok M -> scopeOk ok knownScope -> worklistOk ok wl ->
  visitUser isConstructionSetup isStoreOnceVariable F create closureInst
    knownScope (M, wl) u = (M', wl') ->
  evolves ok M M' /\ worklistOk ok wl'.
Proof.
  intros HM Hs Hwl. unfold visitUser.
  destruct (kindOf M u) as [c|s f|cl|op|cv b|s v x|s x|ops] eqn:Hk.
  - (* call *)
    intros [= <- <-]. split; [|exact Hwl].
    set (M1 := if canEscapeThroughCall M closureInst F c
               then setAllCallsitesKnown false F M else M).
    assert (H1 : evolves ok M M1).
    { unfold M1. destruct (canEscapeThroughCall M closureInst F c);
        [apply evolves_setAllCallsitesKnown_false | apply evolves_refl]. }
    destruct (bool_decide (callee c = InstValue closureInst)); [|exact H1].
    eapply evolves_trans; [exact H1|].
    apply evolves_registerCallsite. exact Hs.
  - destruct (isConstructionSetup u closureInst);
      intros [= <- <-]; (split; [|exact Hwl]);
      [apply evolves_refl | apply evolves_setAllCallsitesKnown_false].
  - destruct (isConstructionSetup u closureInst);
      intros [= <- <-]; (split; [|exact Hwl]); [apply evolves_refl|].
    destruct knownScope as [s|]; [|apply evolves_refl].
    apply evolves_replaceAllUsesWith; [|exact Hs].
    unfold isGetClosureScope. rewrite Hk. reflexivity.
  - destruct (isConstructionSetup u closureInst);
      intros [= <- <-]; (split; [apply evolves_refl|]); [exact Hwl|].
    constructor; [exact Hs | exact Hwl].
  - destruct (isConstructionSetup u closureInst);
      [intros [= <- <-]; split; [apply evolves_refl | exact Hwl]|].
    destruct b; intros [= <- <-].
    + split; [apply evolves_refl|]. constructor; [exact Hs | exact Hwl].
    + split; [apply evolves_setAllCallsitesKnown_false | exact Hwl].
  - destruct (isConstructionSetup u closureInst);
      [intros [= <- <-]; split; [apply evolves_refl | exact Hwl]|].
    destruct (isStoreOnceVariable x); simpl; intros [= <- <-].
    + split; [apply evolves_refl|]. apply pushLoads_ok; assumption.
    + split; [apply evolves_setAllCallsitesKnown_false | exact Hwl].
  - destruct (isConstructionSetup u closureInst);
      intros [= <- <-]; (split; [|exact Hwl]);
      [apply evolves_refl | apply evolves_setAllCallsitesKnown_false].
  - destruct (isConstructionSetup u closureInst);
      intros [= <- <-]; (split; [|exact Hwl]);
      [apply evolves_refl | apply evolves_setAllCallsitesKnown_false].
Qed.

Lemma visitUsers_evolves F create closureInst knownScope us :
  scopeOk ok knownScope ->
  forall M wl M' wl',
  scopesOk ok M -> worklistOk ok wl ->
  List.fold_left
    (visitUser isConstructionSetup isStoreOnceVariable F create closureInst
       knownScope) us (M, wl) = (M', wl') ->
  evolves ok M M' /\ worklistOk ok wl'.
Proof.
  intros Hs. induction us as [|u us IH]; intros M wl M' wl' HM Hwl;
    cbn [List.fold_left].
  - intros [= <- <-]. split; [apply evolves_refl | exact Hwl].
  - destruct (visitUser isConstructionSetup isStoreOnceVariable F create
                closureInst knownScope (M, wl) u) as [M1 wl1] eqn:E.
    destruct (visitUser_evolves _ _ _ _ _ _ _ _ _ HM Hs Hwl E) as [H1 Hwl1].
    intros Hfold.
    destruct (IH M1 wl1 M' wl' (evolves_scopesOk ok M M1 HM H1) Hwl1 Hfold)
      as [H2 Hwl2].
    split; [eapply evolves_trans; eassumption | exact Hwl2].
Qed.

Lemma worklistLoop_evolves F create fuel :
  forall M wl visited M',
  scopesOk ok M -> worklistOk ok wl ->
  worklistLoop isConstructionSetup isStoreOnceVariable fuel F create M wl
    visited = Some M' ->
  evolves ok M M'.
Proof.
  induction fuel as [|fuel IH]; intros M wl visited M' HM Hwl;
    destruct wl as [|[closureInst knownScope] rest]; simpl;
    try (intros [= <-]; apply evolves_refl); try discriminate.
  inversion Hwl as [|? ? Hs Hrest]; subst. simpl in Hs.
  destruct (bool_decide (closureInst ∈ visited)).
  - apply IH; assumption.
  - destruct (List.fold_left _ (getUsers M closureInst) (M, rest))
      as [M1 wl1] eqn:E.
    destruct (visitUsers_evolves _ _ _ _ _ Hs _ _ _ _ HM Hrest E) as [H1 Hwl1].
    intros Hloop. eapply evolves_trans; [exact H1|].
    eapply IH; [|exact Hwl1|exact Hloop].
    eapply evolves_scopesOk; eassumption.
Qed.

Lemma analyzeCreateCallable_evolves fuel create M M' :
  scopesOk ok M ->
  analyzeCreateCallable isConstructionSetup isStoreOnceVariable fuel create M
  = Some M' ->
  evolves ok M M'.
Proof.
  intros HM. unfold analyzeCreateCallable.
  pose proof (HM create) as Hc.
  destruct (kindOf M create); try (intros [= <-]; apply evolves_refl).
  apply worklistLoop_evolves; [exact HM|].
  constructor; [exact Hc | constructor].
Qed.

Lemma usersLoop_evolves F fuel :
  forall i M M',
  scopesOk ok M ->
  usersLoop isConstructionSetup isStoreOnceVariable fuel F i M = Some M' ->
  evolves ok M M'.
Proof.
  induction fuel as [|fuel IH]; intros i M M' HM; simpl;
    destruct (functionUsers (getFunction M F) !! i) as [user|];
    try (intros [= <-]; apply evolves_refl); try discriminate.
  destruct (kindOf M user) eqn:Hk;
    try (intros H; eapply evolves_trans;
         [apply (evolves_setAllCallsitesKnown_false ok M F)|];
         apply (IH _ _ _ (evolves_scopesOk ok _ _ HM
                            (evolves_setAllCallsitesKnown_false ok M F)) H)).
  - apply IH. exact HM.
  - destruct (analyzeCreateCallable _ _ fuel user M) as [M1|] eqn:E;
      [|discriminate].
    pose proof (analyzeCreateCallable_evolves _ _ _ _ HM E) as H1.
    intros H. eapply evolves_trans; [exact H1|].
    apply (IH _ _ _ (evolves_scopesOk ok _ _ HM H1) H).
Qed.
End LoopsEvolve.

(** *** More fuel changes nothing *)

Section Fuel.
Variable isConstructionSetup : nat -> nat -> bool.
Variable isStoreOnceVariable : nat -> bool.
Local Abbreviation worklistLoop := (worklistLoop isConstructionSetup isStoreOnceVariable).
Local Abbreviation analyzeCreateCallable :=
  (analyzeCreateCallable isConstructionSetup isStoreOnceVariable).
Local Abbreviation usersLoop := (usersLoop isConstructionSetup isStoreOnceVariable).
Local Abbreviation analyzeFunctionCallsites :=
  (analyzeFunctionCallsites isConstructionSetup isStoreOnceVariable).
Local Abbreviation runFrom := (runFrom isConstructionSetup isStoreOnceVariable).

Lemma worklistLoop_mono F create fuel :
  forall fuel' M wl visited M',
  fuel <= fuel' ->
  worklistLoop fuel F create M wl visited = Some M' ->
  worklistLoop fuel' F create M wl visited = Some M'.
Proof.
  induction fuel as [|fuel IH]; intros fuel' M wl visited M' Hle;
    destruct wl as [|[closureInst knownScope] rest]; simpl;
    try discriminate.
  - intros H. destruct fuel'; exact H.
  - intros H. destruct fuel'; exact H.
  - destruct fuel' as [|fuel']; [lia|]. simpl.
    destruct (bool_decide (closureInst ∈ visited)).
    + apply IH. lia.
    + destruct (List.fold_left _ (getUsers M closureInst) (M, rest)).
      apply IH. lia.
Qed.

Lemma analyzeCreateCallable_mono fuel fuel' create M M' :
  fuel <= fuel' ->
  analyzeCreateCallable fuel create M = Some M' ->
  analyzeCreateCallable fuel' create M = Some M'.
Proof.
  intros Hle. unfold FunctionAnalysis.analyzeCreateCallable.
  destruct (kindOf M create); auto. apply worklistLoop_mono. exact Hle.
Qed.

Lemma usersLoop_mono F fuel :
  forall fuel' i M M',
  fuel <= fuel' ->
  usersLoop fuel F i M = Some M' -> usersLoop fuel' F i M = Some M'.
Proof.
  induction fuel as [|fuel IH]; intros fuel' i M M' Hle; simpl.
  - destruct (functionUsers (getFunction M F) !! i) eqn:E; [discriminate|].
    intros H. destruct fuel'; simpl; rewrite E; exact H.
  - destruct (functionUsers (getFunction M F) !! i) eqn:E.
    + destruct fuel' as [|fuel']; [lia|]. simpl. rewrite E.
      destruct (kindOf M n); try (apply IH; lia).
      destruct (analyzeCreateCallable fuel n M) as [M1|] eqn:E1;
        [|discriminate].
      rewrite (analyzeCreateCallable_mono fuel fuel' n M M1) by (lia || exact E1).
      apply IH. lia.
    + intros H. destruct fuel'; simpl; rewrite E; exact H.
Qed.

Lemma analyzeFunctionCallsites_mono fuel fuel' F M M' :
  fuel <= fuel' ->
  analyzeFunctionCallsites fuel F M = Some M' ->
  analyzeFunctionCallsites fuel' F M = Some M'.
Proof.
  intros Hle. unfold FunctionAnalysis.analyzeFunctionCallsites.
  set (M2 := if isGlobalScope _ then _ else _).
  destruct (usersLoop fuel F 0 M2) as [M3|] eqn:E; [|discriminate].
  rewrite (usersLoop_mono F fuel fuel' 0 M2 M3 Hle E). auto.
Qed.

Lemma runFrom_mono fuel fuel' count :
  forall F M M',
  fuel <= fuel' ->
  runFrom fuel count F M = Some M' -> runFrom fuel' count F M = Some M'.
Proof.
  induction count as [|count IH]; intros F M M' Hle; simpl; [auto|].
  destruct (analyzeFunctionCallsites fuel F M) as [M1|] eqn:E; [|discriminate].
  rewrite (analyzeFunctionCallsites_mono fuel fuel' F M M1 Hle E).
  apply IH. exact Hle.
Qed.

(** *** The loops terminate *)

Lemma scopesOk_any M : scopesOk anyScope M.
Proof. intros i. destruct (kindOf M i); exact I. Qed.

Lemma scopeOk_any s : scopeOk anyScope s.
Proof. destruct s; exact I. Qed.

Lemma worklistOk_any wl : worklistOk anyScope wl.
Proof.
  induction wl as [|[c [s|]] wl IH]; constructor; simpl; auto; exact I.
Qed.

Lemma unvisited_filter_le (l visited : list nat) (c : nat) :
  length (List.filter (fun i => negb (bool_decide (i ∈ c :: visited))) l)
  <= length (List.filter (fun i => negb (bool_decide (i ∈ visited))) l).
Proof.
  induction l as [|x l IH]; simpl; [lia|].
  destruct (bool_decide_reflect (x ∈ visited)) as [Hin|Hnin]; simpl.
  - rewrite bool_decide_eq_true_2 by (apply elem_of_cons; right; exact Hin).
    simpl. exact IH.
  - destruct (bool_decide (x ∈ c :: visited)); simpl; lia.
Qed.

Lemma unvisited_filter_lt (l visited : list nat) (c : nat) :
  c ∈ l -> c ∉ visited ->
  length (List.filter (fun i => negb (bool_decide (i ∈ c :: visited))) l)
  < length (List.filter (fun i => negb (bool_decide (i ∈ visited))) l).
Proof.
  intros Hin Hnot. induction l as [|x l IH]; [inversion Hin|]. simpl.
  destruct (decide (x = c)) as [->|Hne].
  - rewrite bool_decide_eq_true_2 by (apply elem_of_cons; left; reflexivity).
    rewrite bool_decide_eq_false_2 by exact Hnot. simpl.
    pose proof (unvisited_filter_le l visited c). lia.
  - apply elem_of_cons in Hin as [Hin|Hin]; [congruence|].
    specialize (IH Hin).
    destruct (bool_decide_reflect (x ∈ visited)) as [Hx|Hx]; simpl.
    + rewrite bool_decide_eq_true_2 by (apply elem_of_cons; right; exact Hx).
      simpl. exact IH.
    + rewrite bool_decide_eq_false_2.
      * simpl. lia.
      * intros H. apply elem_of_cons in H as [H|H]; contradiction.
Qed.

Lemma unvisited_le n visited c :
  unvisited n (c :: visited) <= unvisited n visited.
Proof. apply unvisited_filter_le. Qed.

Lemma unvisited_lt n visited c :
  c < n -> c ∉ visited -> unvisited n (c :: visited) < unvisited n visited.
Proof.
  intros Hc Hnot. apply unvisited_filter_lt; [|exact Hnot].
  apply elem_of_seq. lia.
Qed.

Lemma worklistLoop_terminates F create k :
  forall M wl visited,
  unvisited (length (instructions M)) visited <= k ->
  exists fuel M', worklistLoop fuel F create M wl visited = Some M'.
Proof.
  induction k as [|k IHk].
  - (* every instruction of the module is visited *)
    intros M wl. induction wl as [|[c s] rest IHwl]; intros visited Hk.
    + exists 0, M. reflexivity.
    + destruct (bool_decide_reflect (c ∈ visited)) as [Hin|Hnot].
      * destruct (IHwl visited Hk) as (fuel & M' & H).
        exists (S fuel), M'. simpl. rewrite bool_decide_eq_true_2 by exact Hin.
        exact H.
      * destruct (Nat.lt_ge_cases c (length (instructions M))) as [Hc|Hc].
        { pose proof (unvisited_lt _ visited c Hc Hnot). lia. }
        destruct (IHwl (c :: visited)) as (fuel & M' & H).
        { pose proof (unvisited_le (length (instructions M)) visited c). lia. }
        exists (S fuel), M'. simpl. rewrite bool_decide_eq_false_2 by exact Hnot.
        unfold getUsers. rewrite getInst_default by exact Hc. simpl. exact H.
  - intros M wl. induction wl as [|[c s] rest IHwl]; intros visited Hk.
    + exists 0, M. reflexivity.
    + destruct (bool_decide_reflect (c ∈ visited)) as [Hin|Hnot].
      * destruct (IHwl visited Hk) as (fuel & M' & H).
        exists (S fuel), M'. simpl. rewrite bool_decide_eq_true_2 by exact Hin.
        exact H.
      * destruct (Nat.lt_ge_cases c (length (instructions M))) as [Hc|Hc].
        { destruct (List.fold_left
                      (visitUser isConstructionSetup isStoreOnceVariable F
                         create c s) (getUsers M c) (M, rest))
            as [M1 wl1] eqn:E.
          destruct (visitUsers_evolves anyScope _ _ F create c s (getUsers M c)
                      (scopeOk_any s) M rest M1 wl1
                      (scopesOk_any M) (worklistOk_any rest) E)
            as [(Hlen & _) _].
          destruct (IHk M1 wl1 (c :: visited)) as (fuel & M' & H).
          { rewrite Hlen. pose proof (unvisited_lt _ visited c Hc Hnot). lia. }
          exists (S fuel), M'. simpl.
          rewrite bool_decide_eq_false_2 by exact Hnot. rewrite E. exact H. }
        destruct (IHwl (c :: visited)) as (fuel & M' & H).
        { pose proof (unvisited_le (length (instructions M)) visited c). lia. }
        exists (S fuel), M'. simpl. rewrite bool_decide_eq_false_2 by exact Hnot.
        unfold getUsers. rewrite getInst_default by exact Hc. simpl. exact H.
Qed.

Lemma analyzeCreateCallable_terminates create M :
  exists fuel M', analyzeCreateCallable fuel create M = Some M'.
Proof.
  unfold FunctionAnalysis.analyzeCreateCallable.
  destruct (kindOf M create); try (exists 0, M; reflexivity).
  eapply worklistLoop_terminates. reflexivity.
Qed.

Lemma usersLoop_terminates F m :
  forall i M,
  emptyTargets M + length (functionUsers (getFunction M F)) - i <= m ->
  exists fuel M', usersLoop fuel F i M = Some M'.
Proof.
  induction m as [|m IH]; intros i M Hm.
  - exists 0, M. simpl.
    destruct (functionUsers (getFunction M F) !! i) eqn:E; [|reflexivity].
    apply lookup_lt_Some in E. lia.
  - destruct (functionUsers (getFunction M F) !! i) as [user|] eqn:E.
    2:{ exists 0, M. simpl. rewrite E. reflexivity. }
    pose proof (lookup_lt_Some _ _ _ E) as Hi.
    assert (Hfalse : exists fuel M',
              usersLoop fuel F (S i) (setAllCallsitesKnown false F M) = Some M').
    { apply IH.
      destruct (evolves_setAllCallsitesKnown_false anyScope M F)
        as (_ & _ & _ & _ & _ & _ & Hn). specialize (Hn F). lia. }
    destruct (kindOf M user) eqn:Hk;
      try (destruct Hfalse as (fuel & M' & H); exists (S fuel), M'; simpl;
           rewrite E, Hk; exact H).
    + destruct (IH (S i) M ltac:(lia)) as (fuel & M' & H).
      exists (S fuel), M'. simpl. rewrite E, Hk. exact H.
    + destruct (analyzeCreateCallable_terminates user M) as (fuel1 & M1 & H1).
      pose proof (analyzeCreateCallable_evolves anyScope _ _ _ _ _ _
                    (scopesOk_any M) H1) as (_ & _ & _ & _ & _ & _ & Hn).
      specialize (Hn F).
      destruct (IH (S i) M1 ltac:(lia)) as (fuel2 & M' & H2).
      exists (S (Nat.max fuel1 fuel2)), M'. simpl. rewrite E, Hk.
      rewrite (analyzeCreateCallable_mono fuel1 (Nat.max fuel1 fuel2) user M M1)
        by (lia || exact H1).
      apply (usersLoop_mono F fuel2); [lia | exact H2].
Qed.

Lemma analyzeFunctionCallsites_terminates F M :
  exists fuel M', analyzeFunctionCallsites fuel F M = Some M'.
Proof.
  unfold FunctionAnalysis.analyzeFunctionCallsites.
  set (M2 := if isGlobalScope _ then _ else _).
  destruct (usersLoop_terminates F _ 0 M2 (Nat.le_refl _)) as (fuel & M3 & H).
  exists fuel. rewrite H. eexists. reflexivity.
Qed.

Lemma runFrom_terminates count :
  forall F M, exists fuel M', runFrom fuel count F M = Some M'.
Proof.
  induction count as [|count IH]; intros F M; [exists 0, M; reflexivity|].
  destruct (analyzeFunctionCallsites_terminates F M) as (fuel1 & M1 & H1).
  destruct (IH (S F) M1) as (fuel2 & M' & H2).
  exists (Nat.max fuel1 fuel2), M'. simpl.
  rewrite (analyzeFunctionCallsites_mono fuel1 (Nat.max fuel1 fuel2) F M M1)
    by (lia || exact H1).
  apply (runFrom_mono fuel2); [lia | exact H2].
Qed.
End Fuel.

(** *** What the attributes say after [analyzeFunctionCallsites] *)

Lemma evolves_getFunctionCode ok M M' i :
  evolves ok M M' -> getFunctionCode M' i = getFunctionCode M i.
Proof.
  intros (_ & _ & _ & Hk & _). specialize (Hk i). unfold getFunctionCode.
  destruct (kindOf M i), (kindOf M' i); simpl in Hk; try contradiction;
    try reflexivity.
  destruct Hk as [-> _]. reflexivity.
Qed.

Lemma known_default M F :
  length (functions M) <= F ->
  _allCallsitesKnownInStrictMode (getAttributes M F) = false.
Proof.
  intros H. unfold getAttributes. rewrite getFunction_default by exact H.
  reflexivity.
Qed.

(** C3.  [analyzeFunctionCallsites(F)] returns, and afterwards: if [F] is the
    global scope, [allCallsitesKnownInStrictMode] is false; and if
    [allCallsitesKnownInStrictMode] is true and no user of [F] is a
    [BaseCallInst], [unreachable] is true. *)
Theorem analyzeFunctionCallsites_attributes
    (isConstructionSetup : nat -> nat -> bool)
    (isStoreOnceVariable : nat -> bool) (F : nat) (M : IRModule) :
  (exists fuel M',
     analyzeFunctionCallsites isConstructionSetup isStoreOnceVariable fuel F M
     = Some M') /\
  (forall fuel M',
     analyzeFunctionCallsites isConstructionSetup isStoreOnceVariable fuel F M
     = Some M' ->
     (isGlobalScope (getFunction M F) = true ->
      _allCallsitesKnownInStrictMode (getAttributes M' F) = false) /\
     (_allCallsitesKnownInStrictMode (getAttributes M' F) = true ->
      (forall u, In u (functionUsers (getFunction M' F)) -> isCall M' u = false) ->
      unreachable (getAttributes M' F) = true)).
Proof.
  split; [apply analyzeFunctionCallsites_terminates|].
  intros fuel M'. unfold analyzeFunctionCallsites.
  set (M1 := setAllCallsitesKnown true F M).
  set (M2 := if isGlobalScope (getFunction M1 F)
             then setAllCallsitesKnown false F M1 else M1).
  destruct (usersLoop isConstructionSetup isStoreOnceVariable fuel F 0 M2)
    as [M3|] eqn:Hloop; [|discriminate].
  pose proof (usersLoop_evolves anyScope _ _ F fuel 0 M2 M3
                (scopesOk_any M2) Hloop) as Hev.
  destruct Hev as (_ & HlenF & _ & _ & _ & HG & _).
  destruct (HG F) as (Hglob & _ & _ & _ & Hknown & _).
  intros [= <-]. split.
  - (* the global scope *)
    intros Hg.
    assert (Hvalid : F < length (functions M)).
    { destruct (Nat.lt_ge_cases F (length (functions M))) as [|Hge];
        [assumption|].
      rewrite getFunction_default in Hg by exact Hge. discriminate. }
    assert (Hg1 : isGlobalScope (getFunction M1 F) = true).
    { unfold M1, setAllCallsitesKnown. rewrite getFunction_alterFunction.
      rewrite decide_True by (split; [reflexivity | exact Hvalid]). exact Hg. }
    assert (Hk2 : _allCallsitesKnownInStrictMode (getAttributes M2 F) = false).
    { unfold M2. rewrite Hg1. unfold getAttributes, setAllCallsitesKnown.
      rewrite getFunction_alterFunction.
      rewrite decide_True; [reflexivity|].
      split; [reflexivity|]. unfold M1, setAllCallsitesKnown; simpl.
      rewrite length_alter. exact Hvalid. }
    assert (Hk3 : _allCallsitesKnownInStrictMode (getAttributes M3 F) = false).
    { unfold getAttributes in *. destruct Hknown as [E|E];
        [rewrite E; exact Hk2 | exact E]. }
    rewrite Hk3. exact Hk3.
  - (* unreachable *)
    destruct (_allCallsitesKnownInStrictMode (getAttributes M3 F)) eqn:Hk3;
      [|intros Hk; rewrite Hk3 in Hk; discriminate].
    intros _ Hnone.
    assert (Hvalid : F < length (functions M3)).
    { destruct (Nat.lt_ge_cases F (length (functions M3))) as [|Hge];
        [assumption|].
      rewrite known_default in Hk3 by exact Hge. discriminate. }
    unfold getAttributes, setUnreachable in *.
    rewrite getFunction_alterFunction in *.
    rewrite decide_True in * by (split; [reflexivity | exact Hvalid]).
    simpl in *. apply negb_true_iff.
    destruct (List.existsb (isCall M3) (functionUsers (getFunction M3 F)))
      eqn:Hex; [|reflexivity].
    apply List.existsb_exists in Hex as (u & Hu & Hcall).
    specialize (Hnone u Hu). unfold isCall, kindOf in *.
    rewrite getInst_alterFunction in Hnone. congruence.
Qed.

(** *** What the pass does to a call on the closure *)

Lemma kindOf_setTarget_call M call F c :
  kindOf M call = BaseCallInst c ->
  kindOf (setTarget call F M) call = BaseCallInst (withTarget (FunctionValue F) c).
Proof.
  intros Hc. pose proof (call_is_valid M call c Hc) as Hvalid.
  unfold setTarget, kindOf. rewrite getInst_alterFunction, getInst_alterInst.
  rewrite decide_True by (split; [reflexivity | exact Hvalid]).
  unfold onCall. unfold kindOf in Hc. rewrite Hc. reflexivity.
Qed.

Lemma kindOf_setEnvironment_call M call s c :
  kindOf M call = BaseCallInst c ->
  kindOf (setEnvironment call s M) call
  = BaseCallInst (withEnvironment (InstValue s) c).
Proof.
  intros Hc. pose proof (call_is_valid M call c Hc) as Hvalid.
  unfold setEnvironment, kindOf. rewrite getInst_alterInst.
  assert (H1 : kind (getInst (alterInst (onCall (withEnvironment (InstValue s)))
                                call M) call)
               = BaseCallInst (withEnvironment (InstValue s) c)).
  { rewrite getInst_alterInst.
    rewrite decide_True by (split; [reflexivity | exact Hvalid]).
    unfold onCall. unfold kindOf in Hc. rewrite Hc. reflexivity. }
  destruct (decide _); [simpl|]; exact H1.
Qed.

Lemma visitUser_call
    (isConstructionSetup : nat -> nat -> bool)
    (isStoreOnceVariable : nat -> bool)
    (F create closureInst : nat) (knownScope : option nat)
    (M : IRModule) (worklist : list UserAndScope) (call : nat) (c : BaseCall) :
  kindOf M call = BaseCallInst c ->
  callee c = InstValue closureInst ->
  getFunctionCode M create = F ->
  exists M' c',
    visitUser isConstructionSetup isStoreOnceVariable F create closureInst
      knownScope (M, worklist) call = (M', worklist) /\
    kindOf M' call = BaseCallInst c' /\
    callee c' = callee c /\
    target c' = (if isEmptySentinel (target c) then FunctionValue F
                 else target c) /\
    environment c' =
      match knownScope with
      | Some s => if isEmptySentinel (environment c)
                     && parentScopeParamHasUsers (getFunction M F)
                  then InstValue s else environment c
      | None => environment c
      end.
Proof.
  intros Hk Hcallee HF. unfold visitUser. rewrite Hk.
  rewrite bool_decide_eq_true_2 by exact Hcallee.
  set (M1 := if canEscapeThroughCall M closureInst F c
             then setAllCallsitesKnown false F M else M).
  assert (H1 : evolves anyScope M M1).
  { unfold M1. destruct (canEscapeThroughCall M closureInst F c);
      [apply evolves_setAllCallsitesKnown_false | apply evolves_refl]. }
  assert (Hk1 : kindOf M1 call = BaseCallInst c).
  { unfold M1. destruct (canEscapeThroughCall M closureInst F c); exact Hk. }
  assert (HF1 : getFunctionCode M1 create = F)
    by (rewrite (evolves_getFunctionCode anyScope M M1 create H1); exact HF).
  unfold registerCallsite. rewrite HF1.
  rewrite (proj2 (callOperands_kind M1 call c) Hk1).
  set (Mt := if isEmptySentinel (target c) then setTarget call F M1 else M1).
  assert (Ht : evolves anyScope M1 Mt).
  { unfold Mt. destruct (target c) eqn:E; simpl; try apply evolves_refl.
    eapply evolves_setTarget; [apply callOperands_kind; exact Hk1 | exact E]. }
  set (ct := if isEmptySentinel (target c)
             then withTarget (FunctionValue F) c else c).
  assert (Hkt : kindOf Mt call = BaseCallInst ct).
  { unfold Mt, ct. destruct (isEmptySentinel (target c));
      [apply kindOf_setTarget_call|]; exact Hk1. }
  assert (Hct : callee ct = callee c /\ environment ct = environment c /\
                target ct = if isEmptySentinel (target c) then FunctionValue F
                            else target c).
  { unfold ct. destruct (isEmptySentinel (target c)); auto. }
  destruct Hct as (Hct1 & Hct2 & Hct3).
  assert (Hpsp : parentScopeParamHasUsers (getFunction Mt (getFunctionCode Mt create))
                 = parentScopeParamHasUsers (getFunction M F)).
  { rewrite (evolves_getFunctionCode anyScope M1 Mt create Ht), HF1.
    destruct Ht as (_ & _ & _ & _ & _ & HG & _).
    destruct (HG F) as (_ & _ & -> & _).
    destruct H1 as (_ & _ & _ & _ & _ & HG1 & _).
    destruct (HG1 F) as (_ & _ & -> & _). reflexivity. }
  destruct knownScope as [s|].
  2:{ exists Mt, ct. split; [reflexivity|]. auto. }
  rewrite (proj2 (callOperands_kind Mt call ct) Hkt).
  rewrite Hct2, Hpsp.
  destruct (isEmptySentinel (environment c)
            && parentScopeParamHasUsers (getFunction M F)).
  - exists (setEnvironment call s Mt), (withEnvironment (InstValue s) ct).
    split; [reflexivity|].
    split; [apply kindOf_setEnvironment_call; exact Hkt|]. simpl. auto.
  - exists Mt, ct. split; [reflexivity|]. auto.
Qed.

Lemma flowKind_tags Ma Mb k k' :
  flowKind Ma k = flowKind Mb k' ->
  closureKind k = closureKind k' /\
  (match k with BaseCallInst _ => true | _ => false end)
  = (match k' with BaseCallInst _ => true | _ => false end).
Proof. destruct k, k'; simpl; intros H; try discriminate; auto. Qed.

Lemma agree_isClosure Ma Mb i : agree Ma Mb -> isClosure Ma i = isClosure Mb i.
Proof.
  intros (_ & _ & Hk & _). unfold isClosure.
  apply (flowKind_tags Ma Mb _ _ (Hk i)).
Qed.

Lemma agree_isCall Ma Mb i : agree Ma Mb -> isCall Ma i = isCall Mb i.
Proof.
  intros (_ & _ & Hk & _). unfold isCall.
  pose proof (proj2 (flowKind_tags Ma Mb _ _ (Hk i))) as H.
  destruct (kindOf Ma i), (kindOf Mb i); simpl in H; congruence.
Qed.

Lemma nonCallUsers_ext Ma Mb us :
  (forall i, isCall Ma i = isCall Mb i) -> nonCallUsers Ma us = nonCallUsers Mb us.
Proof.
  intros H. unfold nonCallUsers. apply List.filter_ext. intros u. rewrite H.
  reflexivity.
Qed.

Lemma agree_refl M : agree M M.
Proof. repeat split; reflexivity. Qed.

Lemma agree_sym Ma Mb : agree Ma Mb -> agree Mb Ma.
Proof.
  intros H. pose proof (fun i => agree_isClosure Ma Mb i H) as Hc.
  destruct H as (Hl & Hv & Hk & Hu & HG).
  split; [congruence|].
  split; [congruence|]. split; [intros i; symmetry; apply Hk|].
  split.
  - intros i Hi. symmetry. apply Hu. rewrite Hc. exact Hi.
  - intros G. destruct (HG G) as (a & b & c). repeat split; congruence.
Qed.

Lemma agree_trans Ma Mb Mc : agree Ma Mb -> agree Mb Mc -> agree Ma Mc.
Proof.
  intros H1 H2. pose proof (fun i => agree_isClosure Ma Mb i H1) as Hc.
  destruct H1 as (Hl1 & Hv1 & Hk1 & Hu1 & HG1).
  destruct H2 as (Hl2 & Hv2 & Hk2 & Hu2 & HG2).
  split; [congruence|].
  split; [congruence|]. split; [intros i; rewrite Hk1; apply Hk2|].
  split.
  - intros i Hi. rewrite Hu1 by exact Hi. apply Hu2.
    rewrite <- Hc. exact Hi.
  - intros G. destruct (HG1 G) as (a & b & c). destruct (HG2 G) as (a' & b' & c').
    repeat split; congruence.
Qed.

(** A run on a well-typed module keeps it well typed and stays in agreement
    with where it started. *)
Section TypedEvolution.
Variable M0 : IRModule.

Lemma evolves_typedAs M M' :
  typedAs M0 M -> evolves (nonClosure M0) M M' -> typedAs M0 M'.
Proof.
  intros (Hs & Hc & Ht & Hu) Hev.
  split; [eapply evolves_scopesOk; eassumption|].
  split.
  { intros i. rewrite (proj1 (evolves_tags _ _ _ i Hev)). apply Hc. }
  pose proof (fun i => proj2 (proj2 (evolves_tags _ _ _ i Hev))) as Hcalls.
  destruct Hev as (_ & _ & _ & Hk & _ & HG & _).
  split.
  - intros i c' Hc'. specialize (Hk i). rewrite Hc' in Hk.
    destruct (kindOf M i) as [c| | | | | | |] eqn:E; simpl in Hk;
      try contradiction.
    destruct Hk as (_ & Htg & _). specialize (Ht i c E).
    destruct Htg as [[->|(a & b & Ea & _)]|[_ (F & ->)]].
    + exact Ht.
    + destruct Ht as [Ht|[G Ht]]; congruence.
    + right. exists F. reflexivity.
  - intros F u s f Hin Hcreate.
    destruct (HG F) as (_ & _ & _ & _ & _ & extra & Eextra & Hextra).
    rewrite Eextra in Hin. apply List.in_app_iff in Hin as [Hin|Hin].
    + specialize (Hk u). rewrite Hcreate in Hk.
      destruct (kindOf M u) eqn:E; simpl in Hk; try contradiction.
      destruct Hk as [-> _]. eapply Hu; eassumption.
    + rewrite Forall_forall in Hextra.
      apply list_elem_of_In in Hin. specialize (Hextra u Hin).
      unfold isCall in Hextra. rewrite Hcreate in Hextra. discriminate.
Qed.

Lemma valueEvolves_canon M M' v v' :
  (forall i, isClosure M i = isClosure M0 i) ->
  (forall i, isClosure M' i = isClosure M0 i) ->
  valueEvolves (nonClosure M0) M v v' -> canon M v = canon M' v'.
Proof.
  intros Hc Hc' [->|(a & b & -> & Ha & -> & Hb)].
  - destruct v; simpl; try reflexivity. rewrite Hc, Hc'. reflexivity.
  - simpl. rewrite Hc'. unfold nonClosure in Hb. rewrite Hb.
    unfold isGetClosureScope in Ha. unfold isClosure.
    destruct (kindOf M a); try discriminate. reflexivity.
Qed.

Lemma evolves_agree M M' :
  typedAs M0 M -> evolves (nonClosure M0) M M' -> agree M M'.
Proof.
  intros HM Hev. pose proof (evolves_typedAs M M' HM Hev) as HM'.
  destruct HM as (_ & Hc & _). destruct HM' as (_ & Hc' & _).
  pose proof (fun i => proj2 (proj2 (evolves_tags _ _ _ i Hev))) as Hcalls.
  destruct Hev as (_ & Hl & Hv & Hk & Hu & HG & _).
  split; [congruence|].
  split; [congruence|]. split.
  { intros i. specialize (Hk i).
    destruct (kindOf M i), (kindOf M' i); simpl in Hk; try contradiction;
      simpl; try reflexivity.
    - destruct Hk as (H1 & _ & _ & H4 & H5).
      rewrite (valueEvolves_canon M M' _ _ Hc Hc' H1).
      rewrite (valueEvolves_canon M M' _ _ Hc Hc' H4). f_equal.
      induction H5 as [|x y l l' Hxy _ IH]; simpl; [reflexivity|].
      rewrite (valueEvolves_canon M M' _ _ Hc Hc' Hxy), IH. reflexivity.
    - destruct Hk as [-> _]. reflexivity.
    - subst. reflexivity.
    - subst. reflexivity. }
  split.
  { intros i Hi. destruct (Hu i) as [E|[Hok|Hg]]; [congruence| |].
    - unfold nonClosure in Hok. rewrite Hc in Hi. congruence.
    - unfold isGetClosureScope in Hg. unfold isClosure in Hi.
      destruct (kindOf M i); discriminate. }
  intros G. destruct (HG G) as (a & b & _ & _ & _ & extra & Eextra & Hextra).
  split; [congruence|]. split; [congruence|].
  rewrite Eextra. unfold nonCallUsers. rewrite List.filter_app.
  assert (Hnil : List.filter (fun u => negb (isCall M' u)) extra = []).
  { clear Eextra. induction Hextra as [|u l Hu' _ IH]; simpl; [reflexivity|].
    rewrite Hu'. simpl. exact IH. }
  rewrite Hnil, List.app_nil_r. apply List.filter_ext. intros u.
  rewrite Hcalls. reflexivity.
Qed.

Lemma evolves_hasTarget ok M M' i :
  evolves ok M M' -> hasTarget M i = true -> hasTarget M' i = true.
Proof.
  intros (_ & _ & _ & Hk & _). specialize (Hk i). unfold hasTarget.
  destruct (kindOf M i) as [c| | | | | | |]; try discriminate.
  destruct (kindOf M' i) as [c'| | | | | | |]; simpl in Hk; try contradiction.
  destruct Hk as (_ & Ht & _). intros Hne.
  destruct Ht as [[->|(a & b & _ & _ & -> & _)]|[E _]].
  - exact Hne.
  - reflexivity.
  - rewrite E in Hne. discriminate.
Qed.
End TypedEvolution.

Lemma wellTyped_typedAs M : wellTyped M -> typedAs M M.
Proof. auto. Qed.

(** *** Updates of attributes only *)

Lemma sameButAttributes_setAllCallsitesKnown b F M :
  sameButAttributes M (setAllCallsitesKnown b F M).
Proof.
  split; [reflexivity|]. split; [reflexivity|].
  split; [simpl; apply length_alter|]. intros G.
  unfold setAllCallsitesKnown. rewrite getFunction_alterFunction.
  destruct (decide (F = G /\ G < length (functions M))); auto.
Qed.

Lemma sameButAttributes_setUnreachable b F M :
  sameButAttributes M (setUnreachable b F M).
Proof.
  split; [reflexivity|]. split; [reflexivity|].
  split; [simpl; apply length_alter|]. intros G.
  unfold setUnreachable. rewrite getFunction_alterFunction.
  destruct (decide (F = G /\ G < length (functions M))); auto.
Qed.

Lemma sameButAttributes_kindOf M M' i :
  sameButAttributes M M' -> kindOf M' i = kindOf M i.
Proof. intros (Hi & _). unfold kindOf, getInst. rewrite Hi. reflexivity. Qed.

Lemma sameButAttributes_getUsers M M' i :
  sameButAttributes M M' -> getUsers M' i = getUsers M i.
Proof. intros (Hi & _). unfold getUsers, getInst. rewrite Hi. reflexivity. Qed.

Lemma sameButAttributes_typedAs M0 M M' :
  sameButAttributes M M' -> typedAs M0 M -> typedAs M0 M'.
Proof.
  intros Hs (H1 & H2 & H3 & H4).
  pose proof (sameButAttributes_kindOf M M') as Hk.
  split.
  { intros i. rewrite (Hk i Hs). apply H1. }
  split.
  { intros i. unfold isClosure. rewrite (Hk i Hs). apply H2. }
  split.
  { intros i c. rewrite (Hk i Hs). apply H3. }
  intros F u s f. rewrite (Hk u Hs).
  destruct Hs as (_ & _ & _ & HG). destruct (HG F) as (_ & -> & _). apply H4.
Qed.

Lemma sameButAttributes_agree M M' : sameButAttributes M M' -> agree M M'.
Proof.
  intros Hs. pose proof (sameButAttributes_kindOf M M') as Hk.
  pose proof (sameButAttributes_getUsers M M') as Hu.
  assert (Hc : forall i, isClosure M' i = isClosure M i)
    by (intros i; unfold isClosure; rewrite (Hk i Hs); reflexivity).
  split; [symmetry; apply Hs|].
  split; [symmetry; apply Hs|]. split.
  { intros i. rewrite (Hk i Hs).
    destruct (kindOf M i); simpl; try reflexivity.
    assert (E : forall v, canon M v = canon M' v)
      by (intros []; simpl; try reflexivity; rewrite Hc; reflexivity).
    rewrite !E. f_equal. apply List.map_ext. exact E. }
  split; [intros i _; symmetry; apply Hu; exact Hs|].
  intros G. destruct Hs as (Hi & _ & _ & HG). destruct (HG G) as (a & b & c & _).
  split; [congruence|]. split; [congruence|]. rewrite b.
  apply nonCallUsers_ext. intros u. unfold isCall, kindOf, getInst.
  rewrite Hi. reflexivity.
Qed.

Lemma sameButAttributes_targetOf M M' i :
  sameButAttributes M M' -> targetOf M' i = targetOf M i.
Proof.
  intros Hs. unfold targetOf. rewrite (sameButAttributes_kindOf M M' i Hs).
  reflexivity.
Qed.

(** *** What exactly the updates change in the functions *)

Lemma known_setFalse F M : known (setAllCallsitesKnown false F M) F = false.
Proof.
  unfold known, getAttributes, setAllCallsitesKnown.
  rewrite getFunction_alterFunction.
  destruct (decide (F = F /\ F < length (functions M))) as [_|Hn];
    [reflexivity|].
  rewrite getFunction_default; [reflexivity|]. lia.
Qed.

Lemma getFunction_setAllCallsitesKnown_other b F G M :
  G <> F -> getFunction (setAllCallsitesKnown b F M) G = getFunction M G.
Proof.
  intros Hne. unfold setAllCallsitesKnown. rewrite getFunction_alterFunction.
  rewrite decide_False; [reflexivity|]. intros [E _]. congruence.
Qed.

Lemma getFunction_setTarget_other call F G M :
  G <> F -> getFunction (setTarget call F M) G = getFunction M G.
Proof.
  intros Hne. unfold setTarget. rewrite getFunction_alterFunction.
  rewrite decide_False; [reflexivity|]. intros [E _]. congruence.
Qed.

Lemma getAttributes_setTarget call F G M :
  getAttributes (setTarget call F M) G = getAttributes M G.
Proof.
  unfold getAttributes, setTarget. rewrite getFunction_alterFunction.
  destruct (decide _); reflexivity.
Qed.

Lemma functions_setEnvironment call s M :
  functions (setEnvironment call s M) = functions M.
Proof. reflexivity. Qed.

Lemma functions_substUsers old new us :
  forall M, functions
    (List.fold_left
       (fun m u => alterInst (fun i => withKind (substKind old new (kind i)) i) u m)
       us M) = functions M.
Proof.
  induction us as [|u us IH]; intros M; simpl; [reflexivity|].
  rewrite IH. reflexivity.
Qed.

Lemma functions_replaceAllUsesWith old new M :
  functions (replaceAllUsesWith old new M) = functions M.
Proof.
  unfold replaceAllUsesWith. destruct (bool_decide (old = new)); [reflexivity|].
  simpl. apply functions_substUsers.
Qed.

Lemma registerCallsite_functions call callee scope M G :
  getAttributes (registerCallsite call callee scope M) G = getAttributes M G /\
  (G <> getFunctionCode M callee ->
   getFunction (registerCallsite call callee scope M) G = getFunction M G).
Proof.
  unfold registerCallsite.
  set (M1 := match callOperands M call with
             | Some c => if isEmptySentinel (target c)
                         then setTarget call (getFunctionCode M callee) M else M
             | None => M
             end).
  assert (H1 : getAttributes M1 G = getAttributes M G /\
               (G <> getFunctionCode M callee -> getFunction M1 G = getFunction M G)).
  { unfold M1. destruct (callOperands M call) as [c|]; [|auto].
    destruct (isEmptySentinel (target c)); [|auto].
    split; [apply getAttributes_setTarget|].
    intros Hne. apply getFunction_setTarget_other. exact Hne. }
  destruct scope as [s|]; [|exact H1].
  destruct (callOperands M1 call) as [c|]; [|exact H1].
  destruct (isEmptySentinel (environment c) && _); exact H1.
Qed.

Section Frame.
Variable isConstructionSetup : nat -> nat -> bool.
Variable isStoreOnceVariable : nat -> bool.

Lemma visitUser_frame F create closureInst knownScope M wl u M' wl' G :
  getFunctionCode M create = F -> G <> F ->
  visitUser isConstructionSetup isStoreOnceVariable F create closureInst
    knownScope (M, wl) u = (M', wl') ->
  getFunction M' G = getFunction M G.
Proof.
  intros HF Hne. unfold visitUser.
  assert (Hfalse : getFunction (setAllCallsitesKnown false F M) G
                   = getFunction M G)
    by (apply getFunction_setAllCallsitesKnown_other; exact Hne).
  destruct (kindOf M u) as [c|s f|cl|op|cv b|s v x|s x|ops] eqn:Hk.
  - intros [= <- _].
    set (M1 := if canEscapeThroughCall M closureInst F c
               then setAllCallsitesKnown false F M else M).
    assert (H1 : getFunction M1 G = getFunction M G)
      by (unfold M1; destruct (canEscapeThroughCall M closureInst F c); auto).
    assert (HF1 : getFunctionCode M1 create = F)
      by (unfold M1; destruct (canEscapeThroughCall M closureInst F c); auto).
    destruct (bool_decide (callee c = InstValue closureInst)); [|exact H1].
    rewrite (proj2 (registerCallsite_functions u create knownScope M1 G));
      [exact H1 | rewrite HF1; exact Hne].
  - destruct (isConstructionSetup u closureInst); intros [= <- _]; auto.
  - destruct (isConstructionSetup u closureInst); intros [= <- _]; auto.
    destruct knownScope as [s|]; [|reflexivity].
    unfold getFunction. rewrite functions_replaceAllUsesWith. reflexivity.
  - destruct (isConstructionSetup u closureInst); intros [= <- _]; auto.
  - destruct (isConstructionSetup u closureInst); [intros [= <- _]; auto|].
    destruct b; intros [= <- _]; auto.
  - destruct (isConstructionSetup u closureInst); [intros [= <- _]; auto|].
    destruct (isStoreOnceVariable x); simpl; intros [= <- _]; auto.
  - destruct (isConstructionSetup u closureInst); intros [= <- _]; auto.
  - destruct (isConstructionSetup u closureInst); intros [= <- _]; auto.
Qed.

Lemma visitUsers_frame F create closureInst knownScope us G :
  G <> F ->
  forall M wl M' wl',
  getFunctionCode M create = F ->
  List.fold_left
    (visitUser isConstructionSetup isStoreOnceVariable F create closureInst
       knownScope) us (M, wl) = (M', wl') ->
  getFunction M' G = getFunction M G.
Proof.
  intros Hne. induction us as [|u us IH]; intros M wl M' wl' HF;
    cbn [List.fold_left].
  - intros [= <- _]. reflexivity.
  - destruct (visitUser isConstructionSetup isStoreOnceVariable F create
                closureInst knownScope (M, wl) u) as [M1 wl1] eqn:E.
    intros Hfold.
    destruct (visitUser_evolves anyScope _ _ _ _ _ _ _ _ _ _ _
                (scopesOk_any M) (scopeOk_any knownScope)
                (worklistOk_any wl) E) as [H1 _].
    rewrite (IH M1 wl1 M' wl'); [| |exact Hfold].
    + eapply visitUser_frame; eassumption.
    + rewrite (evolves_getFunctionCode anyScope M M1 create H1). exact HF.
Qed.

Lemma worklistLoop_frame F create G fuel :
  G <> F ->
  forall M wl visited M',
  getFunctionCode M create = F ->
  worklistLoop isConstructionSetup isStoreOnceVariable fuel F create M wl
    visited = Some M' ->
  getFunction M' G = getFunction M G.
Proof.
  intros Hne. induction fuel as [|fuel IH]; intros M wl visited M' HF;
    destruct wl as [|[closureInst knownScope] rest]; simpl;
    try (intros [= <-]; reflexivity); try discriminate.
  destruct (bool_decide (closureInst ∈ visited)).
  - apply IH. exact HF.
  - destruct (List.fold_left _ (getUsers M closureInst) (M, rest))
      as [M1 wl1] eqn:E.
    destruct (visitUsers_evolves anyScope _ _ _ _ _ _ _
                (scopeOk_any knownScope) _ _ _ _
                (scopesOk_any M) (worklistOk_any rest) E) as [H1 _].
    intros Hloop.
    rewrite (IH M1 wl1 (closureInst :: visited) M'); [| |exact Hloop].
    + eapply visitUsers_frame; eassumption.
    + rewrite (evolves_getFunctionCode anyScope M M1 create H1). exact HF.
Qed.

Lemma evolves_usersWF ok M M' : usersWF M -> evolves ok M M' -> usersWF M'.
Proof.
  intros Hu (_ & _ & _ & Hk & _ & HG & _) F u s f Hin Hcreate.
  destruct (HG F) as (_ & _ & _ & _ & _ & extra & Eextra & Hextra).
  rewrite Eextra in Hin. apply List.in_app_iff in Hin as [Hin|Hin].
  - specialize (Hk u). rewrite Hcreate in Hk.
    destruct (kindOf M u) eqn:E; simpl in Hk; try contradiction.
    destruct Hk as [-> _]. eapply Hu; eassumption.
  - rewrite Forall_forall in Hextra.
    apply list_elem_of_In in Hin. specialize (Hextra u Hin).
    unfold isCall in Hextra. rewrite Hcreate in Hextra. discriminate.
Qed.

Lemma usersLoop_frame F G fuel :
  G <> F ->
  forall i M M',
  usersWF M ->
  usersLoop isConstructionSetup isStoreOnceVariable fuel F i M = Some M' ->
  getFunction M' G = getFunction M G.
Proof.
  intros Hne. induction fuel as [|fuel IH]; intros i M M' Hwf; simpl;
    destruct (functionUsers (getFunction M F) !! i) as [user|] eqn:Eu;
    try (intros [= <-]; reflexivity); try discriminate.
  assert (Hin : In user (functionUsers (getFunction M F))).
  { apply list_elem_of_In. eapply list_elem_of_lookup_2. exact Eu. }
  assert (Hother : forall M',
    usersLoop isConstructionSetup isStoreOnceVariable fuel F (S i)
      (setAllCallsitesKnown false F M) = Some M' ->
    getFunction M' G = getFunction M G).
  { intros M'' H. rewrite (IH _ _ _ (evolves_usersWF anyScope _ _ Hwf
              (evolves_setAllCallsitesKnown_false anyScope M F)) H).
    apply getFunction_setAllCallsitesKnown_other. exact Hne. }
  destruct (kindOf M user) as [c|s f|cl|op|cv b|s v x|s x|ops] eqn:Hk;
    try (apply Hother).
  - apply IH. exact Hwf.
  - destruct (analyzeCreateCallable _ _ fuel user M) as [M1|] eqn:E;
      [|discriminate].
    pose proof (analyzeCreateCallable_evolves anyScope _ _ _ _ _ _
                  (scopesOk_any M) E) as H1.
    intros H. rewrite (IH _ _ _ (evolves_usersWF anyScope _ _ Hwf H1) H).
    unfold analyzeCreateCallable in E. rewrite Hk in E.
    pose proof (Hwf F user s f Hin Hk) as ->.
    eapply worklistLoop_frame; [exact Hne| |exact E].
    unfold getFunctionCode. rewrite Hk. reflexivity.
Qed.
End Frame.

(** *** Two runs side by side *)

Lemma canon_eq M C v :
  isClosure M C = true -> (v = InstValue C <-> canon M v = Some C).
Proof.
  intros HC. split.
  - intros ->. simpl. rewrite HC. reflexivity.
  - destruct v as [| |i|]; simpl; try discriminate.
    destruct (isClosure M i); [|discriminate]. congruence.
Qed.

Lemma callee_test_flow M C v :
  isClosure M C = true ->
  bool_decide (v = InstValue C) = bool_decide (canon M v = Some C).
Proof. intros HC. apply bool_decide_ext. apply canon_eq. exact HC. Qed.

Lemma canEscapeThroughCall_flow M C F c :
  isClosure M C = true ->
  canEscapeThroughCall M C F c
  = escapes C (newTargetParamHasUsers (getFunction M F))
      (canon M (callee c)) (canon M (newTarget c))
      (List.map (canon M) (arguments c)).
Proof.
  intros HC. unfold canEscapeThroughCall, escapes.
  rewrite (callee_test_flow M C _ HC).
  assert (Eargs : List.existsb (fun a => bool_decide (InstValue C = a)) (arguments c)
                  = List.existsb (fun o => bool_decide (o = Some C))
                      (List.map (canon M) (arguments c))).
  { induction (arguments c) as [|a l IH]; simpl; [reflexivity|].
    rewrite IH. f_equal. rewrite <- (callee_test_flow M C a HC).
    apply bool_decide_ext. split; congruence. }
  rewrite Eargs.
  assert (Ent : bool_decide (InstValue C = newTarget c)
                = bool_decide (canon M (newTarget c) = Some C)).
  { rewrite <- (callee_test_flow M C _ HC). apply bool_decide_ext.
    split; congruence. }
  rewrite Ent. clear Eargs Ent.
  destruct (bool_decide (canon M (callee c) = Some C)); simpl; [|reflexivity].
  destruct (List.existsb (fun o => bool_decide (o = Some C))
              (List.map (canon M) (arguments c))); simpl; [reflexivity|].
  destruct (bool_decide (canon M (newTarget c) = Some C)
            && newTargetParamHasUsers (getFunction M F)); reflexivity.
Qed.

Lemma agree_getFunctionCode Ma Mb i :
  agree Ma Mb -> getFunctionCode Ma i = getFunctionCode Mb i.
Proof.
  intros (_ & _ & Hk & _). specialize (Hk i). unfold getFunctionCode.
  destruct (kindOf Ma i), (kindOf Mb i); simpl in Hk; try discriminate;
    try reflexivity.
  congruence.
Qed.

Lemma known_registerCallsite call callee scope M F :
  known (registerCallsite call callee scope M) F = known M F.
Proof.
  unfold known. rewrite (proj1 (registerCallsite_functions call callee scope M F)).
  reflexivity.
Qed.

Lemma known_replaceAllUsesWith old new M F :
  known (replaceAllUsesWith old new M) F = known M F.
Proof.
  unfold known, getAttributes, getFunction.
  rewrite functions_replaceAllUsesWith. reflexivity.
Qed.

Lemma pushLoads_rel Ma Mb pa pb us :
  agree Ma Mb ->
  forall wla wlb,
  List.map fst wla = List.map fst wlb -> closuresOnly Ma wla ->
  List.map fst (pushLoads Ma pa wla us) = List.map fst (pushLoads Mb pb wlb us) /\
  closuresOnly Ma (pushLoads Ma pa wla us).
Proof.
  intros Hag. induction us as [|u us IH]; intros wla wlb Hfst Hcl; simpl;
    [auto|].
  pose proof (proj1 (proj2 (proj2 Hag)) u) as Hk.
  destruct (kindOf Ma u) eqn:Ea, (kindOf Mb u) eqn:Eb; simpl in Hk;
    try discriminate; try (apply IH; assumption).
  apply IH.
  - simpl. f_equal. exact Hfst.
  - constructor; [|exact Hcl]. simpl. unfold isClosure. rewrite Ea. reflexivity.
Qed.

(** *** Updates that leave every target alone *)

Lemma targetOf_kindTarget M i : targetOf M i = kindTarget (kindOf M i).
Proof. reflexivity. Qed.

Lemma targetOf_alterInst (f : Instruction -> Instruction) j M :
  kindTarget (kind (f (getInst M j))) = kindTarget (kind (getInst M j)) ->
  forall i, targetOf (alterInst f j M) i = targetOf M i.
Proof.
  intros H i. rewrite !targetOf_kindTarget. unfold kindOf.
  rewrite getInst_alterInst.
  destruct (decide (j = i /\ i < length (instructions M))) as [[<- _]|_];
    [exact H | reflexivity].
Qed.

Lemma targetOf_setEnvironment call s M i :
  targetOf (setEnvironment call s M) i = targetOf M i.
Proof.
  unfold setEnvironment. rewrite targetOf_alterInst by reflexivity.
  apply targetOf_alterInst. unfold onCall.
  destruct (kind (getInst M call)) eqn:E; simpl; rewrite ?E; reflexivity.
Qed.

Lemma targetsTyped_targetOf M M' :
  (forall i, targetOf M' i = targetOf M i) -> targetsTyped M -> targetsTyped M'.
Proof.
  intros H Ht i c Hc. specialize (H i). unfold targetOf in H. rewrite Hc in H.
  destruct (kindOf M i) as [c0| | | | | | |] eqn:E; try discriminate.
  injection H as ->. apply (Ht i c0 E).
Qed.

Lemma kindTarget_substKind old new k :
  (forall c, k = BaseCallInst c ->
             target c = EmptySentinel \/ exists G, target c = FunctionValue G) ->
  kindTarget (substKind old new k) = kindTarget k.
Proof.
  intros H. destruct k as [c| | | | | | |]; try reflexivity. simpl.
  destruct (H c eq_refl) as [E|[G E]]; rewrite E; reflexivity.
Qed.

Lemma targetOf_substUsers old new us :
  forall M, targetsTyped M ->
  forall i, targetOf
    (List.fold_left
       (fun m u => alterInst (fun i => withKind (substKind old new (kind i)) i) u m)
       us M) i = targetOf M i.
Proof.
  induction us as [|u us IH]; intros M Ht i; simpl; [reflexivity|].
  assert (H1 : forall i, targetOf
            (alterInst (fun i => withKind (substKind old new (kind i)) i) u M) i
            = targetOf M i).
  { apply targetOf_alterInst. simpl. apply kindTarget_substKind.
    intros c Hc. apply (Ht u c). exact Hc. }
  rewrite IH; [apply H1|]. eapply targetsTyped_targetOf; eassumption.
Qed.

Lemma targetOf_replaceAllUsesWith old new M i :
  targetsTyped M -> targetOf (replaceAllUsesWith old new M) i = targetOf M i.
Proof.
  intros Ht. unfold replaceAllUsesWith.
  destruct (bool_decide (old = new)); [reflexivity|].
  rewrite targetOf_alterInst by reflexivity.
  rewrite targetOf_alterInst by reflexivity.
  apply targetOf_substUsers. exact Ht.
Qed.

Lemma hasTarget_targetOf M i :
  hasTarget M i = match targetOf M i with
                  | Some t => negb (isEmptySentinel t)
                  | None => false
                  end.
Proof. unfold hasTarget, targetOf. destruct (kindOf M i); reflexivity. Qed.

Lemma registerCallsite_quiet call callee scope M :
  hasTarget M call = true ->
  (forall i, targetOf (registerCallsite call callee scope M) i = targetOf M i) /\
  functions (registerCallsite call callee scope M) = functions M.
Proof.
  intros Hh. unfold registerCallsite, hasTarget in *. unfold callOperands.
  destruct (kindOf M call) as [c| | | | | | |] eqn:Hk; try discriminate.
  apply negb_true_iff in Hh. rewrite Hh. rewrite Hk.
  destruct scope as [s|]; [|auto].
  destruct (isEmptySentinel (environment c) && _); [|auto].
  split; [intros i; apply targetOf_setEnvironment | reflexivity].
Qed.

Section Quiet.
Variable isConstructionSetup : nat -> nat -> bool.
Variable isStoreOnceVariable : nat -> bool.

(** A call on the closure gets a target. *)
Lemma visitUser_registers F create closureInst knownScope M wl u c M' wl' :
  kindOf M u = BaseCallInst c -> callee c = InstValue closureInst ->
  getFunctionCode M create = F ->
  FunctionAnalysis.visitUser isConstructionSetup isStoreOnceVariable F create
    closureInst knownScope (M, wl) u = (M', wl') ->
  hasTarget M' u = true.
Proof.
  intros Hk Hc HF E.
  destruct (visitUser_call isConstructionSetup isStoreOnceVariable F create
              closureInst knownScope M wl u c Hk Hc HF)
    as (M1 & c1 & E1 & Hk1 & _ & Ht & _).
  rewrite E1 in E. injection E as <- _.
  unfold hasTarget. rewrite Hk1, Ht.
  destruct (target c); reflexivity.
Qed.

(** Where every call on the closure already has a target, visiting a user
    changes no target and no function's users. *)
Lemma visitUser_quiet F create closureInst knownScope M wl u M' wl' :
  targetsTyped M ->
  (forall c, kindOf M u = BaseCallInst c -> callee c = InstValue closureInst ->
             hasTarget M u = true) ->
  FunctionAnalysis.visitUser isConstructionSetup isStoreOnceVariable F create
    closureInst knownScope (M, wl) u = (M', wl') ->
  (forall i, targetOf M' i = targetOf M i) /\
  (forall G, functionUsers (getFunction M' G) = functionUsers (getFunction M G)).
Proof.
  intros Ht Hreg. unfold FunctionAnalysis.visitUser.
  assert (Hfalse :
    (forall i, targetOf (setAllCallsitesKnown false F M) i = targetOf M i) /\
    (forall G, functionUsers (getFunction (setAllCallsitesKnown false F M) G)
               = functionUsers (getFunction M G))).
  { pose proof (sameButAttributes_setAllCallsitesKnown false F M) as Hs.
    split; [intros i; apply sameButAttributes_targetOf; exact Hs|].
    intros G. destruct Hs as (_ & _ & _ & HG). apply (HG G). }
  destruct (kindOf M u) as [c|s f|cl|op|cv b|s v x|s x|ops] eqn:Hk.
  - intros [= <- _].
    set (M1 := if canEscapeThroughCall M closureInst F c
               then setAllCallsitesKnown false F M else M).
    assert (H1 : (forall i, targetOf M1 i = targetOf M i) /\
                 (forall G, functionUsers (getFunction M1 G)
                            = functionUsers (getFunction M G))).
    { unfold M1. destruct (canEscapeThroughCall M closureInst F c); auto. }
    destruct (bool_decide_reflect (callee c = InstValue closureInst))
      as [Hc|_]; [|exact H1].
    assert (Hh1 : hasTarget M1 u = true).
    { rewrite hasTarget_targetOf, (proj1 H1 u), <- hasTarget_targetOf.
      apply (Hreg c eq_refl Hc). }
    destruct (registerCallsite_quiet u create knownScope M1 Hh1) as [Hq1 Hq2].
    split.
    + intros i. rewrite Hq1. apply H1.
    + intros G. unfold getFunction at 1. rewrite Hq2. apply H1.
  - destruct (isConstructionSetup u closureInst); intros [= <- _]; auto.
  - destruct (isConstructionSetup u closureInst); intros [= <- _]; auto.
    destruct knownScope as [s|]; [|auto]. split.
    + intros i. apply targetOf_replaceAllUsesWith. exact Ht.
    + intros G. unfold getFunction. rewrite functions_replaceAllUsesWith.
      reflexivity.
  - destruct (isConstructionSetup u closureInst); intros [= <- _]; auto.
  - destruct (isConstructionSetup u closureInst); [intros [= <- _]; auto|].
    destruct b; intros [= <- _]; auto.
  - destruct (isConstructionSetup u closureInst); [intros [= <- _]; auto|].
    destruct (isStoreOnceVariable x); simpl; intros [= <- _]; auto.
  - destruct (isConstructionSetup u closureInst); intros [= <- _]; auto.
  - destruct (isConstructionSetup u closureInst); intros [= <- _]; auto.
Qed.
End Quiet.

Section SideBySide.
Variable isConstructionSetup : nat -> nat -> bool.
Variable isStoreOnceVariable : nat -> bool.
Local Abbreviation visitUser :=
  (visitUser isConstructionSetup isStoreOnceVariable).
Local Abbreviation worklistLoop :=
  (worklistLoop isConstructionSetup isStoreOnceVariable).
Local Abbreviation analyzeCreateCallable :=
  (analyzeCreateCallable isConstructionSetup isStoreOnceVariable).
Local Abbreviation usersLoop :=
  (usersLoop isConstructionSetup isStoreOnceVariable).
Local Abbreviation analyzeFunctionCallsites :=
  (analyzeFunctionCallsites isConstructionSetup isStoreOnceVariable).
Local Abbreviation runFrom := (runFrom isConstructionSetup isStoreOnceVariable).

(** Both runs take the same decisions on a user of the closure. *)
Lemma visitUser_decisions F create closureInst sa sb Ma Mb wla wlb u
    Ma' Mb' wla' wlb' :
  agree Ma Mb -> isClosure Ma closureInst = true ->
  List.map fst wla = List.map fst wlb -> closuresOnly Ma wla ->
  visitUser F create closureInst sa (Ma, wla) u = (Ma', wla') ->
  visitUser F create closureInst sb (Mb, wlb) u = (Mb', wlb') ->
  List.map fst wla' = List.map fst wlb' /\
  closuresOnly Ma wla' /\
  (known Ma F = known Mb F -> known Ma' F = known Mb' F).
Proof.
  intros Hag HCa Hfst Hcl.
  assert (HCb : isClosure Mb closureInst = true)
    by (rewrite <- (agree_isClosure Ma Mb closureInst Hag); exact HCa).
  pose proof (proj1 (proj2 (proj2 Hag)) u) as Hk.
  assert (Hntp : newTargetParamHasUsers (getFunction Ma F)
                 = newTargetParamHasUsers (getFunction Mb F))
    by (destruct Hag as (_ & _ & _ & _ & HG); apply (HG F)).
  assert (Hvars : forall x, getVariableUsers Ma x = getVariableUsers Mb x)
    by (intros x; unfold getVariableUsers; rewrite (proj1 (proj2 Hag));
        reflexivity).
  assert (Hfalse : known Ma F = known Mb F ->
                   known (setAllCallsitesKnown false F Ma) F
                   = known (setAllCallsitesKnown false F Mb) F)
    by (intros _; rewrite !known_setFalse; reflexivity).
  unfold FunctionAnalysis.visitUser.
  destruct (kindOf Ma u) as [ca|s f|cl|op|cv b|s v x|s x|ops] eqn:Ea,
           (kindOf Mb u) as [cb|s' f'|cl'|op'|cv' b'|s' v' x'|s' x'|ops'] eqn:Eb;
    simpl in Hk; try discriminate.
  - (* a call *)
    injection Hk as Hc1 Hc2 Hc3.
    rewrite (callee_test_flow Ma _ _ HCa), (callee_test_flow Mb _ _ HCb), Hc1.
    rewrite (canEscapeThroughCall_flow Ma _ _ _ HCa),
            (canEscapeThroughCall_flow Mb _ _ _ HCb), Hc1, Hc2, Hc3, Hntp.
    intros [= <- <-] [= <- <-].
    split; [exact Hfst|]. split; [exact Hcl|]. intros Hknown.
    destruct (escapes _ _ _ _ _);
      destruct (bool_decide (canon Mb (callee cb) = Some closureInst));
      rewrite ?known_registerCallsite, ?known_setFalse; auto.
  - (* another closure creation *)
    destruct (isConstructionSetup u closureInst);
      intros [= <- <-] [= <- <-]; auto.
  - (* GetClosureScopeInst *)
    destruct (isConstructionSetup u closureInst);
      intros [= <- <-] [= <- <-]; [auto|].
    split; [exact Hfst|]. split; [exact Hcl|]. intros Hknown.
    destruct sa, sb; rewrite ?known_replaceAllUsesWith; exact Hknown.
  - (* UnionNarrowTrustedInst *)
    destruct (isConstructionSetup u closureInst);
      intros [= <- <-] [= <- <-]; [auto|].
    split; [simpl; f_equal; exact Hfst|]. split; [|auto].
    constructor; [|exact Hcl]. simpl. unfold isClosure. rewrite Ea. reflexivity.
  - (* CheckedTypeCastInst *)
    injection Hk as <-.
    destruct (isConstructionSetup u closureInst);
      [intros [= <- <-] [= <- <-]; auto|].
    destruct b; intros [= <- <-] [= <- <-]; [|auto].
    split; [simpl; f_equal; exact Hfst|]. split; [|auto].
    constructor; [|exact Hcl]. simpl. unfold isClosure. rewrite Ea. reflexivity.
  - (* StoreFrameInst *)
    injection Hk as <-.
    destruct (isConstructionSetup u closureInst);
      [intros [= <- <-] [= <- <-]; auto|].
    destruct (isStoreOnceVariable x); simpl;
      intros [= <- <-] [= <- <-]; [|auto].
    rewrite <- Hvars.
    destruct (pushLoads_rel Ma Mb (bool_decide (Some s = sa))
                (bool_decide (Some s' = sb)) (getVariableUsers Ma x) Hag
                wla wlb Hfst Hcl) as [H1 H2].
    auto.
  - (* LoadFrameInst *)
    destruct (isConstructionSetup u closureInst);
      intros [= <- <-] [= <- <-]; auto.
  - destruct (isConstructionSetup u closureInst);
      intros [= <- <-] [= <- <-]; auto.
Qed.

Variable M0 : IRModule.

Lemma closuresOnly_tags M M' wl :
  (forall i, isClosure M' i = isClosure M i) ->
  closuresOnly M wl -> closuresOnly M' wl.
Proof.
  intros H Hcl. eapply Forall_impl; [exact Hcl|].
  intros item Hi. simpl in *. rewrite H. exact Hi.
Qed.

Lemma typedAs_isClosure Ma Mb i :
  typedAs M0 Ma -> typedAs M0 Mb -> isClosure Mb i = isClosure Ma i.
Proof. intros (_ & Ha & _) (_ & Hb & _). rewrite Ha, Hb. reflexivity. Qed.

(** One step of both runs keeps them related. *)
Lemma visitUser_related F create closureInst sa sb Ma Mb wla wlb u
    Ma' Mb' wla' wlb' :
  related M0 F create Ma Mb wla wlb ->
  isClosure Ma closureInst = true ->
  scopeOk (nonClosure M0) sa -> scopeOk (nonClosure M0) sb ->
  visitUser F create closureInst sa (Ma, wla) u = (Ma', wla') ->
  visitUser F create closureInst sb (Mb, wlb) u = (Mb', wlb') ->
  related M0 F create Ma' Mb' wla' wlb' /\
  (known Ma F = known Mb F -> known Ma' F = known Mb' F) /\
  evolves (nonClosure M0) Ma Ma' /\ evolves (nonClosure M0) Mb Mb'.
Proof.
  intros (Hta & Htb & Hag & HF & Hfst & Hcl & Hoka & Hokb) HC Hsa Hsb Ea Eb.
  destruct (visitUser_evolves (nonClosure M0) _ _ _ _ _ _ _ _ _ _ _
              (proj1 Hta) Hsa Hoka Ea) as [Heva Hoka'].
  destruct (visitUser_evolves (nonClosure M0) _ _ _ _ _ _ _ _ _ _ _
              (proj1 Htb) Hsb Hokb Eb) as [Hevb Hokb'].
  destruct (visitUser_decisions F create closureInst sa sb Ma Mb wla wlb u
              Ma' Mb' wla' wlb' Hag HC Hfst Hcl Ea Eb)
    as (Hfst' & Hcl' & Hknown).
  pose proof (evolves_typedAs M0 Ma Ma' Hta Heva) as Hta'.
  pose proof (evolves_typedAs M0 Mb Mb' Htb Hevb) as Htb'.
  split; [|auto].
  split; [exact Hta'|]. split; [exact Htb'|].
  split.
  { apply (agree_trans Ma' Ma Mb');
      [apply agree_sym; exact (evolves_agree M0 Ma Ma' Hta Heva)|].
    apply (agree_trans Ma Mb Mb'); [exact Hag|].
    exact (evolves_agree M0 Mb Mb' Htb Hevb). }
  split; [rewrite (evolves_getFunctionCode _ Ma Ma' create Heva); exact HF|].
  split; [exact Hfst'|].
  split; [|auto].
  eapply closuresOnly_tags; [|exact Hcl'].
  intros i. apply (typedAs_isClosure Ma Ma' i Hta Hta').
Qed.

Lemma related_call_on_closure F create Ma Mb wla wlb closureInst u cb :
  related M0 F create Ma Mb wla wlb ->
  isClosure Ma closureInst = true ->
  kindOf Mb u = BaseCallInst cb -> callee cb = InstValue closureInst ->
  exists ca, kindOf Ma u = BaseCallInst ca /\ callee ca = InstValue closureInst.
Proof.
  intros (Hta & Htb & Hag & _) HC Hk Hc.
  pose proof (proj1 (proj2 (proj2 Hag)) u) as Hfk. rewrite Hk in Hfk.
  destruct (kindOf Ma u) as [ca| | | | | | |]; simpl in Hfk; try discriminate.
  exists ca. split; [reflexivity|].
  injection Hfk as Hc1 _ _.
  apply (canon_eq Ma closureInst _ HC). rewrite Hc1.
  apply canon_eq; [|exact Hc].
  rewrite (typedAs_isClosure Ma Mb closureInst Hta Htb). exact HC.
Qed.

(** The loop over the users of one closure, in both runs. *)
Lemma visitUsers_related F create closureInst sa sb us :
  scopeOk (nonClosure M0) sa -> scopeOk (nonClosure M0) sb ->
  forall Ma Mb wla wlb Ma' Mb' wla' wlb',
  related M0 F create Ma Mb wla wlb ->
  isClosure Ma closureInst = true ->
  List.fold_left (visitUser F create closureInst sa) us (Ma, wla)
  = (Ma', wla') ->
  List.fold_left (visitUser F create closureInst sb) us (Mb, wlb)
  = (Mb', wlb') ->
  (forall cl, hasTarget Ma' cl = true -> hasTarget Mb cl = true) ->
  related M0 F create Ma' Mb' wla' wlb' /\
  (known Ma F = known Mb F -> known Ma' F = known Mb' F) /\
  (forall i, targetOf Mb' i = targetOf Mb i) /\
  (forall G, functionUsers (getFunction Mb' G)
             = functionUsers (getFunction Mb G)) /\
  evolves (nonClosure M0) Ma Ma' /\ evolves (nonClosure M0) Mb Mb'.
Proof.
  intros Hsa Hsb. induction us as [|u us IH];
    intros Ma Mb wla wlb Ma' Mb' wla' wlb' Hrel HC; cbn [List.fold_left].
  - intros [= <- <-] [= <- <-] _.
    split; [exact Hrel|]. split; [auto|]. split; [reflexivity|].
    split; [reflexivity|]. split; apply evolves_refl.
  - destruct (visitUser F create closureInst sa (Ma, wla) u)
      as [Ma1 wla1] eqn:Ea.
    destruct (visitUser F create closureInst sb (Mb, wlb) u)
      as [Mb1 wlb1] eqn:Eb.
    intros Hfa Hfb Hfin.
    destruct (visitUser_related F create closureInst sa sb Ma Mb wla wlb u
                Ma1 Mb1 wla1 wlb1 Hrel HC Hsa Hsb Ea Eb)
      as (Hrel1 & Hknown1 & Heva1 & Hevb1).
    pose proof Hrel as (Hta & Htb & Hag & HF & _).
    pose proof Hrel1 as (Hta1 & Htb1 & _ & _ & _ & _ & Hoka1 & _).
    assert (HC1 : isClosure Ma1 closureInst = true)
      by (rewrite (typedAs_isClosure Ma Ma1 closureInst Hta Hta1); exact HC).
    destruct (visitUsers_evolves (nonClosure M0) _ _ F create closureInst sa us
                Hsa Ma1 wla1 Ma' wla' (proj1 Hta1) Hoka1 Hfa) as [Hrest _].
    (* the step of the second run changes no target *)
    destruct (visitUser_quiet isConstructionSetup isStoreOnceVariable F create
                closureInst sb Mb wlb u Mb1 wlb1) as [Hq1 Hq2].
    { apply Htb. }
    { intros cb Hk Hc.
      destruct (related_call_on_closure F create Ma Mb wla wlb closureInst u
                  cb Hrel HC Hk Hc) as (ca & Hka & Hca).
      apply Hfin. apply (evolves_hasTarget _ Ma1 Ma' u Hrest).
      eapply visitUser_registers; eassumption. }
    { exact Eb. }
    destruct (IH Ma1 Mb1 wla1 wlb1 Ma' Mb' wla' wlb' Hrel1 HC1 Hfa Hfb)
      as (Hrel' & Hknown' & Hq1' & Hq2' & Heva' & Hevb').
    { intros cl Hcl. apply (evolves_hasTarget _ Mb Mb1 cl Hevb1).
      apply Hfin. exact Hcl. }
    split; [exact Hrel'|]. split; [auto|].
    split; [intros i; rewrite Hq1'; apply Hq1|].
    split; [intros G; rewrite Hq2'; apply Hq2|].
    split; eapply evolves_trans; eassumption.
Qed.

(** The worklist loop, in both runs. *)
Lemma worklistLoop_related F create fa :
  forall fb Ma Mb wla wlb visited Afin Mb',
  related M0 F create Ma Mb wla wlb ->
  worklistLoop fa F create Ma wla visited = Some Afin ->
  worklistLoop fb F create Mb wlb visited = Some Mb' ->
  (forall cl, hasTarget Afin cl = true -> hasTarget Mb cl = true) ->
  (known Ma F = known Mb F -> known Afin F = known Mb' F) /\
  (forall i, targetOf Mb' i = targetOf Mb i) /\
  (forall G, functionUsers (getFunction Mb' G)
             = functionUsers (getFunction Mb G)).
Proof.
  induction fa as [|fa IH]; intros fb Ma Mb wla wlb visited Afin Mb' Hrel;
    pose proof Hrel as (Hta & Htb & Hag & HF & Hfst & Hcl & Hoka & Hokb);
    destruct wla as [|[ca sa] resta], wlb as [|[cb sb] restb];
    try discriminate Hfst; destruct fb as [|fb]; simpl;
    try discriminate; try (intros [= <-] [= <-] _; auto; fail).
  - simpl in Hfst. injection Hfst as <- Hfst.
    apply Forall_cons in Hcl as [HC Hcl']. simpl in HC.
    apply Forall_cons in Hoka as [Hsa Hoka']. simpl in Hsa.
    apply Forall_cons in Hokb as [Hsb Hokb']. simpl in Hsb.
    assert (Hrest : related M0 F create Ma Mb resta restb)
      by exact (conj Hta (conj Htb (conj Hag (conj HF (conj Hfst
               (conj Hcl' (conj Hoka' Hokb'))))))).
    destruct (bool_decide (ca ∈ visited)).
    + apply IH. exact Hrest.
    + assert (Hus : getUsers Ma ca = getUsers Mb ca)
        by (apply Hag; exact HC).
      rewrite <- Hus.
      destruct (List.fold_left (visitUser F create ca sa) (getUsers Ma ca)
                  (Ma, resta)) as [Ma1 wla1] eqn:Ea.
      destruct (List.fold_left (visitUser F create ca sb) (getUsers Ma ca)
                  (Mb, restb)) as [Mb1 wlb1] eqn:Eb.
      intros Hla Hlb Hfin.
      assert (Hloop : evolves (nonClosure M0) Ma1 Afin).
      { destruct (visitUsers_evolves (nonClosure M0) _ _ F create ca sa _ Hsa
                    Ma resta Ma1 wla1 (proj1 Hta) Hoka' Ea) as [Hev1 Hok1].
        eapply worklistLoop_evolves; [|exact Hok1|exact Hla].
        eapply evolves_scopesOk; [apply Hta | exact Hev1]. }
      destruct (visitUsers_related F create ca sa sb (getUsers Ma ca) Hsa Hsb
                  Ma Mb resta restb Ma1 Mb1 wla1 wlb1 Hrest HC Ea Eb)
        as (Hrel1 & Hknown1 & Hq1 & Hq2 & Heva1 & Hevb1).
      { intros cl Hcl1. apply Hfin.
        apply (evolves_hasTarget _ Ma1 Afin cl Hloop). exact Hcl1. }
      destruct (IH fb Ma1 Mb1 wla1 wlb1 (ca :: visited) Afin Mb' Hrel1 Hla Hlb)
        as (Hknown' & Hq1' & Hq2').
      { intros cl Hcl1. apply (evolves_hasTarget _ Mb Mb1 cl Hevb1).
        apply Hfin. exact Hcl1. }
      split; [auto|].
      split; [intros i; rewrite Hq1'; apply Hq1|].
      intros G. rewrite Hq2'. apply Hq2.
Qed.

Lemma analyzeCreateCallable_related fa fb create sa F Ma Mb Afin Mb' :
  typedAs M0 Ma -> typedAs M0 Mb -> agree Ma Mb ->
  kindOf Ma create = BaseCreateCallableInst sa F ->
  analyzeCreateCallable fa create Ma = Some Afin ->
  analyzeCreateCallable fb create Mb = Some Mb' ->
  (forall cl, hasTarget Afin cl = true -> hasTarget Mb cl = true) ->
  (known Ma F = known Mb F -> known Afin F = known Mb' F) /\
  (forall i, targetOf Mb' i = targetOf Mb i) /\
  (forall G, functionUsers (getFunction Mb' G)
             = functionUsers (getFunction Mb G)).
Proof.
  intros Hta Htb Hag Hk. unfold FunctionAnalysis.analyzeCreateCallable.
  pose proof (proj1 (proj2 (proj2 Hag)) create) as Hfk. rewrite Hk in Hfk.
  rewrite Hk.
  destruct (kindOf Mb create) as [|sb F'| | | | | |] eqn:Hkb; simpl in Hfk;
    try discriminate.
  injection Hfk as <-.
  apply worklistLoop_related.
  split; [exact Hta|]. split; [exact Htb|]. split; [exact Hag|].
  split; [unfold getFunctionCode; rewrite Hk; reflexivity|].
  split; [reflexivity|].
  split; [constructor; [simpl; unfold isClosure; rewrite Hk; reflexivity
                       | constructor]|].
  pose proof (proj1 Hta create) as Hoa. rewrite Hk in Hoa.
  pose proof (proj1 Htb create) as Hob. rewrite Hkb in Hob.
  split; (constructor; [assumption | constructor]).
Qed.

Lemma nonCallUsers_cons M u us :
  nonCallUsers M (u :: us)
  = if isCall M u then nonCallUsers M us else u :: nonCallUsers M us.
Proof. unfold nonCallUsers. simpl. destruct (isCall M u); reflexivity. Qed.

Lemma nonCallUsers_calls M extra :
  Forall (fun u => isCall M u = true) extra -> nonCallUsers M extra = [].
Proof.
  induction 1 as [|u l Hu _ IH]; [reflexivity|].
  rewrite nonCallUsers_cons, Hu. exact IH.
Qed.

(** A step of the pass leaves the users still to come, calls apart. *)
Lemma nonCall_rest_evolves ok M M' F i :
  evolves ok M M' -> i <= length (functionUsers (getFunction M F)) ->
  nonCallUsers M' (drop i (functionUsers (getFunction M' F)))
  = nonCallUsers M (drop i (functionUsers (getFunction M F))).
Proof.
  intros Hev Hi.
  pose proof (fun u => proj2 (proj2 (evolves_tags ok M M' u Hev))) as Hcalls.
  destruct Hev as (_ & _ & _ & _ & _ & HG & _).
  destruct (HG F) as (_ & _ & _ & _ & _ & extra & -> & Hextra).
  rewrite drop_app_le by exact Hi.
  unfold nonCallUsers at 1. rewrite List.filter_app.
  fold (nonCallUsers M' extra). rewrite (nonCallUsers_calls M' extra Hextra).
  rewrite List.app_nil_r. apply List.filter_ext. intros u. rewrite Hcalls.
  reflexivity.
Qed.

Lemma usersLoop_all_calls F fb :
  forall j Mb Mb',
  nonCallUsers Mb (drop j (functionUsers (getFunction Mb F))) = [] ->
  usersLoop fb F j Mb = Some Mb' -> Mb' = Mb.
Proof.
  induction fb as [|fb IH]; intros j Mb Mb' Hnil; simpl;
    destruct (functionUsers (getFunction Mb F) !! j) as [u|] eqn:Eu;
    try discriminate; try (intros [= <-]; reflexivity).
  rewrite (drop_S _ _ _ Eu), nonCallUsers_cons in Hnil.
  unfold isCall in Hnil.
  destruct (kindOf Mb u); try discriminate Hnil.
  apply IH. exact Hnil.
Qed.

(** The loop over the users of [F], in both runs. *)
Lemma usersLoop_related F n :
  forall fa fb i j Ma Mb Afin Mb',
  fa + fb <= n ->
  typedAs M0 Ma -> typedAs M0 Mb -> agree Ma Mb ->
  nonCallUsers Ma (drop i (functionUsers (getFunction Ma F)))
  = nonCallUsers Mb (drop j (functionUsers (getFunction Mb F))) ->
  usersLoop fa F i Ma = Some Afin ->
  usersLoop fb F j Mb = Some Mb' ->
  (forall cl, hasTarget Afin cl = true -> hasTarget Mb cl = true) ->
  (known Ma F = known Mb F -> known Afin F = known Mb' F) /\
  (forall i, targetOf Mb' i = targetOf Mb i) /\
  (forall G, functionUsers (getFunction Mb' G)
             = functionUsers (getFunction Mb G)).
Proof.
  induction n as [|n IH]; intros fa fb i j Ma Mb Afin Mb' Hn Hta Htb Hag Hrest.
  - (* no fuel: both loops are at their end *)
    assert (fa = 0) as -> by lia. assert (fb = 0) as -> by lia. simpl.
    destruct (functionUsers (getFunction Ma F) !! i); [discriminate|].
    destruct (functionUsers (getFunction Mb F) !! j); [discriminate|].
    intros [= <-] [= <-] _. auto.
  - destruct (functionUsers (getFunction Ma F) !! i) as [ua|] eqn:Eua.
    2:{ (* the first run is at its end *)
      intros Ha Hb _.
      assert (Afin = Ma) as ->
        by (destruct fa; simpl in Ha; rewrite Eua in Ha; congruence).
      rewrite (drop_ge _ i) in Hrest by (apply lookup_ge_None; exact Eua).
      unfold nonCallUsers at 1 in Hrest. simpl in Hrest. symmetry in Hrest.
      rewrite (usersLoop_all_calls F fb j Mb Mb' Hrest Hb). auto. }
    pose proof (lookup_lt_Some _ _ _ Eua) as Hi.
    rewrite (drop_S _ _ _ Eua), nonCallUsers_cons in Hrest.
    destruct fa as [|fa]; [simpl; rewrite Eua; discriminate|].
    destruct (isCall Ma ua) eqn:Hcalla.
    { (* the first run skips a call *)
      simpl. rewrite Eua. unfold isCall in Hcalla.
      destruct (kindOf Ma ua); try discriminate Hcalla.
      apply IH; [lia | assumption..]. }
    destruct (functionUsers (getFunction Mb F) !! j) as [ub|] eqn:Eub.
    2:{ rewrite (drop_ge _ j) in Hrest by (apply lookup_ge_None; exact Eub).
        discriminate Hrest. }
    pose proof (lookup_lt_Some _ _ _ Eub) as Hj.
    rewrite (drop_S _ _ _ Eub), nonCallUsers_cons in Hrest.
    destruct fb as [|fb]; [simpl; rewrite Eub; discriminate|].
    destruct (isCall Mb ub) eqn:Hcallb.
    { (* the second run skips a call *)
      intros Ha. simpl. rewrite Eub. unfold isCall in Hcallb.
      destruct (kindOf Mb ub); try discriminate Hcallb.
      apply (IH (S fa) fb i (S j)); [lia | assumption.. | | exact Ha].
      rewrite (drop_S _ _ _ Eua), nonCallUsers_cons, Hcalla. exact Hrest. }
    (* both runs are at the same user *)
    injection Hrest as <- Hrest.
    assert (Hin : In ua (functionUsers (getFunction Ma F)))
      by (apply list_elem_of_In; eapply list_elem_of_lookup_2; exact Eua).
    pose proof (proj1 (proj2 (proj2 Hag)) ua) as Hfk.
    assert (Hfalse : forall Afin Mb',
      usersLoop fa F (S i) (setAllCallsitesKnown false F Ma) = Some Afin ->
      usersLoop fb F (S j) (setAllCallsitesKnown false F Mb) = Some Mb' ->
      (forall cl, hasTarget Afin cl = true -> hasTarget Mb cl = true) ->
      (known Ma F = known Mb F -> known Afin F = known Mb' F) /\
      (forall i, targetOf Mb' i = targetOf Mb i) /\
      (forall G, functionUsers (getFunction Mb' G)
                 = functionUsers (getFunction Mb G))).
    { intros Afin' Mb'' Ha Hb Hfin.
      pose proof (sameButAttributes_setAllCallsitesKnown false F Ma) as Hsa.
      pose proof (sameButAttributes_setAllCallsitesKnown false F Mb) as Hsb.
      pose proof (evolves_setAllCallsitesKnown_false (nonClosure M0) Ma F) as Hea.
      pose proof (evolves_setAllCallsitesKnown_false (nonClosure M0) Mb F) as Heb.
      destruct (IH fa fb (S i) (S j) _ _ Afin' Mb'' ltac:(lia)
                  (sameButAttributes_typedAs M0 _ _ Hsa Hta)
                  (sameButAttributes_typedAs M0 _ _ Hsb Htb))
        as (Hk' & Hq1 & Hq2); [| |exact Ha|exact Hb| |].
      - apply (agree_trans _ Ma); [apply agree_sym, sameButAttributes_agree, Hsa|].
        apply (agree_trans _ Mb); [exact Hag|].
        apply sameButAttributes_agree, Hsb.
      - rewrite (nonCall_rest_evolves _ Ma _ F (S i) Hea) by lia.
        rewrite (nonCall_rest_evolves _ Mb _ F (S j) Heb) by lia.
        exact Hrest.
      - intros cl Hcl. rewrite hasTarget_targetOf.
        rewrite (sameButAttributes_targetOf Mb _ cl Hsb).
        rewrite <- hasTarget_targetOf. apply Hfin. exact Hcl.
      - split; [intros _; apply Hk'; rewrite !known_setFalse; reflexivity|].
        split.
        + intros k. rewrite Hq1. apply sameButAttributes_targetOf. exact Hsb.
        + intros G. rewrite Hq2. destruct Hsb as (_ & _ & _ & HG).
          apply (HG G). }
    simpl. rewrite Eua, Eub.
    destruct (kindOf Ma ua) as [ca|sa f|cl|op|cv b|s v x|s x|ops] eqn:Hka,
             (kindOf Mb ua) as [cb|sb f'|cl'|op'|cv' b'|s' v' x'|s' x'|ops']
               eqn:Hkb;
      simpl in Hfk; try discriminate Hfk;
      try (unfold isCall in Hcalla; rewrite Hka in Hcalla; discriminate Hcalla);
      try (apply Hfalse).
    (* a closure of F is created *)
    destruct (analyzeCreateCallable fa ua Ma) as [Ma1|] eqn:Ea; [|discriminate].
    destruct (analyzeCreateCallable fb ua Mb) as [Mb1|] eqn:Eb; [|discriminate].
    intros Ha Hb Hfin.
    pose proof (proj2 (proj2 (proj2 Hta)) F ua sa f Hin Hka) as ->.
    pose proof (analyzeCreateCallable_evolves (nonClosure M0) _ _ _ _ _ _
                  (proj1 Hta) Ea) as Hea.
    pose proof (analyzeCreateCallable_evolves (nonClosure M0) _ _ _ _ _ _
                  (proj1 Htb) Eb) as Heb.
    pose proof (evolves_typedAs M0 _ _ Hta Hea) as Hta1.
    pose proof (evolves_typedAs M0 _ _ Htb Heb) as Htb1.
    assert (Hrun : evolves (nonClosure M0) Ma1 Afin)
      by (eapply usersLoop_evolves; [apply Hta1 | exact Ha]).
    destruct (analyzeCreateCallable_related fa fb ua sa F Ma Mb Ma1 Mb1
                Hta Htb Hag Hka Ea Eb) as (Hk1 & Hq1 & Hq2).
    { intros cl Hcl. apply Hfin.
      apply (evolves_hasTarget _ Ma1 Afin cl Hrun). exact Hcl. }
    destruct (IH fa fb (S i) (S j) Ma1 Mb1 Afin Mb' ltac:(lia) Hta1 Htb1)
      as (Hk' & Hq1' & Hq2'); [| |exact Ha|exact Hb| |].
    + apply (agree_trans _ Ma);
        [apply agree_sym; exact (evolves_agree M0 _ _ Hta Hea)|].
      apply (agree_trans _ Mb); [exact Hag|].
      exact (evolves_agree M0 _ _ Htb Heb).
    + rewrite (nonCall_rest_evolves _ Ma _ F (S i) Hea) by lia.
      rewrite (nonCall_rest_evolves _ Mb _ F (S j) Heb) by lia.
      exact Hrest.
    + intros cl Hcl. apply (evolves_hasTarget _ Mb Mb1 cl Heb).
      apply Hfin. exact Hcl.
    + split; [auto|].
      split; [intros k; rewrite Hq1'; apply Hq1|].
      intros G. rewrite Hq2'. apply Hq2.
Qed.

Lemma sameButAttributes_hasTarget M M' i :
  sameButAttributes M M' -> hasTarget M' i = hasTarget M i.
Proof.
  intros Hs. unfold hasTarget. rewrite (sameButAttributes_kindOf M M' i Hs).
  reflexivity.
Qed.

Lemma unreachable_setAllCallsitesKnown b F G M :
  unreachable (getAttributes (setAllCallsitesKnown b F M) G)
  = unreachable (getAttributes M G).
Proof.
  unfold getAttributes, setAllCallsitesKnown. rewrite getFunction_alterFunction.
  destruct (decide _); reflexivity.
Qed.

Lemma known_setUnreachable b F G M :
  known (setUnreachable b F M) G = known M G.
Proof.
  unfold known, getAttributes, setUnreachable. rewrite getFunction_alterFunction.
  destruct (decide _); reflexivity.
Qed.

Lemma getFunction_setUnreachable_other b F G M :
  G <> F -> getFunction (setUnreachable b F M) G = getFunction M G.
Proof.
  intros Hne. unfold setUnreachable. rewrite getFunction_alterFunction.
  rewrite decide_False; [reflexivity|]. intros [E _]. congruence.
Qed.

(** One function, one run. *)
Lemma analyzeFunctionCallsites_single fuel F M M' :
  typedAs M0 M ->
  analyzeFunctionCallsites fuel F M = Some M' ->
  typedAs M0 M' /\ agree M M' /\
  (forall cl, hasTarget M cl = true -> hasTarget M' cl = true) /\
  (forall G, G <> F -> getFunction M' G = getFunction M G) /\
  unreachable (getAttributes M' F)
  = (if known M' F
     then negb (List.existsb (isCall M') (functionUsers (getFunction M' F)))
     else unreachable (getAttributes M F)).
Proof.
  intros Ht. unfold FunctionAnalysis.analyzeFunctionCallsites.
  set (M1 := setAllCallsitesKnown true F M).
  set (M2 := if isGlobalScope (getFunction M1 F)
             then setAllCallsitesKnown false F M1 else M1).
  assert (Hs1 : sameButAttributes M M1)
    by apply sameButAttributes_setAllCallsitesKnown.
  assert (Hs2 : sameButAttributes M1 M2).
  { unfold M2. destruct (isGlobalScope (getFunction M1 F));
      [apply sameButAttributes_setAllCallsitesKnown|].
    split; [reflexivity|]. split; [reflexivity|]. split; [reflexivity|].
    intros G. auto. }
  pose proof (sameButAttributes_typedAs M0 _ _ Hs1 Ht) as Ht1.
  pose proof (sameButAttributes_typedAs M0 _ _ Hs2 Ht1) as Ht2.
  assert (Hu2 : forall G, unreachable (getAttributes M2 G)
                          = unreachable (getAttributes M G)).
  { intros G. unfold M2. destruct (isGlobalScope (getFunction M1 F));
      unfold M1; rewrite ?unreachable_setAllCallsitesKnown; reflexivity. }
  assert (Hf2 : forall G, G <> F -> getFunction M2 G = getFunction M G).
  { intros G Hne. unfold M2. destruct (isGlobalScope (getFunction M1 F));
      unfold M1; rewrite ?getFunction_setAllCallsitesKnown_other by exact Hne;
      reflexivity. }
  destruct (usersLoop fuel F 0 M2) as [M3|] eqn:Hloop; [|discriminate].
  pose proof (usersLoop_evolves (nonClosure M0) _ _ F fuel 0 M2 M3
                (proj1 Ht2) Hloop) as Hev.
  pose proof (evolves_typedAs M0 _ _ Ht2 Hev) as Ht3.
  pose proof (usersLoop_frame isConstructionSetup isStoreOnceVariable F)
    as Hframe.
  assert (Hag3 : agree M M3).
  { apply (agree_trans _ M1); [apply sameButAttributes_agree, Hs1|].
    apply (agree_trans _ M2); [apply sameButAttributes_agree, Hs2|].
    exact (evolves_agree M0 _ _ Ht2 Hev). }
  assert (Hh3 : forall cl, hasTarget M cl = true -> hasTarget M3 cl = true).
  { intros cl Hcl. apply (evolves_hasTarget _ M2 M3 cl Hev).
    rewrite (sameButAttributes_hasTarget M1 M2 cl Hs2).
    rewrite (sameButAttributes_hasTarget M M1 cl Hs1). exact Hcl. }
  assert (Hf3 : forall G, G <> F -> getFunction M3 G = getFunction M G).
  { intros G Hne.
    rewrite (Hframe G fuel Hne 0 M2 M3 (proj2 (proj2 (proj2 Ht2))) Hloop).
    apply Hf2. exact Hne. }
  assert (Hu3 : unreachable (getAttributes M3 F) = unreachable (getAttributes M F)).
  { destruct Hev as (_ & _ & _ & _ & _ & HG & _).
    destruct (HG F) as (_ & _ & _ & Hun & _).
    unfold getAttributes at 1. rewrite Hun. apply Hu2. }
  intros [= <-]. fold (known M3 F).
  destruct (known M3 F) eqn:Hk3.
  - pose proof (sameButAttributes_setUnreachable
                  (negb (List.existsb (isCall M3)
                           (functionUsers (getFunction M3 F)))) F M3) as Hs4.
    split; [exact (sameButAttributes_typedAs M0 _ _ Hs4 Ht3)|].
    split; [apply (agree_trans _ M3);
            [exact Hag3 | apply sameButAttributes_agree, Hs4]|].
    split; [intros cl Hcl; rewrite (sameButAttributes_hasTarget _ _ cl Hs4);
            apply Hh3; exact Hcl|].
    split; [intros G Hne; rewrite getFunction_setUnreachable_other by exact Hne;
            apply Hf3; exact Hne|].
    rewrite known_setUnreachable, Hk3.
    assert (Hvalid : F < length (functions M3)).
    { destruct (Nat.lt_ge_cases F (length (functions M3))) as [|Hge];
        [assumption|].
      unfold known in Hk3. rewrite known_default in Hk3 by exact Hge.
      discriminate. }
    unfold getAttributes, setUnreachable. rewrite getFunction_alterFunction.
    rewrite decide_True by (split; [reflexivity | exact Hvalid]). simpl.
    reflexivity.
  - split; [exact Ht3|]. split; [exact Hag3|]. split; [exact Hh3|].
    split; [exact Hf3|]. rewrite Hk3. exact Hu3.
Qed.

(** One function, both runs. *)
Lemma analyzeFunctionCallsites_related fa fb F Ma Mb Ma' Mb' :
  typedAs M0 Ma -> typedAs M0 Mb -> agree Ma Mb ->
  analyzeFunctionCallsites fa F Ma = Some Ma' ->
  analyzeFunctionCallsites fb F Mb = Some Mb' ->
  (forall cl, hasTarget Ma' cl = true -> hasTarget Mb cl = true) ->
  (forall i, targetOf Mb' i = targetOf Mb i) /\
  (forall G, functionUsers (getFunction Mb' G)
             = functionUsers (getFunction Mb G)) /\
  known Ma' F = known Mb' F.
Proof.
  intros Hta Htb Hag. unfold FunctionAnalysis.analyzeFunctionCallsites.
  set (A1 := setAllCallsitesKnown true F Ma).
  set (B1 := setAllCallsitesKnown true F Mb).
  set (A2 := if isGlobalScope (getFunction A1 F)
             then setAllCallsitesKnown false F A1 else A1).
  set (B2 := if isGlobalScope (getFunction B1 F)
             then setAllCallsitesKnown false F B1 else B1).
  assert (Hsa1 : sameButAttributes Ma A1)
    by apply sameButAttributes_setAllCallsitesKnown.
  assert (Hsb1 : sameButAttributes Mb B1)
    by apply sameButAttributes_setAllCallsitesKnown.
  assert (Hrefl : forall M, sameButAttributes M M).
  { intros M. split; [reflexivity|]. split; [reflexivity|].
    split; [reflexivity|]. intros G. auto. }
  assert (Hsa2 : sameButAttributes A1 A2).
  { unfold A2. destruct (isGlobalScope (getFunction A1 F));
      [apply sameButAttributes_setAllCallsitesKnown | apply Hrefl]. }
  assert (Hsb2 : sameButAttributes B1 B2).
  { unfold B2. destruct (isGlobalScope (getFunction B1 F));
      [apply sameButAttributes_setAllCallsitesKnown | apply Hrefl]. }
  pose proof (sameButAttributes_typedAs M0 _ _ Hsa2
                (sameButAttributes_typedAs M0 _ _ Hsa1 Hta)) as Hta2.
  pose proof (sameButAttributes_typedAs M0 _ _ Hsb2
                (sameButAttributes_typedAs M0 _ _ Hsb1 Htb)) as Htb2.
  assert (Hag2 : agree A2 B2).
  { apply (agree_trans _ A1); [apply agree_sym, sameButAttributes_agree, Hsa2|].
    apply (agree_trans _ Ma); [apply agree_sym, sameButAttributes_agree, Hsa1|].
    apply (agree_trans _ Mb); [exact Hag|].
    apply (agree_trans _ B1); [apply sameButAttributes_agree, Hsb1|].
    apply sameButAttributes_agree, Hsb2. }
  assert (Hk1 : known A1 F = known B1 F).
  { unfold A1, B1, known, getAttributes, setAllCallsitesKnown.
    rewrite !getFunction_alterFunction. rewrite (proj1 Hag).
    destruct (decide (F = F /\ F < length (functions Mb))) as [_|Hn];
      [reflexivity|].
    rewrite !getFunction_default; [reflexivity| |]; [|rewrite (proj1 Hag)]; lia. }
  assert (Hg1 : isGlobalScope (getFunction A1 F) = isGlobalScope (getFunction B1 F)).
  { destruct Hsa1 as (_ & _ & _ & Ha). destruct Hsb1 as (_ & _ & _ & Hb).
    rewrite (proj1 (Ha F)), (proj1 (Hb F)).
    destruct Hag as (_ & _ & _ & _ & HG). apply (HG F). }
  assert (Hk2 : known A2 F = known B2 F).
  { unfold A2, B2. rewrite Hg1. destruct (isGlobalScope (getFunction B1 F));
      [rewrite !known_setFalse; reflexivity | exact Hk1]. }
  destruct (usersLoop fa F 0 A2) as [A3|] eqn:Hla; [|discriminate].
  destruct (usersLoop fb F 0 B2) as [B3|] eqn:Hlb; [|discriminate].
  intros [= <-] [= <-] Hfin.
  set (Ma' := if _allCallsitesKnownInStrictMode (getAttributes A3 F)
              then _ else A3) in *.
  assert (Hsa4 : sameButAttributes A3 Ma').
  { unfold Ma'. destruct (_allCallsitesKnownInStrictMode (getAttributes A3 F));
      [apply sameButAttributes_setUnreachable | apply Hrefl]. }
  destruct (usersLoop_related F (fa + fb) fa fb 0 0 A2 B2 A3 B3
              (Nat.le_refl _) Hta2 Htb2 Hag2) as (Hk3 & Hq1 & Hq2);
    [|exact Hla|exact Hlb| |].
  { rewrite !drop_0. destruct Hag2 as (_ & _ & _ & _ & HG). apply (HG F). }
  { intros cl Hcl. rewrite (sameButAttributes_hasTarget B1 B2 cl Hsb2).
    rewrite (sameButAttributes_hasTarget Mb B1 cl Hsb1). apply Hfin.
    rewrite (sameButAttributes_hasTarget A3 Ma' cl Hsa4). exact Hcl. }
  specialize (Hk3 Hk2).
  assert (Hq1' : forall i, targetOf B3 i = targetOf Mb i).
  { intros i. rewrite Hq1.
    rewrite (sameButAttributes_targetOf B1 B2 i Hsb2).
    apply (sameButAttributes_targetOf Mb B1 i Hsb1). }
  assert (Hq2' : forall G, functionUsers (getFunction B3 G)
                           = functionUsers (getFunction Mb G)).
  { intros G. rewrite Hq2. destruct Hsb2 as (_ & _ & _ & H2).
    destruct Hsb1 as (_ & _ & _ & H1).
    rewrite (proj1 (proj2 (H2 G))). apply (H1 G). }
  fold (known A3 F) in *. fold (known B3 F).
  unfold Ma'. rewrite <- Hk3.
  destruct (known A3 F) eqn:Hka.
  - split.
    { intros i. rewrite (sameButAttributes_targetOf B3 _ i
                           (sameButAttributes_setUnreachable _ F B3)).
      apply Hq1'. }
    split.
    { intros G.
      destruct (sameButAttributes_setUnreachable
                  (negb (List.existsb (isCall B3)
                           (functionUsers (getFunction B3 F)))) F B3)
        as (_ & _ & _ & H4).
      rewrite (proj1 (proj2 (H4 G))). apply Hq2'. }
    rewrite !known_setUnreachable. congruence.
  - split; [exact Hq1'|]. split; [exact Hq2'|]. congruence.
Qed.

Lemma runFrom_single fuel count :
  forall F0 M M',
  typedAs M0 M ->
  runFrom fuel count F0 M = Some M' ->
  typedAs M0 M' /\ agree M M' /\
  (forall cl, hasTarget M cl = true -> hasTarget M' cl = true) /\
  (forall G, G < F0 -> getFunction M' G = getFunction M G).
Proof.
  induction count as [|count IH]; intros F0 M M' Ht; simpl.
  - intros [= <-]. split; [exact Ht|]. split; [apply agree_refl|]. auto.
  - destruct (analyzeFunctionCallsites fuel F0 M) as [M1|] eqn:E;
      [|discriminate].
    destruct (analyzeFunctionCallsites_single fuel F0 M M1 Ht E)
      as (Ht1 & Hag1 & Hh1 & Hf1 & _).
    intros Hrun.
    destruct (IH (S F0) M1 M' Ht1 Hrun) as (Ht' & Hag' & Hh' & Hf').
    split; [exact Ht'|]. split; [eapply agree_trans; eassumption|].
    split; [auto|].
    intros G HG. rewrite Hf' by lia. apply Hf1. lia.
Qed.

Lemma attributes_eq (a b : Attributes) :
  _allCallsitesKnownInStrictMode a = _allCallsitesKnownInStrictMode b ->
  unreachable a = unreachable b -> a = b.
Proof. destruct a, b; simpl; intros -> ->; reflexivity. Qed.

Lemma existsb_isCall_agree Ma Mb us :
  agree Ma Mb -> List.existsb (isCall Ma) us = List.existsb (isCall Mb) us.
Proof.
  intros Hag. induction us as [|u us IH]; simpl; [reflexivity|].
  rewrite IH, (agree_isCall Ma Mb u Hag). reflexivity.
Qed.

(** The whole module, both runs: [M1] is where the first run ends. *)
Lemma runFrom_related count :
  forall F0 fa fb Ma Mb M1 M2,
  typedAs M0 Ma -> typedAs M0 Mb -> agree Ma Mb ->
  runFrom fa count F0 Ma = Some M1 ->
  runFrom fb count F0 Mb = Some M2 ->
  (forall i, targetOf Mb i = targetOf M1 i) ->
  (forall G, functionUsers (getFunction Mb G)
             = functionUsers (getFunction M1 G)) ->
  (forall G, getAttributes Mb G = getAttributes M1 G) ->
  (forall i, targetOf M2 i = targetOf M1 i) /\
  (forall G, getAttributes M2 G = getAttributes M1 G).
Proof.
  induction count as [|count IH];
    intros F0 fa fb Ma Mb M1 M2 Hta Htb Hag; simpl.
  - intros [= <-] [= <-] Ht _ Ha. auto.
  - destruct (analyzeFunctionCallsites fa F0 Ma) as [Ma1|] eqn:Ea;
      [|discriminate].
    destruct (analyzeFunctionCallsites fb F0 Mb) as [Mb1|] eqn:Eb;
      [|discriminate].
    intros Hra Hrb Hi1 Hi2 Hi3.
    destruct (analyzeFunctionCallsites_single fa F0 Ma Ma1 Hta Ea)
      as (Hta1 & Haga & _ & _ & Hua).
    destruct (analyzeFunctionCallsites_single fb F0 Mb Mb1 Htb Eb)
      as (Htb1 & Hagb & _ & Hfb & Hub).
    destruct (runFrom_single fa count (S F0) Ma1 M1 Hta1 Hra)
      as (_ & _ & Hha & Hfa).
    assert (Hag1 : agree Ma1 Mb1).
    { apply (agree_trans _ Ma); [apply agree_sym; exact Haga|].
      apply (agree_trans _ Mb); [exact Hag | exact Hagb]. }
    destruct (analyzeFunctionCallsites_related fa fb F0 Ma Mb Ma1 Mb1
                Hta Htb Hag Ea Eb) as (Hq1 & Hq2 & Hk).
    { intros cl Hcl. rewrite hasTarget_targetOf, Hi1, <- hasTarget_targetOf.
      apply Hha. exact Hcl. }
    apply (IH (S F0) fa fb Ma1 Mb1 M1 M2 Hta1 Htb1 Hag1 Hra Hrb).
    + intros i. rewrite Hq1. apply Hi1.
    + intros G. rewrite Hq2. apply Hi2.
    + intros G. destruct (Nat.eq_dec G F0) as [->|Hne].
      2:{ unfold getAttributes. rewrite (Hfb G Hne). apply Hi3. }
      assert (HM1 : getFunction M1 F0 = getFunction Ma1 F0)
        by (apply Hfa; lia).
      unfold getAttributes at 2. rewrite HM1. fold (getAttributes Ma1 F0).
      apply attributes_eq; [symmetry; exact Hk|].
      rewrite Hub, <- Hk.
      destruct (known Ma1 F0) eqn:E'.
      * rewrite Hua, ?E', Hq2, Hi2, HM1. f_equal. symmetry.
        apply existsb_isCall_agree. exact Hag1.
      * specialize (Hi3 F0). unfold getAttributes in Hi3 at 2.
        rewrite HM1 in Hi3. fold (getAttributes Ma1 F0) in Hi3.
        rewrite Hi3. reflexivity.
Qed.
End SideBySide.

(** *** Running the pass twice *)

Lemma storedClosureModule_wellTyped : wellTyped storedClosureModule.
Proof.
  split.
  { intros i. do 8 (destruct i as [|i]; [vm_compute; auto|]). vm_compute; auto. }
  split; [reflexivity|]. split.
  { intros i c.
    do 8 (destruct i as [|i];
          [vm_compute; intros H; try discriminate H; injection H as <-; auto|]).
    vm_compute. discriminate. }
  intros F u s f.
  do 2 (destruct F as [|F]; [vm_compute; intros Hin; try contradiction|]).
  - destruct Hin as [<-|[]]. vm_compute. intros [= _ <-]. reflexivity.
  - unfold getFunction. simpl. destruct F; intros [].
Qed.

(** C4, as stated, fails for the environment operand: on
    [storedClosureModule], which is well typed, the first run binds the target
    of the call [%6] but leaves its environment empty, and the second run binds
    the environment to [%0]. *)
Lemma second_run_binds_environment :
  wellTyped storedClosureModule /\
  exists M1 M2,
    runOnModule (fun _ _ => false) (fun _ => true) 10 storedClosureModule
    = Some M1 /\
    runOnModule (fun _ _ => false) (fun _ => true) 10 M1 = Some M2 /\
    environmentOf M1 6 = Some EmptySentinel /\
    environmentOf M2 6 = Some (InstValue 0) /\
    environmentOf M2 6 <> environmentOf M1 6.
Proof.
  split; [exact storedClosureModule_wellTyped|].
  eexists. eexists.
  split; [vm_compute; reflexivity|].
  split; [vm_compute; reflexivity|].
  split; [reflexivity|]. split; [reflexivity|].
  vm_compute. discriminate.
Qed.

(** C4, amended.  On a well-typed module (a closure's scope operand is not
    itself a tracked closure, a call's target is the [EmptySentinel] or a
    function, and a closure creation among a function's users creates that
    function) the pass returns, a second run right after the first returns
    too, and it leaves every function's [allCallsitesKnownInStrictMode] and
    [unreachable] attributes and every call's target operand as the first run
    left them.  Nothing is said about the environment operands. *)
Theorem second_run_keeps_attributes_and_targets
    (isConstructionSetup : nat -> nat -> bool)
    (isStoreOnceVariable : nat -> bool) (M : IRModule) :
  wellTyped M ->
  (exists fuel M1,
     runOnModule isConstructionSetup isStoreOnceVariable fuel M = Some M1) /\
  (forall fuel1 M1,
     runOnModule isConstructionSetup isStoreOnceVariable fuel1 M = Some M1 ->
     (exists fuel2 M2,
        runOnModule isConstructionSetup isStoreOnceVariable fuel2 M1 = Some M2) /\
     (forall fuel2 M2,
        runOnModule isConstructionSetup isStoreOnceVariable fuel2 M1 = Some M2 ->
        (forall F, getAttributes M2 F = getAttributes M1 F) /\
        (forall call, targetOf M2 call = targetOf M1 call))).
Proof.
  intros Hwt. unfold runOnModule.
  split; [apply runFrom_terminates|].
  intros fuel1 M1 H1.
  split; [apply runFrom_terminates|].
  intros fuel2 M2 H2.
  destruct (runFrom_single isConstructionSetup isStoreOnceVariable M fuel1
              (length (functions M)) 0 M M1 Hwt H1) as (Ht1 & Hag & _ & _).
  rewrite <- (proj1 Hag) in H2.
  destruct (runFrom_related isConstructionSetup isStoreOnceVariable M
              (length (functions M)) 0 fuel1 fuel2 M M1 M1 M2
              Hwt Ht1 Hag H1 H2) as [Htargets Hattrs]; auto.
Qed.

Lemma second_run_keeps_attributes_and_targets_witness :
  (exists fuel M1,
     runOnModule (fun _ _ => false) (fun _ => true) fuel storedClosureModule
     = Some M1) /\
  (forall fuel1 M1,
     runOnModule (fun _ _ => false) (fun _ => true) fuel1 storedClosureModule
     = Some M1 ->
     (exists fuel2 M2,
        runOnModule (fun _ _ => false) (fun _ => true) fuel2 M1 = Some M2) /\
     (forall fuel2 M2,
        runOnModule (fun _ _ => false) (fun _ => true) fuel2 M1 = Some M2 ->
        (forall F, getAttributes M2 F = getAttributes M1 F) /\
        (forall call, targetOf M2 call = targetOf M1 call))).
Proof.
  apply (second_run_keeps_attributes_and_targets
           (fun _ _ => false) (fun _ => true) storedClosureModule).
  split.
  { intros i. do 8 (destruct i as [|i]; [vm_compute; auto|]). vm_compute; auto. }
  split; [reflexivity|]. split.
  { intros i c.
    do 8 (destruct i as [|i];
          [vm_compute; intros H; try discriminate H; injection H as <-; auto|]).
    vm_compute. discriminate. }
  intros F u s f.
  do 2 (destruct F as [|F]; [vm_compute; intros Hin; try contradiction|]).
  - destruct Hin as [<-|[]]. vm_compute. intros [= _ <-]. reflexivity.
  - unfold getFunction. simpl. destruct F; intros [].
Defined.

Example second_run_on_storedClosureModule :
  exists M1 M2,
    runOnModule (fun _ _ => false) (fun _ => true) 10 storedClosureModule
    = Some M1 /\
    runOnModule (fun _ _ => false) (fun _ => true) 10 M1 = Some M2 /\
    List.map (getAttributes M2) [0; 1] = List.map (getAttributes M1) [0; 1] /\
    targetOf M1 6 = Some (FunctionValue 1) /\
    targetOf M2 6 = Some (FunctionValue 1).
Proof.
  eexists. eexists.
  split; [vm_compute; reflexivity|].
  split; [vm_compute; reflexivity|].
  repeat split.
Qed.

(** *** Termination of the whole pass *)

(** From here on the statements are about the pass as a whole.  The model
    has the pass without the [assert]s of FunctionAnalysis.cpp, as in a build
    that compiles them out. *)

(** X20.  [runOnModule] returns on every module: the loop over a users list
    that grows while it is walked, and the worklist under it, come to an end
    whatever [isConstructionSetup] and [isStoreOnceVariable] answer; and the
    module it returns does not depend on the bound put on its iterations. *)
Theorem runOnModule_terminates (isConstructionSetup : nat -> nat -> bool)
    (isStoreOnceVariable : nat -> bool) (M : IRModule) :
  exists fuel M',
    runOnModule isConstructionSetup isStoreOnceVariable fuel M = Some M' /\
    forall fuel2 M2,
      runOnModule isConstructionSetup isStoreOnceVariable fuel2 M = Some M2 ->
      M2 = M'.
Proof.
  destruct (runFrom_terminates isConstructionSetup isStoreOnceVariable
              (length (functions M)) 0 M) as (fuel & M' & E).
  exists fuel, M'. split; [exact E|].
  intros fuel2 M2 E2. unfold runOnModule in *.
  pose proof (runFrom_mono _ _ fuel (Nat.max fuel fuel2) _ _ _ _
                (Nat.le_max_l _ _) E) as H1.
  pose proof (runFrom_mono _ _ fuel2 (Nat.max fuel fuel2) _ _ _ _
                (Nat.le_max_r _ _) E2) as H2.
  congruence.
Qed.

(** *** The attributes after one function is analysed *)

Lemma known_monotone ok M M' F :
  evolves ok M M' -> known M F = false -> known M' F = false.
Proof.
  intros (_ & _ & _ & _ & _ & HG & _) Hk.
  destruct (HG F) as (_ & _ & _ & _ & [E|E] & _); unfold known, getAttributes in *;
    [rewrite E; exact Hk | exact E].
Qed.

Lemma unreachable_evolves ok M M' G :
  evolves ok M M' ->
  unreachable (getAttributes M' G) = unreachable (getAttributes M G).
Proof.
  intros (_ & _ & _ & _ & _ & HG & _).
  destruct (HG G) as (_ & _ & _ & E & _). exact E.
Qed.

Lemma getAttributes_setUnreachable b F M :
  F < length (functions M) ->
  unreachable (getAttributes (setUnreachable b F M) F) = b.
Proof.
  intros H. unfold getAttributes, setUnreachable.
  rewrite getFunction_alterFunction.
  rewrite decide_True by (split; [reflexivity | exact H]). reflexivity.
Qed.

Lemma unreachable_setUnreachable_other b F G M :
  G <> F ->
  unreachable (getAttributes (setUnreachable b F M) G)
  = unreachable (getAttributes M G).
Proof.
  intros H. unfold getAttributes.
  rewrite getFunction_setUnreachable_other by exact H. reflexivity.
Qed.

Lemma functionUsers_setUnreachable b F G M :
  functionUsers (getFunction (setUnreachable b F M) G)
  = functionUsers (getFunction M G).
Proof.
  unfold setUnreachable. rewrite getFunction_alterFunction.
  destruct (decide (F = G /\ G < length (functions M))); reflexivity.
Qed.

Lemma functionUsers_setAllCallsitesKnown b F G M :
  functionUsers (getFunction (setAllCallsitesKnown b F M) G)
  = functionUsers (getFunction M G).
Proof.
  unfold setAllCallsitesKnown. rewrite getFunction_alterFunction.
  destruct (decide (F = G /\ G < length (functions M))); reflexivity.
Qed.

Lemma isGlobalScope_setAllCallsitesKnown b F G M :
  isGlobalScope (getFunction (setAllCallsitesKnown b F M) G)
  = isGlobalScope (getFunction M G).
Proof.
  unfold setAllCallsitesKnown. rewrite getFunction_alterFunction.
  destruct (decide (F = G /\ G < length (functions M))); reflexivity.
Qed.

Lemma known_setAllCallsitesKnown b F M :
  F < length (functions M) -> known (setAllCallsitesKnown b F M) F = b.
Proof.
  intros H. unfold known, getAttributes, setAllCallsitesKnown.
  rewrite getFunction_alterFunction.
  rewrite decide_True by (split; [reflexivity | exact H]). reflexivity.
Qed.

Lemma length_functions_setAllCallsitesKnown b F M :
  length (functions (setAllCallsitesKnown b F M)) = length (functions M).
Proof. unfold setAllCallsitesKnown; simpl. apply length_alter. Qed.

(** The module before the loop of [analyzeFunctionCallsites(F)]. *)
Lemma before_the_loop F M :
  let M1 := setAllCallsitesKnown true F M in
  let M2 := if isGlobalScope (getFunction M1 F)
            then setAllCallsitesKnown false F M1 else M1 in
  sameButAttributes M M2 /\
  (forall G, unreachable (getAttributes M2 G) = unreachable (getAttributes M G)) /\
  (F < length (functions M) ->
   known M2 F = negb (isGlobalScope (getFunction M F))).
Proof.
  intros M1 M2.
  assert (H1 : sameButAttributes M M1)
    by apply sameButAttributes_setAllCallsitesKnown.
  assert (Hg : isGlobalScope (getFunction M1 F) = isGlobalScope (getFunction M F))
    by apply isGlobalScope_setAllCallsitesKnown.
  subst M2. rewrite Hg.
  destruct (isGlobalScope (getFunction M F)) eqn:Eg.
  - split; [|split].
    + pose proof (sameButAttributes_setAllCallsitesKnown false F M1) as H2.
      destruct H1 as (a1 & b1 & c1 & d1). destruct H2 as (a2 & b2 & c2 & d2).
      split; [congruence|]. split; [congruence|]. split; [congruence|].
      intros G. destruct (d1 G) as (p1 & q1 & r1 & s1).
      destruct (d2 G) as (p2 & q2 & r2 & s2).
      repeat split; congruence.
    + intros G. subst M1. rewrite !unreachable_setAllCallsitesKnown. reflexivity.
    + intros Hv. apply known_setAllCallsitesKnown. subst M1.
      rewrite length_functions_setAllCallsitesKnown. exact Hv.
  - split; [exact H1|]. split.
    + intros G. subst M1. apply unreachable_setAllCallsitesKnown.
    + intros Hv. subst M1. apply known_setAllCallsitesKnown. exact Hv.
Qed.

(** X21.  [analyzeFunctionCallsites(F)] writes [unreachable] of [F] only, and
    only when all callsites are known; then [unreachable] is exactly "no user
    of [F] is a call", so a function that was marked unreachable and has a
    call among its users is marked reachable again.  When a callsite is
    unknown, [unreachable] stays what it was. *)
Theorem unreachable_after_analysis (isConstructionSetup : nat -> nat -> bool)
    (isStoreOnceVariable : nat -> bool) (F : nat) (M : IRModule) :
  (exists fuel M',
     analyzeFunctionCallsites isConstructionSetup isStoreOnceVariable fuel F M
     = Some M') /\
  (forall fuel M',
     analyzeFunctionCallsites isConstructionSetup isStoreOnceVariable fuel F M
     = Some M' ->
     unreachable (getAttributes M' F)
     = (if _allCallsitesKnownInStrictMode (getAttributes M' F)
        then negb (List.existsb (isCall M') (functionUsers (getFunction M' F)))
        else unreachable (getAttributes M F)) /\
     (forall G, G <> F ->
                unreachable (getAttributes M' G)
                = unreachable (getAttributes M G))).
Proof.
  split; [apply analyzeFunctionCallsites_terminates|].
  intros fuel M'. unfold analyzeFunctionCallsites.
  destruct (before_the_loop F M) as (Hsame & Hun2 & _).
  set (M1 := setAllCallsitesKnown true F M) in *.
  set (M2 := if isGlobalScope (getFunction M1 F)
             then setAllCallsitesKnown false F M1 else M1) in *.
  destruct (usersLoop isConstructionSetup isStoreOnceVariable fuel F 0 M2)
    as [M3|] eqn:Hloop; [|discriminate].
  pose proof (usersLoop_evolves anyScope _ _ F fuel 0 M2 M3
                (scopesOk_any M2) Hloop) as Hev.
  assert (Hun3 : forall G, unreachable (getAttributes M3 G)
                           = unreachable (getAttributes M G)).
  { intros G. rewrite (unreachable_evolves anyScope M2 M3 G Hev). apply Hun2. }
  intros [= <-].
  change (_allCallsitesKnownInStrictMode (getAttributes M3 F)) with (known M3 F).
  destruct (known M3 F) eqn:Hk3.
  - assert (Hvalid : F < length (functions M3)).
    { destruct (Nat.lt_ge_cases F (length (functions M3))) as [|Hge];
        [assumption|].
      unfold known in Hk3. rewrite known_default in Hk3 by exact Hge.
      discriminate. }
    split.
    + change (_allCallsitesKnownInStrictMode
                (getAttributes (setUnreachable
                   (negb (List.existsb (isCall M3)
                            (functionUsers (getFunction M3 F)))) F M3) F))
        with (known (setUnreachable
                (negb (List.existsb (isCall M3)
                         (functionUsers (getFunction M3 F)))) F M3) F).
      rewrite known_setUnreachable, Hk3.
      rewrite getAttributes_setUnreachable by exact Hvalid.
      rewrite functionUsers_setUnreachable. reflexivity.
    + intros G HG. rewrite unreachable_setUnreachable_other by exact HG.
      apply Hun3.
  - split.
    + change (_allCallsitesKnownInStrictMode (getAttributes M3 F))
        with (known M3 F). rewrite Hk3. apply Hun3.
    + intros G _. apply Hun3.
Qed.

(** *** A function that is only called, or not used at all *)

Lemma nonCallUsers_nil M us :
  (forall u, In u us -> isCall M u = true) -> nonCallUsers M us = [].
Proof.
  intros H. apply nonCallUsers_calls. apply Forall_forall. intros u Hu.
  apply H. apply list_elem_of_In. exact Hu.
Qed.

(** X22.  When every user of [F] is a call that has [F] as its target, which
    is what the pass asserts of a call among the users of a function and
    includes a function without users, [analyzeFunctionCallsites(F)] changes
    no instruction and no other function: it marks [F] as having all
    callsites known unless [F] is the global scope, and then as unreachable
    exactly when it has no user. *)
Theorem function_that_is_only_called
    (isConstructionSetup : nat -> nat -> bool)
    (isStoreOnceVariable : nat -> bool) (F : nat) (M : IRModule) :
  F < length (functions M) ->
  (forall u, In u (functionUsers (getFunction M F)) ->
             exists c, kindOf M u = BaseCallInst c /\
                       target c = FunctionValue F) ->
  (exists fuel M',
     analyzeFunctionCallsites isConstructionSetup isStoreOnceVariable fuel F M
     = Some M') /\
  (forall fuel M',
     analyzeFunctionCallsites isConstructionSetup isStoreOnceVariable fuel F M
     = Some M' ->
     sameButAttributes M M' /\
     (forall G, G <> F -> getFunction M' G = getFunction M G) /\
     _allCallsitesKnownInStrictMode (getAttributes M' F)
     = negb (isGlobalScope (getFunction M F)) /\
     unreachable (getAttributes M' F)
     = (if isGlobalScope (getFunction M F)
        then unreachable (getAttributes M F)
        else match functionUsers (getFunction M F) with
             | [] => true
             | _ => false
             end)).
Proof.
  intros Hvalid Htargets.
  assert (Hcalls : forall u, In u (functionUsers (getFunction M F)) ->
                             isCall M u = true).
  { intros u Hu. destruct (Htargets u Hu) as (c & Hc & _).
    unfold isCall. rewrite Hc. reflexivity. }
  split; [apply analyzeFunctionCallsites_terminates|].
  intros fuel M'. unfold analyzeFunctionCallsites.
  destruct (before_the_loop F M) as (Hsame & Hun2 & Hk2).
  specialize (Hk2 Hvalid).
  set (M1 := setAllCallsitesKnown true F M) in *.
  set (M2 := if isGlobalScope (getFunction M1 F)
             then setAllCallsitesKnown false F M1 else M1) in *.
  assert (Hother2 : forall G, G <> F -> getFunction M2 G = getFunction M G).
  { intros G HG. subst M2 M1.
    destruct (isGlobalScope (getFunction (setAllCallsitesKnown true F M) F));
      rewrite ?getFunction_setAllCallsitesKnown_other by exact HG; reflexivity. }
  pose proof Hsame as (Hi2 & Hv2 & Hl2 & Hf2).
  destruct (Hf2 F) as (Hg2 & Hu2 & _).
  destruct (usersLoop isConstructionSetup isStoreOnceVariable fuel F 0 M2)
    as [M3|] eqn:Hloop; [|discriminate].
  assert (E3 : M3 = M2).
  { apply (usersLoop_all_calls isConstructionSetup isStoreOnceVariable F fuel 0 M2 M3); [|exact Hloop].
    rewrite drop_0. apply nonCallUsers_nil. intros u Hu.
    rewrite Hu2 in Hu. unfold isCall.
    rewrite (sameButAttributes_kindOf M M2 u Hsame). apply Hcalls. exact Hu. }
  subst M3. intros [= <-].
  change (_allCallsitesKnownInStrictMode (getAttributes M2 F)) with (known M2 F).
  rewrite Hk2.
  destruct (isGlobalScope (getFunction M F)) eqn:Eg; simpl.
  - split; [exact Hsame|]. split; [exact Hother2|].
    split; [exact Hk2|]. apply Hun2.
  - assert (Hv2' : F < length (functions M2)) by (rewrite Hl2; exact Hvalid).
    split.
    { pose proof (sameButAttributes_setUnreachable
                    (negb (List.existsb (isCall M2)
                             (functionUsers (getFunction M2 F)))) F M2) as H3.
      destruct H3 as (a3 & b3 & c3 & d3).
      split; [congruence|]. split; [congruence|]. split; [congruence|].
      intros G. destruct (Hf2 G) as (p2 & q2 & r2 & s2).
      destruct (d3 G) as (p3 & q3 & r3 & s3).
      repeat split; congruence. }
    split.
    { intros G HG. rewrite getFunction_setUnreachable_other by exact HG.
      apply Hother2. exact HG. }
    split.
    { change (known (setUnreachable
                (negb (List.existsb (isCall M2)
                         (functionUsers (getFunction M2 F)))) F M2) F = true).
      rewrite known_setUnreachable. exact Hk2. }
    rewrite getAttributes_setUnreachable by exact Hv2'.
    rewrite Hu2.
    destruct (functionUsers (getFunction M F)) as [|u us] eqn:Eu;
      [reflexivity|].
    simpl. assert (Hc : isCall M2 u = true).
    { unfold isCall. rewrite (sameButAttributes_kindOf M M2 u Hsame).
      apply Hcalls. left. reflexivity. }
    rewrite Hc. reflexivity.
Qed.

(** A function that is called, [F1] of [targetedModule]: all its callsites
    are known and it is reachable. *)
Lemma function_that_is_only_called_witness :
  (exists fuel M',
     analyzeFunctionCallsites (fun _ _ => false) (fun _ => true) fuel 1
       targetedModule = Some M') /\
  (forall fuel M',
     analyzeFunctionCallsites (fun _ _ => false) (fun _ => true) fuel 1
       targetedModule = Some M' ->
     sameButAttributes targetedModule M' /\
     (forall G, G <> 1 -> getFunction M' G = getFunction targetedModule G) /\
     _allCallsitesKnownInStrictMode (getAttributes M' 1) = true /\
     unreachable (getAttributes M' 1) = false).
Proof.
  apply (function_that_is_only_called (fun _ _ => false) (fun _ => true) 1
           targetedModule).
  - simpl. lia.
  - intros u [<-|[]]. eexists. split; reflexivity.
Defined.

(** *** What the whole pass leaves alone *)

Lemma passed_trans M M1 M' : passed M M1 -> passed M1 M' -> passed M M'.
Proof.
  induction 1 as [|A B C HAB _ IH|A B C HAB _ IH]; intros H2; [exact H2| |].
  - apply (passed_evolves A B); [exact HAB | apply IH; exact H2].
  - apply (passed_attributes A B); [exact HAB | apply IH; exact H2].
Qed.

Section Passed.
Variable isConstructionSetup : nat -> nat -> bool.
Variable isStoreOnceVariable : nat -> bool.

Lemma analyzeFunctionCallsites_passed fuel F M M' :
  analyzeFunctionCallsites isConstructionSetup isStoreOnceVariable fuel F M
  = Some M' -> passed M M'.
Proof.
  unfold analyzeFunctionCallsites.
  destruct (before_the_loop F M) as (Hsame & _ & _).
  set (M1 := setAllCallsitesKnown true F M) in *.
  set (M2 := if isGlobalScope (getFunction M1 F)
             then setAllCallsitesKnown false F M1 else M1) in *.
  destruct (usersLoop isConstructionSetup isStoreOnceVariable fuel F 0 M2)
    as [M3|] eqn:Hloop; [|discriminate].
  pose proof (usersLoop_evolves anyScope _ _ F fuel 0 M2 M3
                (scopesOk_any M2) Hloop) as Hev.
  intros [= <-].
  apply (passed_attributes M M2); [exact Hsame|].
  apply (passed_evolves M2 M3); [exact Hev|].
  destruct (_allCallsitesKnownInStrictMode (getAttributes M3 F)).
  - eapply passed_attributes;
      [apply sameButAttributes_setUnreachable | apply passed_refl].
  - apply passed_refl.
Qed.

Lemma runFrom_passed fuel count :
  forall F M M',
  runFrom isConstructionSetup isStoreOnceVariable fuel count F M = Some M' ->
  passed M M'.
Proof.
  induction count as [|count IH]; intros F M M' H; simpl in H.
  - injection H as <-. apply passed_refl.
  - destruct (analyzeFunctionCallsites isConstructionSetup isStoreOnceVariable
                fuel F M) as [M1|] eqn:E; [|discriminate].
    apply (passed_trans M M1 M');
      [apply (analyzeFunctionCallsites_passed fuel F); exact E
      | apply (IH (S F)); exact H].
Qed.
End Passed.

Lemma kindEvolves_class ok M k k' :
  kindEvolves ok M k k' -> classOf k' = classOf k.
Proof. destruct k, k'; simpl; intros H; try contradiction; reflexivity. Qed.

Lemma isCall_class M i :
  isCall M i = true <-> classOf (kindOf M i) = CallClass.
Proof. unfold isCall. destruct (kindOf M i); simpl; split; congruence. Qed.

(** Instructions, functions and variables stay in place and in their class;
    a function only gains users, and every user it gains is a call. *)
Lemma passed_shape M M' :
  passed M M' ->
  length (instructions M') = length (instructions M) /\
  length (functions M') = length (functions M) /\
  variables M' = variables M /\
  (forall i, classOf (kindOf M' i) = classOf (kindOf M i) /\
             getFunctionCode M' i = getFunctionCode M i) /\
  (forall G, isGlobalScope (getFunction M' G) = isGlobalScope (getFunction M G) /\
             exists extra,
               functionUsers (getFunction M' G)
               = functionUsers (getFunction M G) ++ extra /\
               Forall (fun u => isCall M' u = true) extra).
Proof.
  induction 1 as [M|M M1 M' Hev _ IH|M M1 M' Hsame _ IH].
  - repeat split; try reflexivity.
    exists []. split; [symmetry; apply List.app_nil_r | constructor].
  - destruct IH as (Li & Lf & Lv & Hk & Hf).
    assert (Hcode : forall i, getFunctionCode M1 i = getFunctionCode M i)
      by (intros i; apply (evolves_getFunctionCode anyScope M M1 i Hev)).
    destruct Hev as (Li1 & Lf1 & Lv1 & Hk1 & _ & Hf1 & _).
    split; [congruence|]. split; [congruence|]. split; [congruence|].
    split.
    + intros i. destruct (Hk i) as [Hc Hg]. split.
      * rewrite Hc. apply (kindEvolves_class anyScope M). apply Hk1.
      * rewrite Hg. apply Hcode.
    + intros G. destruct (Hf G) as (Hg & x2 & E2 & F2).
      destruct (Hf1 G) as (Hg1 & _ & _ & _ & _ & x1 & E1 & F1).
      split; [congruence|].
      exists (x1 ++ x2). split; [rewrite E2, E1, List.app_assoc; reflexivity|].
      apply Forall_app. split; [|exact F2].
      eapply Forall_impl; [exact F1|]. intros u Hu. simpl in Hu.
      apply isCall_class. destruct (Hk u) as [Hc _]. rewrite Hc.
      apply isCall_class. exact Hu.
  - destruct IH as (Li & Lf & Lv & Hk & Hf).
    pose proof (sameButAttributes_kindOf M M1) as Hkind.
    destruct Hsame as (Ei & Ev & El & Hf1).
    split; [congruence|]. split; [congruence|]. split; [congruence|].
    split.
    + intros i. destruct (Hk i) as [Hc Hg].
      assert (Ek : kindOf M1 i = kindOf M i)
        by (unfold kindOf, getInst; rewrite Ei; reflexivity).
      split; [rewrite Hc, Ek; reflexivity|].
      rewrite Hg. unfold getFunctionCode. rewrite Ek. reflexivity.
    + intros G. destruct (Hf G) as (Hg & x2 & E2 & F2).
      destruct (Hf1 G) as (Hg1 & Hu1 & _).
      split; [congruence|]. exists x2. split; [congruence | exact F2].
Qed.

(** X23.  The pass neither creates nor deletes anything and never changes the
    class of an instruction: after [runOnModule] the module has the
    instructions, functions and variables it had, every instruction is of the
    class it was and a [BaseCreateCallableInst] creates the function it
    created; a function is still the global scope or not, and its users are
    the users it had, in their order, followed by calls the pass has bound to
    it. *)
Theorem pass_keeps_the_instructions (isConstructionSetup : nat -> nat -> bool)
    (isStoreOnceVariable : nat -> bool) (M : IRModule) :
  (exists fuel M',
     runOnModule isConstructionSetup isStoreOnceVariable fuel M = Some M') /\
  (forall fuel M',
     runOnModule isConstructionSetup isStoreOnceVariable fuel M = Some M' ->
     length (instructions M') = length (instructions M) /\
     length (functions M') = length (functions M) /\
     variables M' = variables M /\
     (forall i, classOf (kindOf M' i) = classOf (kindOf M i) /\
                getFunctionCode M' i = getFunctionCode M i) /\
     (forall G,
        isGlobalScope (getFunction M' G) = isGlobalScope (getFunction M G) /\
        exists extra,
          functionUsers (getFunction M' G)
          = functionUsers (getFunction M G) ++ extra /\
          Forall (fun u => isCall M' u = true) extra)).
Proof.
  split; [apply runFrom_terminates|].
  intros fuel M' H. apply passed_shape.
  apply (runFrom_passed isConstructionSetup isStoreOnceVariable fuel
           (length (functions M)) 0 M M').
  exact H.
Qed.

Lemma settled_value ok M v v' :
  settled M v -> valueEvolves ok M v v' -> v' = v.
Proof.
  intros [_ Hs] [E | (a & b & -> & Hg & _)]; [exact E|].
  rewrite (Hs a eq_refl) in Hg. discriminate.
Qed.

Lemma settled_tags M M' v :
  (forall i, isGetClosureScope M' i = isGetClosureScope M i) ->
  settled M v -> settled M' v.
Proof.
  intros Htags [Hne Hs]. split; [exact Hne|].
  intros a Ha. rewrite Htags. apply Hs. exact Ha.
Qed.

Lemma passed_operands M M' :
  passed M M' ->
  forall call c,
  kindOf M call = BaseCallInst c ->
  exists c', kindOf M' call = BaseCallInst c' /\
             (settled M (callee c) -> callee c' = callee c) /\
             (settled M (target c) -> target c' = target c) /\
             (settled M (environment c) -> environment c' = environment c).
Proof.
  induction 1 as [M|M M1 M' Hev _ IH|M M1 M' Hsame _ IH]; intros call c Hc.
  - exists c. split; [exact Hc|]. repeat split; reflexivity.
  - assert (Htags : forall i, isGetClosureScope M1 i = isGetClosureScope M i)
      by (intros i; apply (evolves_tags anyScope M M1 i Hev)).
    destruct Hev as (_ & _ & _ & Hk & _). specialize (Hk call).
    rewrite Hc in Hk.
    destruct (kindOf M1 call) as [c1| | | | | | |] eqn:E1; simpl in Hk;
      try contradiction.
    destruct Hk as (Hcal & Htar & Henv & _).
    destruct (IH call c1 E1) as (c' & E' & Ic & It & Ie).
    exists c'. split; [exact E'|].
    split; [|split].
    + intros Hs.
      assert (E : callee c1 = callee c)
        by (apply (settled_value anyScope M); assumption).
      rewrite <- E. apply Ic. rewrite E. apply (settled_tags M); assumption.
    + intros Hs.
      assert (E : target c1 = target c).
      { destruct Htar as [Hv | [He _]];
          [apply (settled_value anyScope M); assumption|].
        destruct Hs as [Hne _]. contradiction. }
      rewrite <- E. apply It. rewrite E. apply (settled_tags M); assumption.
    + intros Hs.
      assert (E : environment c1 = environment c).
      { destruct Henv as [Hv | [He _]];
          [apply (settled_value anyScope M); assumption|].
        destruct Hs as [Hne _]. contradiction. }
      rewrite <- E. apply Ie. rewrite E. apply (settled_tags M); assumption.
  - assert (Ek : forall i, kindOf M1 i = kindOf M i)
      by (intros i; apply (sameButAttributes_kindOf M M1 i Hsame)).
    assert (Htags : forall i, isGetClosureScope M1 i = isGetClosureScope M i)
      by (intros i; unfold isGetClosureScope; rewrite Ek; reflexivity).
    destruct (IH call c) as (c' & E' & Ic & It & Ie); [rewrite Ek; exact Hc|].
    exists c'. split; [exact E'|].
    split; [|split]; intros Hs;
      [apply Ic | apply It | apply Ie]; apply (settled_tags M); assumption.
Qed.

(** X24.  The pass only fills in what is missing: a call is still a call after
    [runOnModule], and a callee, target or environment operand that was
    neither the [EmptySentinel] nor the result of a [GetClosureScopeInst] is
    the operand it was.  In particular a target that names a function is never
    bound to another one. *)
Theorem pass_only_fills_in_operands (isConstructionSetup : nat -> nat -> bool)
    (isStoreOnceVariable : nat -> bool) (M : IRModule) :
  (exists fuel M',
     runOnModule isConstructionSetup isStoreOnceVariable fuel M = Some M') /\
  (forall fuel M' call c,
     runOnModule isConstructionSetup isStoreOnceVariable fuel M = Some M' ->
     kindOf M call = BaseCallInst c ->
     exists c', kindOf M' call = BaseCallInst c' /\
                (settled M (callee c) -> callee c' = callee c) /\
                (settled M (target c) -> target c' = target c) /\
                (settled M (environment c) -> environment c' = environment c) /\
                (forall g, target c = FunctionValue g ->
                           target c' = FunctionValue g)).
Proof.
  split; [apply runFrom_terminates|].
  intros fuel M' call c H Hc.
  destruct (passed_operands M M'
              (runFrom_passed isConstructionSetup isStoreOnceVariable fuel
                 (length (functions M)) 0 M M' H) call c Hc)
    as (c' & E' & Ic & It & Ie).
  exists c'. split; [exact E'|]. split; [exact Ic|]. split; [exact It|].
  split; [exact Ie|].
  intros g Hg. rewrite <- Hg. apply It. split.
  - rewrite Hg. discriminate.
  - intros a Ha. rewrite Hg in Ha. discriminate.
Qed.

(** *** Closures that get out of sight *)

Lemma leaks_agree isConstructionSetup isStoreOnceVariable Ma Mb C F u :
  agree Ma Mb -> isClosure Ma C = true ->
  leaks isConstructionSetup isStoreOnceVariable Ma C F u
  = leaks isConstructionSetup isStoreOnceVariable Mb C F u.
Proof.
  intros Hag HC.
  assert (HCb : isClosure Mb C = true)
    by (rewrite <- (agree_isClosure Ma Mb C Hag); exact HC).
  pose proof Hag as (_ & _ & Hflow & _ & Hfun).
  specialize (Hflow u). destruct (Hfun F) as (_ & Hnt & _).
  unfold leaks.
  destruct (kindOf Ma u) as [ca| | | | | | |] eqn:Ea,
           (kindOf Mb u) as [cb| | | | | | |] eqn:Eb;
    simpl in Hflow; try discriminate; try reflexivity.
  - rewrite !canEscapeThroughCall_flow by assumption.
    injection Hflow as H1 H2 H3. rewrite H1, H2, H3, Hnt. reflexivity.
  - injection Hflow as ->. reflexivity.
  - injection Hflow as ->. reflexivity.
Qed.

Section Leak.
Variable isConstructionSetup : nat -> nat -> bool.
Variable isStoreOnceVariable : nat -> bool.
Variable M0 : IRModule.
Local Abbreviation visitUser :=
  (visitUser isConstructionSetup isStoreOnceVariable).
Local Abbreviation leaks := (leaks isConstructionSetup isStoreOnceVariable).

Lemma visitUser_leak F create C ks M wl u M1 wl1 :
  leaks M C F u = true ->
  visitUser F create C ks (M, wl) u = (M1, wl1) ->
  known M1 F = false.
Proof.
  unfold FunctionAnalysis.leaks, FunctionAnalysis.visitUser.
  destruct (kindOf M u) as [call|s f|c|o|c b|s v x|s x|ops] eqn:E.
  - intros Hesc. rewrite Hesc.
    destruct (bool_decide (callee call = InstValue C));
      intros [= <- <-]; rewrite ?known_registerCallsite; apply known_setFalse.
  - destruct (isConstructionSetup u C); simpl; [discriminate|].
    intros _ [= <- <-]. apply known_setFalse.
  - rewrite andb_false_r. discriminate.
  - rewrite andb_false_r. discriminate.
  - destruct (isConstructionSetup u C); simpl; [discriminate|].
    destruct b; simpl; [discriminate|].
    intros _ [= <- <-]. apply known_setFalse.
  - destruct (isConstructionSetup u C); simpl; [discriminate|].
    destruct (isStoreOnceVariable x); simpl; [discriminate|].
    intros _ [= <- <-]. apply known_setFalse.
  - destruct (isConstructionSetup u C); simpl; [discriminate|].
    intros _ [= <- <-]. apply known_setFalse.
  - destruct (isConstructionSetup u C); simpl; [discriminate|].
    intros _ [= <- <-]. apply known_setFalse.
Qed.

Lemma typedAs_scopesOk M : typedAs M0 M -> scopesOk (nonClosure M0) M.
Proof. intros (H & _). exact H. Qed.

Lemma typedAs_closure M M' i :
  typedAs M0 M -> typedAs M0 M' -> isClosure M' i = isClosure M i.
Proof. intros (_ & Ha & _) (_ & Hb & _). rewrite Ha, Hb. reflexivity. Qed.

Lemma visitUsers_leak F create C ks us :
  scopeOk (nonClosure M0) ks ->
  forall M wl M' wl' u,
  typedAs M0 M -> worklistOk (nonClosure M0) wl -> isClosure M C = true ->
  In u us -> leaks M C F u = true ->
  List.fold_left (visitUser F create C ks) us (M, wl) = (M', wl') ->
  known M' F = false.
Proof.
  intros Hks. induction us as [|u0 rest IH];
    intros M wl M' wl' u Ht Hwl HC Hin Hleak Hfold; [destruct Hin|].
  cbn [List.fold_left] in Hfold.
  destruct (visitUser F create C ks (M, wl) u0) as [M1 wl1] eqn:E1.
  destruct (visitUser_evolves (nonClosure M0) isConstructionSetup
              isStoreOnceVariable F create C ks M wl u0 M1 wl1
              (typedAs_scopesOk M Ht) Hks Hwl E1) as [Hev Hwl1].
  pose proof (evolves_typedAs M0 M M1 Ht Hev) as Ht1.
  destruct (leaks M C F u0) eqn:Hl0.
  - pose proof (visitUser_leak F create C ks M wl u0 M1 wl1 Hl0 E1) as Hk1.
    destruct (visitUsers_evolves (nonClosure M0) isConstructionSetup
                isStoreOnceVariable F create C ks rest Hks M1 wl1 M' wl'
                (typedAs_scopesOk M1 Ht1) Hwl1 Hfold) as [Hev' _].
    apply (known_monotone _ M1 M' F Hev' Hk1).
  - assert (Hin' : In u rest).
    { destruct Hin as [->|Hin]; [congruence | exact Hin]. }
    apply (IH M1 wl1 M' wl' u Ht1 Hwl1); [| exact Hin' | | exact Hfold].
    + rewrite (typedAs_closure M M1 C Ht Ht1). exact HC.
    + rewrite <- (leaks_agree isConstructionSetup isStoreOnceVariable M M1 C F u
                    (evolves_agree M0 M M1 Ht Hev) HC).
      exact Hleak.
Qed.

Lemma analyzeCreateCallable_leak fuel create s F M M' u :
  typedAs M0 M ->
  kindOf M create = BaseCreateCallableInst s F ->
  In u (getUsers M create) -> leaks M create F u = true ->
  analyzeCreateCallable isConstructionSetup isStoreOnceVariable fuel create M
  = Some M' ->
  known M' F = false.
Proof.
  intros Ht Hk Hin Hleak. unfold analyzeCreateCallable. rewrite Hk.
  destruct fuel as [|fuel]; [discriminate|].
  cbn [worklistLoop]. rewrite bool_decide_false by (apply not_elem_of_nil).
  destruct (List.fold_left _ _ _) as [Mx wlx] eqn:Ef.
  intros Hrest.
  assert (HC : isClosure M create = true)
    by (unfold isClosure; rewrite Hk; reflexivity).
  assert (Hs : scopeOk (nonClosure M0) (Some s)).
  { pose proof (typedAs_scopesOk M Ht create) as H. rewrite Hk in H. exact H. }
  pose proof (visitUsers_leak F create create (Some s) (getUsers M create) Hs
                M [] Mx wlx u Ht (List.Forall_nil _) HC Hin Hleak Ef) as Hkx.
  pose proof (worklistLoop_evolves anyScope isConstructionSetup
                isStoreOnceVariable F create fuel Mx wlx [create] M'
                (scopesOk_any Mx) (worklistOk_any wlx) Hrest) as Hev.
  apply (known_monotone _ Mx M' F Hev Hkx).
Qed.

(** The facts about a closure and its leaking user that an evolution of the
    module keeps. *)
Lemma leak_facts_evolve F j create s u M M1 :
  typedAs M0 M -> evolves (nonClosure M0) M M1 ->
  functionUsers (getFunction M F) !! j = Some create ->
  kindOf M create = BaseCreateCallableInst s F ->
  In u (getUsers M create) -> leaks M create F u = true ->
  typedAs M0 M1 /\
  functionUsers (getFunction M1 F) !! j = Some create /\
  (exists s1, kindOf M1 create = BaseCreateCallableInst s1 F) /\
  In u (getUsers M1 create) /\ leaks M1 create F u = true.
Proof.
  intros Ht Hev Hj Hk Hin Hleak.
  pose proof (evolves_typedAs M0 M M1 Ht Hev) as Ht1.
  pose proof (evolves_agree M0 M M1 Ht Hev) as Hag.
  assert (HC : isClosure M create = true)
    by (unfold isClosure; rewrite Hk; reflexivity).
  split; [exact Ht1|].
  destruct Hev as (_ & _ & _ & Hkinds & Husers & Hfuns & _).
  split.
  { destruct (Hfuns F) as (_ & _ & _ & _ & _ & extra & E & _).
    rewrite E. apply lookup_app_l_Some. exact Hj. }
  split.
  { specialize (Hkinds create). rewrite Hk in Hkinds.
    destruct (kindOf M1 create) as [|s1 f1| | | | | |]; simpl in Hkinds;
      try contradiction.
    destruct Hkinds as [-> _]. exists s1. reflexivity. }
  split.
  { destruct (Husers create) as [E | [Hnc | Hg]].
    - rewrite E. exact Hin.
    - unfold nonClosure in Hnc. destruct Ht as (_ & Hcl & _).
      rewrite <- Hcl, HC in Hnc. discriminate.
    - unfold isGetClosureScope in Hg. rewrite Hk in Hg. discriminate. }
  rewrite <- (leaks_agree isConstructionSetup isStoreOnceVariable M M1 create F u
                Hag HC).
  exact Hleak.
Qed.

Lemma usersLoop_leak F fuel :
  forall i M M' j create s u,
  typedAs M0 M ->
  usersLoop isConstructionSetup isStoreOnceVariable fuel F i M = Some M' ->
  i <= j ->
  functionUsers (getFunction M F) !! j = Some create ->
  kindOf M create = BaseCreateCallableInst s F ->
  In u (getUsers M create) -> leaks M create F u = true ->
  known M' F = false.
Proof.
  induction fuel as [|fuel IH]; intros i M M' j create s u Ht Hloop Hij Hj Hk
    Hin Hleak.
  - simpl in Hloop.
    destruct (functionUsers (getFunction M F) !! i) eqn:Ei; [discriminate|].
    apply lookup_ge_None in Ei. apply lookup_lt_Some in Hj. lia.
  - cbn [usersLoop] in Hloop.
    destruct (functionUsers (getFunction M F) !! i) as [user|] eqn:Ei.
    2:{ apply lookup_ge_None in Ei. apply lookup_lt_Some in Hj. lia. }
    destruct (Nat.eq_dec i j) as [->|Hne].
    + assert (user = create) by congruence. subst user. rewrite Hk in Hloop.
      destruct (analyzeCreateCallable isConstructionSetup isStoreOnceVariable
                  fuel create M) as [M1|] eqn:Ea; [|discriminate].
      pose proof (analyzeCreateCallable_leak fuel create s F M M1 u Ht Hk Hin
                    Hleak Ea) as Hk1.
      pose proof (usersLoop_evolves anyScope isConstructionSetup
                    isStoreOnceVariable F fuel (S j) M1 M' (scopesOk_any M1)
                    Hloop) as Hev.
      apply (known_monotone _ M1 M' F Hev Hk1).
    + assert (Hstep : forall M1, evolves (nonClosure M0) M M1 ->
                usersLoop isConstructionSetup isStoreOnceVariable fuel F (S i) M1
                = Some M' -> known M' F = false).
      { intros M1 Hev Hrest.
        destruct (leak_facts_evolve F j create s u M M1 Ht Hev Hj Hk Hin Hleak)
          as (Ht1 & Hj1 & (s1 & Hk1) & Hin1 & Hleak1).
        apply (IH (S i) M1 M' j create s1 u Ht1 Hrest); try assumption. lia. }
      destruct (kindOf M user) eqn:Eu.
      * apply (Hstep M); [apply evolves_refl | exact Hloop].
      * destruct (analyzeCreateCallable isConstructionSetup isStoreOnceVariable
                    fuel user M) as [M1|] eqn:Ea; [|discriminate].
        apply (Hstep M1); [|exact Hloop].
        apply (analyzeCreateCallable_evolves (nonClosure M0) isConstructionSetup
                 isStoreOnceVariable fuel user M M1 (typedAs_scopesOk M Ht) Ea).
      * apply (Hstep _ (evolves_setAllCallsitesKnown_false _ M F) Hloop).
      * apply (Hstep _ (evolves_setAllCallsitesKnown_false _ M F) Hloop).
      * apply (Hstep _ (evolves_setAllCallsitesKnown_false _ M F) Hloop).
      * apply (Hstep _ (evolves_setAllCallsitesKnown_false _ M F) Hloop).
      * apply (Hstep _ (evolves_setAllCallsitesKnown_false _ M F) Hloop).
      * apply (Hstep _ (evolves_setAllCallsitesKnown_false _ M F) Hloop).
Qed.

(** The run of the pass, cut at the analysis of [F]. *)
Lemma runFrom_upto fuel count :
  forall F0 M M' F,
  typedAs M0 M ->
  runFrom isConstructionSetup isStoreOnceVariable fuel count F0 M = Some M' ->
  F0 <= F < F0 + count ->
  exists Ma Mb,
    typedAs M0 Ma /\ agree M Ma /\ getFunction Ma F = getFunction M F /\
    analyzeFunctionCallsites isConstructionSetup isStoreOnceVariable fuel F Ma
    = Some Mb /\
    typedAs M0 Mb /\ getFunction M' F = getFunction Mb F /\ agree Mb M'.
Proof.
  induction count as [|count IH]; intros F0 M M' F Ht Hrun HF; [lia|].
  cbn [runFrom] in Hrun.
  destruct (analyzeFunctionCallsites isConstructionSetup isStoreOnceVariable
              fuel F0 M) as [M1|] eqn:E1; [|discriminate].
  destruct (analyzeFunctionCallsites_single isConstructionSetup
              isStoreOnceVariable M0 fuel F0 M M1 Ht E1)
    as (Ht1 & Hag1 & _ & Hother & _).
  destruct (Nat.eq_dec F F0) as [->|Hne].
  - exists M, M1.
    destruct (runFrom_single isConstructionSetup isStoreOnceVariable M0 fuel
                count (S F0) M1 M' Ht1 Hrun) as (_ & Hag' & _ & Hkeep).
    split; [exact Ht|]. split; [apply agree_refl|]. split; [reflexivity|].
    split; [exact E1|]. split; [exact Ht1|].
    split; [apply Hkeep; lia | exact Hag'].
  - destruct (IH (S F0) M1 M' F Ht1 Hrun) as
      (Ma & Mb & Hta & Haga & Hfa & Ea & Htb & Hfb & Hagb); [lia|].
    exists Ma, Mb. split; [exact Hta|].
    split; [apply (agree_trans M M1 Ma); assumption|].
    split; [rewrite Hfa; apply Hother; exact Hne|].
    split; [exact Ea|]. split; [exact Htb|]. split; [exact Hfb | exact Hagb].
Qed.

Lemma global_is_never_known fuel F M M' :
  isGlobalScope (getFunction M F) = true ->
  analyzeFunctionCallsites isConstructionSetup isStoreOnceVariable fuel F M
  = Some M' ->
  known M' F = false.
Proof.
  intros Hg. unfold analyzeFunctionCallsites.
  assert (Hvalid : F < length (functions M)).
  { destruct (Nat.lt_ge_cases F (length (functions M))) as [|Hge];
      [assumption|].
    rewrite getFunction_default in Hg by exact Hge. discriminate. }
  destruct (before_the_loop F M) as (_ & _ & Hk2). specialize (Hk2 Hvalid).
  rewrite Hg in Hk2. simpl in Hk2.
  set (M1 := setAllCallsitesKnown true F M) in *.
  set (M2 := if isGlobalScope (getFunction M1 F)
             then setAllCallsitesKnown false F M1 else M1) in *.
  destruct (usersLoop isConstructionSetup isStoreOnceVariable fuel F 0 M2)
    as [M3|] eqn:Hloop; [|discriminate].
  pose proof (usersLoop_evolves anyScope _ _ F fuel 0 M2 M3
                (scopesOk_any M2) Hloop) as Hev.
  pose proof (known_monotone _ M2 M3 F Hev Hk2) as Hk3.
  change (_allCallsitesKnownInStrictMode (getAttributes M3 F)) with (known M3 F).
  rewrite Hk3. intros [= <-]. exact Hk3.
Qed.

End Leak.

(** X25.  The attribute is sound for what happens to a closure directly: when
    a [BaseCreateCallableInst] of [F] has a user through which the closure
    gets out of sight (a call that may let it escape, a store to a variable
    that is not stored once, a cast whose result cannot be an object, or an
    instruction of a class the pass does not know) then, after the pass has
    run over a well-typed module, [F] is not marked as having all its
    callsites known. *)
Theorem leaking_user_clears_the_attribute
    (isConstructionSetup : nat -> nat -> bool)
    (isStoreOnceVariable : nat -> bool)
    (M : IRModule) (F create s u : nat) :
  wellTyped M ->
  In create (functionUsers (getFunction M F)) ->
  kindOf M create = BaseCreateCallableInst s F ->
  In u (getUsers M create) ->
  leaks isConstructionSetup isStoreOnceVariable M create F u = true ->
  (exists fuel M',
     runOnModule isConstructionSetup isStoreOnceVariable fuel M = Some M') /\
  (forall fuel M',
     runOnModule isConstructionSetup isStoreOnceVariable fuel M = Some M' ->
     _allCallsitesKnownInStrictMode (getAttributes M' F) = false).
Proof.
  intros Hwt Hcreate Hk Hin Hleak.
  split; [apply runFrom_terminates|].
  intros fuel M' Hrun. unfold runOnModule in Hrun.
  assert (Hvalid : F < length (functions M)).
  { destruct (Nat.lt_ge_cases F (length (functions M))) as [|Hge];
      [assumption|].
    rewrite getFunction_default in Hcreate by exact Hge. destruct Hcreate. }
  destruct (runFrom_upto isConstructionSetup isStoreOnceVariable M fuel
              (length (functions M)) 0 M M' F Hwt Hrun)
    as (Ma & Mb & Hta & Haga & Hfa & Ea & Htb & Hfb & Hagb); [lia|].
  assert (HC : isClosure M create = true)
    by (unfold isClosure; rewrite Hk; reflexivity).
  apply list_elem_of_In, list_elem_of_lookup in Hcreate as [j Hj].
  (* the facts at [Ma] *)
  assert (Hka : exists sa, kindOf Ma create = BaseCreateCallableInst sa F).
  { destruct Haga as (_ & _ & Hflow & _). specialize (Hflow create).
    rewrite Hk in Hflow. simpl in Hflow.
    destruct (kindOf Ma create) as [|sa fa| | | | | |]; simpl in Hflow;
      try discriminate.
    injection Hflow as ->. exists sa. reflexivity. }
  destruct Hka as (sa & Hka).
  assert (Hina : In u (getUsers Ma create)).
  { destruct Haga as (_ & _ & _ & Hus & _). rewrite <- (Hus create HC).
    exact Hin. }
  assert (Hleaka : leaks isConstructionSetup isStoreOnceVariable Ma create F u
                   = true).
  { rewrite <- (leaks_agree _ _ M Ma create F u Haga HC). exact Hleak. }
  assert (Hja : functionUsers (getFunction Ma F) !! j = Some create)
    by (rewrite Hfa; exact Hj).
  (* the analysis of [F] *)
  unfold analyzeFunctionCallsites in Ea.
  destruct (before_the_loop F Ma) as (Hsame & _ & _).
  set (M1 := setAllCallsitesKnown true F Ma) in *.
  set (M2 := if isGlobalScope (getFunction M1 F)
             then setAllCallsitesKnown false F M1 else M1) in *.
  destruct (usersLoop isConstructionSetup isStoreOnceVariable fuel F 0 M2)
    as [M3|] eqn:Hloop; [|discriminate].
  assert (HCa : isClosure Ma create = true)
    by (unfold isClosure; rewrite Hka; reflexivity).
  assert (Hk3 : known M3 F = false).
  { apply (usersLoop_leak isConstructionSetup isStoreOnceVariable M F fuel 0 M2
             M3 j create sa u); [| exact Hloop | lia | | | |].
    - apply (sameButAttributes_typedAs M Ma M2 Hsame Hta).
    - destruct Hsame as (_ & _ & _ & Hf). destruct (Hf F) as (_ & -> & _).
      exact Hja.
    - rewrite (sameButAttributes_kindOf Ma M2 create Hsame). exact Hka.
    - rewrite (sameButAttributes_getUsers Ma M2 create Hsame). exact Hina.
    - rewrite <- (leaks_agree _ _ Ma M2 create F u
                    (sameButAttributes_agree Ma M2 Hsame) HCa).
      exact Hleaka. }
  change (_allCallsitesKnownInStrictMode (getAttributes M3 F)) with (known M3 F)
    in Ea.
  rewrite Hk3 in Ea. injection Ea as <-.
  unfold getAttributes. rewrite Hfb. exact Hk3.
Qed.

(** The closure of [F1] is an argument of a call to something else. *)
Lemma leaking_user_clears_the_attribute_witness :
  (exists fuel M',
     runOnModule (fun _ _ => false) (fun _ => true) fuel escapingModule
     = Some M') /\
  (forall fuel M',
     runOnModule (fun _ _ => false) (fun _ => true) fuel escapingModule
     = Some M' ->
     _allCallsitesKnownInStrictMode (getAttributes M' 1) = false).
Proof.
  apply (leaking_user_clears_the_attribute (fun _ _ => false) (fun _ => true)
           escapingModule 1 1 0 2).
  - split.
    { intros i. do 4 (destruct i as [|i]; [vm_compute; auto|]).
      vm_compute; auto. }
    split; [reflexivity|]. split.
    { intros i c.
      do 4 (destruct i as [|i];
            [vm_compute; intros H; try discriminate H; injection H as <-;
             auto|]).
      vm_compute. discriminate. }
    intros F u s f.
    do 2 (destruct F as [|F]; [vm_compute; intros Hin; try contradiction|]).
    + destruct Hin as [<-|[]]. vm_compute. intros [= _ <-]. reflexivity.
    + unfold getFunction. simpl. destruct F; intros [].
  - vm_compute. left. reflexivity.
  - reflexivity.
  - vm_compute. left. reflexivity.
  - vm_compute. reflexivity.
Defined.

(** *** The attributes of every function after the pass *)

(** X26.  After the pass has run over a well-typed module, every function of
    the module carries what its own analysis found, undisturbed by the
    analysis of the functions after it: a global scope does not have all
    callsites known, and a function that has all callsites known is marked
    unreachable exactly when none of its users, in the module the pass
    returns, is a call. *)
Theorem attributes_after_the_pass (isConstructionSetup : nat -> nat -> bool)
    (isStoreOnceVariable : nat -> bool) (M : IRModule) :
  wellTyped M ->
  (exists fuel M',
     runOnModule isConstructionSetup isStoreOnceVariable fuel M = Some M') /\
  (forall fuel M' F,
     runOnModule isConstructionSetup isStoreOnceVariable fuel M = Some M' ->
     F < length (functions M) ->
     (isGlobalScope (getFunction M F) = true ->
      _allCallsitesKnownInStrictMode (getAttributes M' F) = false) /\
     (_allCallsitesKnownInStrictMode (getAttributes M' F) = true ->
      unreachable (getAttributes M' F)
      = negb (List.existsb (isCall M') (functionUsers (getFunction M' F))))).
Proof.
  intros Hwt. split; [apply runFrom_terminates|].
  intros fuel M' F Hrun HF. unfold runOnModule in Hrun.
  destruct (runFrom_upto isConstructionSetup isStoreOnceVariable M fuel
              (length (functions M)) 0 M M' F Hwt Hrun)
    as (Ma & Mb & Hta & Haga & Hfa & Ea & Htb & Hfb & Hagb); [lia|].
  destruct (analyzeFunctionCallsites_single isConstructionSetup
              isStoreOnceVariable M fuel F Ma Mb Hta Ea)
    as (_ & _ & _ & _ & Hun).
  unfold getAttributes. rewrite Hfb.
  change (_allCallsitesKnownInStrictMode (attributes (getFunction Mb F)))
    with (known Mb F).
  change (unreachable (attributes (getFunction Mb F)))
    with (unreachable (getAttributes Mb F)).
  split.
  - intros Hg.
    apply (global_is_never_known isConstructionSetup isStoreOnceVariable fuel F
             Ma Mb); [rewrite Hfa; exact Hg | exact Ea].
  - intros Hk. rewrite Hun, Hk.
    rewrite (existsb_isCall_agree Mb M' _ Hagb). reflexivity.
Qed.

(** The stored closure: [F0] is the global scope, [F1] is called through a
    load. *)
Lemma attributes_after_the_pass_witness :
  (exists fuel M',
     runOnModule (fun _ _ => false) (fun _ => true) fuel storedClosureModule
     = Some M') /\
  (forall fuel M' F,
     runOnModule (fun _ _ => false) (fun _ => true) fuel storedClosureModule
     = Some M' ->
     F < length (functions storedClosureModule) ->
     (isGlobalScope (getFunction storedClosureModule F) = true ->
      _allCallsitesKnownInStrictMode (getAttributes M' F) = false) /\
     (_allCallsitesKnownInStrictMode (getAttributes M' F) = true ->
      unreachable (getAttributes M' F)
      = negb (List.existsb (isCall M') (functionUsers (getFunction M' F))))).
Proof.
  apply (attributes_after_the_pass (fun _ _ => false) (fun _ => true)
           storedClosureModule).
  split.
  { intros i. do 8 (destruct i as [|i]; [vm_compute; auto|]). vm_compute; auto. }
  split; [reflexivity|]. split.
  { intros i c.
    do 8 (destruct i as [|i];
          [vm_compute; intros H; try discriminate H; injection H as <-; auto|]).
    vm_compute. discriminate. }
  intros F u s f.
  do 2 (destruct F as [|F]; [vm_compute; intros Hin; try contradiction|]).
  - destruct Hin as [<-|[]]. vm_compute. intros [= _ <-]. reflexivity.
  - unfold getFunction. simpl. destruct F; intros [].
Defined.

(** *** Direct calls get the function of their closure *)

Lemma callsClosureOf_evolves ok M M1 call create F :
  evolves ok M M1 -> callsClosureOf M call create F ->
  callsClosureOf M1 call create F.
Proof.
  intros (_ & _ & _ & Hk & _) ((c & Hc & Hcal) & (s & Hs)).
  pose proof (Hk call) as Hkc. pose proof (Hk create) as Hks.
  rewrite Hc in Hkc. rewrite Hs in Hks.
  split.
  - destruct (kindOf M1 call) as [c1| | | | | | |]; simpl in Hkc;
      try contradiction.
    exists c1. split; [reflexivity|].
    destruct Hkc as ([E | (a & b & Ea & Hg & _)] & _); [congruence|].
    rewrite Hcal in Ea. injection Ea as <-.
    unfold isGetClosureScope in Hg. rewrite Hs in Hg. discriminate.
  - destruct (kindOf M1 create) as [|s1 f1| | | | | |]; simpl in Hks;
      try contradiction.
    destruct Hks as [-> _]. exists s1. reflexivity.
Qed.

Lemma callsClosureOf_attributes M M1 call create F :
  sameButAttributes M M1 -> callsClosureOf M call create F ->
  callsClosureOf M1 call create F.
Proof.
  intros Hsame ((c & Hc & Hcal) & (s & Hs)). split.
  - exists c. rewrite (sameButAttributes_kindOf M M1 call Hsame). auto.
  - exists s. rewrite (sameButAttributes_kindOf M M1 create Hsame). exact Hs.
Qed.

Lemma callsClosureOf_passed M M' call create F :
  passed M M' -> callsClosureOf M call create F ->
  callsClosureOf M' call create F.
Proof.
  induction 1 as [M|M M1 M' Hev _ IH|M M1 M' Hsame _ IH]; intros H.
  - exact H.
  - apply IH. apply (callsClosureOf_evolves anyScope M M1); assumption.
  - apply IH. apply (callsClosureOf_attributes M M1); assumption.
Qed.

Lemma boundTo_targets M M1 call F :
  targetOf M1 call = targetOf M call -> boundTo M call F -> boundTo M1 call F.
Proof. unfold boundTo. intros ->. auto. Qed.

Lemma flowsFrom_class M M1 create x :
  (forall i, classOf (kindOf M1 i) = classOf (kindOf M i)) ->
  flowsFrom M create x -> flowsFrom M1 create x.
Proof. intros Hc [E|H]; [left; exact E | right; rewrite Hc; exact H]. Qed.

Lemma evolves_class ok M M1 i :
  evolves ok M M1 -> classOf (kindOf M1 i) = classOf (kindOf M i).
Proof.
  intros (_ & _ & _ & Hk & _). apply (kindEvolves_class ok M). apply Hk.
Qed.

Lemma targetOf_setTarget_other call G M i :
  i <> call -> targetOf (setTarget call G M) i = targetOf M i.
Proof.
  intros Hne. unfold setTarget, targetOf, kindOf.
  rewrite getInst_alterFunction, getInst_alterInst.
  destruct (decide (call = i /\ i < length (instructions M))) as [[E _]|_];
    [congruence | reflexivity].
Qed.

Lemma targetOf_registerCallsite_other u callee scope M i :
  i <> u -> targetOf (registerCallsite u callee scope M) i = targetOf M i.
Proof.
  intros Hne. unfold registerCallsite.
  set (M1 := match callOperands M u with
             | Some c => if isEmptySentinel (target c)
                         then setTarget u (getFunctionCode M callee) M else M
             | None => M
             end).
  assert (H1 : targetOf M1 i = targetOf M i).
  { unfold M1. destruct (callOperands M u) as [c|]; [|reflexivity].
    destruct (isEmptySentinel (target c)); [|reflexivity].
    apply targetOf_setTarget_other. exact Hne. }
  destruct scope as [s|]; [|exact H1].
  destruct (callOperands M1 u) as [c|]; [|exact H1].
  destruct (isEmptySentinel (environment c) && _); [|exact H1].
  rewrite targetOf_setEnvironment. exact H1.
Qed.

Lemma targetOf_setAllCallsitesKnown b F M i :
  targetOf (setAllCallsitesKnown b F M) i = targetOf M i.
Proof.
  apply sameButAttributes_targetOf. apply sameButAttributes_setAllCallsitesKnown.
Qed.

Section Bound.
Variable isConstructionSetup : nat -> nat -> bool.
Variable isStoreOnceVariable : nat -> bool.
Variable M0 : IRModule.
Variables call create F : nat.
Local Abbreviation visitUser :=
  (visitUser isConstructionSetup isStoreOnceVariable).

(** Visiting a user other than [i] leaves the target of [i] alone. *)
Lemma visitUser_targets_elsewhere F0 create0 closureInst ks M wl u M1 wl1 i :
  targetsTyped M -> i <> u ->
  visitUser F0 create0 closureInst ks (M, wl) u = (M1, wl1) ->
  targetOf M1 i = targetOf M i.
Proof.
  intros Ht Hne. unfold FunctionAnalysis.visitUser.
  destruct (kindOf M u) as [c|s f|c|o|c b|s v x|s x|ops] eqn:E.
  - intros [= <- _].
    set (M' := if canEscapeThroughCall M closureInst F0 c
               then setAllCallsitesKnown false F0 M else M).
    assert (H' : targetOf M' i = targetOf M i).
    { unfold M'. destruct (canEscapeThroughCall M closureInst F0 c);
        [apply targetOf_setAllCallsitesKnown | reflexivity]. }
    destruct (bool_decide (callee c = InstValue closureInst)); [|exact H'].
    rewrite targetOf_registerCallsite_other by exact Hne. exact H'.
  - destruct (isConstructionSetup u closureInst); intros [= <- _];
      [reflexivity | apply targetOf_setAllCallsitesKnown].
  - destruct (isConstructionSetup u closureInst); intros [= <- _];
      [reflexivity|].
    destruct ks as [s|]; [|reflexivity].
    apply targetOf_replaceAllUsesWith. exact Ht.
  - destruct (isConstructionSetup u closureInst); intros [= <- _]; reflexivity.
  - destruct (isConstructionSetup u closureInst);
      [intros [= <- _]; reflexivity|].
    destruct b; intros [= <- _];
      [reflexivity | apply targetOf_setAllCallsitesKnown].
  - destruct (isConstructionSetup u closureInst);
      [intros [= <- _]; reflexivity|].
    destruct (negb (isStoreOnceVariable x)); intros [= <- _];
      [apply targetOf_setAllCallsitesKnown | reflexivity].
  - destruct (isConstructionSetup u closureInst); intros [= <- _];
      [reflexivity | apply targetOf_setAllCallsitesKnown].
  - destruct (isConstructionSetup u closureInst); intros [= <- _];
      [reflexivity | apply targetOf_setAllCallsitesKnown].
Qed.

Lemma pushLoads_flows M create0 b us :
  forall wl,
  Forall (fun item : UserAndScope => flowsFrom M create0 (fst item)) wl ->
  Forall (fun item : UserAndScope => flowsFrom M create0 (fst item))
    (pushLoads M b wl us).
Proof.
  unfold pushLoads. induction us as [|v us IH]; intros wl Hwl; [exact Hwl|].
  cbn [List.fold_left]. apply IH.
  destruct (kindOf M v) eqn:E; try exact Hwl.
  constructor; [|exact Hwl]. right. simpl. rewrite E. discriminate.
Qed.

(** The worklist a visit leaves holds no other closure creation. *)
Lemma visitUser_flows F0 create0 closureInst ks M wl u M1 wl1 :
  Forall (fun item : UserAndScope => flowsFrom M create0 (fst item)) wl ->
  visitUser F0 create0 closureInst ks (M, wl) u = (M1, wl1) ->
  Forall (fun item : UserAndScope => flowsFrom M create0 (fst item)) wl1.
Proof.
  intros Hwl. unfold FunctionAnalysis.visitUser.
  assert (Hpush : classOf (kindOf M u) <> CreateCallableClass ->
                  Forall (fun item : UserAndScope =>
                            flowsFrom M create0 (fst item)) ((u, ks) :: wl)).
  { intros Hc. constructor; [right; exact Hc | exact Hwl]. }
  destruct (kindOf M u) as [c|s f|c|o|c b|s v x|s x|ops] eqn:E.
  - intros [= _ <-]. exact Hwl.
  - destruct (isConstructionSetup u closureInst); intros [= _ <-]; exact Hwl.
  - destruct (isConstructionSetup u closureInst); intros [= _ <-]; exact Hwl.
  - destruct (isConstructionSetup u closureInst); intros [= _ <-];
      [exact Hwl | apply Hpush; discriminate].
  - destruct (isConstructionSetup u closureInst);
      [intros [= _ <-]; exact Hwl|].
    destruct b; intros [= _ <-]; [apply Hpush; discriminate | exact Hwl].
  - destruct (isConstructionSetup u closureInst);
      [intros [= _ <-]; exact Hwl|].
    destruct (negb (isStoreOnceVariable x)); intros [= _ <-];
      [exact Hwl | apply pushLoads_flows; exact Hwl].
  - destruct (isConstructionSetup u closureInst); intros [= _ <-]; exact Hwl.
  - destruct (isConstructionSetup u closureInst); intros [= _ <-]; exact Hwl.
Qed.

Lemma visitUser_tracking F0 create0 closureInst ks M wl u M1 wl1 :
  tracking M0 M call create F create0 F0 wl ->
  flowsFrom M create0 closureInst -> scopeOk (nonClosure M0) ks ->
  visitUser F0 create0 closureInst ks (M, wl) u = (M1, wl1) ->
  tracking M0 M1 call create F create0 F0 wl1 /\
  flowsFrom M1 create0 closureInst.
Proof.
  intros (Ht & Hwl & Hfl & Hcode & Hcc & Hb) Hflow Hks E.
  destruct (visitUser_evolves (nonClosure M0) isConstructionSetup
              isStoreOnceVariable F0 create0 closureInst ks M wl u M1 wl1
              (typedAs_scopesOk M0 M Ht) Hks Hwl E) as [Hev Hwl1].
  assert (Hclass : forall i, classOf (kindOf M1 i) = classOf (kindOf M i))
    by (intros i; apply (evolves_class _ M M1 i Hev)).
  split; [|apply (flowsFrom_class M M1); assumption].
  split; [apply (evolves_typedAs M0 M M1 Ht Hev)|].
  split; [exact Hwl1|].
  split.
  { pose proof (visitUser_flows F0 create0 closureInst ks M wl u M1 wl1 Hfl E)
      as H.
    eapply Forall_impl; [exact H|]. intros item Hi.
    apply (flowsFrom_class M M1); assumption. }
  split; [rewrite (evolves_getFunctionCode _ M M1 create0 Hev); exact Hcode|].
  split; [apply (callsClosureOf_evolves (nonClosure M0) M M1); assumption|].
  (* the target *)
  destruct (Nat.eq_dec call u) as [<-|Hne].
  2:{ apply (boundTo_targets M M1); [|exact Hb].
      apply (visitUser_targets_elsewhere F0 create0 closureInst ks M wl u M1
               wl1 call); [apply Ht | exact Hne | exact E]. }
  destruct Hcc as ((c & Hc & Hcal) & (s & Hs)).
  destruct (Nat.eq_dec closureInst create) as [->|Hnc].
  - (* the call is a user of its own closure: [create] is [create0] *)
    assert (Hc0 : create = create0).
    { destruct Hflow as [E0|Hcl]; [exact E0|].
      rewrite Hs in Hcl. simpl in Hcl. congruence. }
    assert (HF : F0 = F).
    { rewrite <- Hcode, <- Hc0. unfold getFunctionCode. rewrite Hs.
      reflexivity. }
    destruct (visitUser_call isConstructionSetup isStoreOnceVariable F0 create0
                create ks M wl call c Hc Hcal Hcode)
      as (M2 & c2 & E2 & Hk2 & _ & Ht2 & _).
    rewrite E2 in E. injection E as <- _.
    unfold boundTo, targetOf in *. rewrite Hk2, Ht2. rewrite Hc in Hb.
    destruct Hb as [Hb|Hb]; injection Hb as Hb; rewrite Hb; simpl;
      [right; rewrite HF | right]; reflexivity.
  - (* the callee is another instruction: nothing is registered *)
    apply (boundTo_targets M M1); [|exact Hb].
    unfold FunctionAnalysis.visitUser in E. rewrite Hc in E.
    rewrite bool_decide_false in E
      by (rewrite Hcal; intros [= E']; apply Hnc; symmetry; exact E').
    injection E as <- _.
    destruct (canEscapeThroughCall M closureInst F0 c);
      [apply targetOf_setAllCallsitesKnown | reflexivity].
Qed.

Lemma visitUsers_tracking F0 create0 closureInst ks us :
  scopeOk (nonClosure M0) ks ->
  forall M wl M' wl',
  tracking M0 M call create F create0 F0 wl ->
  flowsFrom M create0 closureInst ->
  List.fold_left (visitUser F0 create0 closureInst ks) us (M, wl) = (M', wl') ->
  tracking M0 M' call create F create0 F0 wl'.
Proof.
  intros Hks. induction us as [|u rest IH]; intros M wl M' wl' Htr Hfl Hfold.
  - injection Hfold as <- <-. exact Htr.
  - cbn [List.fold_left] in Hfold.
    destruct (visitUser F0 create0 closureInst ks (M, wl) u) as [M1 wl1] eqn:E1.
    destruct (visitUser_tracking F0 create0 closureInst ks M wl u M1 wl1 Htr
                Hfl Hks E1) as [Htr1 Hfl1].
    apply (IH M1 wl1 M' wl' Htr1 Hfl1 Hfold).
Qed.

Lemma worklistLoop_bound F0 create0 fuel :
  forall M wl visited M',
  tracking M0 M call create F create0 F0 wl ->
  worklistLoop isConstructionSetup isStoreOnceVariable fuel F0 create0 M wl
    visited = Some M' ->
  boundTo M' call F.
Proof.
  induction fuel as [|fuel IH]; intros M wl visited M' Htr Hloop.
  - destruct wl as [|[ci ks] rest]; simpl in Hloop; [|discriminate].
    injection Hloop as <-. apply Htr.
  - destruct wl as [|[ci ks] rest]; cbn [worklistLoop] in Hloop.
    { injection Hloop as <-. apply Htr. }
    destruct Htr as (Ht & Hwl & Hfl & Hcode & Hcc & Hb).
    apply Forall_cons in Hwl as [Hks Hwl].
    apply Forall_cons in Hfl as [Hci Hfl]. simpl in Hks, Hci.
    assert (Htr' : tracking M0 M call create F create0 F0 rest)
      by exact (conj Ht (conj Hwl (conj Hfl (conj Hcode (conj Hcc Hb))))).
    destruct (bool_decide (ci ∈ visited)).
    + apply (IH M rest visited M' Htr' Hloop).
    + destruct (List.fold_left _ _ _) as [Mx wlx] eqn:Ef.
      pose proof (visitUsers_tracking F0 create0 ci ks (getUsers M ci) Hks M
                    rest Mx wlx Htr' Hci Ef) as Htrx.
      apply (IH Mx wlx (ci :: visited) M' Htrx Hloop).
Qed.

Lemma analyzeCreateCallable_bound fuel create0 M M' :
  typedAs M0 M -> callsClosureOf M call create F -> boundTo M call F ->
  analyzeCreateCallable isConstructionSetup isStoreOnceVariable fuel create0 M
  = Some M' ->
  boundTo M' call F.
Proof.
  intros Ht Hcc Hb. unfold analyzeCreateCallable.
  destruct (kindOf M create0) as [|s0 F0| | | | | |] eqn:E0;
    try (intros [= <-]; exact Hb).
  apply (worklistLoop_bound F0 create0 fuel M [(create0, Some s0)] [] M').
  split; [exact Ht|]. split.
  { constructor; [|constructor]. simpl.
    pose proof (typedAs_scopesOk M0 M Ht create0) as H. rewrite E0 in H.
    exact H. }
  split; [constructor; [left; reflexivity | constructor]|].
  split; [unfold getFunctionCode; rewrite E0; reflexivity|].
  split; assumption.
Qed.

Lemma usersLoop_bound G fuel :
  forall i M M',
  typedAs M0 M -> callsClosureOf M call create F -> boundTo M call F ->
  usersLoop isConstructionSetup isStoreOnceVariable fuel G i M = Some M' ->
  boundTo M' call F.
Proof.
  induction fuel as [|fuel IH]; intros i M M' Ht Hcc Hb Hloop.
  - simpl in Hloop.
    destruct (functionUsers (getFunction M G) !! i); [discriminate|].
    injection Hloop as <-. exact Hb.
  - cbn [usersLoop] in Hloop.
    destruct (functionUsers (getFunction M G) !! i) as [user|];
      [|injection Hloop as <-; exact Hb].
    assert (Hfalse : usersLoop isConstructionSetup isStoreOnceVariable fuel G
                       (S i) (setAllCallsitesKnown false G M) = Some M' ->
                     boundTo M' call F).
    { apply IH.
      - apply (sameButAttributes_typedAs M0 M);
          [apply sameButAttributes_setAllCallsitesKnown | exact Ht].
      - apply (callsClosureOf_attributes M);
          [apply sameButAttributes_setAllCallsitesKnown | exact Hcc].
      - apply (boundTo_targets M); [apply targetOf_setAllCallsitesKnown
                                   | exact Hb]. }
    destruct (kindOf M user) eqn:Eu; try (apply Hfalse; exact Hloop).
    + apply (IH (S i) M M' Ht Hcc Hb Hloop).
    + destruct (analyzeCreateCallable isConstructionSetup isStoreOnceVariable
                  fuel user M) as [M1|] eqn:Ea; [|discriminate].
      pose proof (analyzeCreateCallable_evolves (nonClosure M0)
                    isConstructionSetup isStoreOnceVariable fuel user M M1
                    (typedAs_scopesOk M0 M Ht) Ea) as Hev.
      apply (IH (S i) M1 M'); [| | |exact Hloop].
      * apply (evolves_typedAs M0 M M1 Ht Hev).
      * apply (callsClosureOf_evolves (nonClosure M0) M M1); assumption.
      * apply (analyzeCreateCallable_bound fuel user M M1 Ht Hcc Hb Ea).
Qed.

Lemma analyzeFunctionCallsites_bound fuel G M M' :
  typedAs M0 M -> callsClosureOf M call create F -> boundTo M call F ->
  analyzeFunctionCallsites isConstructionSetup isStoreOnceVariable fuel G M
  = Some M' ->
  boundTo M' call F.
Proof.
  intros Ht Hcc Hb. unfold analyzeFunctionCallsites.
  destruct (before_the_loop G M) as (Hsame & _ & _).
  set (M1 := setAllCallsitesKnown true G M) in *.
  set (M2 := if isGlobalScope (getFunction M1 G)
             then setAllCallsitesKnown false G M1 else M1) in *.
  destruct (usersLoop isConstructionSetup isStoreOnceVariable fuel G 0 M2)
    as [M3|] eqn:Hloop; [|discriminate].
  assert (Hb3 : boundTo M3 call F).
  { apply (usersLoop_bound G fuel 0 M2 M3); [| | |exact Hloop].
    - apply (sameButAttributes_typedAs M0 M M2 Hsame Ht).
    - apply (callsClosureOf_attributes M M2 _ _ _ Hsame Hcc).
    - apply (boundTo_targets M M2);
        [apply (sameButAttributes_targetOf M M2 call Hsame) | exact Hb]. }
  intros [= <-].
  destruct (_allCallsitesKnownInStrictMode (getAttributes M3 G)); [|exact Hb3].
  apply (boundTo_targets M3); [|exact Hb3].
  apply sameButAttributes_targetOf. apply sameButAttributes_setUnreachable.
Qed.

Lemma runFrom_bound fuel count :
  forall G M M',
  typedAs M0 M -> callsClosureOf M call create F -> boundTo M call F ->
  runFrom isConstructionSetup isStoreOnceVariable fuel count G M = Some M' ->
  boundTo M' call F.
Proof.
  induction count as [|count IH]; intros G M M' Ht Hcc Hb Hrun;
    cbn [runFrom] in Hrun.
  - injection Hrun as <-. exact Hb.
  - destruct (analyzeFunctionCallsites isConstructionSetup isStoreOnceVariable
                fuel G M) as [M1|] eqn:E1; [|discriminate].
    destruct (analyzeFunctionCallsites_single isConstructionSetup
                isStoreOnceVariable M0 fuel G M M1 Ht E1) as (Ht1 & _).
    apply (IH (S G) M1 M' Ht1); [| |exact Hrun].
    + apply (callsClosureOf_passed M M1);
        [apply (analyzeFunctionCallsites_passed isConstructionSetup
                  isStoreOnceVariable fuel G M M1 E1) | exact Hcc].
    + apply (analyzeFunctionCallsites_bound fuel G M M1 Ht Hcc Hb E1).
Qed.

(** *** The call is registered when its closure is visited *)

Lemma visitUsers_registers F0 ks us :
  scopeOk (nonClosure M0) ks ->
  forall M wl M' wl',
  typedAs M0 M -> worklistOk (nonClosure M0) wl ->
  getFunctionCode M create = F0 ->
  callsClosureOf M call create F -> In call us ->
  List.fold_left (visitUser F0 create create ks) us (M, wl) = (M', wl') ->
  hasTarget M' call = true.
Proof.
  intros Hks. induction us as [|u rest IH];
    intros M wl M' wl' Ht Hwl Hcode Hcc Hin Hfold; [destruct Hin|].
  cbn [List.fold_left] in Hfold.
  destruct (visitUser F0 create create ks (M, wl) u) as [M1 wl1] eqn:E1.
  destruct (visitUser_evolves (nonClosure M0) isConstructionSetup
              isStoreOnceVariable F0 create create ks M wl u M1 wl1
              (typedAs_scopesOk M0 M Ht) Hks Hwl E1) as [Hev Hwl1].
  pose proof (evolves_typedAs M0 M M1 Ht Hev) as Ht1.
  destruct (Nat.eq_dec u call) as [->|Hne].
  - destruct Hcc as ((c & Hc & Hcal) & _).
    pose proof (visitUser_registers isConstructionSetup isStoreOnceVariable F0
                  create create ks M wl call c M1 wl1 Hc Hcal Hcode E1) as Hh.
    destruct (visitUsers_evolves (nonClosure M0) isConstructionSetup
                isStoreOnceVariable F0 create create ks rest Hks M1 wl1 M' wl'
                (typedAs_scopesOk M0 M1 Ht1) Hwl1 Hfold) as [Hev' _].
    apply (evolves_hasTarget _ M1 M' call Hev' Hh).
  - apply (IH M1 wl1 M' wl' Ht1 Hwl1); [| | |exact Hfold].
    + rewrite (evolves_getFunctionCode _ M M1 create Hev). exact Hcode.
    + apply (callsClosureOf_evolves (nonClosure M0) M M1); assumption.
    + destruct Hin as [E|Hin]; [congruence | exact Hin].
Qed.

Lemma analyzeCreateCallable_registers fuel M M' :
  typedAs M0 M -> callsClosureOf M call create F ->
  In call (getUsers M create) ->
  analyzeCreateCallable isConstructionSetup isStoreOnceVariable fuel create M
  = Some M' ->
  hasTarget M' call = true.
Proof.
  intros Ht Hcc Hin. unfold analyzeCreateCallable.
  pose proof Hcc as (_ & (s & Hs)). rewrite Hs.
  destruct fuel as [|fuel]; [discriminate|].
  cbn [worklistLoop]. rewrite bool_decide_false by (apply not_elem_of_nil).
  destruct (List.fold_left _ _ _) as [Mx wlx] eqn:Ef.
  intros Hrest.
  assert (Hsc : scopeOk (nonClosure M0) (Some s)).
  { pose proof (typedAs_scopesOk M0 M Ht create) as H. rewrite Hs in H.
    exact H. }
  assert (Hcode : getFunctionCode M create = F)
    by (unfold getFunctionCode; rewrite Hs; reflexivity).
  pose proof (visitUsers_registers F (Some s) (getUsers M create) Hsc M [] Mx
                wlx Ht (List.Forall_nil _) Hcode Hcc Hin Ef) as Hh.
  pose proof (worklistLoop_evolves anyScope isConstructionSetup
                isStoreOnceVariable F create fuel Mx wlx [create] M'
                (scopesOk_any Mx) (worklistOk_any wlx) Hrest) as Hev.
  apply (evolves_hasTarget _ Mx M' call Hev Hh).
Qed.

Lemma usersLoop_registers fuel :
  forall i M M' j,
  typedAs M0 M ->
  usersLoop isConstructionSetup isStoreOnceVariable fuel F i M = Some M' ->
  i <= j ->
  functionUsers (getFunction M F) !! j = Some create ->
  callsClosureOf M call create F -> In call (getUsers M create) ->
  hasTarget M' call = true.
Proof.
  induction fuel as [|fuel IH]; intros i M M' j Ht Hloop Hij Hj Hcc Hin.
  - simpl in Hloop.
    destruct (functionUsers (getFunction M F) !! i) eqn:Ei; [discriminate|].
    apply lookup_ge_None in Ei. apply lookup_lt_Some in Hj. lia.
  - cbn [usersLoop] in Hloop.
    destruct (functionUsers (getFunction M F) !! i) as [user|] eqn:Ei.
    2:{ apply lookup_ge_None in Ei. apply lookup_lt_Some in Hj. lia. }
    pose proof Hcc as (_ & (s & Hs)).
    assert (HC : isClosure M create = true)
      by (unfold isClosure; rewrite Hs; reflexivity).
    destruct (Nat.eq_dec i j) as [->|Hne].
    + assert (user = create) by congruence. subst user. rewrite Hs in Hloop.
      destruct (analyzeCreateCallable isConstructionSetup isStoreOnceVariable
                  fuel create M) as [M1|] eqn:Ea; [|discriminate].
      pose proof (analyzeCreateCallable_registers fuel M M1 Ht Hcc Hin Ea)
        as Hh.
      pose proof (usersLoop_evolves anyScope isConstructionSetup
                    isStoreOnceVariable F fuel (S j) M1 M' (scopesOk_any M1)
                    Hloop) as Hev.
      apply (evolves_hasTarget _ M1 M' call Hev Hh).
    + assert (Hstep : forall M1, evolves (nonClosure M0) M M1 ->
                usersLoop isConstructionSetup isStoreOnceVariable fuel F (S i) M1
                = Some M' -> hasTarget M' call = true).
      { intros M1 Hev Hrest.
        apply (IH (S i) M1 M' j); [| exact Hrest | lia | | |].
        - apply (evolves_typedAs M0 M M1 Ht Hev).
        - destruct Hev as (_ & _ & _ & _ & _ & Hfuns & _).
          destruct (Hfuns F) as (_ & _ & _ & _ & _ & extra & E & _).
          rewrite E. apply lookup_app_l_Some. exact Hj.
        - apply (callsClosureOf_evolves (nonClosure M0) M M1); assumption.
        - destruct Hev as (_ & _ & _ & _ & Husers & _).
          destruct (Husers create) as [E | [Hnc | Hg]].
          + rewrite E. exact Hin.
          + unfold nonClosure in Hnc. destruct Ht as (_ & Hcl & _).
            rewrite <- Hcl, HC in Hnc. discriminate.
          + unfold isGetClosureScope in Hg. rewrite Hs in Hg. discriminate. }
      destruct (kindOf M user) eqn:Eu.
      * apply (Hstep M); [apply evolves_refl | exact Hloop].
      * destruct (analyzeCreateCallable isConstructionSetup isStoreOnceVariable
                    fuel user M) as [M1|] eqn:Ea; [|discriminate].
        apply (Hstep M1); [|exact Hloop].
        apply (analyzeCreateCallable_evolves (nonClosure M0) isConstructionSetup
                 isStoreOnceVariable fuel user M M1 (typedAs_scopesOk M0 M Ht)
                 Ea).
      * apply (Hstep _ (evolves_setAllCallsitesKnown_false _ M F) Hloop).
      * apply (Hstep _ (evolves_setAllCallsitesKnown_false _ M F) Hloop).
      * apply (Hstep _ (evolves_setAllCallsitesKnown_false _ M F) Hloop).
      * apply (Hstep _ (evolves_setAllCallsitesKnown_false _ M F) Hloop).
      * apply (Hstep _ (evolves_setAllCallsitesKnown_false _ M F) Hloop).
      * apply (Hstep _ (evolves_setAllCallsitesKnown_false _ M F) Hloop).
Qed.

Lemma analyzeFunctionCallsites_registers fuel j M M' :
  typedAs M0 M -> callsClosureOf M call create F ->
  In call (getUsers M create) ->
  functionUsers (getFunction M F) !! j = Some create ->
  analyzeFunctionCallsites isConstructionSetup isStoreOnceVariable fuel F M
  = Some M' ->
  hasTarget M' call = true.
Proof.
  intros Ht Hcc Hin Hj. unfold analyzeFunctionCallsites.
  destruct (before_the_loop F M) as (Hsame & _ & _).
  set (M1 := setAllCallsitesKnown true F M) in *.
  set (M2 := if isGlobalScope (getFunction M1 F)
             then setAllCallsitesKnown false F M1 else M1) in *.
  destruct (usersLoop isConstructionSetup isStoreOnceVariable fuel F 0 M2)
    as [M3|] eqn:Hloop; [|discriminate].
  assert (Hh3 : hasTarget M3 call = true).
  { apply (usersLoop_registers fuel 0 M2 M3 j); [| exact Hloop | lia | | |].
    - apply (sameButAttributes_typedAs M0 M M2 Hsame Ht).
    - destruct Hsame as (_ & _ & _ & Hf). destruct (Hf F) as (_ & -> & _).
      exact Hj.
    - apply (callsClosureOf_attributes M M2 _ _ _ Hsame Hcc).
    - rewrite (sameButAttributes_getUsers M M2 create Hsame). exact Hin. }
  intros [= <-].
  destruct (_allCallsitesKnownInStrictMode (getAttributes M3 F)); [|exact Hh3].
  rewrite (sameButAttributes_hasTarget M3 _ call
             (sameButAttributes_setUnreachable _ F M3)).
  exact Hh3.
Qed.

Lemma runFrom_registers fuel j count :
  forall F0 M M',
  typedAs M0 M -> callsClosureOf M call create F ->
  In call (getUsers M create) ->
  functionUsers (getFunction M F) !! j = Some create ->
  F0 <= F < F0 + count ->
  runFrom isConstructionSetup isStoreOnceVariable fuel count F0 M = Some M' ->
  hasTarget M' call = true.
Proof.
  induction count as [|count IH]; intros F0 M M' Ht Hcc Hin Hj HF Hrun; [lia|].
  cbn [runFrom] in Hrun.
  destruct (analyzeFunctionCallsites isConstructionSetup isStoreOnceVariable
              fuel F0 M) as [M1|] eqn:E1; [|discriminate].
  destruct (analyzeFunctionCallsites_single isConstructionSetup
              isStoreOnceVariable M0 fuel F0 M M1 Ht E1)
    as (Ht1 & Hag1 & _ & Hother & _).
  destruct (Nat.eq_dec F F0) as [<-|Hne].
  - destruct (runFrom_single isConstructionSetup isStoreOnceVariable M0 fuel
                count (S F) M1 M' Ht1 Hrun) as (_ & _ & Hmono & _).
    apply Hmono.
    apply (analyzeFunctionCallsites_registers fuel j M M1 Ht Hcc Hin Hj E1).
  - apply (IH (S F0) M1 M' Ht1); [| | | lia | exact Hrun].
    + apply (callsClosureOf_passed M M1);
        [apply (analyzeFunctionCallsites_passed isConstructionSetup
                  isStoreOnceVariable fuel F0 M M1 E1) | exact Hcc].
    + destruct Hcc as (_ & (s & Hs)).
      destruct Hag1 as (_ & _ & _ & Hus & _). rewrite <- (Hus create); [exact Hin|].
      unfold isClosure. rewrite Hs. reflexivity.
    + rewrite (Hother F Hne). exact Hj.
Qed.

End Bound.

(** X27.  The call graph is right for direct calls: when a call among the
    users of a [BaseCreateCallableInst] of [F] has that instruction as its
    callee, then after the pass has run over a well-typed module the call
    still has that callee, and its target is [F] if it had none, and the
    target it had otherwise. *)
Theorem direct_calls_are_bound (isConstructionSetup : nat -> nat -> bool)
    (isStoreOnceVariable : nat -> bool)
    (M : IRModule) (F create s call : nat) (c : BaseCall) :
  wellTyped M ->
  In create (functionUsers (getFunction M F)) ->
  kindOf M create = BaseCreateCallableInst s F ->
  In call (getUsers M create) ->
  kindOf M call = BaseCallInst c ->
  callee c = InstValue create ->
  (exists fuel M',
     runOnModule isConstructionSetup isStoreOnceVariable fuel M = Some M') /\
  (forall fuel M',
     runOnModule isConstructionSetup isStoreOnceVariable fuel M = Some M' ->
     exists c', kindOf M' call = BaseCallInst c' /\
                callee c' = InstValue create /\
                target c' = (if isEmptySentinel (target c) then FunctionValue F
                             else target c)).
Proof.
  intros Hwt Hcreate Hk Hin Hc Hcal.
  split; [apply runFrom_terminates|].
  intros fuel M' Hrun. unfold runOnModule in Hrun.
  assert (Hcc : callsClosureOf M call create F).
  { split; [exists c; auto | exists s; exact Hk]. }
  pose proof (runFrom_passed isConstructionSetup isStoreOnceVariable fuel
                (length (functions M)) 0 M M' Hrun) as Hpassed.
  pose proof (callsClosureOf_passed M M' call create F Hpassed Hcc)
    as ((c' & Hc' & Hcal') & _).
  exists c'. split; [exact Hc'|]. split; [exact Hcal'|].
  destruct (isEmptySentinel (target c)) eqn:Hempty.
  - (* the target was empty *)
    assert (Hb : boundTo M call F).
    { left. unfold targetOf. rewrite Hc. destruct (target c); try discriminate.
      reflexivity. }
    pose proof (runFrom_bound isConstructionSetup isStoreOnceVariable M call
                  create F fuel (length (functions M)) 0 M M' Hwt Hcc Hb Hrun)
      as Hb'.
    assert (Hh : hasTarget M' call = true).
    { assert (Hvalid : F < length (functions M)).
      { destruct (Nat.lt_ge_cases F (length (functions M))) as [|Hge];
          [assumption|].
        rewrite getFunction_default in Hcreate by exact Hge.
        destruct Hcreate. }
      apply list_elem_of_In, list_elem_of_lookup in Hcreate as [j Hj].
      apply (runFrom_registers isConstructionSetup isStoreOnceVariable M call
               create F fuel j (length (functions M)) 0 M M' Hwt Hcc Hin Hj);
        [lia | exact Hrun]. }
    unfold boundTo, targetOf in Hb'. rewrite Hc' in Hb'.
    unfold hasTarget in Hh. rewrite Hc' in Hh.
    destruct Hb' as [Hb'|Hb']; injection Hb' as Hb';
      [rewrite Hb' in Hh; discriminate | exact Hb'].
  - (* the target was set *)
    destruct (passed_operands M M' Hpassed call c Hc)
      as (c2 & Hc2 & _ & Ht2 & _).
    assert (c2 = c') by congruence. subst c2. apply Ht2.
    destruct Hwt as (_ & _ & Htt & _).
    destruct (Htt call c Hc) as [E|(g & E)];
      [rewrite E in Hempty; discriminate|].
    split; [rewrite E; discriminate|].
    intros a Ha. rewrite E in Ha. discriminate.
Qed.

(** [%2 = Call %1] on the closure [%1] of [F1], without a target. *)
Lemma direct_calls_are_bound_witness :
  (exists fuel M',
     runOnModule (fun _ _ => false) (fun _ => true) fuel bindModule = Some M') /\
  (forall fuel M',
     runOnModule (fun _ _ => false) (fun _ => true) fuel bindModule = Some M' ->
     exists c', kindOf M' 2 = BaseCallInst c' /\
                callee c' = InstValue 1 /\
                target c' = FunctionValue 1).
Proof.
  apply (direct_calls_are_bound (fun _ _ => false) (fun _ => true) bindModule
           1 1 0 2
           {| callee := InstValue 1; target := EmptySentinel;
              environment := EmptySentinel; newTarget := OtherValue 0;
              arguments := [] |}).
  - split.
    { intros i. do 4 (destruct i as [|i]; [vm_compute; auto|]).
      vm_compute; auto. }
    split; [reflexivity|]. split.
    { intros i c.
      do 4 (destruct i as [|i];
            [vm_compute; intros H; try discriminate H; injection H as <-;
             auto|]).
      vm_compute. discriminate. }
    intros F u s f.
    do 2 (destruct F as [|F]; [vm_compute; intros Hin; try contradiction|]).
    + destruct Hin as [<-|[]]. vm_compute. intros [= _ <-]. reflexivity.
    + unfold getFunction. simpl. destruct F; intros [].
  - vm_compute. left. reflexivity.
  - reflexivity.
  - vm_compute. left. reflexivity.
  - reflexivity.
  - reflexivity.
Defined.

(** *** What a step of the pass does to the kind of an instruction *)

Lemma kindOf_alterInst_keeps (P : InstKind -> Prop)
    (f : Instruction -> Instruction) (j : nat) (M : IRModule) (i : nat) :
  P (kindOf M i) -> (P (kindOf M i) -> P (kind (f (getInst M i)))) ->
  P (kindOf (alterInst f j M) i).
Proof.
  intros H Hf. unfold kindOf. rewrite getInst_alterInst.
  destruct (decide (j = i /\ i < length (instructions M))); auto.
Qed.

Lemma kindOf_alterInst_other (f : Instruction -> Instruction) (j : nat)
    (M : IRModule) (i : nat) :
  i <> j -> kindOf (alterInst f j M) i = kindOf M i.
Proof.
  intros Hne. unfold kindOf. rewrite getInst_alterInst.
  destruct (decide (j = i /\ i < length (instructions M))) as [[E _]|_];
    [congruence | reflexivity].
Qed.

Lemma kindOf_alterInst_users (f : Instruction -> Instruction) (j : nat)
    (M : IRModule) (i : nat) :
  (forall x, kind (f x) = kind x) -> kindOf (alterInst f j M) i = kindOf M i.
Proof.
  intros Hf. unfold kindOf. rewrite getInst_alterInst.
  destruct (decide (j = i /\ i < length (instructions M))); auto.
Qed.

Lemma kindOf_alterFunction (g : Function -> Function) (F : nat) (M : IRModule)
    (i : nat) :
  kindOf (alterFunction g F M) i = kindOf M i.
Proof. unfold kindOf. rewrite getInst_alterFunction. reflexivity. Qed.

Lemma kindOf_setTarget_other call F M i :
  i <> call -> kindOf (setTarget call F M) i = kindOf M i.
Proof.
  intros Hne. unfold setTarget. rewrite kindOf_alterFunction.
  apply kindOf_alterInst_other. exact Hne.
Qed.

Lemma kindOf_setEnvironment_other call s M i :
  i <> call -> kindOf (setEnvironment call s M) i = kindOf M i.
Proof.
  intros Hne. unfold setEnvironment.
  rewrite kindOf_alterInst_users by reflexivity.
  apply kindOf_alterInst_other. exact Hne.
Qed.

Lemma kindOf_registerCallsite_other call callee scope M i :
  i <> call -> kindOf (registerCallsite call callee scope M) i = kindOf M i.
Proof.
  intros Hne. unfold registerCallsite.
  set (M1 := match callOperands M call with
             | Some c => if isEmptySentinel (target c)
                         then setTarget call (getFunctionCode M callee) M else M
             | None => M
             end).
  assert (H1 : kindOf M1 i = kindOf M i).
  { unfold M1. destruct (callOperands M call) as [c|]; [|reflexivity].
    destruct (isEmptySentinel (target c)); [|reflexivity].
    apply kindOf_setTarget_other. exact Hne. }
  destruct scope as [s|]; [|exact H1].
  destruct (callOperands M1 call) as [c|]; [|exact H1].
  destruct (isEmptySentinel (environment c) && _); [|exact H1].
  rewrite kindOf_setEnvironment_other by exact Hne. exact H1.
Qed.

Lemma kindOf_setAllCallsitesKnown b F M i :
  kindOf (setAllCallsitesKnown b F M) i = kindOf M i.
Proof. apply kindOf_alterFunction. Qed.

Lemma substUsers_keeps (P : InstKind -> Prop) old new (us : list nat) :
  (forall k, P k -> P (substKind old new k)) ->
  forall M i,
  P (kindOf M i) ->
  P (kindOf
       (List.fold_left
          (fun m u =>
             alterInst (fun x => withKind (substKind old new (kind x)) x) u m)
          us M) i).
Proof.
  intros HP. induction us as [|u us IH]; intros M i H; simpl; [exact H|].
  apply IH. apply kindOf_alterInst_keeps; [exact H|].
  intros _. simpl. apply HP. exact H.
Qed.

Lemma replaceAllUsesWith_keeps (P : InstKind -> Prop) old new M i :
  (forall k, P k -> P (substKind old new k)) ->
  P (kindOf M i) -> P (kindOf (replaceAllUsesWith old new M) i).
Proof.
  intros HP H. unfold replaceAllUsesWith.
  destruct (bool_decide (old = new)); [exact H|].
  rewrite kindOf_alterInst_users by reflexivity.
  rewrite kindOf_alterInst_users by reflexivity.
  apply substUsers_keeps; assumption.
Qed.

(** A property of the kind of [i] that the replacement of a
    [GetClosureScopeInst] keeps is kept by the visit of every user, the visit
    of [i] as a call apart. *)
Lemma visitUser_keeps (P : InstKind -> Prop)
    (isConstructionSetup : nat -> nat -> bool)
    (isStoreOnceVariable : nat -> bool)
    F create closureInst knownScope M wl u M1 wl1 i :
  (i = u -> isCall M u = false) ->
  (forall k s, isGetClosureScope M u = true -> P k -> P (substKind u s k)) ->
  visitUser isConstructionSetup isStoreOnceVariable F create closureInst
    knownScope (M, wl) u = (M1, wl1) ->
  P (kindOf M i) -> P (kindOf M1 i).
Proof.
  intros Hself HP. unfold visitUser, isCall, isGetClosureScope in *.
  destruct (kindOf M u) as [c|s f|c|o|c b|s v x|s x|ops] eqn:E.
  - intros [= <- _] H.
    assert (Hne : i <> u) by (intros ->; specialize (Hself eq_refl); discriminate).
    set (M' := if canEscapeThroughCall M closureInst F c
               then setAllCallsitesKnown false F M else M).
    assert (H' : kindOf M' i = kindOf M i).
    { unfold M'. destruct (canEscapeThroughCall M closureInst F c);
        [apply kindOf_setAllCallsitesKnown | reflexivity]. }
    destruct (bool_decide (callee c = InstValue closureInst));
      rewrite ?kindOf_registerCallsite_other by exact Hne; rewrite H'; exact H.
  - destruct (isConstructionSetup u closureInst); intros [= <- _] H;
      rewrite ?kindOf_setAllCallsitesKnown; exact H.
  - destruct (isConstructionSetup u closureInst); intros [= <- _] H;
      [exact H|].
    destruct knownScope as [s|]; [|exact H].
    apply replaceAllUsesWith_keeps; [|exact H].
    intros k. apply HP. reflexivity.
  - destruct (isConstructionSetup u closureInst); intros [= <- _] H; exact H.
  - destruct (isConstructionSetup u closureInst);
      [intros [= <- _] H; exact H|].
    destruct b; intros [= <- _] H;
      rewrite ?kindOf_setAllCallsitesKnown; exact H.
  - destruct (isConstructionSetup u closureInst);
      [intros [= <- _] H; exact H|].
    destruct (negb (isStoreOnceVariable x)); intros [= <- _] H;
      rewrite ?kindOf_setAllCallsitesKnown; exact H.
  - destruct (isConstructionSetup u closureInst); intros [= <- _] H;
      rewrite ?kindOf_setAllCallsitesKnown; exact H.
  - destruct (isConstructionSetup u closureInst); intros [= <- _] H;
      rewrite ?kindOf_setAllCallsitesKnown; exact H.
Qed.

Lemma kindScope_substKind old new k :
  kindScope k <> Some old -> kindScope (substKind old new k) = kindScope k.
Proof.
  destruct k; simpl; try reflexivity; intros H; unfold substScope;
    (destruct (bool_decide_reflect (scope = old)) as [->|_];
     [contradiction H; reflexivity | reflexivity]).
Qed.

Lemma substValue_other old new v :
  v <> InstValue old -> substValue old new v = v.
Proof.
  intros H. unfold substValue. rewrite bool_decide_false by exact H.
  reflexivity.
Qed.

(** *** What the visit of a user pushes *)

Section FlowSteps.
Variable isConstructionSetup : nat -> nat -> bool.
Variable isStoreOnceVariable : nat -> bool.
Local Abbreviation visitUser :=
  (visitUser isConstructionSetup isStoreOnceVariable).
Local Abbreviation follows := (follows isConstructionSetup isStoreOnceVariable).
Local Abbreviation reaches := (reaches isConstructionSetup isStoreOnceVariable).

Lemma pushLoads_app M b us :
  forall acc wl, pushLoads M b (acc ++ wl) us = pushLoads M b acc us ++ wl.
Proof.
  unfold pushLoads. induction us as [|v us IH]; intros acc wl; simpl;
    [reflexivity|].
  destruct (kindOf M v); try apply IH.
  rewrite app_comm_cons. apply IH.
Qed.

Lemma visitUser_worklist F create closureInst knownScope M wl u M1 wl1 :
  visitUser F create closureInst knownScope (M, wl) u = (M1, wl1) ->
  wl1 = follows M closureInst knownScope u ++ wl.
Proof.
  unfold FunctionAnalysis.visitUser, FunctionAnalysis.follows.
  destruct (kindOf M u) as [c|s f|c|o|c b|s v x|s x|ops] eqn:E.
  - intros [= _ <-]. reflexivity.
  - destruct (isConstructionSetup u closureInst); intros [= _ <-]; reflexivity.
  - destruct (isConstructionSetup u closureInst); intros [= _ <-]; reflexivity.
  - destruct (isConstructionSetup u closureInst); intros [= _ <-]; reflexivity.
  - destruct (isConstructionSetup u closureInst);
      [intros [= _ <-]; reflexivity|].
    destruct b; intros [= _ <-]; reflexivity.
  - destruct (isConstructionSetup u closureInst);
      [intros [= _ <-]; reflexivity|].
    destruct (negb (isStoreOnceVariable x)); intros [= _ <-]; [reflexivity|].
    apply (pushLoads_app M _ _ [] wl).
  - destruct (isConstructionSetup u closureInst); intros [= _ <-]; reflexivity.
  - destruct (isConstructionSetup u closureInst); intros [= _ <-]; reflexivity.
Qed.

Lemma pushLoads_In M b us :
  forall acc v sc,
  In (v, sc) (pushLoads M b acc us) ->
  In (v, sc) acc \/
  exists s x, kindOf M v = LoadFrameInst s x /\ In v us /\
              sc = (if b then Some s else None).
Proof.
  unfold pushLoads. induction us as [|w us IH]; intros acc v sc H; simpl in H;
    [left; exact H|].
  destruct (kindOf M w) as [| | | | | |s x|] eqn:E;
    try (destruct (IH _ _ _ H) as [Ha|(s0 & x0 & A & B & C)];
         [left; exact Ha | right; exists s0, x0; simpl; auto]).
  destruct (IH _ _ _ H) as [[Ha|Ha]|(s0 & x0 & A & B & C)].
  - injection Ha as <- <-. right. exists s, x. simpl. auto.
  - left. exact Ha.
  - right. exists s0, x0. simpl. auto.
Qed.

(** An element that is pushed is a cast or a load, with the scope of the
    element it comes from, the scope of the load, or none. *)
Lemma follows_In M closureInst knownScope u next scope :
  In (next, scope) (follows M closureInst knownScope u) ->
  isClosure M next = true /\
  classOf (kindOf M next) <> CreateCallableClass /\
  (scope = knownScope \/ scope = None \/
   exists s x, kindOf M next = LoadFrameInst s x /\ scope = Some s).
Proof.
  unfold FunctionAnalysis.follows, isClosure.
  destruct (kindOf M u) as [c|s f|c|o|c b|s v x|s x|ops] eqn:E;
    try (intros H; contradiction H);
    destruct (isConstructionSetup u closureInst);
    try (intros H; contradiction H).
  - intros [[= <- <-]|[]]. rewrite E. simpl. split; [reflexivity|].
    split; [discriminate | left; reflexivity].
  - destruct b; [|intros []].
    intros [[= <- <-]|[]]. rewrite E. simpl. split; [reflexivity|].
    split; [discriminate | left; reflexivity].
  - destruct (negb (isStoreOnceVariable x)); [intros []|].
    intros H. apply pushLoads_In in H as [[]|(s0 & x0 & A & _ & C)].
    rewrite A. simpl. split; [reflexivity|]. split; [discriminate|].
    destruct (bool_decide (Some s = knownScope)); subst scope;
      [right; right; exists s0, x0; auto | right; left; reflexivity].
Qed.

End FlowSteps.

Lemma agree_class Ma Mb i :
  agree Ma Mb -> classOf (kindOf Ma i) = classOf (kindOf Mb i).
Proof.
  intros (_ & _ & Hk & _). specialize (Hk i).
  destruct (kindOf Ma i), (kindOf Mb i); simpl in Hk; try discriminate;
    reflexivity.
Qed.

Lemma agree_isGetClosureScope Ma Mb i :
  agree Ma Mb -> isGetClosureScope Ma i = isGetClosureScope Mb i.
Proof.
  intros H. pose proof (agree_class Ma Mb i H) as Hc.
  unfold isGetClosureScope.
  destruct (kindOf Ma i), (kindOf Mb i); simpl in Hc; try discriminate;
    reflexivity.
Qed.

Lemma agree_functionUsers Ma Mb G u :
  agree Ma Mb -> isCall Ma u = false ->
  In u (functionUsers (getFunction Ma G)) ->
  In u (functionUsers (getFunction Mb G)).
Proof.
  intros Hag Hu Hin. pose proof Hag as (_ & _ & _ & _ & Hf).
  destruct (Hf G) as (_ & _ & E).
  assert (H : In u (nonCallUsers Ma (functionUsers (getFunction Ma G)))).
  { unfold nonCallUsers. apply List.filter_In. split; [exact Hin|].
    rewrite Hu. reflexivity. }
  rewrite E in H. unfold nonCallUsers in H. apply List.filter_In in H.
  apply H.
Qed.

Lemma agree_functionUsers_back Ma Mb G u :
  agree Ma Mb -> isCall Mb u = false ->
  In u (functionUsers (getFunction Mb G)) ->
  In u (functionUsers (getFunction Ma G)).
Proof.
  intros Hag Hu Hin. pose proof Hag as (_ & _ & _ & _ & Hf).
  destruct (Hf G) as (_ & _ & E).
  assert (H : In u (nonCallUsers Mb (functionUsers (getFunction Mb G)))).
  { unfold nonCallUsers. apply List.filter_In. split; [exact Hin|].
    rewrite Hu. reflexivity. }
  rewrite <- E in H. unfold nonCallUsers in H. apply List.filter_In in H.
  apply H.
Qed.

Section FlowAgree.
Variable isConstructionSetup : nat -> nat -> bool.
Variable isStoreOnceVariable : nat -> bool.
Local Abbreviation follows := (follows isConstructionSetup isStoreOnceVariable).
Local Abbreviation reaches := (reaches isConstructionSetup isStoreOnceVariable).

Lemma pushLoads_similar (strict : Prop) Ma Mb ba bb us :
  (forall v, flowKind Ma (kindOf Ma v) = flowKind Mb (kindOf Mb v)) ->
  (strict -> forall v, kindScope (kindOf Ma v) = kindScope (kindOf Mb v)) ->
  (strict -> ba = bb) ->
  forall acca accb,
  Forall2 (similar strict) acca accb ->
  Forall2 (similar strict) (pushLoads Ma ba acca us) (pushLoads Mb bb accb us).
Proof.
  intros Hk Hs Hb. unfold pushLoads.
  induction us as [|v us IH]; intros acca accb Hacc; simpl; [exact Hacc|].
  pose proof (Hk v) as Hv.
  assert (Hsv : strict -> kindScope (kindOf Ma v) = kindScope (kindOf Mb v))
    by (intros H; apply Hs; exact H).
  destruct (kindOf Ma v), (kindOf Mb v); simpl in Hv; try discriminate;
    apply IH; try exact Hacc.
  constructor; [|exact Hacc]. split; [reflexivity|].
  intros H. simpl in Hsv. specialize (Hsv H). injection Hsv as ->.
  rewrite (Hb H). reflexivity.
Qed.

(** Two states of a run push the same elements. *)
Lemma follows_similar (strict : Prop) Ma Mb closureInst ksa ksb u :
  (forall v, flowKind Ma (kindOf Ma v) = flowKind Mb (kindOf Mb v)) ->
  variables Ma = variables Mb ->
  (strict -> forall v, kindScope (kindOf Ma v) = kindScope (kindOf Mb v)) ->
  (strict -> ksa = ksb) ->
  Forall2 (similar strict) (follows Ma closureInst ksa u)
    (follows Mb closureInst ksb u).
Proof.
  intros Hk Hv Hs Hks. unfold FunctionAnalysis.follows.
  pose proof (Hk u) as Hu.
  assert (Hsu : strict -> kindScope (kindOf Ma u) = kindScope (kindOf Mb u))
    by (intros H; apply Hs; exact H).
  assert (Hone : Forall2 (similar strict) [(u, ksa)] [(u, ksb)]).
  { constructor; [|constructor]. split; [reflexivity|].
    intros H. rewrite (Hks H). reflexivity. }
  destruct (kindOf Ma u), (kindOf Mb u); simpl in Hu; try discriminate;
    try (constructor; fail);
    destruct (isConstructionSetup u closureInst); try (constructor; fail).
  - exact Hone.
  - injection Hu as ->. destruct canBeObject0; [exact Hone | constructor].
  - injection Hu as ->.
    destruct (negb (isStoreOnceVariable variable0)); [constructor|].
    unfold getVariableUsers. rewrite Hv.
    apply pushLoads_similar; try assumption; [|constructor].
    intros H. simpl in Hsu. specialize (Hsu H). injection Hsu as ->.
    rewrite (Hks H). reflexivity.
Qed.

Lemma similar_partner (strict : Prop) la lb :
  Forall2 (similar strict) la lb ->
  Forall (fun a => exists b, In b lb /\ similar strict a b) la.
Proof.
  induction 1 as [|a b la lb Hab _ IH]; constructor.
  - exists b. split; [left; reflexivity | exact Hab].
  - eapply Forall_impl; [exact IH|]. intros x (y & Hy & Hxy).
    exists y. split; [right; exact Hy | exact Hxy].
Qed.

Lemma similar_fst (strict : Prop) la lb :
  Forall2 (similar strict) la lb -> List.map fst la = List.map fst lb.
Proof.
  induction 1 as [|a b la lb [E _] _ IH]; simpl; [reflexivity|].
  rewrite E, IH. reflexivity.
Qed.

(** The closures that are pushed do not depend on the scope. *)
Lemma follows_fst M closureInst ks ks' u :
  List.map fst (follows M closureInst ks u)
  = List.map fst (follows M closureInst ks' u).
Proof.
  apply (similar_fst False). apply follows_similar; try reflexivity;
    intros [].
Qed.

Lemma reaches_kind M create n sc :
  reaches M create n sc ->
  exists s f, kindOf M create = BaseCreateCallableInst s f.
Proof. induction 1 as [s f H|]; [exists s, f; exact H | assumption]. Qed.

Lemma reaches_isClosure M create n sc :
  reaches M create n sc -> isClosure M n = true.
Proof.
  induction 1 as [s f H|ci ks u next scope _ _ _ Hin].
  - unfold isClosure. rewrite H. reflexivity.
  - apply (follows_In isConstructionSetup isStoreOnceVariable M ci ks u next scope
             Hin).
Qed.

(** A scope that is known is the scope operand of an instruction. *)
Lemma reaches_scope M create n sc :
  reaches M create n sc ->
  forall s, sc = Some s -> exists i, kindScope (kindOf M i) = Some s.
Proof.
  induction 1 as [s0 f H|ci ks u next scope _ IH _ Hin]; intros s E.
  - injection E as ->. exists create. rewrite H. reflexivity.
  - destruct (follows_In isConstructionSetup isStoreOnceVariable M ci ks u next
                scope Hin) as (_ & _ & [->|[->|(s1 & x1 & Hk & ->)]]).
    + apply IH. exact E.
    + discriminate.
    + injection E as ->. exists next. rewrite Hk. reflexivity.
Qed.

(** A [BaseCreateCallableInst] is reached from itself only: on a well-typed
    module it holds the closures of its own function, with the scope it
    names. *)
Lemma singleOrigin_create M F create s :
  wellTyped M -> kindOf M create = BaseCreateCallableInst s F ->
  singleOrigin isConstructionSetup isStoreOnceVariable M create F (Some s).
Proof.
  intros (_ & _ & _ & Hus) Hk G create0 scope Hin Hreach.
  inversion Hreach as [s0 f0 Hk0 E1 E2|ci ks u next sc _ _ Hitem E1 E2].
  - subst create0. rewrite Hk in Hk0. injection Hk0 as <- <-.
    split; [|reflexivity]. symmetry. apply (Hus G create s F Hin Hk).
  - destruct (follows_In isConstructionSetup isStoreOnceVariable M ci ks u
                create scope Hitem) as (_ & Hclass & _).
    rewrite Hk in Hclass. contradiction Hclass. reflexivity.
Qed.

End FlowAgree.

(** *** Every reached call is registered *)

Section Registered.
Variable isConstructionSetup : nat -> nat -> bool.
Variable isStoreOnceVariable : nat -> bool.
Variable strict : Prop.
Variable M0 : IRModule.
Variables call ci F : nat.
Variable ks : option nat.
Hypothesis Hwt : wellTyped M0.
Hypothesis Hsettled : strict -> scopesSettled M0.
Hypothesis Hci : isClosure M0 ci = true.
Hypothesis Hcall : In call (getUsers M0 ci).
Hypothesis Horigin :
  singleOrigin isConstructionSetup isStoreOnceVariable M0 ci F ks.
Hypothesis Hks :
  strict -> forall s, ks = Some s -> isGetClosureScope M0 s = false.

Local Abbreviation visitUser :=
  (visitUser isConstructionSetup isStoreOnceVariable).
Local Abbreviation follows := (follows isConstructionSetup isStoreOnceVariable).
Local Abbreviation reaches := (reaches isConstructionSetup isStoreOnceVariable).
Local Abbreviation onTrack :=
  (onTrack isConstructionSetup isStoreOnceVariable strict M0).
Local Abbreviation steady := (steady strict M0).
Local Abbreviation env := (boundEnvironment M0 F ks).
Local Abbreviation pending M := (pendingCall strict ci F env (kindOf M call)).
Local Abbreviation registered M := (registeredCall strict F env (kindOf M call)).

Lemma steady_refl : steady M0.
Proof.
  split; [exact Hwt|]. split; [apply agree_refl|]. split; [reflexivity|].
  reflexivity.
Qed.

Lemma steady_attributes M M1 :
  steady M -> sameButAttributes M M1 -> steady M1.
Proof.
  intros (Ht & Hag & Hp & Hs) Hsame.
  split; [apply (sameButAttributes_typedAs M0 M M1 Hsame Ht)|].
  split; [apply (agree_trans M0 M M1 Hag);
          apply sameButAttributes_agree; exact Hsame|].
  split.
  - intros G. destruct Hsame as (_ & _ & _ & Hf).
    destruct (Hf G) as (_ & _ & _ & ->). apply Hp.
  - intros H i. rewrite (sameButAttributes_kindOf M M1 i Hsame). apply Hs.
    exact H.
Qed.

Lemma steady_settled M :
  steady M -> strict ->
  forall i s, kindScope (kindOf M i) = Some s -> isGetClosureScope M s = false.
Proof.
  intros (_ & Hag & _ & Hs) H i s E.
  rewrite <- (agree_isGetClosureScope M0 M s Hag).
  apply (Hsettled H i). rewrite <- (Hs H i). exact E.
Qed.

Lemma steady_closure M u :
  steady M -> isGetClosureScope M u = true -> ci <> u.
Proof.
  intros (Ht & _) Hu ->. destruct Ht as (_ & Hcl & _).
  specialize (Hcl u). rewrite Hci in Hcl.
  unfold isClosure, isGetClosureScope in *.
  destruct (kindOf M u); discriminate.
Qed.

Lemma steady_env M u :
  steady M -> strict -> isGetClosureScope M u = true -> env <> InstValue u.
Proof.
  intros (_ & Hag & _) H Hu E. unfold boundEnvironment in E.
  destruct ks as [s|] eqn:Eks; [|discriminate].
  destruct (parentScopeParamHasUsers (getFunction M0 F)); [|discriminate].
  injection E as ->.
  rewrite <- (agree_isGetClosureScope M0 M u Hag) in Hu.
  rewrite (Hks H u eq_refl) in Hu. discriminate.
Qed.

Lemma pending_subst M u s k :
  steady M -> isGetClosureScope M u = true ->
  pendingCall strict ci F env k -> pendingCall strict ci F env (substKind u s k).
Proof.
  intros Hst Hu (c & -> & Hcal & Ht & He). simpl.
  exists (substCall u s c). split; [reflexivity|]. simpl.
  split.
  { rewrite Hcal. apply substValue_other. intros [= E].
    apply (steady_closure M u Hst Hu). exact E. }
  split.
  { destruct Ht as [->| ->]; [left | right]; reflexivity. }
  intros H. destruct (He H) as [->|E]; [left; reflexivity|].
  right. rewrite E. apply substValue_other.
  apply (steady_env M u Hst H Hu).
Qed.

Lemma registered_subst M u s k :
  steady M -> isGetClosureScope M u = true ->
  registeredCall strict F env k -> registeredCall strict F env (substKind u s k).
Proof.
  intros Hst Hu (c & -> & Ht & He). simpl.
  exists (substCall u s c). split; [reflexivity|]. simpl.
  split; [rewrite Ht; reflexivity|].
  intros H. rewrite (He H). apply substValue_other.
  apply (steady_env M u Hst H Hu).
Qed.

(** The visit of a user keeps the scope operands. *)
Lemma visitUser_scopes G create0 ci0 ks0 M wl u M1 wl1 :
  steady M -> strict -> evolves (nonClosure M0) M M1 ->
  visitUser G create0 ci0 ks0 (M, wl) u = (M1, wl1) ->
  forall i, kindScope (kindOf M1 i) = kindScope (kindOf M i).
Proof.
  intros Hst H Hev E i.
  destruct (isCall M u) eqn:Hc.
  - destruct (Nat.eq_dec i u) as [->|Hne].
    + pose proof (proj2 (proj2 (evolves_tags _ M M1 u Hev))) as Hc1.
      rewrite Hc in Hc1. unfold isCall in Hc, Hc1.
      destruct (kindOf M u), (kindOf M1 u); try discriminate. reflexivity.
    + apply (visitUser_keeps (fun k => kindScope k = kindScope (kindOf M i))
               isConstructionSetup isStoreOnceVariable G create0 ci0 ks0 M wl
               u M1 wl1 i); [intros ->; contradiction | | exact E | reflexivity].
      intros k s Hu Hk. rewrite kindScope_substKind; [exact Hk|].
      rewrite Hk. intros Es.
      rewrite (steady_settled M Hst H i u Es) in Hu. discriminate.
  - apply (visitUser_keeps (fun k => kindScope k = kindScope (kindOf M i))
             isConstructionSetup isStoreOnceVariable G create0 ci0 ks0 M wl
             u M1 wl1 i); [intros _; exact Hc | | exact E | reflexivity].
    intros k s Hu Hk. rewrite kindScope_substKind; [exact Hk|].
    rewrite Hk. intros Es.
    rewrite (steady_settled M Hst H i u Es) in Hu. discriminate.
Qed.

Lemma steady_evolves M M1 :
  steady M -> evolves (nonClosure M0) M M1 ->
  (strict -> forall i, kindScope (kindOf M1 i) = kindScope (kindOf M i)) ->
  steady M1.
Proof.
  intros (Ht & Hag & Hp & Hs) Hev Hsc.
  split; [apply (evolves_typedAs M0 M M1 Ht Hev)|].
  split; [apply (agree_trans M0 M M1 Hag);
          apply (evolves_agree M0 M M1 Ht Hev)|].
  split.
  - intros G. destruct Hev as (_ & _ & _ & _ & _ & Hf & _).
    destruct (Hf G) as (_ & _ & -> & _). apply Hp.
  - intros H i. rewrite (Hsc H i). apply Hs. exact H.
Qed.

Lemma visitUser_steady G create0 ci0 ks0 M wl u M1 wl1 :
  steady M -> scopeOk (nonClosure M0) ks0 -> worklistOk (nonClosure M0) wl ->
  visitUser G create0 ci0 ks0 (M, wl) u = (M1, wl1) ->
  steady M1 /\ worklistOk (nonClosure M0) wl1.
Proof.
  intros Hst Hks0 Hwl E.
  destruct (visitUser_evolves (nonClosure M0) isConstructionSetup
              isStoreOnceVariable G create0 ci0 ks0 M wl u M1 wl1
              (typedAs_scopesOk M0 M (proj1 Hst)) Hks0 Hwl E) as [Hev Hwl1].
  split; [|exact Hwl1].
  apply (steady_evolves M M1 Hst Hev). intros H.
  apply (visitUser_scopes G create0 ci0 ks0 M wl u M1 wl1 Hst H Hev E).
Qed.

(** The visit of a user and the call under observation. *)
Lemma visitUser_registers_call G create0 ci0 ks0 M wl u M1 wl1 :
  steady M -> pending M ->
  In create0 (functionUsers (getFunction M0 G)) ->
  onTrack create0 (ci0, ks0) ->
  visitUser G create0 ci0 ks0 (M, wl) u = (M1, wl1) ->
  pending M1 /\ (registered M -> registered M1) /\
  (u = call -> ci0 = ci -> registered M1).
Proof.
  intros Hst Hp Hcreate (sc0 & Hreach & Hsc) E. simpl in Hreach, Hsc.
  destruct (Nat.eq_dec u call) as [->|Hne].
  2:{ split; [|split]; [| |intros Eu; contradiction].
      - apply (visitUser_keeps (pendingCall strict ci F env) isConstructionSetup
                 isStoreOnceVariable G create0 ci0 ks0 M wl u M1 wl1 call);
          [intros Eu; congruence | | exact E | exact Hp].
        intros k s Hu. apply (pending_subst M u s k Hst Hu).
      - apply (visitUser_keeps (registeredCall strict F env) isConstructionSetup
                 isStoreOnceVariable G create0 ci0 ks0 M wl u M1 wl1 call);
          [intros Eu; congruence | | exact E].
        intros k s Hu. apply (registered_subst M u s k Hst Hu). }
  destruct Hp as (c & Hc & Hcal & Ht & He).
  destruct (Nat.eq_dec ci0 ci) as [->|Hci0].
  - (* the call is registered *)
    destruct (Horigin G create0 sc0 Hcreate Hreach) as [-> ->].
    assert (Hcode : getFunctionCode M create0 = F).
    { rewrite <- (agree_getFunctionCode M0 M create0 (proj1 (proj2 Hst))).
      destruct (reaches_kind _ _ M0 create0 ci ks Hreach) as (s0 & f0 & Hk0).
      unfold getFunctionCode. rewrite Hk0.
      destruct Hwt as (_ & _ & _ & Hu). apply (Hu F create0 s0 f0 Hcreate Hk0). }
    destruct (visitUser_call isConstructionSetup isStoreOnceVariable F create0
                ci ks0 M wl call c Hc Hcal Hcode)
      as (M2 & c' & E2 & Hk2 & Hcal2 & Ht2 & He2).
    rewrite E2 in E. injection E as <- _.
    assert (Ht' : target c' = FunctionValue F).
    { rewrite Ht2. destruct Ht as [-> | ->]; reflexivity. }
    assert (He' : strict -> environment c' = env).
    { intros H. rewrite He2. rewrite (Hsc H).
      destruct Hst as (_ & _ & Hpsp & _). rewrite Hpsp.
      unfold boundEnvironment.
      destruct (He H) as [->|Ee].
      - simpl. destruct ks; reflexivity.
      - rewrite Ee. unfold boundEnvironment.
        destruct ks as [s|]; [|reflexivity].
        destruct (parentScopeParamHasUsers (getFunction M0 F)); reflexivity. }
    assert (Hreg : registered M2) by (exists c'; auto).
    split; [|split]; [|intros _; exact Hreg | intros _ _; exact Hreg].
    exists c'. split; [exact Hk2|]. split; [congruence|].
    split; [right; exact Ht'|]. intros H. right. apply He'. exact H.
  - (* the call is a user of another closure *)
    assert (Hk1 : kindOf M1 call = kindOf M call).
    { unfold FunctionAnalysis.visitUser in E. rewrite Hc in E.
      rewrite bool_decide_false in E
        by (rewrite Hcal; intros [= E']; apply Hci0; symmetry; exact E').
      injection E as <- _.
      destruct (canEscapeThroughCall M ci0 G c);
        [apply kindOf_setAllCallsitesKnown | reflexivity]. }
    rewrite Hk1.
    split; [exists c; auto|]. split; [auto|]. intros _ Eci. contradiction.
Qed.

(** What the visit of a user pushes is what the flow of [M0] says. *)
Lemma visitUser_pushes G create0 ci0 ks0 M wl u M1 wl1 :
  steady M -> onTrack create0 (ci0, ks0) -> In u (getUsers M0 ci0) ->
  visitUser G create0 ci0 ks0 (M, wl) u = (M1, wl1) ->
  exists pushed,
    wl1 = pushed ++ wl /\ Forall (onTrack create0) pushed /\
    (forall sc item, In item (follows M0 ci0 sc u) ->
                     In (fst item) (List.map fst pushed)).
Proof.
  intros (_ & Hag & _ & Hs) (sc0 & Hreach & Hsc) Hu E. simpl in Hreach, Hsc.
  exists (follows M ci0 ks0 u).
  split; [apply (visitUser_worklist _ _ G create0 ci0 ks0 M wl u M1 wl1 E)|].
  pose proof Hag as (_ & Hv & Hk & _).
  assert (Hsim : Forall2 (similar strict) (follows M ci0 ks0 u)
                   (follows M0 ci0 sc0 u)).
  { apply follows_similar.
    - intros v. symmetry. apply Hk.
    - symmetry. exact Hv.
    - exact Hs.
    - exact Hsc. }
  split.
  - eapply Forall_impl; [apply (similar_partner strict _ _ Hsim)|].
    intros a (b & Hb & Hab & Hstrict). exists (snd b). split.
    + rewrite Hab. destruct b as [n sc]. simpl.
      apply (reaches_follows _ _ M0 create0 ci0 sc0 u n sc Hreach Hu Hb).
    + intros H. rewrite (Hstrict H). reflexivity.
  - intros sc item Hin.
    rewrite (similar_fst strict _ _ Hsim).
    rewrite (follows_fst _ _ M0 ci0 sc0 sc u).
    apply List.in_map. exact Hin.
Qed.

(** The loop over the users of a worklist element. *)
Lemma visitUsers_track G create0 ci0 ks0 us :
  In create0 (functionUsers (getFunction M0 G)) ->
  onTrack create0 (ci0, ks0) -> scopeOk (nonClosure M0) ks0 ->
  (forall u, In u us -> In u (getUsers M0 ci0)) ->
  forall M wl M' wl',
  steady M -> pending M -> worklistOk (nonClosure M0) wl ->
  List.fold_left (visitUser G create0 ci0 ks0) us (M, wl) = (M', wl') ->
  steady M' /\ pending M' /\ (registered M -> registered M') /\
  (In call us -> ci0 = ci -> registered M') /\
  worklistOk (nonClosure M0) wl' /\
  exists pushed,
    wl' = pushed ++ wl /\ Forall (onTrack create0) pushed /\
    (forall u sc item, In u us -> In item (follows M0 ci0 sc u) ->
                       In (fst item) (List.map fst pushed)).
Proof.
  intros Hcreate Htrack Hks0.
  induction us as [|u rest IH]; intros Hus M wl M' wl' Hst Hp Hwl Hfold.
  - injection Hfold as <- <-.
    split; [exact Hst|]. split; [exact Hp|]. split; [auto|].
    split; [intros []|]. split; [exact Hwl|].
    exists []. split; [reflexivity|]. split; [constructor|].
    intros u sc item [].
  - cbn [List.fold_left] in Hfold.
    destruct (visitUser G create0 ci0 ks0 (M, wl) u) as [M1 wl1] eqn:E1.
    destruct (visitUser_steady G create0 ci0 ks0 M wl u M1 wl1 Hst Hks0 Hwl E1)
      as [Hst1 Hwl1].
    destruct (visitUser_registers_call G create0 ci0 ks0 M wl u M1 wl1 Hst Hp
                Hcreate Htrack E1) as (Hp1 & Hkeep1 & Hhit1).
    destruct (visitUser_pushes G create0 ci0 ks0 M wl u M1 wl1 Hst Htrack
                (Hus u (or_introl eq_refl)) E1)
      as (pushed1 & Ewl1 & Hon1 & Hall1).
    destruct (IH (fun v Hv => Hus v (or_intror Hv)) M1 wl1 M' wl' Hst1 Hp1 Hwl1
                Hfold)
      as (Hst' & Hp' & Hkeep' & Hhit' & Hwl' & pushed2 & Ewl' & Hon2 & Hall2).
    split; [exact Hst'|]. split; [exact Hp'|]. split; [auto|].
    split.
    { intros [->|Hin] Eci; [apply Hkeep'; apply Hhit1; auto | auto]. }
    split; [exact Hwl'|].
    exists (pushed2 ++ pushed1).
    split; [rewrite Ewl', Ewl1; apply List.app_assoc|].
    split; [apply Forall_app; split; assumption|].
    intros v sc item [->|Hv] Hitem; rewrite List.map_app; apply List.in_or_app.
    + right. apply (Hall1 sc item Hitem).
    + left. apply (Hall2 v sc item Hv Hitem).
Qed.

(** The worklist loop: the closures it has expanded when it ends are closed
    under the flow of [M0]. *)
Lemma worklistLoop_track G create0 fuel :
  In create0 (functionUsers (getFunction M0 G)) ->
  forall M wl visited M',
  steady M -> pending M ->
  Forall (onTrack create0) wl -> worklistOk (nonClosure M0) wl ->
  (ci ∈ visited -> registered M) ->
  worklistLoop isConstructionSetup isStoreOnceVariable fuel G create0 M wl
    visited = Some M' ->
  steady M' /\ pending M' /\ (registered M -> registered M') /\
  exists V : nat -> Prop,
    (forall n, n ∈ visited -> V n) /\
    (forall item, In item wl -> V (fst item)) /\
    (forall n, V n -> n ∉ visited ->
       forall u sc item, In u (getUsers M0 n) ->
                         In item (follows M0 n sc u) -> V (fst item)) /\
    (V ci -> registered M').
Proof.
  intros Hcreate.
  assert (Hdone : forall M (visited : list nat),
            steady M -> pending M -> (ci ∈ visited -> registered M) ->
            steady M /\ pending M /\ (registered M -> registered M) /\
            exists V : nat -> Prop,
              (forall n, n ∈ visited -> V n) /\
              (forall item : UserAndScope, In item [] -> V (fst item)) /\
              (forall n, V n -> n ∉ visited ->
                 forall u sc item, In u (getUsers M0 n) ->
                                   In item (follows M0 n sc u) ->
                                   V (fst item)) /\
              (V ci -> registered M)).
  { intros M visited Hst Hp Hvis.
    split; [exact Hst|]. split; [exact Hp|]. split; [auto|].
    exists (fun n => n ∈ visited).
    split; [auto|]. split; [intros item []|].
    split; [intros n Hn Hnot; contradiction | exact Hvis]. }
  induction fuel as [|fuel IH];
    intros M wl visited M' Hst Hp Hon Hwl Hvis Hloop.
  - destruct wl as [|[n kn] rest]; simpl in Hloop; [|discriminate].
    injection Hloop as <-. apply Hdone; assumption.
  - destruct wl as [|[n kn] rest]; cbn [worklistLoop] in Hloop.
    { injection Hloop as <-. apply Hdone; assumption. }
    apply Forall_cons in Hon as [Hn Hon].
    apply Forall_cons in Hwl as [Hkn Hwl]. simpl in Hkn.
    destruct (bool_decide_reflect (n ∈ visited)) as [Hin|Hnotin].
    + destruct (IH M rest visited M' Hst Hp Hon Hwl Hvis Hloop)
        as (Hst' & Hp' & Hkeep' & V & HV1 & HV2 & HV3 & HV4).
      split; [exact Hst'|]. split; [exact Hp'|]. split; [exact Hkeep'|].
      exists V. split; [exact HV1|]. split; [|split; assumption].
      intros item [<-|Hitem]; [apply HV1; exact Hin | apply HV2; exact Hitem].
    + destruct (List.fold_left _ _ _) as [Mx wlx] eqn:Ef.
      assert (Hcl : isClosure M0 n = true).
      { destruct Hn as (sc0 & Hreach & _).
        apply (reaches_isClosure _ _ M0 create0 n sc0 Hreach). }
      assert (Hus : getUsers M n = getUsers M0 n).
      { destruct Hst as (_ & (_ & _ & _ & Hu & _) & _). symmetry.
        apply Hu. exact Hcl. }
      rewrite Hus in Ef.
      destruct (visitUsers_track G create0 n kn (getUsers M0 n) Hcreate Hn Hkn
                  (fun u Hu => Hu) M rest Mx wlx Hst Hp Hwl Ef)
        as (Hstx & Hpx & Hkeepx & Hhitx & Hwlx & pushed & Ewlx & Honx & Hallx).
      assert (Honwlx : Forall (onTrack create0) wlx).
      { rewrite Ewlx. apply Forall_app. split; assumption. }
      assert (Hvisx : ci ∈ n :: visited -> registered Mx).
      { intros Hci'. apply elem_of_cons in Hci' as [Eci|Hci'].
        - apply Hhitx; [subst n; exact Hcall | symmetry; exact Eci].
        - apply Hkeepx. apply Hvis. exact Hci'. }
      destruct (IH Mx wlx (n :: visited) M' Hstx Hpx Honwlx Hwlx Hvisx Hloop)
        as (Hst' & Hp' & Hkeep' & V & HV1 & HV2 & HV3 & HV4).
      split; [exact Hst'|]. split; [exact Hp'|]. split; [auto|].
      exists V.
      split; [intros m Hm; apply HV1; apply elem_of_cons; right; exact Hm|].
      split.
      { intros item [<-|Hitem].
        - apply HV1. apply elem_of_cons. left. reflexivity.
        - apply HV2. rewrite Ewlx. apply List.in_or_app. right. exact Hitem. }
      split; [|exact HV4].
      intros m Hm Hnot u sc item Hu Hitem.
      destruct (Nat.eq_dec m n) as [->|Hne].
      * pose proof (Hallx u sc item Hu Hitem) as Hfst.
        apply List.in_map_iff in Hfst as (item' & Efst & Hitem').
        rewrite <- Efst. apply HV2. rewrite Ewlx. apply List.in_or_app.
        left. exact Hitem'.
      * apply (HV3 m Hm) with (u := u) (sc := sc); [|exact Hu | exact Hitem].
        intros Hin'. apply elem_of_cons in Hin' as [E|Hin'];
          [contradiction | contradiction].
Qed.

Lemma analyzeCreateCallable_track G fuel create0 M M' :
  steady M -> pending M ->
  In create0 (functionUsers (getFunction M G)) ->
  analyzeCreateCallable isConstructionSetup isStoreOnceVariable fuel create0 M
  = Some M' ->
  steady M' /\ pending M' /\ (registered M -> registered M') /\
  (forall sc, reaches M0 create0 ci sc -> registered M').
Proof.
  intros Hst Hp Hin. unfold analyzeCreateCallable.
  assert (Hnot : classOf (kindOf M create0) <> CreateCallableClass ->
                 forall sc, reaches M0 create0 ci sc -> registered M).
  { intros Hc sc Hreach. exfalso. apply Hc.
    destruct (reaches_kind _ _ M0 create0 ci sc Hreach) as (s0 & f0 & Hk0).
    rewrite <- (agree_class M0 M create0 (proj1 (proj2 Hst))), Hk0.
    reflexivity. }
  destruct (kindOf M create0) as [c|s f|c|o|c b|s v x|s x|ops] eqn:E;
    try (intros [= <-]; split; [exact Hst|]; split; [exact Hp|];
         split; [auto|]; apply Hnot; discriminate).
  clear Hnot. intros Hloop.
  pose proof Hst as (Ht & Hag & _ & Hs).
  assert (Ef : f = G).
  { destruct Ht as (_ & _ & _ & Hu). apply (Hu G create0 s f Hin E). }
  subst f.
  assert (Hin0 : In create0 (functionUsers (getFunction M0 G))).
  { apply (agree_functionUsers_back M0 M G create0 Hag); [|exact Hin].
    unfold isCall. rewrite E. reflexivity. }
  assert (Hk0 : exists s0, kindOf M0 create0 = BaseCreateCallableInst s0 G /\
                           (strict -> s = s0)).
  { pose proof Hag as (_ & _ & Hk & _). specialize (Hk create0).
    rewrite E in Hk.
    destruct (kindOf M0 create0) as [|s0 f0| | | | | |] eqn:E0; simpl in Hk;
      try discriminate.
    injection Hk as ->. exists s0. split; [reflexivity|].
    intros H. specialize (Hs H create0). rewrite E, E0 in Hs. simpl in Hs.
    congruence. }
  destruct Hk0 as (s0 & Hk0 & Hs0).
  assert (Hon : onTrack create0 (create0, Some s)).
  { exists (Some s0). split; [apply (reaches_create _ _ M0 create0 s0 G Hk0)|].
    simpl. intros H. rewrite (Hs0 H). reflexivity. }
  assert (Hok : scopeOk (nonClosure M0) (Some s)).
  { pose proof (typedAs_scopesOk M0 M Ht create0) as H. rewrite E in H.
    exact H. }
  destruct (worklistLoop_track G create0 fuel Hin0 M [(create0, Some s)] [] M'
              Hst Hp) as (Hst' & Hp' & Hkeep' & V & HV1 & HV2 & HV3 & HV4);
    [constructor; [exact Hon | constructor]
    | constructor; [exact Hok | constructor]
    | intros Hnil; apply elem_of_nil in Hnil; contradiction
    | exact Hloop |].
  split; [exact Hst'|]. split; [exact Hp'|]. split; [exact Hkeep'|].
  assert (Hall : forall n sc, reaches M0 create0 n sc -> V n).
  { intros n sc Hreach.
    induction Hreach as [s1 f1 H1|n kn u next scope _ IHr Hu Hitem].
    - apply (HV2 (create0, Some s)). left. reflexivity.
    - apply (HV3 n IHr (not_elem_of_nil n) u kn (next, scope) Hu Hitem). }
  intros sc Hreach. apply HV4. apply (Hall ci sc Hreach).
Qed.

Lemma pending_attributes M M1 :
  sameButAttributes M M1 ->
  (pending M -> pending M1) /\ (registered M -> registered M1).
Proof.
  intros Hsame. rewrite (sameButAttributes_kindOf M M1 call Hsame). auto.
Qed.

(** The loop over the users of a function. *)
Lemma usersLoop_track G fuel :
  forall i M M',
  steady M -> pending M ->
  usersLoop isConstructionSetup isStoreOnceVariable fuel G i M = Some M' ->
  steady M' /\ pending M' /\ (registered M -> registered M') /\
  (forall j create0 sc,
     i <= j -> functionUsers (getFunction M G) !! j = Some create0 ->
     reaches M0 create0 ci sc -> registered M').
Proof.
  induction fuel as [|fuel IH]; intros i M M' Hst Hp Hloop.
  - simpl in Hloop.
    destruct (functionUsers (getFunction M G) !! i) eqn:Ei; [discriminate|].
    injection Hloop as <-.
    split; [exact Hst|]. split; [exact Hp|]. split; [auto|].
    intros j create0 sc Hij Hj _.
    apply lookup_ge_None in Ei. apply lookup_lt_Some in Hj. lia.
  - cbn [usersLoop] in Hloop.
    destruct (functionUsers (getFunction M G) !! i) as [user|] eqn:Ei.
    2:{ injection Hloop as <-.
        split; [exact Hst|]. split; [exact Hp|]. split; [auto|].
        intros j create0 sc Hij Hj _.
        apply lookup_ge_None in Ei. apply lookup_lt_Some in Hj. lia. }
    assert (Hother :
      classOf (kindOf M user) <> CreateCallableClass ->
      forall M1, sameButAttributes M M1 ->
      usersLoop isConstructionSetup isStoreOnceVariable fuel G (S i) M1
      = Some M' ->
      steady M' /\ pending M' /\ (registered M -> registered M') /\
      (forall j create0 sc,
         i <= j -> functionUsers (getFunction M G) !! j = Some create0 ->
         reaches M0 create0 ci sc -> registered M')).
    { intros Hc M1 Hsame Hrest.
      destruct (pending_attributes M M1 Hsame) as [Hp1 Hr1].
      destruct (IH (S i) M1 M' (steady_attributes M M1 Hst Hsame) (Hp1 Hp)
                  Hrest) as (Hst' & Hp' & Hkeep' & Hhit').
      split; [exact Hst'|]. split; [exact Hp'|]. split; [auto|].
      intros j create0 sc Hij Hj Hreach.
      destruct (Nat.eq_dec i j) as [<-|Hne].
      - exfalso. apply Hc. assert (create0 = user) by congruence. subst user.
        destruct (reaches_kind _ _ M0 create0 ci sc Hreach) as (s0 & f0 & Hk0).
        rewrite <- (agree_class M0 M create0 (proj1 (proj2 Hst))), Hk0.
        reflexivity.
      - apply (Hhit' j create0 sc); [lia | | exact Hreach].
        destruct Hsame as (_ & _ & _ & Hf). destruct (Hf G) as (_ & -> & _).
        exact Hj. }
    assert (Hrefl : sameButAttributes M M).
    { split; [reflexivity|]. split; [reflexivity|]. split; [reflexivity|].
      intros G'. auto. }
    destruct (kindOf M user) as [c|s f|c|o|c b|s v x|s x|ops] eqn:Eu;
      try (apply (Hother ltac:(discriminate) _
                    (sameButAttributes_setAllCallsitesKnown false G M) Hloop)).
    + apply (Hother ltac:(discriminate) M Hrefl Hloop).
    + clear Hother.
      destruct (analyzeCreateCallable isConstructionSetup isStoreOnceVariable
                  fuel user M) as [M1|] eqn:Ea; [|discriminate].
      assert (Hin : In user (functionUsers (getFunction M G))).
      { apply list_elem_of_In. apply list_elem_of_lookup. exists i. exact Ei. }
      destruct (analyzeCreateCallable_track G fuel user M M1 Hst Hp Hin Ea)
        as (Hst1 & Hp1 & Hkeep1 & Hhit1).
      pose proof (analyzeCreateCallable_evolves (nonClosure M0)
                    isConstructionSetup isStoreOnceVariable fuel user M M1
                    (typedAs_scopesOk M0 M (proj1 Hst)) Ea) as Hev.
      destruct (IH (S i) M1 M' Hst1 Hp1 Hloop)
        as (Hst' & Hp' & Hkeep' & Hhit').
      split; [exact Hst'|]. split; [exact Hp'|]. split; [auto|].
      intros j create0 sc Hij Hj Hreach.
      destruct (Nat.eq_dec i j) as [<-|Hne].
      * assert (create0 = user) by congruence. subst user.
        apply Hkeep'. apply (Hhit1 sc Hreach).
      * apply (Hhit' j create0 sc); [lia | | exact Hreach].
        destruct Hev as (_ & _ & _ & _ & _ & Hfuns & _).
        destruct (Hfuns G) as (_ & _ & _ & _ & _ & extra & E & _).
        rewrite E. apply lookup_app_l_Some. exact Hj.
Qed.

Lemma analyzeFunctionCallsites_track G fuel M M' :
  steady M -> pending M ->
  analyzeFunctionCallsites isConstructionSetup isStoreOnceVariable fuel G M
  = Some M' ->
  steady M' /\ pending M' /\ (registered M -> registered M') /\
  (forall create0 sc,
     In create0 (functionUsers (getFunction M G)) ->
     reaches M0 create0 ci sc -> registered M').
Proof.
  intros Hst Hp. unfold analyzeFunctionCallsites.
  destruct (before_the_loop G M) as (Hsame & _ & _).
  set (M1 := setAllCallsitesKnown true G M) in *.
  set (M2 := if isGlobalScope (getFunction M1 G)
             then setAllCallsitesKnown false G M1 else M1) in *.
  destruct (usersLoop isConstructionSetup isStoreOnceVariable fuel G 0 M2)
    as [M3|] eqn:Hloop; [|discriminate].
  destruct (pending_attributes M M2 Hsame) as [Hp2 Hr2].
  destruct (usersLoop_track G fuel 0 M2 M3 (steady_attributes M M2 Hst Hsame)
              (Hp2 Hp) Hloop) as (Hst3 & Hp3 & Hkeep3 & Hhit3).
  assert (Hall : steady M3 /\ pending M3 /\ (registered M -> registered M3) /\
                 (forall create0 sc,
                    In create0 (functionUsers (getFunction M G)) ->
                    reaches M0 create0 ci sc -> registered M3)).
  { split; [exact Hst3|]. split; [exact Hp3|]. split; [auto|].
    intros create0 sc Hin Hreach.
    apply list_elem_of_In, list_elem_of_lookup in Hin as [j Hj].
    apply (Hhit3 j create0 sc); [lia | | exact Hreach].
    destruct Hsame as (_ & _ & _ & Hf). destruct (Hf G) as (_ & -> & _).
    exact Hj. }
  intros [= <-].
  destruct (_allCallsitesKnownInStrictMode (getAttributes M3 G)); [|exact Hall].
  destruct Hall as (Ha & Hb & Hc & Hd).
  set (M4 := setUnreachable _ G M3).
  assert (Hsame4 : sameButAttributes M3 M4)
    by apply sameButAttributes_setUnreachable.
  destruct (pending_attributes M3 M4 Hsame4) as [Hp4 Hr4].
  split; [apply (steady_attributes M3 M4 Ha Hsame4)|].
  split; [auto|]. split; [auto|]. intros create0 sc Hin Hreach.
  apply Hr4. apply (Hd create0 sc Hin Hreach).
Qed.

Lemma runFrom_track fuel count :
  forall G0 M M',
  steady M -> pending M ->
  runFrom isConstructionSetup isStoreOnceVariable fuel count G0 M = Some M' ->
  steady M' /\ pending M' /\ (registered M -> registered M') /\
  (forall G create0 sc,
     G0 <= G < G0 + count ->
     In create0 (functionUsers (getFunction M0 G)) ->
     reaches M0 create0 ci sc -> registered M').
Proof.
  induction count as [|count IH]; intros G0 M M' Hst Hp Hrun;
    cbn [runFrom] in Hrun.
  - injection Hrun as <-.
    split; [exact Hst|]. split; [exact Hp|]. split; [auto|].
    intros G create0 sc HG. lia.
  - destruct (analyzeFunctionCallsites isConstructionSetup isStoreOnceVariable
                fuel G0 M) as [M1|] eqn:E1; [|discriminate].
    destruct (analyzeFunctionCallsites_track G0 fuel M M1 Hst Hp E1)
      as (Hst1 & Hp1 & Hkeep1 & Hhit1).
    destruct (IH (S G0) M1 M' Hst1 Hp1 Hrun) as (Hst' & Hp' & Hkeep' & Hhit').
    split; [exact Hst'|]. split; [exact Hp'|]. split; [auto|].
    intros G create0 sc HG Hin Hreach.
    destruct (Nat.eq_dec G G0) as [->|Hne].
    + apply Hkeep'. apply (Hhit1 create0 sc); [|exact Hreach].
      apply (agree_functionUsers M0 M G0 create0 (proj1 (proj2 Hst)));
        [|exact Hin].
      destruct (reaches_kind _ _ M0 create0 ci sc Hreach) as (s0 & f0 & Hk0).
      unfold isCall. rewrite Hk0. reflexivity.
    + apply (Hhit' G create0 sc); [lia | exact Hin | exact Hreach].
Qed.

End Registered.



End FunctionAnalysisFacts.
